(** * upb wire-format encoder (upb/encode.c): a shallow embedding

    The encoder writes its output backwards into a growable buffer.  The
    development follows the C file top-down: bytes and machine integers, the
    reverse-growing buffer, the primitive emitters, the layout and message
    data model, the field emitters, and the top-level entry [upb_encode_ex].
    Theorems about the embedding follow the definitions. *)

From Stdlib Require Import ZArith List Lia Bool Permutation Sorted.
From Stdlib Require Import Strings.Byte.
Import ListNotations.
Local Open Scope Z_scope.
Set Warnings "-register-all".

(* ================================================================== *)
(** ** Bytes and fixed-width integers *)

Definition byte_of_Z (z : Z) : byte :=
  match Byte.of_N (Z.to_N (z mod 256)) with
  | Some b => b
  | None => x00
  end.

Definition Z_of_byte (b : byte) : Z := Z.of_N (Byte.to_N b).

(** Conversions of C: [(uint32_t)x], [(uint64_t)x] and the value of a
    two's-complement bit pattern read as [int32_t] / [int64_t]. *)
Definition u32 (z : Z) : Z := z mod 2 ^ 32.
Definition u64 (z : Z) : Z := z mod 2 ^ 64.
Definition s32 (z : Z) : Z := (z + 2 ^ 31) mod 2 ^ 32 - 2 ^ 31.
Definition s64 (z : Z) : Z := (z + 2 ^ 63) mod 2 ^ 64 - 2 ^ 63.

(** The [n] low-order bytes of [z], least significant first. *)
Fixpoint le_bytes (n : nat) (z : Z) : list byte :=
  match n with
  | O => []
  | S k => byte_of_Z z :: le_bytes k (z / 256)
  end.

(** The unsigned value of a byte string read least significant byte first. *)
Fixpoint le_value (bs : list byte) : Z :=
  match bs with
  | [] => 0
  | b :: tl => Z_of_byte b + 256 * le_value tl
  end.

(** Host byte order.  [big_endian = true] is a host on which [_upb_isle()]
    is false.  An object of [n] bytes holding the unsigned value [z] occupies
    [host_bytes n z] in memory, and memory [bs] is read back as
    [host_value bs]. *)
Definition host_bytes (big_endian : bool) (n : nat) (z : Z) : list byte :=
  if big_endian then rev (le_bytes n z) else le_bytes n z.

Definition host_value (big_endian : bool) (bs : list byte) : Z :=
  if big_endian then le_value (rev bs) else le_value bs.

(** Modelled from the spec: [_upb_be_swap32] and [_upb_be_swap64] are declared
    in upb/msg_internal.h, which is not among the sources; "byte-swap to
    little-endian on big-endian hosts", the identity on little-endian hosts. *)
Definition _upb_be_swap (big_endian : bool) (n : nat) (val : Z) : Z :=
  if big_endian then le_value (rev (le_bytes n val)) else val.

Definition _upb_be_swap32 (big_endian : bool) (val : Z) : Z :=
  _upb_be_swap big_endian 4 val.
Definition _upb_be_swap64 (big_endian : bool) (val : Z) : Z :=
  _upb_be_swap big_endian 8 val.

(** [encode_zz32], [encode_zz64]: [n] is the signed value; the result is the
    unsigned zig-zag code.  [n >> 31] is an arithmetic shift. *)
Definition encode_zz32 (n : Z) : Z :=
  Z.lxor (u32 (Z.shiftl (u32 n) 1)) (u32 (Z.shiftr n 31)).
Definition encode_zz64 (n : Z) : Z :=
  Z.lxor (u64 (Z.shiftl (u64 n) 1)) (u64 (Z.shiftr n 63)).

(* ================================================================== *)
(** ** Memory cells, allocator, context *)

(** A byte of storage: either written, or still indeterminate (fresh from
    [upb_malloc], or an uninitialised automatic array). *)
Inductive memval : Type :=
| Undef
| Byte (b : byte).

(** [memcpy(dst + off, src, length src)]. *)
Definition memcpy (dst : list memval) (off : Z) (src : list memval) : list memval :=
  firstn (Z.to_nat off) dst ++ src
    ++ skipn (Z.to_nat off + length src) dst.

(** [dst[off] = b]. *)
Definition store (dst : list memval) (off : Z) (b : byte) : list memval :=
  memcpy dst off [Byte b].

(** Modelled from the spec: the arena allocator (upb/upb.h) is an external
    collaborator and not among the sources.  Whether a request succeeds is
    decided by the allocator from the sizes requested so far, the newest
    first. *)
Record upb_alloc : Type := {
  alloc_func : list Z -> bool;
  alloc_log : list Z
}.

(** Modelled from the spec: [upb_malloc(alloc, size)] of upb/upb.h; "if
    allocation fails, signal out-of-memory".  [None] is the null pointer; on
    success the block is [size] indeterminate bytes and the allocator has
    moved on. *)
Definition upb_malloc (a : upb_alloc) (size : Z) : option upb_alloc :=
  if alloc_func a (size :: alloc_log a)
  then Some {| alloc_func := alloc_func a; alloc_log := size :: alloc_log a |}
  else None.

(** [upb_context].  The buffer is the block [buf]; pointers into it are
    offsets from its start, so [ctx.buf] is offset 0 and [ctx.limit] is its
    length.  Before the first allocation the block is empty (both null). *)
Record upb_context : Type := {
  alloc : upb_alloc;
  buf : list memval;
  options : Z;
  depth : Z
}.

Record upb_encstate : Type := {
  ptr : Z;
  ctx : upb_context
}.

Definition limit (c : upb_context) : Z := Z.of_nat (length (buf c)).

(** The two reasons for which the encoder calls [encode_err]. *)
Inductive upb_error : Type :=
| OutOfMemory
| MaxDepthExceeded.

(** Result of running an emitter.  [Longjmp] is [encode_err]; [Undefined] is
    a read the C program leaves undefined (a slot that does not hold an object
    of the type the layout announces, a dangling layout pointer);
    [OutOfFuel] is the recursion bound of the embedding. *)
Inductive outcome (A : Type) : Type :=
| Ok (a : A)
| Longjmp (err : upb_error)
| Undefined
| OutOfFuel.
Arguments Ok {A} a.
Arguments Longjmp {A} err.
Arguments Undefined {A}.
Arguments OutOfFuel {A}.

Definition bind {A B : Type} (o : outcome A) (f : A -> outcome B) : outcome B :=
  match o with
  | Ok a => f a
  | Longjmp err => Longjmp err
  | Undefined => Undefined
  | OutOfFuel => OutOfFuel
  end.

Notation "x <- c1 ;; c2" := (bind c1 (fun x => c2))
  (at level 61, c1 at next level, right associativity).
Notation "' pat <- c1 ;; c2" := (bind c1 (fun x => match x with pat => c2 end))
  (at level 61, pat pattern, c1 at next level, right associativity).

Definition of_option {A : Type} (o : option A) : outcome A :=
  match o with
  | Some a => Ok a
  | None => Undefined
  end.

Definition encode_err {A : Type} (err : upb_error) : outcome A := Longjmp err.

(* ================================================================== *)
(** ** Buffer manager *)

Definition UPB_PB_VARINT_MAX_LEN : nat := 10.

(** The loop of [upb_roundup_pow2]; [fuel] bounds the number of doublings. *)
Fixpoint roundup_loop (fuel : nat) (ret bytes : Z) : Z :=
  match fuel with
  | O => ret
  | S k => if ret <? bytes then roundup_loop k (ret * 2) bytes else ret
  end.

Definition upb_roundup_pow2 (bytes : Z) : Z :=
  roundup_loop (Z.to_nat (Z.log2_up bytes)) 128 bytes.

Definition set_ptr (e : upb_encstate) (p : Z) : upb_encstate :=
  {| ptr := p; ctx := ctx e |}.

Definition set_buf (e : upb_encstate) (b : list memval) : upb_encstate :=
  {| ptr := ptr e;
     ctx := {| alloc := alloc (ctx e); buf := b;
               options := options (ctx e); depth := depth (ctx e) |} |}.

Definition set_depth (e : upb_encstate) (d : Z) : upb_encstate :=
  {| ptr := ptr e;
     ctx := {| alloc := alloc (ctx e); buf := buf (ctx e);
               options := options (ctx e); depth := d |} |}.

Definition encode_growbuffer (e2 : upb_encstate) (bytes : Z) : outcome upb_encstate :=
  let e := ctx e2 in
  let cur_size := limit e - ptr e2 in
  let new_size := upb_roundup_pow2 (bytes + cur_size) in
  match upb_malloc (alloc e) new_size with
  | None => encode_err OutOfMemory
  | Some a' =>
      let new_buf := repeat Undef (Z.to_nat new_size) in
      let new_buf :=
        if 0 <? cur_size
        then memcpy new_buf (new_size - cur_size)
                    (firstn (Z.to_nat cur_size) (skipn (Z.to_nat (ptr e2)) (buf e)))
        else new_buf in
      Ok {| ptr := new_size - cur_size - bytes;
            ctx := {| alloc := a'; buf := new_buf;
                      options := options e; depth := depth e |} |}
  end.

Definition encode_reserve (e : upb_encstate) (bytes : Z) : outcome upb_encstate :=
  if ptr e - 0 <? bytes
  then encode_growbuffer e bytes
  else Ok (set_ptr e (ptr e - bytes)).

Definition encode_bytes (e : upb_encstate) (data : list memval) : outcome upb_encstate :=
  let len := Z.of_nat (length data) in
  if len =? 0 then Ok e
  else
    e <- encode_reserve e len ;;
    Ok (set_buf e (memcpy (buf (ctx e)) (ptr e) data)).

(* ================================================================== *)
(** ** Primitive emitters *)

(** [encode_varint64(val, buf)]: [buffer] is the array written through [buf],
    [pos] the index [buf] points at; the result is the array and the index
    returned.  [fuel] bounds the iterations of the loop. *)
Fixpoint encode_varint64 (fuel : nat) (val : Z) (buffer : list memval) (pos : Z)
  : list memval * Z :=
  match fuel with
  | O => (buffer, pos)
  | S k =>
      if 127 <? val
      then encode_varint64 k (Z.shiftr val 7)
             (store buffer pos (byte_of_Z (Z.lor val 128))) (pos + 1)
      else (store buffer pos (byte_of_Z val), pos + 1)
  end.

Definition encode_fixed64 (big_endian : bool) (e : upb_encstate) (val : Z)
  : outcome upb_encstate :=
  let val := _upb_be_swap64 big_endian val in
  encode_bytes e (map Byte (host_bytes big_endian 8 val)).

Definition encode_fixed32 (big_endian : bool) (e : upb_encstate) (val : Z)
  : outcome upb_encstate :=
  let val := _upb_be_swap32 big_endian val in
  encode_bytes e (map Byte (host_bytes big_endian 4 val)).

Definition encode_longvarint (e : upb_encstate) (val : Z) : outcome upb_encstate :=
  let buffer := repeat Undef 32 in
  let start := 16 in
  let '(buffer, end_) := encode_varint64 UPB_PB_VARINT_MAX_LEN val buffer start in
  e <- encode_reserve e 16 ;;
  let e := set_buf e (memcpy (buf (ctx e)) (ptr e)
                        (firstn 16 (skipn (Z.to_nat (end_ - 16)) buffer))) in
  Ok (set_ptr e (ptr e + 16 - (end_ - start))).

Definition encode_varint (e : upb_encstate) (val : Z) : outcome upb_encstate :=
  if (val <? 128) && negb (ptr e =? 0)
  then
    let e := set_ptr e (ptr e - 1) in
    Ok (set_buf e (store (buf (ctx e)) (ptr e) (byte_of_Z val)))
  else encode_longvarint e val.

(** Modelled from the spec: the wire types of upb/upb.h, which is not among
    the sources, with the numbers the wire format gives them (the spec's
    scenarios: tag 08 is field 1 VARINT, 0a is field 1 DELIMITED). *)
Definition UPB_WIRE_TYPE_VARINT : Z := 0.
Definition UPB_WIRE_TYPE_64BIT : Z := 1.
Definition UPB_WIRE_TYPE_DELIMITED : Z := 2.
Definition UPB_WIRE_TYPE_START_GROUP : Z := 3.
Definition UPB_WIRE_TYPE_END_GROUP : Z := 4.
Definition UPB_WIRE_TYPE_32BIT : Z := 5.

(** [(field_number << 3) | wire_type], computed in [uint32_t]. *)
Definition make_tag (field_number wire_type : Z) : Z :=
  Z.lor (u32 (Z.shiftl field_number 3)) wire_type.

Definition encode_tag (e : upb_encstate) (field_number wire_type : Z)
  : outcome upb_encstate :=
  encode_varint e (make_tag field_number wire_type).

(** [encode_double], [encode_float]: the value is carried as its bit pattern,
    which the two [memcpy] calls leave unchanged. *)
Definition encode_double (big_endian : bool) (e : upb_encstate) (d : Z)
  : outcome upb_encstate :=
  let u64 := d in
  encode_fixed64 big_endian e u64.

Definition encode_float (big_endian : bool) (e : upb_encstate) (d : Z)
  : outcome upb_encstate :=
  let u32 := d in
  encode_fixed32 big_endian e u32.

(* ================================================================== *)
(** ** Layouts (upb/msg_internal.h) *)

(** Modelled from the spec: the types of upb/upb.h and upb/msg_internal.h are
    not among the sources.  "One of the 18 proto descriptor types". *)
Inductive upb_descriptortype : Type :=
| UPB_DESCRIPTOR_TYPE_DOUBLE
| UPB_DESCRIPTOR_TYPE_FLOAT
| UPB_DESCRIPTOR_TYPE_INT64
| UPB_DESCRIPTOR_TYPE_UINT64
| UPB_DESCRIPTOR_TYPE_INT32
| UPB_DESCRIPTOR_TYPE_FIXED64
| UPB_DESCRIPTOR_TYPE_FIXED32
| UPB_DESCRIPTOR_TYPE_BOOL
| UPB_DESCRIPTOR_TYPE_STRING
| UPB_DESCRIPTOR_TYPE_GROUP
| UPB_DESCRIPTOR_TYPE_MESSAGE
| UPB_DESCRIPTOR_TYPE_BYTES
| UPB_DESCRIPTOR_TYPE_UINT32
| UPB_DESCRIPTOR_TYPE_ENUM
| UPB_DESCRIPTOR_TYPE_SFIXED32
| UPB_DESCRIPTOR_TYPE_SFIXED64
| UPB_DESCRIPTOR_TYPE_SINT32
| UPB_DESCRIPTOR_TYPE_SINT64.

(** Modelled from the spec: "storage mode in {scalar, array, map} plus
    packed-bit", "value representation in {1-byte, 4-byte, 8-byte,
    string-view, pointer}".  The [mode] byte of a field is kept decoded:
    [_upb_getmode(f)] is [mode f], [f->mode & _UPB_MODE_IS_PACKED] is
    [packed f] and [f->mode >> _UPB_REP_SHIFT] is [rep f].  [_UPB_REP_PTR] is
    an alias of the 4-byte or the 8-byte representation, by pointer size. *)
Inductive upb_fieldmode : Type :=
| _UPB_MODE_MAP
| _UPB_MODE_ARRAY
| _UPB_MODE_SCALAR.

Inductive upb_rep : Type :=
| _UPB_REP_1BYTE
| _UPB_REP_4BYTE
| _UPB_REP_8BYTE
| _UPB_REP_STRVIEW.

Record upb_msglayout_field : Type := {
  number : Z;
  offset : Z;
  presence : Z;
  submsg_index : nat;
  descriptortype : upb_descriptortype;
  mode : upb_fieldmode;
  packed : bool;
  rep : upb_rep
}.

Inductive upb_msgext_mode : Type :=
| _UPB_MSGEXT_NONE
| _UPB_MSGEXT_EXTENDABLE
| _UPB_MSGEXT_MSGSET.

(** Modelled from the spec: "a sub-layout table: an indexable array of
    pointers to other Layouts".  A [const upb_msglayout *] is the index of
    the layout in the table of the program's layout objects, so that layouts
    may refer to each other in cycles.  [upb_msglayout_sub] is such a
    pointer. *)
Definition upb_msglayout_sub : Type := nat.

Record upb_msglayout : Type := {
  subs : list upb_msglayout_sub;
  fields : list upb_msglayout_field;
  ext : upb_msgext_mode
}.

Definition field_count (m : upb_msglayout) : Z := Z.of_nat (length (fields m)).

Record upb_msglayout_ext : Type := {
  ext_field : upb_msglayout_field;
  ext_sub : upb_msglayout_sub
}.

(* ================================================================== *)
(** ** Messages *)

(** Modelled from the spec: "an opaque byte block whose layout is externally
    defined; the encoder only reads it, at offsets dictated by Field
    descriptors"; arrays, maps and extensions as the spec's data model has
    them.  A block maps an offset to the object stored there: plain data as
    its bytes in host order, a string view, or a non-null pointer to a
    sub-message, an array (its element buffer, one object per element) or a
    map (its entries, key and value, in the order the table iterator yields
    them).  [CZero] is zero-initialised storage: the number 0, the empty
    view, the null pointer; an offset without an entry reads as [CZero]. *)
Inductive upb_msg : Type :=
| Msg (mem : list (Z * cell)) (unknown : option (list byte))
      (exts : list (upb_msglayout_ext * cell))
with cell : Type :=
| CZero
| CData (bs : list byte)
| CStr (s : list byte)
| CMsg (m : upb_msg)
| CArr (a : list cell)
| CMap (entries : list (cell * cell)).

Definition msg_mem (msg : upb_msg) : list (Z * cell) :=
  match msg with Msg mem _ _ => mem end.
(** Modelled from the spec: [upb_msg_getunknown] (upb/msg.h): null when the
    message holds no unknown fields. *)
Definition upb_msg_getunknown (msg : upb_msg) : option (list byte) :=
  match msg with Msg _ unknown _ => unknown end.
(** Modelled from the spec: [_upb_msg_getexts] (upb/msg_internal.h): the
    extensions in storage order, "a per-message side list"; each is the
    extension's layout and its [data] union. *)
Definition _upb_msg_getexts (msg : upb_msg) : list (upb_msglayout_ext * cell) :=
  match msg with Msg _ _ exts => exts end.

(** Modelled from the spec: the macro [UPB_PTR_AT(msg, ofs, T)] of
    upb/port_def.inc, the object at offset [ofs] of the block. *)
Fixpoint UPB_PTR_AT (mem : list (Z * cell)) (ofs : Z) : cell :=
  match mem with
  | [] => CZero
  | (o, c) :: tl => if o =? ofs then c else UPB_PTR_AT tl ofs
  end.

(** Typed reads; [None] where the storage does not hold such an object. *)
Definition read_int (big_endian : bool) (n : nat) (c : cell) : option Z :=
  match c with
  | CZero => Some 0
  | CData bs => if Nat.eqb (length bs) n then Some (host_value big_endian bs) else None
  | _ => None
  end.

Definition read_bool (big_endian : bool) (c : cell) : option Z :=
  match read_int big_endian 1 c with
  | Some v => if v <=? 1 then Some v else None
  | None => None
  end.

Definition read_strview (c : cell) : option (list byte) :=
  match c with
  | CZero => Some []
  | CStr s => Some s
  | _ => None
  end.

Definition read_msg (c : cell) : option (option upb_msg) :=
  match c with
  | CZero => Some None
  | CMsg m => Some (Some m)
  | _ => None
  end.

Definition read_array (c : cell) : option (option (list cell)) :=
  match c with
  | CZero => Some None
  | CArr a => Some (Some a)
  | _ => None
  end.

Definition read_map (c : cell) : option (option (list (cell * cell))) :=
  match c with
  | CZero => Some None
  | CMap m => Some (Some m)
  | _ => None
  end.

(** The raw bytes of a plain object of [n] bytes. *)
Definition read_raw (n : nat) (c : cell) : option (list byte) :=
  match c with
  | CZero => Some (repeat x00 n)
  | CData bs => if Nat.eqb (length bs) n then Some bs else None
  | _ => None
  end.

(** [memcpy] of [n] bytes out of a slot followed by [!= 0], as
    [encode_shouldencode] does; a slot holding a non-null pointer is 4 or 8
    non-zero bytes. *)
Definition read_nonzero (big_endian : bool) (n : nat) (c : cell) : option bool :=
  match c with
  | CMsg _ | CArr _ | CMap _ =>
      if Nat.eqb n 4 || Nat.eqb n 8 then Some true else None
  | _ => option_map (fun v => negb (v =? 0)) (read_int big_endian n c)
  end.

(** Modelled from the spec: [_upb_hasbit_field] and [_upb_getoneofcase_field]
    are declared in upb/msg_internal.h, which is not among the sources.
    "Positive presence (hasbit): the corresponding bit in the message prelude
    is set"; the bit with index [presence] is bit [presence mod 8] of the byte
    at offset [presence / 8].  "Negative presence (oneof case): the int32 at
    offset ~presence". *)
Definition _upb_hasbit_field (big_endian : bool) (msg : list (Z * cell))
  (f : upb_msglayout_field) : option bool :=
  option_map (fun b => Z.testbit b (presence f mod 8))
    (read_int big_endian 1 (UPB_PTR_AT msg (presence f / 8))).

Definition _upb_getoneofcase_field (big_endian : bool) (msg : list (Z * cell))
  (f : upb_msglayout_field) : option Z :=
  read_int big_endian 4 (UPB_PTR_AT msg (Z.lnot (presence f))).

(** Modelled from the spec: the option bits of upb/encode.h, which is not
    among the sources; S7 of the spec sets DETERMINISTIC, and the depth limit
    is the upper 16 bits. *)
Definition UPB_ENCODE_DETERMINISTIC : Z := 1.
Definition UPB_ENCODE_SKIPUNKNOWN : Z := 2.

(* ================================================================== *)
(** ** Map sorter *)

(** Modelled from the spec: [_upb_mapsorter_pushmap] and
    [_upb_sortedmap_next] (upb/msg.c, upb/msg_internal.h) are not among the
    sources.  "Obtain a sorted view of entries, sorted by key in the natural
    order of the key's wire type (lexicographic for bytes/string, numeric for
    integers, boolean false-before-true).  Iterate sorted entries from last to
    first."  [map_key] reads a key as the value the order compares: a number
    for the numeric key types, the byte string itself for strings. *)
Inductive map_key : Type :=
| KeyNum (v : Z)
| KeyStr (s : list byte).

Definition read_key (big_endian : bool) (key_type : upb_descriptortype) (k : cell)
  : option map_key :=
  match key_type with
  | UPB_DESCRIPTOR_TYPE_INT64 | UPB_DESCRIPTOR_TYPE_SFIXED64
  | UPB_DESCRIPTOR_TYPE_SINT64 =>
      option_map (fun v => KeyNum (s64 v)) (read_int big_endian 8 k)
  | UPB_DESCRIPTOR_TYPE_UINT64 | UPB_DESCRIPTOR_TYPE_FIXED64 =>
      option_map KeyNum (read_int big_endian 8 k)
  | UPB_DESCRIPTOR_TYPE_INT32 | UPB_DESCRIPTOR_TYPE_SINT32
  | UPB_DESCRIPTOR_TYPE_SFIXED32 | UPB_DESCRIPTOR_TYPE_ENUM =>
      option_map (fun v => KeyNum (s32 v)) (read_int big_endian 4 k)
  | UPB_DESCRIPTOR_TYPE_UINT32 | UPB_DESCRIPTOR_TYPE_FIXED32 =>
      option_map KeyNum (read_int big_endian 4 k)
  | UPB_DESCRIPTOR_TYPE_BOOL =>
      option_map KeyNum (read_bool big_endian k)
  | UPB_DESCRIPTOR_TYPE_STRING | UPB_DESCRIPTOR_TYPE_BYTES =>
      option_map KeyStr (read_strview k)
  | _ => None
  end.

Fixpoint bytes_leb (a b : list byte) : bool :=
  match a, b with
  | [], _ => true
  | _ :: _, [] => false
  | x :: a', y :: b' =>
      if Z_of_byte x <? Z_of_byte y then true
      else if Z_of_byte y <? Z_of_byte x then false
      else bytes_leb a' b'
  end.

Definition key_leb (a b : map_key) : bool :=
  match a, b with
  | KeyNum x, KeyNum y => x <=? y
  | KeyStr x, KeyStr y => bytes_leb x y
  | KeyNum _, KeyStr _ => true
  | KeyStr _, KeyNum _ => false
  end.

Fixpoint sort_insert {A : Type} (x : map_key * A) (l : list (map_key * A))
  : list (map_key * A) :=
  match l with
  | [] => [x]
  | y :: tl => if key_leb (fst x) (fst y) then x :: l else y :: sort_insert x tl
  end.

Fixpoint sort_entries {A : Type} (l : list (map_key * A)) : list (map_key * A) :=
  match l with
  | [] => []
  | x :: tl => sort_insert x (sort_entries tl)
  end.

Fixpoint keyed_entries (big_endian : bool) (key_type : upb_descriptortype)
  (map : list (cell * cell)) : option (list (map_key * (cell * cell))) :=
  match map with
  | [] => Some []
  | ent :: tl =>
      match read_key big_endian key_type (fst ent),
            keyed_entries big_endian key_type tl with
      | Some k, Some r => Some ((k, ent) :: r)
      | _, _ => None
      end
  end.

(** Modelled from the spec: [_upb_mapsorter_pushmap], "a sorted view of
    entries, sorted by key": the entries in ascending key order. *)
Definition _upb_mapsorter_pushmap (big_endian : bool) (key_type : upb_descriptortype)
  (map : list (cell * cell)) : option (list (cell * cell)) :=
  option_map (fun l => List.map snd (sort_entries l))
    (keyed_entries big_endian key_type map).

(** Modelled from the spec: [_upb_sortedmap_next], "iterate sorted entries
    from last to first": the entries in the order successive calls yield
    them. *)
Definition _upb_sortedmap_next (sorted : list (cell * cell)) : list (cell * cell) :=
  rev sorted.

(* ================================================================== *)
(** ** Field emitters *)

(** A loop that runs [body] on the elements of [l] in turn, threading the
    encoder state.  The C loops over an array walk it from the last element
    to the first; they are [encode_each] over the reversed array. *)
Fixpoint encode_each {A : Type} (body : upb_encstate -> A -> outcome upb_encstate)
  (e : upb_encstate) (l : list A) : outcome upb_encstate :=
  match l with
  | [] => Ok e
  | x :: tl => e <- body e x ;; encode_each body e tl
  end.

Fixpoint read_all {A B : Type} (f : A -> option B) (l : list A) : option (list B) :=
  match l with
  | [] => Some []
  | x :: tl =>
      match f x, read_all f tl with
      | Some y, Some r => Some (y :: r)
      | _, _ => None
      end
  end.

Section Encoder.

(** The host's byte order and the program's layout objects. *)
Variable big_endian : bool.
Variable layouts : list upb_msglayout.

(** [subs[idx].submsg], dereferenced. *)
Definition submsg (subs : list upb_msglayout_sub) (idx : nat) : outcome upb_msglayout :=
  of_option match nth_error subs idx with
            | Some p => nth_error layouts p
            | None => None
            end.

(** [encode_fixedarray_impl].  The array is not empty (the caller has
    returned already when [arr->len == 0]). *)
Definition encode_fixedarray_impl (e : upb_encstate) (arr : list cell)
  (elem_size : nat) (tag : Z) : outcome upb_encstate :=
  if negb (tag =? 0)
  then
    encode_each
      (fun e elem =>
         raw <- of_option (read_raw elem_size elem) ;;
         e <- encode_bytes e (map Byte raw) ;;
         encode_varint e tag)
      e (rev arr)
  else
    data <- of_option (read_all (read_raw elem_size) arr) ;;
    encode_bytes e (map Byte (concat data)).

Definition encode_fixedarray := encode_fixedarray_impl.

Section Emitters.

(** [encode_message], which the field emitters call for sub-messages; the
    size is the value stored through the [size] out-parameter. *)
Variable encode_message :
  upb_encstate -> upb_msg -> upb_msglayout -> outcome (upb_encstate * Z).

Definition encode_scalar_impl (e : upb_encstate) (field_mem : cell)
  (subs : list upb_msglayout_sub) (f : upb_msglayout_field) : outcome upb_encstate :=
  match descriptortype f with
  | UPB_DESCRIPTOR_TYPE_DOUBLE =>
      val <- of_option (read_int big_endian 8 field_mem) ;;
      e <- encode_double big_endian e val ;;
      encode_tag e (number f) UPB_WIRE_TYPE_64BIT
  | UPB_DESCRIPTOR_TYPE_FLOAT =>
      val <- of_option (read_int big_endian 4 field_mem) ;;
      e <- encode_float big_endian e val ;;
      encode_tag e (number f) UPB_WIRE_TYPE_32BIT
  | UPB_DESCRIPTOR_TYPE_INT64
  | UPB_DESCRIPTOR_TYPE_UINT64 =>
      val <- of_option (read_int big_endian 8 field_mem) ;;
      e <- encode_varint e val ;;
      encode_tag e (number f) UPB_WIRE_TYPE_VARINT
  | UPB_DESCRIPTOR_TYPE_UINT32 =>
      val <- of_option (read_int big_endian 4 field_mem) ;;
      e <- encode_varint e val ;;
      encode_tag e (number f) UPB_WIRE_TYPE_VARINT
  | UPB_DESCRIPTOR_TYPE_INT32
  | UPB_DESCRIPTOR_TYPE_ENUM =>
      val <- of_option (read_int big_endian 4 field_mem) ;;
      e <- encode_varint e (u64 (s32 val)) ;;
      encode_tag e (number f) UPB_WIRE_TYPE_VARINT
  | UPB_DESCRIPTOR_TYPE_SFIXED64
  | UPB_DESCRIPTOR_TYPE_FIXED64 =>
      val <- of_option (read_int big_endian 8 field_mem) ;;
      e <- encode_fixed64 big_endian e val ;;
      encode_tag e (number f) UPB_WIRE_TYPE_64BIT
  | UPB_DESCRIPTOR_TYPE_FIXED32
  | UPB_DESCRIPTOR_TYPE_SFIXED32 =>
      val <- of_option (read_int big_endian 4 field_mem) ;;
      e <- encode_fixed32 big_endian e val ;;
      encode_tag e (number f) UPB_WIRE_TYPE_32BIT
  | UPB_DESCRIPTOR_TYPE_BOOL =>
      val <- of_option (read_bool big_endian field_mem) ;;
      e <- encode_varint e val ;;
      encode_tag e (number f) UPB_WIRE_TYPE_VARINT
  | UPB_DESCRIPTOR_TYPE_SINT32 =>
      val <- of_option (read_int big_endian 4 field_mem) ;;
      e <- encode_varint e (encode_zz32 (s32 val)) ;;
      encode_tag e (number f) UPB_WIRE_TYPE_VARINT
  | UPB_DESCRIPTOR_TYPE_SINT64 =>
      val <- of_option (read_int big_endian 8 field_mem) ;;
      e <- encode_varint e (encode_zz64 (s64 val)) ;;
      encode_tag e (number f) UPB_WIRE_TYPE_VARINT
  | UPB_DESCRIPTOR_TYPE_STRING
  | UPB_DESCRIPTOR_TYPE_BYTES =>
      view <- of_option (read_strview field_mem) ;;
      e <- encode_bytes e (map Byte view) ;;
      e <- encode_varint e (Z.of_nat (length view)) ;;
      encode_tag e (number f) UPB_WIRE_TYPE_DELIMITED
  | UPB_DESCRIPTOR_TYPE_GROUP =>
      submsg_ <- of_option (read_msg field_mem) ;;
      subm <- submsg subs (submsg_index f) ;;
      match submsg_ with
      | None => Ok e
      | Some submsg_ =>
          let e := set_depth e (depth (ctx e) - 1) in
          if depth (ctx e) =? 0 then encode_err MaxDepthExceeded
          else
            e <- encode_tag e (number f) UPB_WIRE_TYPE_END_GROUP ;;
            '(e, size) <- encode_message e submsg_ subm ;;
            let e := set_depth e (depth (ctx e) + 1) in
            encode_tag e (number f) UPB_WIRE_TYPE_START_GROUP
      end
  | UPB_DESCRIPTOR_TYPE_MESSAGE =>
      submsg_ <- of_option (read_msg field_mem) ;;
      subm <- submsg subs (submsg_index f) ;;
      match submsg_ with
      | None => Ok e
      | Some submsg_ =>
          let e := set_depth e (depth (ctx e) - 1) in
          if depth (ctx e) =? 0 then encode_err MaxDepthExceeded
          else
            '(e, size) <- encode_message e submsg_ subm ;;
            e <- encode_varint e size ;;
            let e := set_depth e (depth (ctx e) + 1) in
            encode_tag e (number f) UPB_WIRE_TYPE_DELIMITED
      end
  end.

Definition encode_scalar := encode_scalar_impl.

(** The [VARINT_CASE] macro of [encode_array_impl]: [read] is the typed read
    of an element followed by the conversion [encode]. *)
Definition VARINT_CASE (e : upb_encstate) (arr : list cell) (f : upb_msglayout_field)
  (read : cell -> option Z) : outcome upb_encstate :=
  let tag := if packed f then 0 else make_tag (number f) UPB_WIRE_TYPE_VARINT in
  encode_each
    (fun e elem =>
       val <- of_option (read elem) ;;
       e <- encode_varint e val ;;
       if negb (tag =? 0) then encode_varint e tag else Ok e)
    e (rev arr).

Definition encode_array_impl (e : upb_encstate) (msg : list (Z * cell))
  (subs : list upb_msglayout_sub) (f : upb_msglayout_field) : outcome upb_encstate :=
  arr <- of_option (read_array (UPB_PTR_AT msg (offset f))) ;;
  let pre_len := limit (ctx e) - ptr e in
  match arr with
  | None => Ok e
  | Some arr =>
    if Z.of_nat (length arr) =? 0 then Ok e
    else
      let TAG wire_type := if packed f then 0 else make_tag (number f) wire_type in
      let after_switch e :=
        if packed f
        then
          e <- encode_varint e (limit (ctx e) - ptr e - pre_len) ;;
          encode_tag e (number f) UPB_WIRE_TYPE_DELIMITED
        else Ok e in
      match descriptortype f with
      | UPB_DESCRIPTOR_TYPE_DOUBLE =>
          e <- encode_fixedarray e arr 8 (TAG UPB_WIRE_TYPE_64BIT) ;;
          after_switch e
      | UPB_DESCRIPTOR_TYPE_FLOAT =>
          e <- encode_fixedarray e arr 4 (TAG UPB_WIRE_TYPE_32BIT) ;;
          after_switch e
      | UPB_DESCRIPTOR_TYPE_SFIXED64
      | UPB_DESCRIPTOR_TYPE_FIXED64 =>
          e <- encode_fixedarray e arr 8 (TAG UPB_WIRE_TYPE_64BIT) ;;
          after_switch e
      | UPB_DESCRIPTOR_TYPE_FIXED32
      | UPB_DESCRIPTOR_TYPE_SFIXED32 =>
          e <- encode_fixedarray e arr 4 (TAG UPB_WIRE_TYPE_32BIT) ;;
          after_switch e
      | UPB_DESCRIPTOR_TYPE_INT64
      | UPB_DESCRIPTOR_TYPE_UINT64 =>
          e <- VARINT_CASE e arr f (read_int big_endian 8) ;;
          after_switch e
      | UPB_DESCRIPTOR_TYPE_UINT32 =>
          e <- VARINT_CASE e arr f (read_int big_endian 4) ;;
          after_switch e
      | UPB_DESCRIPTOR_TYPE_INT32
      | UPB_DESCRIPTOR_TYPE_ENUM =>
          e <- VARINT_CASE e arr f
                 (fun c => option_map (fun v => u64 (s32 v)) (read_int big_endian 4 c)) ;;
          after_switch e
      | UPB_DESCRIPTOR_TYPE_BOOL =>
          e <- VARINT_CASE e arr f (read_bool big_endian) ;;
          after_switch e
      | UPB_DESCRIPTOR_TYPE_SINT32 =>
          e <- VARINT_CASE e arr f
                 (fun c => option_map (fun v => encode_zz32 (s32 v))
                             (read_int big_endian 4 c)) ;;
          after_switch e
      | UPB_DESCRIPTOR_TYPE_SINT64 =>
          e <- VARINT_CASE e arr f
                 (fun c => option_map (fun v => encode_zz64 (s64 v))
                             (read_int big_endian 8 c)) ;;
          after_switch e
      | UPB_DESCRIPTOR_TYPE_STRING
      | UPB_DESCRIPTOR_TYPE_BYTES =>
          encode_each
            (fun e elem =>
               view <- of_option (read_strview elem) ;;
               e <- encode_bytes e (map Byte view) ;;
               e <- encode_varint e (Z.of_nat (length view)) ;;
               encode_tag e (number f) UPB_WIRE_TYPE_DELIMITED)
            e (rev arr)
      | UPB_DESCRIPTOR_TYPE_GROUP =>
          subm <- submsg subs (submsg_index f) ;;
          let e := set_depth e (depth (ctx e) - 1) in
          if depth (ctx e) =? 0 then encode_err MaxDepthExceeded
          else
            e <- encode_each
                   (fun e elem =>
                      e <- encode_tag e (number f) UPB_WIRE_TYPE_END_GROUP ;;
                      m <- of_option match read_msg elem with
                                     | Some m => m
                                     | None => None
                                     end ;;
                      '(e, size) <- encode_message e m subm ;;
                      encode_tag e (number f) UPB_WIRE_TYPE_START_GROUP)
                   e (rev arr) ;;
            Ok (set_depth e (depth (ctx e) + 1))
      | UPB_DESCRIPTOR_TYPE_MESSAGE =>
          subm <- submsg subs (submsg_index f) ;;
          let e := set_depth e (depth (ctx e) - 1) in
          if depth (ctx e) =? 0 then encode_err MaxDepthExceeded
          else
            e <- encode_each
                   (fun e elem =>
                      m <- of_option match read_msg elem with
                                     | Some m => m
                                     | None => None
                                     end ;;
                      '(e, size) <- encode_message e m subm ;;
                      e <- encode_varint e size ;;
                      encode_tag e (number f) UPB_WIRE_TYPE_DELIMITED)
                   e (rev arr) ;;
            Ok (set_depth e (depth (ctx e) + 1))
      end
  end.

Definition encode_array := encode_array_impl.

(** [ent] is the [upb_map_entry]: key and value. *)
Definition encode_mapentry_impl (e : upb_encstate) (number : Z)
  (layout : upb_msglayout) (ent : cell * cell) : outcome upb_encstate :=
  key_field <- of_option (nth_error (fields layout) 0) ;;
  val_field <- of_option (nth_error (fields layout) 1) ;;
  let pre_len := limit (ctx e) - ptr e in
  e <- encode_scalar e (snd ent) (subs layout) val_field ;;
  e <- encode_scalar e (fst ent) (subs layout) key_field ;;
  let size := (limit (ctx e) - ptr e) - pre_len in
  e <- encode_varint e size ;;
  encode_tag e number UPB_WIRE_TYPE_DELIMITED.

Definition encode_mapentry := encode_mapentry_impl.

(** In the default mode the entries are taken in the order of the table
    iterator, which is the order of the list; [_upb_map_fromkey] and
    [_upb_map_fromvalue] are the identity on entries kept as objects. *)
Definition encode_map_impl (e : upb_encstate) (msg : list (Z * cell))
  (subs : list upb_msglayout_sub) (f : upb_msglayout_field) : outcome upb_encstate :=
  map_ <- of_option (read_map (UPB_PTR_AT msg (offset f))) ;;
  layout <- submsg subs (submsg_index f) ;;
  if negb (field_count layout =? 2) then Undefined
  else
    match map_ with
    | None => Ok e
    | Some map_ =>
        if negb (Z.land (options (ctx e)) UPB_ENCODE_DETERMINISTIC =? 0)
        then
          key_field <- of_option (nth_error (fields layout) 0) ;;
          sorted <- of_option (_upb_mapsorter_pushmap big_endian
                                 (descriptortype key_field) map_) ;;
          encode_each (fun e ent => encode_mapentry e (number f) layout ent)
            e (_upb_sortedmap_next sorted)
        else
          encode_each (fun e ent => encode_mapentry e (number f) layout ent)
            e map_
    end.

Definition encode_map := encode_map_impl.

Definition encode_shouldencode (msg : list (Z * cell))
  (subs : list upb_msglayout_sub) (f : upb_msglayout_field) : outcome bool :=
  if presence f =? 0
  then
    let mem := UPB_PTR_AT msg (offset f) in
    match rep f with
    | _UPB_REP_1BYTE => of_option (read_nonzero big_endian 1 mem)
    | _UPB_REP_4BYTE => of_option (read_nonzero big_endian 4 mem)
    | _UPB_REP_8BYTE => of_option (read_nonzero big_endian 8 mem)
    | _UPB_REP_STRVIEW =>
        str <- of_option (read_strview mem) ;;
        Ok (negb (Z.of_nat (length str) =? 0))
    end
  else if 0 <? presence f
  then of_option (_upb_hasbit_field big_endian msg f)
  else
    case <- of_option (_upb_getoneofcase_field big_endian msg f) ;;
    Ok (case =? number f).

Definition encode_field_impl (e : upb_encstate) (msg : list (Z * cell))
  (subs : list upb_msglayout_sub) (field : upb_msglayout_field) : outcome upb_encstate :=
  match mode field with
  | _UPB_MODE_ARRAY => encode_array e msg subs field
  | _UPB_MODE_MAP => encode_map e msg subs field
  | _UPB_MODE_SCALAR => encode_scalar e (UPB_PTR_AT msg (offset field)) subs field
  end.

Definition encode_field := encode_field_impl.

(** [ext] is a [upb_msg_ext]: the extension's layout and its [data]. *)
Definition encode_msgset_item (e : upb_encstate) (ext : upb_msglayout_ext * cell)
  : outcome upb_encstate :=
  e <- encode_tag e 1 UPB_WIRE_TYPE_END_GROUP ;;
  m <- of_option match read_msg (snd ext) with
                 | Some m => m
                 | None => None
                 end ;;
  subm <- of_option (nth_error layouts (ext_sub (fst ext))) ;;
  '(e, size) <- encode_message e m subm ;;
  e <- encode_varint e size ;;
  e <- encode_tag e 3 UPB_WIRE_TYPE_DELIMITED ;;
  e <- encode_varint e (number (ext_field (fst ext))) ;;
  e <- encode_tag e 2 UPB_WIRE_TYPE_VARINT ;;
  encode_tag e 1 UPB_WIRE_TYPE_START_GROUP.

(** The three parts of [encode_message_impl], in the order they write. *)
Definition encode_message_unknown (e : upb_encstate) (msg : upb_msg)
  : outcome upb_encstate :=
  if Z.land (options (ctx e)) UPB_ENCODE_SKIPUNKNOWN =? 0
  then
    match upb_msg_getunknown msg with
    | Some unknown => encode_bytes e (map Byte unknown)
    | None => Ok e
    end
  else Ok e.

(** An extension is encoded as a field of the one-slot block [&ext->data]. *)
Definition encode_message_exts (e : upb_encstate) (msg : upb_msg) (m : upb_msglayout)
  : outcome upb_encstate :=
  match ext m with
  | _UPB_MSGEXT_NONE => Ok e
  | mode_ =>
      encode_each
        (fun e ext =>
           match mode_ with
           | _UPB_MSGEXT_MSGSET => encode_msgset_item e ext
           | _ => encode_field e [(0, snd ext)] [ext_sub (fst ext)] (ext_field (fst ext))
           end)
        e (_upb_msg_getexts msg)
  end.

Definition encode_message_fields (e : upb_encstate) (msg : upb_msg) (m : upb_msglayout)
  : outcome upb_encstate :=
  encode_each
    (fun e f =>
       b <- encode_shouldencode (msg_mem msg) (subs m) f ;;
       if b then encode_field e (msg_mem msg) (subs m) f else Ok e)
    e (rev (fields m)).

Definition encode_message_body (e : upb_encstate) (msg : upb_msg) (m : upb_msglayout)
  : outcome (upb_encstate * Z) :=
  let pre_len := limit (ctx e) - ptr e in
  e <- encode_message_unknown e msg ;;
  e <- encode_message_exts e msg m ;;
  e <- encode_message_fields e msg m ;;
  Ok (e, (limit (ctx e) - ptr e) - pre_len).

End Emitters.

(** [encode_message_impl]; [fuel] bounds the nesting of messages. *)
Fixpoint encode_message_impl (fuel : nat) (e : upb_encstate) (msg : upb_msg)
  (m : upb_msglayout) : outcome (upb_encstate * Z) :=
  match fuel with
  | O => OutOfFuel
  | S k => encode_message_body (encode_message_impl k) e msg m
  end.

Definition encode_message := encode_message_impl.

End Encoder.

(** The nesting of messages in a message, which is the fuel its encoding
    needs. *)
Fixpoint msg_height (msg : upb_msg) : nat :=
  match msg with
  | Msg mem _ exts =>
      S (Nat.max (list_max (map (fun p => cell_height (snd p)) mem))
                 (list_max (map (fun p => cell_height (snd p)) exts)))
  end
with cell_height (c : cell) : nat :=
  match c with
  | CMsg m => msg_height m
  | CArr a => list_max (map cell_height a)
  | CMap entries =>
      list_max (map (fun p => Nat.max (cell_height (fst p)) (cell_height (snd p)))
                  entries)
  | _ => O
  end.

(** The pointer [upb_encode_ex] returns: null, the address of the static
    placeholder [ch], or [e.ptr], given with the bytes from there to the
    limit of the buffer. *)
Inductive char_ptr : Type :=
| NULL
| static_ch
| buffer_ptr (content : list memval).

(** [upb_encode_ex]; the result is the pointer returned and [*size]. *)
Definition upb_encode_ex (big_endian : bool) (layouts : list upb_msglayout)
  (msg : upb_msg) (l : upb_msglayout) (options_ : Z) (arena : upb_alloc)
  : outcome (char_ptr * Z) :=
  let depth_ := Z.shiftr (u32 options_) 16 in
  let ctx_ := {| alloc := arena; buf := []; options := options_;
                 depth := if depth_ =? 0 then 64 else depth_ |} in
  let e := {| ptr := 0; ctx := ctx_ |} in
  match encode_message big_endian layouts (msg_height msg) e msg l with
  | Longjmp _ => Ok (NULL, 0)
  | Ok (e, _) =>
      let size := limit (ctx e) - ptr e in
      if size =? 0 then Ok (static_ch, size)
      else Ok (buffer_ptr (skipn (Z.to_nat (ptr e)) (buf (ctx e))), size)
  | Undefined => Undefined
  | OutOfFuel => OutOfFuel
  end.

(* ================================================================== *)
(** * Specification *)

(** ** The buffer *)

(** The written region [ptr, limit) and the invariant [buf <= ptr <= limit]. *)
Definition written (e : upb_encstate) : list memval :=
  skipn (Z.to_nat (ptr e)) (buf (ctx e)).

Definition wf (e : upb_encstate) : Prop := 0 <= ptr e <= limit (ctx e).

(** [e'] is [e] after [chunk] has been written in front of its output. *)
Record extends (e e' : upb_encstate) (chunk : list byte) : Prop := {
  ext_wf : wf e';
  ext_written : written e' = map Byte chunk ++ written e;
  ext_options : options (ctx e') = options (ctx e);
  ext_alloc : alloc_func (alloc (ctx e')) = alloc_func (alloc (ctx e))
}.


(** ** Varints *)

(** The bytes the loop of [encode_varint64] stores, as a list. *)
Fixpoint varint_loop (fuel : nat) (val : Z) : list byte :=
  match fuel with
  | O => []
  | S k =>
      if 127 <? val
      then byte_of_Z (Z.lor val 128) :: varint_loop k (Z.shiftr val 7)
      else [byte_of_Z val]
  end.

Definition varint_bytes (val : Z) : list byte :=
  varint_loop UPB_PB_VARINT_MAX_LEN val.

(** The base-128 little-endian encoding in the words of the wire format: the
    value is cut into groups of 7 bits, least significant group first; every
    group but the last has the continuation bit (128) set. *)
Fixpoint base128_groups (n : nat) (v : Z) : list byte :=
  match n with
  | O => []
  | S O => [byte_of_Z (v mod 128)]
  | S k => byte_of_Z (128 + v mod 128) :: base128_groups k (v / 128)
  end.

(** The number of 7-bit groups of [v]: one for 0, else up to its top bit. *)
Definition base128_length (v : Z) : nat := S (Z.to_nat (Z.log2 v / 7)).

Definition base128 (v : Z) : list byte := base128_groups (base128_length v) v.

(** A varint read back: the 7-bit groups, least significant first. *)
Fixpoint varint_value (bs : list byte) : Z :=
  match bs with
  | [] => 0
  | b :: tl => Z_of_byte b mod 128 + 128 * varint_value tl
  end.

(** ** Outcomes of emitters *)

Definition alloc_fails (e : upb_encstate) : Prop :=
  exists log, alloc_func (alloc (ctx e)) log = false.

(** The contract of an emitter started in [e] with result [r].  When it
    returns, it has put some [chunk] in front of the output and [Q] holds of
    the value returned and [chunk]; [st] projects the state out of the value.
    When it fails for lack of memory, the allocator has refused a request. *)
Definition emits_gen {A : Type} (st : A -> upb_encstate) (e : upb_encstate)
  (r : outcome A) (Q : A -> list byte -> Prop) : Prop :=
  match r with
  | Ok a => exists chunk, extends e (st a) chunk /\ Q a chunk
  | Longjmp OutOfMemory => alloc_fails e
  | _ => True
  end.

Definition emits (e : upb_encstate) (r : outcome upb_encstate)
  (Q : upb_encstate -> list byte -> Prop) : Prop :=
  emits_gen (fun e' => e') e r Q.

(** An emitter that leaves the depth counter as it found it and writes a
    chunk satisfying [P]. *)
Definition writes (P : list byte -> Prop) (e : upb_encstate)
  : upb_encstate -> list byte -> Prop :=
  fun e' chunk => depth (ctx e') = depth (ctx e) /\ P chunk.

(** What the field emitters rely on from [encode_message]: it keeps the
    depth counter and reports the number of bytes it wrote. *)
Definition message_contract
  (cb : upb_encstate -> upb_msg -> upb_msglayout -> outcome (upb_encstate * Z))
  : Prop :=
  forall e msg l, wf e ->
    emits_gen fst e (cb e msg l)
      (fun r c => depth (ctx (fst r)) = depth (ctx e) /\ snd r = Z.of_nat (length c)).

(** An emitter result that is not the max-depth error and that, when it is a
    normal return, carries a well-formed state whose depth counter is [d]. *)
Definition calm_gen {A : Type} (st : A -> upb_encstate) (d : Z) (r : outcome A)
  : Prop :=
  r <> Longjmp MaxDepthExceeded /\
  forall a, r = Ok a -> wf (st a) /\ depth (ctx (st a)) = d.

Definition calm (d : Z) (r : outcome upb_encstate) : Prop :=
  calm_gen (fun e => e) d r.

(** ** Wire records *)

(** One record of field [n] on the wire: its tag, then the payload the wire
    type calls for.  The payload of a length-delimited record and the body of
    a group are not looked into. *)
Inductive wire_record (n : Z) : list byte -> Prop :=
| WR_varint (v : Z) :
    wire_record n (varint_bytes (make_tag n UPB_WIRE_TYPE_VARINT) ++ varint_bytes v)
| WR_64bit (bs : list byte) :
    length bs = 8%nat ->
    wire_record n (varint_bytes (make_tag n UPB_WIRE_TYPE_64BIT) ++ bs)
| WR_32bit (bs : list byte) :
    length bs = 4%nat ->
    wire_record n (varint_bytes (make_tag n UPB_WIRE_TYPE_32BIT) ++ bs)
| WR_delimited (payload : list byte) :
    wire_record n (varint_bytes (make_tag n UPB_WIRE_TYPE_DELIMITED)
                   ++ varint_bytes (Z.of_nat (length payload)) ++ payload)
| WR_group (body : list byte) :
    wire_record n (varint_bytes (make_tag n UPB_WIRE_TYPE_START_GROUP)
                   ++ body ++ varint_bytes (make_tag n UPB_WIRE_TYPE_END_GROUP)).

(** [chunk] is a sequence of records, all of field [n]. *)
Definition wire_records (n : Z) (chunk : list byte) : Prop :=
  exists rs, chunk = concat rs /\ Forall (wire_record n) rs.

(** Field numbers of the protocol: 1 to 2^29 - 1. *)
Definition valid_number (f : upb_msglayout_field) : Prop :=
  0 < number f < 2 ^ 29.

(** ** Sample inputs *)

(** An allocator that grants every request, and one that grants none. *)
Definition always_alloc : upb_alloc :=
  {| alloc_func := fun _ => true; alloc_log := [] |}.
Definition never_alloc : upb_alloc :=
  {| alloc_func := fun _ => false; alloc_log := [] |}.

(** The state [upb_encode_ex] starts from, with depth budget 64. *)
Definition start_state (a : upb_alloc) (options_ : Z) : upb_encstate :=
  {| ptr := 0;
     ctx := {| alloc := a; buf := []; options := options_; depth := 64 |} |}.

(** A state with 16 free bytes and nothing written. *)
Definition roomy_state : upb_encstate :=
  {| ptr := 16;
     ctx := {| alloc := always_alloc; buf := repeat Undef 16;
               options := 0; depth := 64 |} |}.

Definition scalar_field (n ofs pres : Z) (ty : upb_descriptortype) (r : upb_rep)
  : upb_msglayout_field :=
  {| number := n; offset := ofs; presence := pres; submsg_index := O;
     descriptortype := ty; mode := _UPB_MODE_SCALAR; packed := false; rep := r |}.

Definition array_field (n ofs : Z) (ty : upb_descriptortype) (pk : bool)
  : upb_msglayout_field :=
  {| number := n; offset := ofs; presence := 0; submsg_index := O;
     descriptortype := ty; mode := _UPB_MODE_ARRAY; packed := pk;
     rep := _UPB_REP_8BYTE |}.

Definition plain_layout (fs : list upb_msglayout_field) : upb_msglayout :=
  {| subs := []; fields := fs; ext := _UPB_MSGEXT_NONE |}.

(** Scenario S2: [int32 a = 1] with a hasbit, [a = -1]. *)
Definition s2_layout : upb_msglayout :=
  plain_layout [scalar_field 1 8 1 UPB_DESCRIPTOR_TYPE_INT32 _UPB_REP_4BYTE].
Definition s2_msg : upb_msg :=
  Msg [(0, CData [x02]); (8, CData [xff; xff; xff; xff])] None [].

(** ** Packed arrays *)

(** The bytes one element of a packed array of type [ty] takes in the
    payload: the varint of the value the emitter converts the element to, or,
    for the fixed-width types, the bytes of the element as they lie in
    memory.  The types that are never packed have none. *)
Definition packed_elem (big_endian : bool) (ty : upb_descriptortype) (c : cell)
  : option (list byte) :=
  match ty with
  | UPB_DESCRIPTOR_TYPE_DOUBLE
  | UPB_DESCRIPTOR_TYPE_FIXED64
  | UPB_DESCRIPTOR_TYPE_SFIXED64 => read_raw 8 c
  | UPB_DESCRIPTOR_TYPE_FLOAT
  | UPB_DESCRIPTOR_TYPE_FIXED32
  | UPB_DESCRIPTOR_TYPE_SFIXED32 => read_raw 4 c
  | UPB_DESCRIPTOR_TYPE_INT64
  | UPB_DESCRIPTOR_TYPE_UINT64 =>
      option_map varint_bytes (read_int big_endian 8 c)
  | UPB_DESCRIPTOR_TYPE_UINT32 =>
      option_map varint_bytes (read_int big_endian 4 c)
  | UPB_DESCRIPTOR_TYPE_INT32
  | UPB_DESCRIPTOR_TYPE_ENUM =>
      option_map varint_bytes
        (option_map (fun v => u64 (s32 v)) (read_int big_endian 4 c))
  | UPB_DESCRIPTOR_TYPE_BOOL =>
      option_map varint_bytes (read_bool big_endian c)
  | UPB_DESCRIPTOR_TYPE_SINT32 =>
      option_map varint_bytes
        (option_map (fun v => encode_zz32 (s32 v)) (read_int big_endian 4 c))
  | UPB_DESCRIPTOR_TYPE_SINT64 =>
      option_map varint_bytes
        (option_map (fun v => encode_zz64 (s64 v)) (read_int big_endian 8 c))
  | _ => None
  end.

(** The types whose arrays can be packed. *)
Definition packable (ty : upb_descriptortype) : bool :=
  match ty with
  | UPB_DESCRIPTOR_TYPE_STRING | UPB_DESCRIPTOR_TYPE_BYTES
  | UPB_DESCRIPTOR_TYPE_GROUP | UPB_DESCRIPTOR_TYPE_MESSAGE => false
  | _ => true
  end.

(** The bytes of an array of varints on the wire, given the bytes of its
    elements: packed, one length-delimited record holding them all; else one
    record per element. *)
Definition varint_array_bytes (f : upb_msglayout_field) (elems : list (list byte))
  : list byte :=
  if packed f
  then varint_bytes (make_tag (number f) UPB_WIRE_TYPE_DELIMITED)
       ++ varint_bytes (Z.of_nat (length (concat elems))) ++ concat elems
  else concat (map (fun c => varint_bytes (make_tag (number f) UPB_WIRE_TYPE_VARINT)
                             ++ c) elems).

(** A receiver's reading of a run of varints: bytes are collected up to and
    including the first one without the continuation bit, which ends a
    varint.  [acc] holds the bytes of the varint under way, last first. *)
Fixpoint parse_varints (acc : list byte) (bs : list byte) : option (list Z) :=
  match bs with
  | [] => match acc with [] => Some [] | _ => None end
  | b :: tl =>
      if Z_of_byte b <? 128
      then option_map (cons (varint_value (rev (b :: acc)))) (parse_varints [] tl)
      else parse_varints (b :: acc) tl
  end.

(** ** The top-level entry *)

(** The depth budget [upb_encode_ex] takes from the options. *)
Definition depth_budget (options_ : Z) : Z :=
  let depth_ := Z.shiftr (u32 options_) 16 in
  if depth_ =? 0 then 64 else depth_.

(** The state in which [upb_encode_ex] calls [encode_message]. *)
Definition entry_state (arena : upb_alloc) (options_ : Z) : upb_encstate :=
  {| ptr := 0;
     ctx := {| alloc := arena; buf := []; options := options_;
               depth := depth_budget options_ |} |}.

(** The call of [encode_message] inside [upb_encode_ex]. *)
Definition entry_run (big_endian : bool) (layouts : list upb_msglayout)
  (msg : upb_msg) (l : upb_msglayout) (options_ : Z) (arena : upb_alloc)
  : outcome (upb_encstate * Z) :=
  encode_message big_endian layouts (msg_height msg)
    (entry_state arena options_) msg l.

(** ** Chains of nested messages *)

(** A message type with one field, number 1, holding a message of the same
    type; its layout is entry 0 of the table and refers to itself. *)
Definition chain_field : upb_msglayout_field :=
  {| number := 1; offset := 8; presence := 0; submsg_index := O;
     descriptortype := UPB_DESCRIPTOR_TYPE_MESSAGE; mode := _UPB_MODE_SCALAR;
     packed := false; rep := _UPB_REP_8BYTE |}.

Definition chain_layout : upb_msglayout :=
  {| subs := [O]; fields := [chain_field]; ext := _UPB_MSGEXT_NONE |}.

(** [chain k]: a message with [k] messages nested below it, one inside the
    other, so a chain of [k + 1] messages. *)
Fixpoint chain (k : nat) : upb_msg :=
  match k with
  | O => Msg [] None []
  | S k' => Msg [(8, CMsg (chain k'))] None []
  end.

(** Every request to the allocator of [e] is granted. *)
Definition alloc_ok (e : upb_encstate) : Prop :=
  forall log, alloc_func (alloc (ctx e)) log = true.

(** ** Declared fields in the output *)

(** [chunk] is what the message emitter writes for the declared field [f] of
    [msg]: nothing when the presence test says no, else what
    [encode_field_impl] writes for it; in both cases records of [f]'s
    number. *)
Definition field_output (big_endian : bool) (layouts : list upb_msglayout)
  (cb : upb_encstate -> upb_msg -> upb_msglayout -> outcome (upb_encstate * Z))
  (msg : upb_msg) (m : upb_msglayout)
  (f : upb_msglayout_field) (chunk : list byte) : Prop :=
  wire_records (number f) chunk /\
  (encode_shouldencode big_endian (msg_mem msg) (subs m) f = Ok false /\ chunk = [] \/
   encode_shouldencode big_endian (msg_mem msg) (subs m) f = Ok true /\
   exists e0 e1,
     wf e0 /\
     encode_field_impl big_endian layouts cb e0 (msg_mem msg) (subs m) f = Ok e1 /\
     written e1 = map Byte chunk ++ written e0).

(** Scenario: [int32 a = 1; string b = 2] with [a = 150], [b = "hi"]. *)
Definition two_fields_layout : upb_msglayout :=
  plain_layout [scalar_field 1 8 0 UPB_DESCRIPTOR_TYPE_INT32 _UPB_REP_4BYTE;
                scalar_field 2 16 0 UPB_DESCRIPTOR_TYPE_STRING _UPB_REP_STRVIEW].
Definition two_fields_msg : upb_msg :=
  Msg [(8, CData [x96; x00; x00; x00]); (16, CStr [x68; x69])] None [].

(** ** Equal messages *)

(** A map key as the table holds it: plain bytes or a string. *)
Definition is_key_cell (c : cell) : Prop :=
  match c with
  | CData _ | CStr _ => True
  | _ => False
  end.

(** Two messages hold the same value: the same objects at the same offsets,
    the same unknown-field bytes, sub-messages and array elements equal in
    turn, and maps holding the same entries (under distinct keys) in whatever
    order their tables yield them.  With [perm_exts] the extensions, too, may
    be stored in different orders; without it they are stored in the same
    order. *)
Inductive msg_equiv (perm_exts : bool) : upb_msg -> upb_msg -> Prop :=
| ME_msg (mem1 mem2 : list (Z * cell)) (unk : option (list byte))
         (exts1 exts2 exts2' : list (upb_msglayout_ext * cell)) :
    Forall2 (fun p q => fst p = fst q /\ cell_equiv perm_exts (snd p) (snd q))
      mem1 mem2 ->
    Forall2 (fun x y => fst x = fst y /\ cell_equiv perm_exts (snd x) (snd y))
      exts1 exts2' ->
    (exts2' = exts2 \/ perm_exts = true /\ Permutation exts2' exts2) ->
    msg_equiv perm_exts (Msg mem1 unk exts1) (Msg mem2 unk exts2)
with cell_equiv (perm_exts : bool) : cell -> cell -> Prop :=
| CE_zero : cell_equiv perm_exts CZero CZero
| CE_data (bs : list byte) : cell_equiv perm_exts (CData bs) (CData bs)
| CE_str (s : list byte) : cell_equiv perm_exts (CStr s) (CStr s)
| CE_msg (m1 m2 : upb_msg) :
    msg_equiv perm_exts m1 m2 -> cell_equiv perm_exts (CMsg m1) (CMsg m2)
| CE_arr (a1 a2 : list cell) :
    Forall2 (cell_equiv perm_exts) a1 a2 ->
    cell_equiv perm_exts (CArr a1) (CArr a2)
| CE_map (m1 m2 m2' : list (cell * cell)) :
    Forall2 (fun x y => fst x = fst y /\ cell_equiv perm_exts (snd x) (snd y))
      m1 m2' ->
    Permutation m2' m2 ->
    NoDup (map fst m1) ->
    Forall is_key_cell (map fst m1) ->
    cell_equiv perm_exts (CMap m1) (CMap m2).

(** The encoder is in deterministic mode. *)
Definition deterministic (e : upb_encstate) : Prop :=
  Z.land (options (ctx e)) UPB_ENCODE_DETERMINISTIC <> 0.

(** Structural induction on messages and the objects in them. *)
Section MsgInduction.

Variable P : upb_msg -> Prop.
Variable Q : cell -> Prop.
Hypothesis HMsg : forall mem unk exts,
  Forall (fun p => Q (snd p)) mem -> Forall (fun p => Q (snd p)) exts ->
  P (Msg mem unk exts).
Hypothesis HZero : Q CZero.
Hypothesis HData : forall bs, Q (CData bs).
Hypothesis HStr : forall s, Q (CStr s).
Hypothesis HCMsg : forall m, P m -> Q (CMsg m).
Hypothesis HArr : forall a, Forall Q a -> Q (CArr a).
Hypothesis HMap : forall entries,
  Forall (fun p => Q (fst p) /\ Q (snd p)) entries -> Q (CMap entries).

Fixpoint msg_induction (msg : upb_msg) : P msg :=
  match msg with
  | Msg mem unk exts =>
      HMsg mem unk exts
        ((fix go (l : list (Z * cell)) : Forall (fun p => Q (snd p)) l :=
            match l with
            | [] => Forall_nil _
            | p :: tl => Forall_cons p (cell_induction (snd p)) (go tl)
            end) mem)
        ((fix go (l : list (upb_msglayout_ext * cell))
            : Forall (fun p => Q (snd p)) l :=
            match l with
            | [] => Forall_nil _
            | p :: tl => Forall_cons p (cell_induction (snd p)) (go tl)
            end) exts)
  end
with cell_induction (c : cell) : Q c :=
  match c with
  | CZero => HZero
  | CData bs => HData bs
  | CStr s => HStr s
  | CMsg m => HCMsg m (msg_induction m)
  | CArr a =>
      HArr a
        ((fix go (l : list cell) : Forall Q l :=
            match l with
            | [] => Forall_nil _
            | x :: tl => Forall_cons x (cell_induction x) (go tl)
            end) a)
  | CMap entries =>
      HMap entries
        ((fix go (l : list (cell * cell))
            : Forall (fun p => Q (fst p) /\ Q (snd p)) l :=
            match l with
            | [] => Forall_nil _
            | p :: tl =>
                Forall_cons p (conj (cell_induction (fst p)) (cell_induction (snd p)))
                  (go tl)
            end) entries)
  end.

End MsgInduction.

(** Entries with the same key and equal values. *)
Definition entry_equiv (perm_exts : bool) (x y : cell * cell) : Prop :=
  fst x = fst y /\ cell_equiv perm_exts (snd x) (snd y).

(** Keyed entries with the same key and payloads related by [R]. *)
Definition key_related {A B : Type} (R : A -> B -> Prop)
  (x : map_key * A) (y : map_key * B) : Prop :=
  fst x = fst y /\ R (snd x) (snd y).

(** Results of a read that agree up to [R]. *)
Definition option_rel {A : Type} (R : A -> A -> Prop) (o1 o2 : option A) : Prop :=
  match o1, o2 with
  | Some a1, Some a2 => R a1 a2
  | None, None => True
  | _, _ => False
  end.

(** Scenario S7: [map<int32, int32> m = 7] holding 1:10 and 2:20, with the
    table yielding the entries in two different orders. *)
Definition s7_entry_layout : upb_msglayout :=
  plain_layout [scalar_field 1 0 0 UPB_DESCRIPTOR_TYPE_INT32 _UPB_REP_4BYTE;
                scalar_field 2 0 0 UPB_DESCRIPTOR_TYPE_INT32 _UPB_REP_4BYTE].
Definition s7_layout : upb_msglayout :=
  {| subs := [O];
     fields := [{| number := 7; offset := 8; presence := 0; submsg_index := O;
                   descriptortype := UPB_DESCRIPTOR_TYPE_MESSAGE;
                   mode := _UPB_MODE_MAP; packed := false;
                   rep := _UPB_REP_8BYTE |}];
     ext := _UPB_MSGEXT_NONE |}.
Definition s7_entry_1 : cell * cell :=
  (CData [x01; x00; x00; x00], CData [x0a; x00; x00; x00]).
Definition s7_entry_2 : cell * cell :=
  (CData [x02; x00; x00; x00], CData [x14; x00; x00; x00]).
Definition s7_msg_a : upb_msg := Msg [(8, CMap [s7_entry_1; s7_entry_2])] None [].
Definition s7_msg_b : upb_msg := Msg [(8, CMap [s7_entry_2; s7_entry_1])] None [].

(** An extendable message holding the int32 extensions 100 and 101, stored
    in the two possible orders. *)
Definition ext_layout : upb_msglayout :=
  {| subs := []; fields := []; ext := _UPB_MSGEXT_EXTENDABLE |}.
Definition ext_100 : upb_msglayout_ext * cell :=
  ({| ext_field := scalar_field 100 0 0 UPB_DESCRIPTOR_TYPE_INT32 _UPB_REP_4BYTE;
      ext_sub := O |},
   CData [x01; x00; x00; x00]).
Definition ext_101 : upb_msglayout_ext * cell :=
  ({| ext_field := scalar_field 101 0 0 UPB_DESCRIPTOR_TYPE_INT32 _UPB_REP_4BYTE;
      ext_sub := O |},
   CData [x02; x00; x00; x00]).
Definition ext_msg_a : upb_msg := Msg [] None [ext_100; ext_101].
Definition ext_msg_b : upb_msg := Msg [] None [ext_101; ext_100].

(** A repeated [fixed32] field 1 holding the one element 1, as a host of the
    given byte order keeps it in memory; and the scalar [fixed32] field 1
    holding 1. *)
Definition fixed32_array_layout (pk : bool) : upb_msglayout :=
  plain_layout [array_field 1 8 UPB_DESCRIPTOR_TYPE_FIXED32 pk].
Definition fixed32_array_msg (big_endian : bool) : upb_msg :=
  Msg [(8, CArr [CData (host_bytes big_endian 4 1)])] None [].
Definition fixed32_scalar_layout : upb_msglayout :=
  plain_layout [scalar_field 1 8 0 UPB_DESCRIPTOR_TYPE_FIXED32 _UPB_REP_4BYTE].
Definition fixed32_scalar_msg (big_endian : bool) : upb_msg :=
  Msg [(8, CData (host_bytes big_endian 4 1))] None [].

(* ================================================================== *)
(** * Further definitions *)

(** ** The buffer manager *)

(** [z] is 128 doubled some number of times, as [upb_roundup_pow2] produces
    it. *)
Definition pow2_from_128 (z : Z) : Prop := exists k : nat, z = 128 * 2 ^ Z.of_nat k.

(** The largest request [upb_roundup_pow2] serves without the doubling
    leaving [size_t], taken as 64 bits wide. *)
Definition roundup_max : Z := 2 ^ 63.

(** The sizes the buffer takes: none before the first allocation, afterwards
    128 doubled some number of times. *)
Definition buf_sized (e : upb_encstate) : Prop :=
  limit (ctx e) = 0 \/ pow2_from_128 (limit (ctx e)).

(** ** Exact output *)

(** The result [r] of an emitter started in [e] is a normal return that has
    put exactly [chunk] in front of the output and kept the depth counter, or
    the failure for lack of memory after the allocator has refused a request;
    it is nothing else. *)
Definition exact (e : upb_encstate) (r : outcome upb_encstate) (chunk : list byte)
  : Prop :=
  match r with
  | Ok e' => extends e e' chunk /\ depth (ctx e') = depth (ctx e)
  | Longjmp OutOfMemory => alloc_fails e
  | _ => False
  end.

(** The fixed-width types: the size of the value and the wire type. *)
Definition fixed_width (ty : upb_descriptortype) : option (nat * Z) :=
  match ty with
  | UPB_DESCRIPTOR_TYPE_DOUBLE
  | UPB_DESCRIPTOR_TYPE_FIXED64
  | UPB_DESCRIPTOR_TYPE_SFIXED64 => Some (8%nat, UPB_WIRE_TYPE_64BIT)
  | UPB_DESCRIPTOR_TYPE_FLOAT
  | UPB_DESCRIPTOR_TYPE_FIXED32
  | UPB_DESCRIPTOR_TYPE_SFIXED32 => Some (4%nat, UPB_WIRE_TYPE_32BIT)
  | _ => None
  end.

(** ** Sample inputs, further *)

(** Scenario S6: [message Inner { int32 a = 2; }] in field 1 of an outer
    message, with [a = 7]. *)
Definition s6_inner_layout : upb_msglayout :=
  plain_layout [scalar_field 2 8 0 UPB_DESCRIPTOR_TYPE_INT32 _UPB_REP_4BYTE].
Definition s6_field : upb_msglayout_field :=
  {| number := 1; offset := 8; presence := 0; submsg_index := O;
     descriptortype := UPB_DESCRIPTOR_TYPE_MESSAGE; mode := _UPB_MODE_SCALAR;
     packed := false; rep := _UPB_REP_8BYTE |}.
Definition s6_inner : upb_msg := Msg [(8, CData [x07; x00; x00; x00])] None [].

(** ** Arrays of varints *)

(** The varint types: how [encode_array_impl] reads an element of the array
    and converts it to the value it hands to [encode_varint]. *)
Definition varint_read (big_endian : bool) (ty : upb_descriptortype)
  : option (cell -> option Z) :=
  match ty with
  | UPB_DESCRIPTOR_TYPE_INT64
  | UPB_DESCRIPTOR_TYPE_UINT64 => Some (read_int big_endian 8)
  | UPB_DESCRIPTOR_TYPE_UINT32 => Some (read_int big_endian 4)
  | UPB_DESCRIPTOR_TYPE_INT32
  | UPB_DESCRIPTOR_TYPE_ENUM =>
      Some (fun c => option_map (fun v => u64 (s32 v)) (read_int big_endian 4 c))
  | UPB_DESCRIPTOR_TYPE_BOOL => Some (read_bool big_endian)
  | UPB_DESCRIPTOR_TYPE_SINT32 =>
      Some (fun c => option_map (fun v => encode_zz32 (s32 v))
                       (read_int big_endian 4 c))
  | UPB_DESCRIPTOR_TYPE_SINT64 =>
      Some (fun c => option_map (fun v => encode_zz64 (s64 v))
                       (read_int big_endian 8 c))
  | _ => None
  end.

(** ** Map entries *)

(** [chunk] is what the scalar emitter writes for the value [c] of the field
    [f], started in some well-formed state. *)
Definition scalar_output (big_endian : bool) (layouts : list upb_msglayout)
  (cb : upb_encstate -> upb_msg -> upb_msglayout -> outcome (upb_encstate * Z))
  (c : cell) (subs_ : list upb_msglayout_sub) (f : upb_msglayout_field)
  (chunk : list byte) : Prop :=
  exists e0 e1,
    wf e0 /\
    encode_scalar_impl big_endian layouts cb e0 c subs_ f = Ok e1 /\
    written e1 = map Byte chunk ++ written e0.

(** [chunk] is the record of the map entry [ent] of the map field [n]: a
    length-delimited record whose payload is the key, written as the first
    field of the entry layout, followed by the value, written as the
    second. *)
Definition map_entry_record (big_endian : bool) (layouts : list upb_msglayout)
  (cb : upb_encstate -> upb_msg -> upb_msglayout -> outcome (upb_encstate * Z))
  (n : Z) (layout : upb_msglayout) (ent : cell * cell) (chunk : list byte) : Prop :=
  exists key_field val_field kb vb,
    nth_error (fields layout) 0 = Some key_field /\
    nth_error (fields layout) 1 = Some val_field /\
    scalar_output big_endian layouts cb (fst ent) (subs layout) key_field kb /\
    scalar_output big_endian layouts cb (snd ent) (subs layout) val_field vb /\
    chunk = varint_bytes (make_tag n UPB_WIRE_TYPE_DELIMITED)
            ++ varint_bytes (Z.of_nat (length (kb ++ vb))) ++ kb ++ vb.

(** A MessageSet item: extension 100 holding the message of scenario S6. *)
Definition msgset_ext_100 : upb_msglayout_ext * cell :=
  ({| ext_field :=
        {| number := 100; offset := 0; presence := 0; submsg_index := O;
           descriptortype := UPB_DESCRIPTOR_TYPE_MESSAGE;
           mode := _UPB_MODE_SCALAR; packed := false; rep := _UPB_REP_8BYTE |};
      ext_sub := O |}, CMsg s6_inner).

(** ** The parts of a message *)

(** [chunk] is what the message emitter writes for the declared field [f] of
    [msg]: nothing when the presence test says no, else what
    [encode_field_impl] writes for it when run with the options [options_]
    and the depth counter [depth_]. *)
Definition field_chunk (big_endian : bool) (layouts : list upb_msglayout)
  (cb : upb_encstate -> upb_msg -> upb_msglayout -> outcome (upb_encstate * Z))
  (options_ depth_ : Z) (msg : upb_msg) (m : upb_msglayout)
  (f : upb_msglayout_field) (chunk : list byte) : Prop :=
  encode_shouldencode big_endian (msg_mem msg) (subs m) f = Ok false /\ chunk = [] \/
  encode_shouldencode big_endian (msg_mem msg) (subs m) f = Ok true /\
  exists e0 e1,
    wf e0 /\ options (ctx e0) = options_ /\ depth (ctx e0) = depth_ /\
    encode_field_impl big_endian layouts cb e0 (msg_mem msg) (subs m) f = Ok e1 /\
    written e1 = map Byte chunk ++ written e0.

(** The extensions the message emitter goes through: none under a layout
    without extension mode, else those the message holds, in storage
    order. *)
Definition encoded_exts (msg : upb_msg) (m : upb_msglayout)
  : list (upb_msglayout_ext * cell) :=
  match ext m with
  | _UPB_MSGEXT_NONE => []
  | _ => _upb_msg_getexts msg
  end.

(** [chunk] is what the message emitter writes for the extension [x] of a
    message of layout [m]: what [encode_msgset_item] writes for it under a
    MessageSet layout, else what [encode_field_impl] writes for the
    extension's field, when run with the options [options_] and the depth
    counter [depth_]. *)
Definition ext_chunk (big_endian : bool) (layouts : list upb_msglayout)
  (cb : upb_encstate -> upb_msg -> upb_msglayout -> outcome (upb_encstate * Z))
  (options_ depth_ : Z) (m : upb_msglayout) (x : upb_msglayout_ext * cell)
  (chunk : list byte) : Prop :=
  exists e0 e1,
    wf e0 /\ options (ctx e0) = options_ /\ depth (ctx e0) = depth_ /\
    match ext m with
    | _UPB_MSGEXT_MSGSET => encode_msgset_item layouts cb e0 x
    | _ => encode_field_impl big_endian layouts cb e0 [(0, snd x)]
             [ext_sub (fst x)] (ext_field (fst x))
    end = Ok e1 /\
    written e1 = map Byte chunk ++ written e0.

(** ** Unknown fields *)

(** The bytes [encode_message_impl] copies for the unknown fields of [msg]
    under the options [options_]: none when SKIPUNKNOWN is set or the message
    holds none. *)
Definition unknown_bytes (options_ : Z) (msg : upb_msg) : list byte :=
  if Z.land options_ UPB_ENCODE_SKIPUNKNOWN =? 0
  then match upb_msg_getunknown msg with
       | Some unknown => unknown
       | None => []
       end
  else [].

(** [int32 a = 1] holding 150, with the unknown field 3 = 1 kept from a
    decode. *)
Definition unknown_layout : upb_msglayout :=
  plain_layout [scalar_field 1 8 0 UPB_DESCRIPTOR_TYPE_INT32 _UPB_REP_4BYTE].
Definition unknown_msg : upb_msg :=
  Msg [(8, CData [x96; x00; x00; x00])] (Some [x18; x01]) [].

(** [int32 a = 1] holding 150, the extension 100 holding 1 and the unknown
    field 3 = 1, under a layout with extensions. *)
Definition segments_layout : upb_msglayout :=
  {| subs := [];
     fields := [scalar_field 1 8 0 UPB_DESCRIPTOR_TYPE_INT32 _UPB_REP_4BYTE];
     ext := _UPB_MSGEXT_EXTENDABLE |}.
Definition segments_ext : upb_msglayout_ext * cell :=
  ({| ext_field := scalar_field 100 0 0 UPB_DESCRIPTOR_TYPE_INT32 _UPB_REP_4BYTE;
      ext_sub := O |}, CData [x01; x00; x00; x00]).
Definition segments_msg : upb_msg :=
  Msg [(8, CData [x96; x00; x00; x00])] (Some [x18; x01]) [segments_ext].

(** ** Nesting through sub-message fields *)

(** The descriptor types whose values are messages. *)
Definition is_submsg (ty : upb_descriptortype) : Prop :=
  ty = UPB_DESCRIPTOR_TYPE_MESSAGE \/ ty = UPB_DESCRIPTOR_TYPE_GROUP.

(** The field [f] of the block [mem] holds the message [m'], of layout [l']:
    as the value of a scalar message or group field, as an element of a
    repeated message or group field, or as the value of an entry of a map
    whose value field is a message. *)
Inductive field_link (layouts : list upb_msglayout) (mem : list (Z * cell))
  (subs_ : list upb_msglayout_sub) (f : upb_msglayout_field)
  (m' : upb_msg) (l' : upb_msglayout) : Prop :=
| FL_scalar :
    mode f = _UPB_MODE_SCALAR ->
    is_submsg (descriptortype f) ->
    UPB_PTR_AT mem (offset f) = CMsg m' ->
    submsg layouts subs_ (submsg_index f) = Ok l' ->
    field_link layouts mem subs_ f m' l'
| FL_array (arr : list cell) :
    mode f = _UPB_MODE_ARRAY ->
    is_submsg (descriptortype f) ->
    UPB_PTR_AT mem (offset f) = CArr arr ->
    In (CMsg m') arr ->
    submsg layouts subs_ (submsg_index f) = Ok l' ->
    field_link layouts mem subs_ f m' l'
| FL_map (entries : list (cell * cell)) (layout : upb_msglayout)
    (val_field : upb_msglayout_field) (key : cell) :
    mode f = _UPB_MODE_MAP ->
    UPB_PTR_AT mem (offset f) = CMap entries ->
    submsg layouts subs_ (submsg_index f) = Ok layout ->
    nth_error (fields layout) 1 = Some val_field ->
    is_submsg (descriptortype val_field) ->
    In (key, CMsg m') entries ->
    submsg layouts (subs layout) (submsg_index val_field) = Ok l' ->
    field_link layouts mem subs_ f m' l'.

(** [nested k msg l]: the message [msg] of layout [l] heads a chain of [k]
    links, so of [k + 1] messages.  A link goes from a message into one it
    holds in a declared field that passes the presence test, or in an
    extension of a layout in the regular extension mode (encoded as a field
    of the one-slot block [&ext->data]). *)
Inductive nested (big_endian : bool) (layouts : list upb_msglayout)
  : nat -> upb_msg -> upb_msglayout -> Prop :=
| nested_O (msg : upb_msg) (l : upb_msglayout) :
    nested big_endian layouts O msg l
| nested_field (k : nat) (msg : upb_msg) (l : upb_msglayout)
    (f : upb_msglayout_field) (m' : upb_msg) (l' : upb_msglayout) :
    In f (fields l) ->
    encode_shouldencode big_endian (msg_mem msg) (subs l) f = Ok true ->
    field_link layouts (msg_mem msg) (subs l) f m' l' ->
    nested big_endian layouts k m' l' ->
    nested big_endian layouts (S k) msg l
| nested_ext (k : nat) (msg : upb_msg) (l : upb_msglayout)
    (x : upb_msglayout_ext * cell) (m' : upb_msg) (l' : upb_msglayout) :
    ext l = _UPB_MSGEXT_EXTENDABLE ->
    In x (_upb_msg_getexts msg) ->
    field_link layouts [(0, snd x)] [ext_sub (fst x)] (ext_field (fst x)) m' l' ->
    nested big_endian layouts k m' l' ->
    nested big_endian layouts (S k) msg l.

(** How a run on a chain ends: with a normal return when the budget
    suffices ([ok]), else with the max-depth error. *)
Definition ends {A : Type} (ok : bool) (r : outcome A) : Prop :=
  if ok then exists a, r = Ok a else r = Longjmp MaxDepthExceeded.

(** *** Sample chains *)

(** The ways a message of the sample type below holds the next message of a
    chain. *)
Inductive link : Type :=
| via_message
| via_group
| via_repeated_message
| via_repeated_group
| via_map_value
| via_extension.

Definition submsg_field (n ofs : Z) (ty : upb_descriptortype) (md : upb_fieldmode)
  (idx : nat) : upb_msglayout_field :=
  {| number := n; offset := ofs; presence := 0; submsg_index := idx;
     descriptortype := ty; mode := md; packed := false; rep := _UPB_REP_8BYTE |}.

(** A message type that refers to itself in every way: a message field 1, a
    group field 2, a repeated message field 3, a repeated group field 4, a
    field 5 that is a map from int32 to the type, and extensions, of which
    100 holds a message of the type.  The type is entry 0 of the table
    [link_layouts], the map entry type is entry 1. *)
Definition link_entry_layout : upb_msglayout :=
  {| subs := [O];
     fields := [scalar_field 1 0 0 UPB_DESCRIPTOR_TYPE_INT32 _UPB_REP_4BYTE;
                submsg_field 2 8 UPB_DESCRIPTOR_TYPE_MESSAGE _UPB_MODE_SCALAR O];
     ext := _UPB_MSGEXT_NONE |}.

Definition link_layout : upb_msglayout :=
  {| subs := [O; 1%nat];
     fields := [submsg_field 1 8 UPB_DESCRIPTOR_TYPE_MESSAGE _UPB_MODE_SCALAR O;
                submsg_field 2 16 UPB_DESCRIPTOR_TYPE_GROUP _UPB_MODE_SCALAR O;
                submsg_field 3 24 UPB_DESCRIPTOR_TYPE_MESSAGE _UPB_MODE_ARRAY O;
                submsg_field 4 32 UPB_DESCRIPTOR_TYPE_GROUP _UPB_MODE_ARRAY O;
                submsg_field 5 40 UPB_DESCRIPTOR_TYPE_MESSAGE _UPB_MODE_MAP 1];
     ext := _UPB_MSGEXT_EXTENDABLE |}.

Definition link_layouts : list upb_msglayout := [link_layout; link_entry_layout].

Definition link_ext : upb_msglayout_ext :=
  {| ext_field := submsg_field 100 0 UPB_DESCRIPTOR_TYPE_MESSAGE _UPB_MODE_SCALAR O;
     ext_sub := O |}.

(** A message of the type that holds [inner] in the way [k] and nothing
    else; the map entry has the key 1. *)
Definition link_msg (k : link) (inner : upb_msg) : upb_msg :=
  match k with
  | via_message => Msg [(8, CMsg inner)] None []
  | via_group => Msg [(16, CMsg inner)] None []
  | via_repeated_message => Msg [(24, CArr [CMsg inner])] None []
  | via_repeated_group => Msg [(32, CArr [CMsg inner])] None []
  | via_map_value => Msg [(40, CMap [(CData [x01; x00; x00; x00], CMsg inner)])] None []
  | via_extension => Msg [] None [(link_ext, CMsg inner)]
  end.

(** The chain with the links [links], outermost first: [length links + 1]
    messages, the innermost empty. *)
Fixpoint link_chain (links : list link) : upb_msg :=
  match links with
  | [] => Msg [] None []
  | k :: tl => link_msg k (link_chain tl)
  end.

(** A MessageSet type; [msgset_chain k] is a chain of [k + 1] messages of the
    type, each the item 100 of the one around it.  The type is entry 0 of
    the table [[msgset_layout]]. *)
Definition msgset_layout : upb_msglayout :=
  {| subs := []; fields := []; ext := _UPB_MSGEXT_MSGSET |}.

Fixpoint msgset_chain (k : nat) : upb_msg :=
  match k with
  | O => Msg [] None []
  | S k' => Msg [] None [(link_ext, CMsg (msgset_chain k'))]
  end.

(** ** Invariants of the encoder state *)

(** A normal return of [r] carries a well-formed state in which the
    invariant [I] holds. *)
Definition keeps_gen {A : Type} (I : upb_encstate -> Prop)
  (st : A -> upb_encstate) (r : outcome A) : Prop :=
  forall a, r = Ok a -> wf (st a) /\ I (st a).

Definition keeps (I : upb_encstate -> Prop) (r : outcome upb_encstate) : Prop :=
  keeps_gen I (fun e => e) r.

(** The sizes of the blocks a run asked the allocator for, the newest first:
    each is 128 doubled some number of times and at least twice the one
    asked for before it. *)
Fixpoint doubling (sizes : list Z) : Prop :=
  match sizes with
  | [] => True
  | s :: rest => pow2_from_128 s /\ 2 * hd 0 rest <= s /\ doubling rest
  end.

(** The state of the buffer against the allocator: [log0] is the log of the
    allocator when the run began, the buffer is the newest block of the run
    (none before the first request), and a block larger than 128 bytes is
    less than twice the output plus 15 bytes. *)
Definition alloc_inv (log0 : list Z) (e : upb_encstate) : Prop :=
  exists sizes,
    alloc_log (alloc (ctx e)) = sizes ++ log0 /\
    doubling sizes /\
    limit (ctx e) = hd 0 sizes /\
    (limit (ctx e) = 0 \/ limit (ctx e) = 128 \/
     limit (ctx e) < 2 * (limit (ctx e) - ptr e + 15)).

(** [string a = 1; string b = 2], each holding 100 bytes. *)
Definition long_strings_layout : upb_msglayout :=
  plain_layout [scalar_field 1 8 0 UPB_DESCRIPTOR_TYPE_STRING _UPB_REP_STRVIEW;
                scalar_field 2 24 0 UPB_DESCRIPTOR_TYPE_STRING _UPB_REP_STRVIEW].
Definition long_strings_msg : upb_msg :=
  Msg [(8, CStr (repeat x61 100)); (24, CStr (repeat x62 100))] None [].

(** ** Two runs of the encoder *)

(** Two states agree on the options that select what is written. *)
Definition same_mode (e1 e2 : upb_encstate) : Prop :=
  Z.land (options (ctx e1)) UPB_ENCODE_DETERMINISTIC
  = Z.land (options (ctx e2)) UPB_ENCODE_DETERMINISTIC /\
  Z.land (options (ctx e1)) UPB_ENCODE_SKIPUNKNOWN
  = Z.land (options (ctx e2)) UPB_ENCODE_SKIPUNKNOWN.

Definition pair_ok (e1 e2 : upb_encstate) : Prop :=
  wf e1 /\ wf e2 /\ same_mode e1 e2.

(** The results [r1] and [r2] of one emitter started in [e1] and in [e2]:
    when both are normal returns, both have put the same bytes in front of
    their output, and the values returned are related by [val]. *)
Definition twin_gen {A : Type} (st : A -> upb_encstate) (val : A -> A -> Prop)
  (e1 e2 : upb_encstate) (r1 r2 : outcome A) : Prop :=
  forall a1 a2, r1 = Ok a1 -> r2 = Ok a2 ->
    val a1 a2 /\
    exists c, extends e1 (st a1) c /\ extends e2 (st a2) c.

Definition twin (e1 e2 : upb_encstate) (r1 r2 : outcome upb_encstate) : Prop :=
  twin_gen (fun e => e) (fun _ _ => True) e1 e2 r1 r2.

(** Two results of the message emitter report the same size. *)
Definition same_size (a1 a2 : upb_encstate * Z) : Prop := snd a1 = snd a2.

(** An allocator other than [always_alloc] that grants every request. *)
Definition used_alloc : upb_alloc :=
  {| alloc_func := fun _ => true; alloc_log := [4096; 128] |}.

(** ** Arrays of sub-messages *)

(** [chunk] is the record of the element [c] of a repeated sub-message field
    numbered [n]: the tag, the number of bytes the message emitter [cb] wrote
    for the element as a varint, and these bytes. *)
Definition message_record
  (cb : upb_encstate -> upb_msg -> upb_msglayout -> outcome (upb_encstate * Z))
  (n : Z) (subm : upb_msglayout) (c : cell) (chunk : list byte) : Prop :=
  exists m e0 e1 body,
    read_msg c = Some (Some m) /\ wf e0 /\
    cb e0 m subm = Ok (e1, Z.of_nat (length body)) /\
    written e1 = map Byte body ++ written e0 /\
    chunk = varint_bytes (make_tag n UPB_WIRE_TYPE_DELIMITED)
            ++ varint_bytes (Z.of_nat (length body)) ++ body.

(** The same for an element of a repeated group field: the start tag, the
    bytes of the element and the end tag. *)
Definition group_record
  (cb : upb_encstate -> upb_msg -> upb_msglayout -> outcome (upb_encstate * Z))
  (n : Z) (subm : upb_msglayout) (c : cell) (chunk : list byte) : Prop :=
  exists m e0 e1 body size,
    read_msg c = Some (Some m) /\ wf e0 /\
    cb e0 m subm = Ok (e1, size) /\
    written e1 = map Byte body ++ written e0 /\
    chunk = varint_bytes (make_tag n UPB_WIRE_TYPE_START_GROUP)
            ++ body ++ varint_bytes (make_tag n UPB_WIRE_TYPE_END_GROUP).

(** [repeated Inner items = 1] holding two messages of scenario S6, with
    [a = 7] and [a = 8]. *)
Definition s6_array_field : upb_msglayout_field :=
  {| number := 1; offset := 8; presence := 0; submsg_index := O;
     descriptortype := UPB_DESCRIPTOR_TYPE_MESSAGE; mode := _UPB_MODE_ARRAY;
     packed := false; rep := _UPB_REP_8BYTE |}.
Definition s6_inner_8 : upb_msg := Msg [(8, CData [x08; x00; x00; x00])] None [].

(* ================================================================== *)
(** * The layout generator (upbc/protoc-gen-upb.cc) *)

(** The generator reads a message through the descriptor interface of the
    protobuf library.  A function below takes the descriptor calls it makes
    as parameters: [number] is [field->number()], [message_type] is
    [field->message_type()], and so on. *)

From Stdlib Require Strings.String.
Import String.StringSyntax.
Delimit Scope string_scope with string.

(** ** Field order and the dense prefix *)

(** [std::sort] with the comparison [a->number() < b->number()], on the
    numbers of the fields. *)
Fixpoint number_insert (x : Z) (l : list Z) : list Z :=
  match l with
  | [] => [x]
  | y :: tl => if x <? y then x :: l else y :: number_insert x tl
  end.

Definition number_sort (l : list Z) : list Z := fold_right number_insert [] l.

(** [FieldNumberOrder]: the fields of the message, here their numbers in
    declaration order, sorted by number. *)
Definition FieldNumberOrder (fields : list Z) : list Z := number_sort fields.

Definition dense_below_max : Z := 255.

(** One round of the field loop of [WriteMessage], as far as it concerns
    [dense_below], a [uint8_t]. *)
Definition dense_below_step (field_number_order : list Z) (dense_below : Z)
  (i : nat) : Z :=
  if (Z.of_nat i <? dense_below_max)
     && (nth i field_number_order 0 =? Z.of_nat i + 1)
     && ((i =? 0)%nat || (nth (i - 1) field_number_order 0 =? Z.of_nat i))
  then (Z.of_nat i + 1) mod 2 ^ 8
  else dense_below.

(** [dense_below] when the field loop of [WriteMessage] ends. *)
Definition dense_below_loop (field_number_order : list Z) : Z :=
  fold_left (dense_below_step field_number_order)
    (seq 0 (length field_number_order)) 0.

(** ** Sub-message arrays *)

Section Submessages.

Variables FieldDescriptor Descriptor : Type.
Variable message_type : FieldDescriptor -> Descriptor.
(** Equality of two descriptor pointers. *)
Variable Descriptor_eqb : Descriptor -> Descriptor -> bool.

(** [struct SubmsgArray]: [indexes_] is the hash map, kept as the list of its
    pairs. *)
Record SubmsgArray : Type := {
  submsgs_ : list Descriptor;
  indexes_ : list (Descriptor * Z)
}.

(** [indexes_.find(d)]; [None] is [indexes_.end()]. *)
Definition indexes_find (indexes : list (Descriptor * Z)) (d : Descriptor)
  : option Z :=
  option_map snd (find (fun kv => Descriptor_eqb (fst kv) d) indexes).

(** One round of the loop of the constructor; [i] is the loop's counter. *)
Definition SubmsgArray_step (st : SubmsgArray * Z) (submsg : FieldDescriptor)
  : SubmsgArray * Z :=
  match indexes_find (indexes_ (fst st)) (message_type submsg) with
  | Some _ => st
  | None =>
      ({| submsgs_ := submsgs_ (fst st) ++ [message_type submsg];
          indexes_ := (message_type submsg, snd st) :: indexes_ (fst st) |},
       snd st + 1)
  end.

(** The constructor, from the vector [SortedSubmessages(message)]. *)
Definition SubmsgArray_new (sorted_submsgs : list FieldDescriptor) : SubmsgArray :=
  fst (fold_left SubmsgArray_step sorted_submsgs
         ({| submsgs_ := []; indexes_ := [] |}, 0)).

(** [GetIndex]; [None] when the assertion [it != indexes_.end()] fails. *)
Definition GetIndex (a : SubmsgArray) (field : FieldDescriptor) : option Z :=
  indexes_find (indexes_ a) (message_type field).

End Submessages.

Arguments submsgs_ {Descriptor} _.
Arguments indexes_ {Descriptor} _.
Arguments indexes_find {Descriptor} _ _ _.
Arguments SubmsgArray_step {FieldDescriptor Descriptor} _ _ _ _.
Arguments SubmsgArray_new {FieldDescriptor Descriptor} _ _ _.
Arguments GetIndex {FieldDescriptor Descriptor} _ _ _ _.

(** What the constructor's loop keeps, [seen] being the fields it has gone
    through: the counter is the length of the array, the array has no type
    twice and holds the types of the fields seen, and the map sends a type
    to its place in the array. *)
Definition submsgs_inv {FieldDescriptor Descriptor : Type}
  (message_type : FieldDescriptor -> Descriptor)
  (Descriptor_eqb : Descriptor -> Descriptor -> bool)
  (seen : list FieldDescriptor) (st : SubmsgArray Descriptor * Z) : Prop :=
  snd st = Z.of_nat (length (submsgs_ (fst st))) /\
  NoDup (submsgs_ (fst st)) /\
  (forall d j, indexes_find Descriptor_eqb (indexes_ (fst st)) d = Some j <->
               0 <= j /\ nth_error (submsgs_ (fst st)) (Z.to_nat j) = Some d) /\
  (forall d, In d (submsgs_ (fst st)) <->
             exists f, In f seen /\ message_type f = d).

(** ** The fast-decode table *)

(** [TableEntry]: the name of the parser function and its data word. *)
Definition TableEntry : Type := String.string * Z.

Definition fastdecode_generic : TableEntry := ("fastdecode_generic"%string, 0).

(** [WireFormatLite::MakeTag] of the protobuf library:
    [(field_number << 3) | wire_type] in [uint32_t]. *)
Definition MakeTag (field_number wire_type : Z) : Z :=
  u32 (Z.lor (Z.shiftl field_number 3) wire_type).

(** [CodedOutputStream::WriteVarint32ToArray] of the protobuf library: the
    varint of [value] is stored at the start of [target]. *)
Definition WriteVarint32ToArray (value : Z) (target : list byte) : list byte :=
  base128 value ++ skipn (length (base128 value)) target.

Section FastTable.

Variable FieldDescriptor : Type.
Variable number : FieldDescriptor -> Z.
(** [WireFormat::WireTypeForField(field)] of the protobuf library. *)
Variable WireTypeForField : FieldDescriptor -> Z.

(** [GetEncodedTag]: the bytes of the tag's varint, read as a [uint64_t] of
    the host ("TODO: byte-swap for big endian"). *)
Definition GetEncodedTag (big_endian : bool) (field : FieldDescriptor) : Z :=
  let wire_type := WireTypeForField field in
  let unencoded_tag := MakeTag (number field) wire_type in
  let tag_bytes := repeat x00 10 in
  let tag_bytes := WriteVarint32ToArray unencoded_tag tag_bytes in
  host_value big_endian (firstn 8 tag_bytes).

Definition GetTableSlot (big_endian : bool) (field : FieldDescriptor) : Z :=
  let tag := GetEncodedTag big_endian field in
  if 32767 <? tag then -1
  else Z.shiftr (Z.land tag 248) 3.

(** [TryFillTableEntry(message, layout, field, ent)] as [FastDecodeTable]
    uses it: the entry when it returns true. *)
Variable TryFillTableEntry : FieldDescriptor -> option TableEntry.

(** [table.resize(size, value)]. *)
Definition resize (table : list TableEntry) (size : nat) (value : TableEntry)
  : list TableEntry :=
  firstn size table ++ repeat value (size - length table).

(** The loop [while ((size_t)slot >= table.size())] of [FastDecodeTable];
    [fuel] bounds its rounds. *)
Fixpoint grow_table (fuel : nat) (slot : Z) (table : list TableEntry)
  : list TableEntry :=
  match fuel with
  | O => table
  | S k =>
      if Z.of_nat (length table) <=? slot
      then
        let size := Nat.max 1 (length table * 2) in
        grow_table k slot (resize table size fastdecode_generic)
      else table
  end.

(** [table[slot] = ent]. *)
Definition table_set (table : list TableEntry) (slot : nat) (ent : TableEntry)
  : list TableEntry :=
  firstn slot table ++ ent :: skipn (S slot) table.

(** One round of the field loop of [FastDecodeTable]; [slot_of] is
    [GetTableSlot]. *)
Definition FastDecodeTable_step (slot_of : FieldDescriptor -> Z)
  (table : list TableEntry) (field : FieldDescriptor) : list TableEntry :=
  let slot := slot_of field in
  if slot <? 0 then table
  else
    match TryFillTableEntry field with
    | None => table
    | Some ent =>
        let table := grow_table (S (Z.to_nat slot)) slot table in
        if negb (String.eqb (fst (nth (Z.to_nat slot) table fastdecode_generic))
                   "fastdecode_generic"%string)
        then table
        else table_set table (Z.to_nat slot) ent
    end.

(** [FastDecodeTable], from the vector [FieldHotnessOrder(message)]. *)
Definition FastDecodeTable_of (slot_of : FieldDescriptor -> Z)
  (hot : list FieldDescriptor) : list TableEntry :=
  fold_left (FastDecodeTable_step slot_of) hot [].

Definition FastDecodeTable (big_endian : bool) (hot : list FieldDescriptor)
  : list TableEntry :=
  FastDecodeTable_of (GetTableSlot big_endian) hot.

End FastTable.

Arguments GetEncodedTag {FieldDescriptor} _ _ _ _.
Arguments GetTableSlot {FieldDescriptor} _ _ _ _.
Arguments FastDecodeTable_step {FieldDescriptor} _ _ _ _.
Arguments FastDecodeTable_of {FieldDescriptor} _ _ _.
Arguments FastDecodeTable {FieldDescriptor} _ _ _ _ _.

(** [table_mask] of [WriteMessage], a [uint8_t] that starts as [-1]. *)
Definition table_mask (table : list TableEntry) : Z :=
  if 1 <? Z.of_nat (length table)
  then Z.shiftl (Z.of_nat (length table) - 1) 3 mod 2 ^ 8
  else 255.

(** The entry of the first field of [hot] that has the slot [slot] and that
    [TryFillTableEntry] accepts. *)
Definition first_fit {FieldDescriptor : Type}
  (TryFillTableEntry : FieldDescriptor -> option TableEntry)
  (slot_of : FieldDescriptor -> Z) (hot : list FieldDescriptor) (slot : Z)
  : option TableEntry :=
  match find (fun f => (slot_of f =? slot)
                       && match TryFillTableEntry f with
                          | Some _ => true
                          | None => false
                          end) hot with
  | Some f => TryFillTableEntry f
  | None => None
  end.

(** The shape of the table once the fields [seen] have been gone through:
    empty or a power of two long, long enough for every slot in use, and no
    longer than the largest slot in use needs. *)
Definition table_shape {FieldDescriptor : Type}
  (TryFillTableEntry : FieldDescriptor -> option TableEntry)
  (slot_of : FieldDescriptor -> Z) (seen : list FieldDescriptor)
  (table : list TableEntry) : Prop :=
  (table = [] \/ exists k : nat, length table = (2 ^ k)%nat) /\
  (forall slot, 0 <= slot ->
     first_fit TryFillTableEntry slot_of seen slot <> None ->
     slot < Z.of_nat (length table)) /\
  (table <> [] ->
   exists slot, 0 <= slot /\
     first_fit TryFillTableEntry slot_of seen slot <> None /\
     Z.of_nat (length table) <= Z.max 1 (2 * slot)).

(** The entries of the table once the fields [seen] have been gone through. *)
Definition table_content {FieldDescriptor : Type}
  (TryFillTableEntry : FieldDescriptor -> option TableEntry)
  (slot_of : FieldDescriptor -> Z) (seen : list FieldDescriptor)
  (table : list TableEntry) : Prop :=
  forall slot, 0 <= slot ->
    nth (Z.to_nat slot) table fastdecode_generic
    = match first_fit TryFillTableEntry slot_of seen slot with
      | Some ent => ent
      | None => fastdecode_generic
      end.

(* ================================================================== *)
(** * Properties *)

Ltac simpl_state :=
  unfold set_ptr, set_buf, set_depth;
  cbn [ptr ctx buf options depth alloc alloc_func].

Lemma Ok_inj {A : Type} (a b : A) : Ok a = Ok b -> a = b.
Proof. intros H; now injection H. Qed.

Ltac inv_Ok H := apply Ok_inj in H; subst.

(** ** Bytes *)

Lemma Z_of_byte_range (b : byte) : 0 <= Z_of_byte b < 256.
Proof.
  unfold Z_of_byte. pose proof (Byte.to_N_bounded b). lia.
Qed.

Lemma Z_of_byte_of_Z (z : Z) : Z_of_byte (byte_of_Z z) = z mod 256.
Proof.
  unfold Z_of_byte, byte_of_Z.
  assert (Hr : 0 <= z mod 256 < 256) by (apply Z.mod_pos_bound; lia).
  destruct (Byte.of_N (Z.to_N (z mod 256))) as [b|] eqn:E.
  - apply Byte.to_of_N in E. rewrite E. lia.
  - apply Byte.of_N_None_iff in E. lia.
Qed.

Lemma byte_of_Z_of_byte (b : byte) : byte_of_Z (Z_of_byte b) = b.
Proof.
  unfold byte_of_Z. pose proof (Z_of_byte_range b) as Hr.
  rewrite Z.mod_small by lia. unfold Z_of_byte. rewrite N2Z.id.
  now rewrite Byte.of_to_N.
Qed.

Lemma byte_of_Z_mod (z : Z) : byte_of_Z (z mod 256) = byte_of_Z z.
Proof.
  unfold byte_of_Z. now rewrite Z.mod_mod by lia.
Qed.

Lemma Z_of_byte_inj (a b : byte) : Z_of_byte a = Z_of_byte b -> a = b.
Proof.
  intros H. rewrite <- (byte_of_Z_of_byte a), <- (byte_of_Z_of_byte b). now rewrite H.
Qed.

Lemma le_bytes_length (n : nat) (z : Z) : length (le_bytes n z) = n.
Proof.
  revert z; induction n; intros; simpl; auto.
Qed.

Lemma le_value_bytes (n : nat) (z : Z) :
  le_value (le_bytes n z) = z mod 256 ^ Z.of_nat n.
Proof.
  revert z; induction n as [|n IH]; intros z.
  - simpl. now rewrite Z.mod_1_r.
  - cbn [le_bytes le_value]. rewrite IH, Z_of_byte_of_Z.
    rewrite Nat2Z.inj_succ, Z.pow_succ_r by lia.
    rewrite Z.rem_mul_r by lia. reflexivity.
Qed.

Lemma le_value_range (bs : list byte) :
  0 <= le_value bs < 256 ^ Z.of_nat (length bs).
Proof.
  induction bs as [|b tl IH].
  - simpl. lia.
  - cbn [le_value length]. rewrite Nat2Z.inj_succ, Z.pow_succ_r by lia.
    pose proof (Z_of_byte_range b). lia.
Qed.

Lemma le_bytes_value (bs : list byte) : le_bytes (length bs) (le_value bs) = bs.
Proof.
  induction bs as [|b tl IH]; cbn [le_bytes le_value length]; auto.
  pose proof (Z_of_byte_range b) as Hb.
  assert (Hm : (Z_of_byte b + 256 * le_value tl) mod 256 = Z_of_byte b).
  { rewrite (Z.mul_comm 256), Z.mod_add by lia. now apply Z.mod_small. }
  assert (Hd : (Z_of_byte b + 256 * le_value tl) / 256 = le_value tl).
  { rewrite (Z.mul_comm 256), Z.div_add by lia. rewrite Z.div_small by lia. lia. }
  rewrite Hd, IH. f_equal.
  rewrite <- byte_of_Z_mod, Hm. apply byte_of_Z_of_byte.
Qed.

(** What [encode_fixed32] / [encode_fixed64] hand to [encode_bytes] is the
    little-endian representation on either host. *)
Lemma host_bytes_swap (big_endian : bool) (n : nat) (val : Z) :
  host_bytes big_endian n (_upb_be_swap big_endian n val) = le_bytes n val.
Proof.
  unfold host_bytes, _upb_be_swap. destruct big_endian; auto.
  set (X := rev (le_bytes n val)).
  assert (Hn : n = length X) by (unfold X; now rewrite length_rev, le_bytes_length).
  rewrite Hn at 1. rewrite le_bytes_value. apply rev_involutive.
Qed.

(** ** The buffer *)

Lemma written_length (e : upb_encstate) :
  wf e -> Z.of_nat (length (written e)) = limit (ctx e) - ptr e.
Proof.
  unfold wf, written, limit. intros H. rewrite length_skipn. lia.
Qed.

Lemma extends_refl (e : upb_encstate) : wf e -> extends e e [].
Proof.
  intros H. split; auto.
Qed.

Lemma extends_trans (e e1 e2 : upb_encstate) (c1 c2 : list byte) :
  extends e e1 c1 -> extends e1 e2 c2 -> extends e e2 (c2 ++ c1).
Proof.
  intros [W1 H1 O1 A1] [W2 H2 O2 A2]. split; auto; try congruence.
  rewrite H2, H1, map_app, app_assoc. reflexivity.
Qed.

Lemma extends_size (e e' : upb_encstate) (chunk : list byte) :
  wf e -> extends e e' chunk ->
  (limit (ctx e') - ptr e') - (limit (ctx e) - ptr e) = Z.of_nat (length chunk).
Proof.
  intros W [W' H _ _].
  rewrite <- (written_length e), <- (written_length e') by assumption.
  rewrite H, length_app, length_map. lia.
Qed.

Lemma extends_set_depth (e e' : upb_encstate) (chunk : list byte) (d : Z) :
  extends e e' chunk -> extends e (set_depth e' d) chunk.
Proof.
  intros [W H O A]. split; auto.
Qed.

Lemma extends_from_set_depth (e e' : upb_encstate) (chunk : list byte) (d : Z) :
  extends (set_depth e d) e' chunk -> extends e e' chunk.
Proof.
  intros [W H O A]. split; auto.
Qed.

Lemma wf_set_depth (e : upb_encstate) (d : Z) : wf e -> wf (set_depth e d).
Proof. auto. Qed.

Lemma length_memcpy (dst src : list memval) (off : Z) :
  0 <= off -> off + Z.of_nat (length src) <= Z.of_nat (length dst) ->
  length (memcpy dst off src) = length dst.
Proof.
  intros H0 H1. unfold memcpy.
  rewrite !length_app, length_firstn, length_skipn. lia.
Qed.

Lemma skipn_memcpy (dst src : list memval) (off : Z) :
  0 <= off -> off + Z.of_nat (length src) <= Z.of_nat (length dst) ->
  skipn (Z.to_nat off) (memcpy dst off src)
  = src ++ skipn (Z.to_nat off + length src) dst.
Proof.
  intros H0 H1. unfold memcpy.
  rewrite skipn_app, length_firstn.
  replace (Z.to_nat off - Nat.min (Z.to_nat off) (length dst))%nat with O by lia.
  rewrite skipn_all2 by (rewrite length_firstn; lia). reflexivity.
Qed.

Lemma roundup_loop_ge (fuel : nat) (ret bytes : Z) :
  0 < ret -> bytes <= ret * 2 ^ Z.of_nat fuel -> bytes <= roundup_loop fuel ret bytes.
Proof.
  revert ret; induction fuel as [|k IH]; intros ret Hr Hb.
  - simpl in *. lia.
  - cbn [roundup_loop]. destruct (ret <? bytes) eqn:E.
    + apply IH; [lia|].
      rewrite Nat2Z.inj_succ, Z.pow_succ_r in Hb by lia. lia.
    + apply Z.ltb_ge in E. lia.
Qed.

(** The loop of [upb_roundup_pow2] ends by its own test: the result is at
    least the size asked for. *)
Lemma upb_roundup_pow2_ge (bytes : Z) : bytes <= upb_roundup_pow2 bytes.
Proof.
  unfold upb_roundup_pow2. apply roundup_loop_ge; [lia|].
  destruct (Z_le_gt_dec bytes 1) as [H|H].
  - assert (0 < 2 ^ Z.of_nat (Z.to_nat (Z.log2_up bytes))) by (apply Z.pow_pos_nonneg; lia).
    lia.
  - rewrite Z2Nat.id by apply Z.log2_up_nonneg.
    pose proof (Z.log2_up_spec bytes ltac:(lia)). lia.
Qed.

Lemma encode_reserve_spec (e e' : upb_encstate) (bytes : Z) :
  wf e -> 0 <= bytes -> encode_reserve e bytes = Ok e' ->
  0 <= ptr e' /\ ptr e' + bytes <= limit (ctx e') /\
  skipn (Z.to_nat (ptr e' + bytes)) (buf (ctx e')) = written e /\
  options (ctx e') = options (ctx e) /\
  depth (ctx e') = depth (ctx e) /\
  alloc_func (alloc (ctx e')) = alloc_func (alloc (ctx e)).
Proof.
  intros W Hb. unfold encode_reserve.
  destruct (ptr e - 0 <? bytes) eqn:E.
  - unfold encode_growbuffer.
    set (cur := limit (ctx e) - ptr e).
    set (new_size := upb_roundup_pow2 (bytes + cur)).
    assert (Hge : bytes + cur <= new_size) by apply upb_roundup_pow2_ge.
    assert (Hcur : 0 <= cur) by (unfold cur, wf in *; lia).
    assert (Hlen : length (written e) = Z.to_nat cur).
    { pose proof (written_length e W). unfold cur. lia. }
    unfold upb_malloc.
    destruct (alloc_func (alloc (ctx e)) (new_size :: alloc_log (alloc (ctx e))));
      [|discriminate].
    intros H; injection H as <-. unfold limit.
    cbn [ptr ctx buf options depth alloc alloc_func].
    replace (new_size - cur - bytes + bytes) with (new_size - cur) by lia.
    destruct (0 <? cur) eqn:Ec; cbv iota.
    + fold (written e). rewrite <- Hlen, firstn_all.
      assert (Hm : (new_size - cur) + Z.of_nat (length (written e))
                   <= Z.of_nat (length (repeat Undef (Z.to_nat new_size)))).
      { rewrite repeat_length. lia. }
      rewrite length_memcpy by lia. rewrite repeat_length.
      repeat split; try lia.
      rewrite skipn_memcpy by lia.
      rewrite (skipn_all2 (repeat _ _)) by (rewrite repeat_length; lia).
      apply app_nil_r.
    + apply Z.ltb_ge in Ec. rewrite repeat_length.
      repeat split; try lia.
      rewrite skipn_all2 by (rewrite repeat_length; lia).
      symmetry. apply length_zero_iff_nil. lia.
  - apply Z.ltb_ge in E. intros H; injection H as <-.
    unfold set_ptr; cbn [ptr ctx]. unfold wf in W.
    repeat split; try lia.
    replace (ptr e - bytes + bytes) with (ptr e) by lia. reflexivity.
Qed.

Lemma encode_reserve_longjmp (e : upb_encstate) (bytes : Z) (err : upb_error) :
  encode_reserve e bytes = Longjmp err ->
  err = OutOfMemory /\ exists log, alloc_func (alloc (ctx e)) log = false.
Proof.
  unfold encode_reserve, encode_growbuffer, upb_malloc, encode_err.
  destruct (ptr e - 0 <? bytes); [|discriminate].
  destruct (alloc_func _ _) eqn:E; [discriminate|].
  intros H; injection H as <-. eauto.
Qed.

Lemma encode_reserve_defined (e : upb_encstate) (bytes : Z) :
  encode_reserve e bytes <> Undefined /\ encode_reserve e bytes <> OutOfFuel.
Proof.
  unfold encode_reserve, encode_growbuffer, upb_malloc, encode_err.
  destruct (ptr e - 0 <? bytes); [|split; discriminate].
  destruct (alloc_func _ _); split; discriminate.
Qed.

(** [encode_bytes] puts [data] in front of the output. *)
Lemma encode_bytes_spec (e e' : upb_encstate) (data : list byte) :
  wf e -> encode_bytes e (map Byte data) = Ok e' ->
  extends e e' data /\ depth (ctx e') = depth (ctx e).
Proof.
  intros W. unfold encode_bytes. rewrite length_map.
  destruct (Z.of_nat (length data) =? 0) eqn:E.
  - apply Z.eqb_eq in E. intros H; injection H as <-.
    assert (data = []) by (apply length_zero_iff_nil; lia). subst data.
    split; auto using extends_refl.
  - destruct (encode_reserve e (Z.of_nat (length data))) as [e1| | |] eqn:R;
      try discriminate.
    cbn [bind]. intros H; injection H as <-.
    apply encode_reserve_spec in R; [|assumption|lia].
    destruct R as (R0 & R1 & R2 & R3 & R4 & R5).
    assert (Hl : Z.of_nat (length (map Byte data)) = Z.of_nat (length data))
      by now rewrite length_map.
    unfold limit in R1.
    split; [split|]; auto.
    + unfold wf, set_buf, limit; cbn [ptr ctx buf].
      rewrite length_memcpy by lia. lia.
    + unfold written at 1. unfold set_buf; cbn [ptr ctx buf].
      rewrite skipn_memcpy by lia. f_equal.
      rewrite <- R2, length_map. f_equal. lia.
Qed.

(** ** Varints *)

Lemma memcpy_adjacent (dst s1 s2 : list memval) (off : Z) :
  0 <= off ->
  off + Z.of_nat (length s1) + Z.of_nat (length s2) <= Z.of_nat (length dst) ->
  memcpy (memcpy dst off s1) (off + Z.of_nat (length s1)) s2
  = memcpy dst off (s1 ++ s2).
Proof.
  intros H0 H1. unfold memcpy.
  replace (Z.to_nat (off + Z.of_nat (length s1)))
    with (Z.to_nat off + length s1)%nat by lia.
  assert (Hf : length (firstn (Z.to_nat off) dst) = Z.to_nat off)
    by (rewrite length_firstn; lia).
  rewrite (app_assoc (firstn _ dst) s1).
  rewrite firstn_app, length_app, Hf.
  replace (Z.to_nat off + length s1 - (Z.to_nat off + length s1))%nat with O by lia.
  rewrite firstn_O, app_nil_r.
  rewrite firstn_all2 by (rewrite length_app, Hf; lia).
  rewrite skipn_app, length_app, Hf.
  rewrite skipn_all2 by (rewrite length_app, Hf; lia).
  replace (Z.to_nat off + length s1 + length s2 - (Z.to_nat off + length s1))%nat
    with (length s2) by lia.
  rewrite skipn_skipn, length_app, <- !app_assoc. cbn [app].
  do 4 f_equal. lia.
Qed.

Lemma varint_loop_length (fuel : nat) (val : Z) :
  (length (varint_loop fuel val) <= fuel)%nat.
Proof.
  revert val; induction fuel as [|k IH]; intros val; cbn [varint_loop length]; auto.
  destruct (127 <? val); cbn [length]; [specialize (IH (Z.shiftr val 7))|]; lia.
Qed.

Lemma varint_bytes_length (val : Z) : (length (varint_bytes val) <= 10)%nat.
Proof. apply varint_loop_length. Qed.

Lemma varint_bytes_nonempty (val : Z) : (1 <= length (varint_bytes val))%nat.
Proof.
  unfold varint_bytes, UPB_PB_VARINT_MAX_LEN. cbn [varint_loop].
  destruct (127 <? val); cbn [length]; lia.
Qed.

(** The pointer loop stores exactly [varint_loop] and returns the pointer
    past it. *)
Lemma encode_varint64_spec (fuel : nat) (val : Z) (buffer : list memval) (pos : Z) :
  0 <= pos ->
  pos + Z.of_nat (length (varint_loop fuel val)) <= Z.of_nat (length buffer) ->
  encode_varint64 fuel val buffer pos
  = (memcpy buffer pos (map Byte (varint_loop fuel val)),
     pos + Z.of_nat (length (varint_loop fuel val))).
Proof.
  revert val buffer pos; induction fuel as [|k IH]; intros val buffer pos H0 H1.
  - cbn [encode_varint64 varint_loop map length]. f_equal; [|lia].
    unfold memcpy. cbn [app length]. rewrite Nat.add_0_r.
    now rewrite firstn_skipn.
  - cbn [encode_varint64 varint_loop] in *.
    destruct (127 <? val) eqn:E.
    + cbn [length map] in *.
      assert (Hs : length (store buffer pos (byte_of_Z (Z.lor val 128))) = length buffer).
      { unfold store. apply length_memcpy; cbn [length]; lia. }
      rewrite IH by (rewrite ?Hs; lia).
      f_equal; [|lia].
      unfold store.
      change (pos + 1) with (pos + Z.of_nat (length [Byte (byte_of_Z (Z.lor val 128))])).
      rewrite memcpy_adjacent; [reflexivity|lia|].
      cbn [length]. rewrite length_map. lia.
    + cbn [length map]. reflexivity.
Qed.

Lemma scratch_tail (vb : list byte) :
  (1 <= length vb <= 10)%nat ->
  firstn 16 (skipn (Z.to_nat (16 + Z.of_nat (length vb) - 16))
               (memcpy (repeat Undef 32) 16 (map Byte vb)))
  = repeat Undef (16 - length vb) ++ map Byte vb.
Proof.
  intros H.
  do 11 (destruct vb as [|? vb]; [try (cbn [length] in H; lia); try reflexivity|]).
  cbn [length] in H. lia.
Qed.

Lemma encode_longvarint_spec (e e' : upb_encstate) (val : Z) :
  wf e -> encode_longvarint e val = Ok e' ->
  extends e e' (varint_bytes val) /\ depth (ctx e') = depth (ctx e).
Proof.
  intros W. unfold encode_longvarint.
  pose proof (varint_bytes_length val) as Hl.
  pose proof (varint_bytes_nonempty val) as Hn.
  fold (varint_bytes val) in *.
  rewrite encode_varint64_spec
    by (fold (varint_bytes val); rewrite ?repeat_length; lia).
  fold (varint_bytes val).
  set (vb := varint_bytes val) in *.
  destruct (encode_reserve e 16) as [e1| | |] eqn:R; try discriminate.
  cbv beta iota delta [bind]. rewrite scratch_tail by lia.
  set (data := repeat Undef (16 - length vb) ++ map Byte vb).
  intros H; inv_Ok H.
  apply encode_reserve_spec in R; [|assumption|lia].
  destruct R as (R0 & R1 & R2 & R3 & R4 & R5).
  assert (Hd : length data = 16%nat).
  { unfold data. rewrite length_app, repeat_length, length_map. lia. }
  unfold limit in R1.
  split; [split|]; auto.
  - unfold wf, limit; simpl_state.
    rewrite length_memcpy by lia. lia.
  - unfold written at 1. simpl_state.
    replace (Z.to_nat (ptr e1 + 16 - (16 + Z.of_nat (length vb) - 16)))
      with ((16 - length vb) + Z.to_nat (ptr e1))%nat by lia.
    rewrite <- skipn_skipn, skipn_memcpy by lia.
    rewrite Hd. replace (Z.to_nat (ptr e1) + 16)%nat with (Z.to_nat (ptr e1 + 16)) by lia.
    rewrite R2. unfold data. rewrite <- app_assoc, skipn_app.
    rewrite skipn_all2 by (rewrite repeat_length; lia).
    rewrite repeat_length, Nat.sub_diag. reflexivity.
Qed.

(** [encode_varint], on either path, puts [varint_bytes val] in front of the
    output. *)
Lemma encode_varint_spec (e e' : upb_encstate) (val : Z) :
  wf e -> encode_varint e val = Ok e' ->
  extends e e' (varint_bytes val) /\ depth (ctx e') = depth (ctx e).
Proof.
  intros W. unfold encode_varint.
  destruct ((val <? 128) && negb (ptr e =? 0)) eqn:E.
  - apply andb_true_iff in E. destruct E as [E1 E2].
    apply Z.ltb_lt in E1. apply negb_true_iff, Z.eqb_neq in E2.
    intros H; inv_Ok H. unfold wf, limit in W.
    assert (Hv : varint_bytes val = [byte_of_Z val]).
    { unfold varint_bytes, UPB_PB_VARINT_MAX_LEN. cbn [varint_loop].
      destruct (127 <? val) eqn:E3; auto. apply Z.ltb_lt in E3. lia. }
    rewrite Hv. split; [split|]; auto.
    + unfold wf, store, limit; simpl_state.
      rewrite length_memcpy by (cbn [length]; lia). lia.
    + unfold written at 1. unfold store; simpl_state.
      rewrite skipn_memcpy by (cbn [length]; lia). cbn [map app length].
      do 2 f_equal. unfold written. f_equal. lia.
  - apply encode_longvarint_spec; assumption.
Qed.

Lemma encode_tag_spec (e e' : upb_encstate) (n wt : Z) :
  wf e -> encode_tag e n wt = Ok e' ->
  extends e e' (varint_bytes (make_tag n wt)) /\ depth (ctx e') = depth (ctx e).
Proof. apply encode_varint_spec. Qed.

(** *** The loop against the base-128 encoding *)

Lemma lor_128_byte (val : Z) :
  byte_of_Z (Z.lor val 128) = byte_of_Z (128 + val mod 128).
Proof.
  rewrite <- (byte_of_Z_mod (Z.lor val 128)).
  assert (H1 : Z.lor val 128 mod 256 = Z.lor (val mod 256) 128).
  { change 256 with (2 ^ 8). rewrite <- !Z.land_ones by lia.
    now rewrite Z.land_lor_distr_l. }
  assert (H2 : val mod 128 = (val mod 256) mod 128).
  { symmetry. apply Z.mod_mod_divide. exists 2. reflexivity. }
  rewrite H1, H2, <- (Z_of_byte_of_Z val).
  destruct (byte_of_Z val); reflexivity.
Qed.

Lemma base128_length_small (v : Z) : v <= 127 -> base128_length v = 1%nat.
Proof.
  intros H. unfold base128_length.
  destruct (Z_le_gt_dec v 0) as [L|L].
  - rewrite Z.log2_nonpos by lia. reflexivity.
  - assert (Z.log2 v < 7) by (apply Z.log2_lt_pow2; lia).
    pose proof (Z.log2_nonneg v).
    rewrite Z.div_small by lia. reflexivity.
Qed.

Lemma base128_length_step (v : Z) :
  127 < v -> base128_length v = S (base128_length (v / 128)).
Proof.
  intros H. unfold base128_length. f_equal.
  change 128 with (2 ^ 7). rewrite <- Z.shiftr_div_pow2 by lia.
  rewrite Z.log2_shiftr by lia.
  assert (7 <= Z.log2 v) by (apply Z.log2_le_pow2; lia).
  rewrite Z.max_r by lia.
  replace (Z.log2 v) with ((Z.log2 v - 7) + 1 * 7) at 1 by lia.
  rewrite Z.div_add by lia.
  assert (0 <= (Z.log2 v - 7) / 7) by (apply Z.div_pos; lia).
  lia.
Qed.

Lemma varint_loop_base128 (fuel : nat) (val : Z) :
  0 <= val -> (base128_length val <= fuel)%nat ->
  varint_loop fuel val = base128 val.
Proof.
  revert val; induction fuel as [|k IH]; intros val H0 Hf.
  - unfold base128_length in Hf. lia.
  - cbn [varint_loop]. unfold base128. destruct (127 <? val) eqn:E.
    + apply Z.ltb_lt in E. rewrite base128_length_step in * by lia.
      assert (Hs : Z.shiftr val 7 = val / 128)
        by (change 128 with (2 ^ 7); now rewrite Z.shiftr_div_pow2 by lia).
      rewrite Hs, IH; [|apply Z.div_pos; lia|lia]. unfold base128.
      remember (base128_length (val / 128)) as n eqn:Hn.
      destruct n as [|n]; [unfold base128_length in Hn; lia|].
      cbn [base128_groups]. f_equal. apply lor_128_byte.
    + apply Z.ltb_ge in E. rewrite base128_length_small by lia.
      cbn [base128_groups]. now rewrite Z.mod_small by lia.
Qed.

Lemma base128_length_u64 (val : Z) :
  0 <= val < 2 ^ 64 -> (base128_length val <= 10)%nat.
Proof.
  intros H. unfold base128_length.
  destruct (Z.eq_dec val 0) as [->|N]; [simpl; lia|].
  assert (Z.log2 val < 64) by (apply Z.log2_lt_pow2; lia).
  pose proof (Z.log2_nonneg val).
  assert (Z.log2 val / 7 <= 9) by (apply Z.div_le_upper_bound; lia).
  assert (0 <= Z.log2 val / 7) by (apply Z.div_pos; lia).
  lia.
Qed.

(** On a 64-bit value the loop of [encode_varint64] runs to its end within
    [UPB_PB_VARINT_MAX_LEN] rounds and yields the base-128 encoding. *)
Lemma varint_bytes_base128 (val : Z) :
  0 <= val < 2 ^ 64 -> varint_bytes val = base128 val.
Proof.
  intros H. apply varint_loop_base128; [lia|].
  now apply base128_length_u64.
Qed.

Lemma varint_value_groups (n : nat) (v : Z) :
  0 <= v < 128 ^ Z.of_nat (S n) ->
  varint_value (base128_groups (S n) v) = v.
Proof.
  revert v; induction n as [|n IH]; intros v H.
  - cbn [base128_groups varint_value]. rewrite Z_of_byte_of_Z.
    change (128 ^ Z.of_nat 1) with 128 in H.
    rewrite (Z.mod_small v 128) by lia.
    rewrite (Z.mod_small v 256) by lia. rewrite Z.mod_small by lia. lia.
  - change (base128_groups (S (S n)) v)
      with (byte_of_Z (128 + v mod 128) :: base128_groups (S n) (v / 128)).
    cbn [varint_value]. rewrite Z_of_byte_of_Z.
    pose proof (Z.mod_pos_bound v 128 ltac:(lia)) as Hm.
    rewrite (Z.mod_small (128 + _) 256) by lia.
    assert (Hr : (128 + v mod 128) mod 128 = v mod 128).
    { replace (128 + v mod 128) with (v mod 128 + 1 * 128) by lia.
      rewrite Z.mod_add by lia. apply Z.mod_mod. lia. }
    rewrite Hr.
    rewrite IH.
    + pose proof (Z.div_mod v 128 ltac:(lia)). lia.
    + rewrite (Nat2Z.inj_succ (S n)), Z.pow_succ_r in H by lia.
      split; [apply Z.div_pos; lia|apply Z.div_lt_upper_bound; lia].
Qed.

Lemma base128_length_bound (v : Z) :
  0 <= v -> v < 128 ^ Z.of_nat (base128_length v).
Proof.
  intros H. unfold base128_length.
  destruct (Z.eq_dec v 0) as [->|N]; [simpl; lia|].
  pose proof (Z.log2_spec v ltac:(lia)) as [_ Hu].
  pose proof (Z.log2_nonneg v) as Hl.
  assert (Hq : 0 <= Z.log2 v / 7) by (apply Z.div_pos; lia).
  rewrite Nat2Z.inj_succ, Z2Nat.id by lia.
  change 128 with (2 ^ 7). rewrite <- Z.pow_mul_r by lia.
  eapply Z.lt_le_trans; [exact Hu|].
  apply Z.pow_le_mono_r; [lia|].
  pose proof (Z.div_mod (Z.log2 v) 7 ltac:(lia)).
  pose proof (Z.mod_pos_bound (Z.log2 v) 7 ltac:(lia)). lia.
Qed.

Lemma varint_value_base128 (v : Z) : 0 <= v -> varint_value (base128 v) = v.
Proof.
  intros H. pose proof (base128_length_bound v H) as Hb.
  unfold base128. unfold base128_length in *.
  apply varint_value_groups. lia.
Qed.

Lemma base128_groups_length (n : nat) (v : Z) : length (base128_groups n v) = n.
Proof.
  revert v; induction n as [|n IH]; intros v; auto.
  destruct n as [|n]; auto.
  change (base128_groups (S (S n)) v)
    with (byte_of_Z (128 + v mod 128) :: base128_groups (S n) (v / 128)).
  cbn [length]. now rewrite IH.
Qed.

(** ** Contracts of the primitive emitters *)

Lemma emits_gen_bind {A B : Type} (stA : A -> upb_encstate) (stB : B -> upb_encstate)
  (e : upb_encstate) (c : outcome A) (k : A -> outcome B)
  (Q1 : A -> list byte -> Prop) (Q : B -> list byte -> Prop) :
  emits_gen stA e c Q1 ->
  (forall a c1, extends e (stA a) c1 -> Q1 a c1 ->
     emits_gen stB (stA a) (k a) (fun b c2 => Q b (c2 ++ c1))) ->
  emits_gen stB e (bind c k) Q.
Proof.
  intros H1 H2. destruct c as [a|[]| |]; cbn [bind emits_gen] in *; auto.
  destruct H1 as (c1 & E1 & HQ1). specialize (H2 a c1 E1 HQ1).
  destruct (k a) as [b|[]| |]; cbn [emits_gen] in *; auto.
  - destruct H2 as (c2 & E2 & HQ). exists (c2 ++ c1). split; auto.
    eapply extends_trans; eauto.
  - destruct H2 as (log & Hlog). exists log.
    now rewrite <- (ext_alloc _ _ _ E1).
Qed.

(** A read that does not touch the state. *)
Lemma emits_gen_read {A B : Type} (stB : B -> upb_encstate)
  (e : upb_encstate) (o : option A) (k : A -> outcome B)
  (Q : B -> list byte -> Prop) :
  (forall a, o = Some a -> emits_gen stB e (k a) Q) ->
  emits_gen stB e (bind (of_option o) k) Q.
Proof.
  intros H. destruct o as [a|]; cbn [of_option bind emits_gen]; auto.
Qed.

Lemma emits_gen_weaken {A : Type} (st : A -> upb_encstate) (e : upb_encstate)
  (r : outcome A) (Q Q' : A -> list byte -> Prop) :
  emits_gen st e r Q ->
  (forall a c, extends e (st a) c -> Q a c -> Q' a c) ->
  emits_gen st e r Q'.
Proof.
  intros H HQ. destruct r as [a|[]| |]; cbn [emits_gen] in *; auto.
  destruct H as (c & E & H). exists c. auto.
Qed.

Lemma emits_gen_Ok {A : Type} (st : A -> upb_encstate) (e : upb_encstate) (a : A)
  (Q : A -> list byte -> Prop) :
  extends e (st a) [] -> Q a [] -> emits_gen st e (Ok a) Q.
Proof.
  intros E H. exists []. auto.
Qed.

Lemma emits_Ok_inv {A : Type} (st : A -> upb_encstate) (e : upb_encstate)
  (r : outcome A) (a : A) (Q : A -> list byte -> Prop) :
  emits_gen st e r Q -> r = Ok a -> exists chunk, extends e (st a) chunk /\ Q a chunk.
Proof.
  intros H ->. exact H.
Qed.

Lemma emits_bytes (e : upb_encstate) (data : list byte) :
  wf e -> emits e (encode_bytes e (map Byte data)) (writes (eq data) e).
Proof.
  intros W. unfold emits, emits_gen, writes.
  destruct (encode_bytes e (map Byte data)) as [e'|[]| |] eqn:E; auto.
  - apply encode_bytes_spec in E; auto. destruct E. eauto.
  - unfold encode_bytes in E.
    destruct (Z.of_nat (length (map Byte data)) =? 0); [discriminate|].
    destruct (encode_reserve e _) as [e1|err| |] eqn:R; try discriminate.
    cbn [bind] in E. injection E as ->.
    now apply encode_reserve_longjmp in R.
Qed.

Lemma encode_bytes_no_maxdepth (e : upb_encstate) (data : list memval) :
  encode_bytes e data <> Longjmp MaxDepthExceeded.
Proof.
  unfold encode_bytes.
  destruct (Z.of_nat (length data) =? 0); [discriminate|].
  destruct (encode_reserve e _) as [e1|err| |] eqn:R; try discriminate.
  cbn [bind]. apply encode_reserve_longjmp in R. destruct R as [-> _]. discriminate.
Qed.

Lemma emits_varint (e : upb_encstate) (val : Z) :
  wf e -> emits e (encode_varint e val) (writes (eq (varint_bytes val)) e).
Proof.
  intros W. unfold emits, emits_gen, writes.
  destruct (encode_varint e val) as [e'|[]| |] eqn:E; auto.
  - apply encode_varint_spec in E; auto. destruct E. eauto.
  - unfold encode_varint in E.
    destruct ((val <? 128) && negb (ptr e =? 0)); [discriminate|].
    unfold encode_longvarint in E.
    destruct (encode_varint64 _ _ _ _) as [b en].
    destruct (encode_reserve e 16) as [e1|err| |] eqn:R; try discriminate.
    cbn [bind] in E. injection E as ->.
    now apply encode_reserve_longjmp in R.
Qed.

Lemma encode_varint_no_maxdepth (e : upb_encstate) (val : Z) :
  encode_varint e val <> Longjmp MaxDepthExceeded.
Proof.
  unfold encode_varint.
  destruct ((val <? 128) && negb (ptr e =? 0)); [discriminate|].
  unfold encode_longvarint.
  destruct (encode_varint64 _ _ _ _) as [b en].
  destruct (encode_reserve e 16) as [e1|err| |] eqn:R; try discriminate.
  cbn [bind]. apply encode_reserve_longjmp in R. destruct R as [-> _]. discriminate.
Qed.

Lemma emits_tag (e : upb_encstate) (n wt : Z) :
  wf e -> emits e (encode_tag e n wt) (writes (eq (varint_bytes (make_tag n wt))) e).
Proof. apply emits_varint. Qed.

Lemma emits_fixed32 (big_endian : bool) (e : upb_encstate) (val : Z) :
  wf e -> emits e (encode_fixed32 big_endian e val) (writes (eq (le_bytes 4 val)) e).
Proof.
  intros W. unfold encode_fixed32, _upb_be_swap32.
  rewrite host_bytes_swap. now apply emits_bytes.
Qed.

Lemma emits_fixed64 (big_endian : bool) (e : upb_encstate) (val : Z) :
  wf e -> emits e (encode_fixed64 big_endian e val) (writes (eq (le_bytes 8 val)) e).
Proof.
  intros W. unfold encode_fixed64, _upb_be_swap64.
  rewrite host_bytes_swap. now apply emits_bytes.
Qed.

(** ** Wire records *)

Lemma wire_records_nil (n : Z) : wire_records n [].
Proof. exists []. split; auto. Qed.

Lemma wire_records_one (n : Z) (r : list byte) :
  wire_record n r -> wire_records n r.
Proof.
  intros H. exists [r]. split; [cbn; now rewrite app_nil_r|auto].
Qed.

Lemma wire_records_app (n : Z) (a b : list byte) :
  wire_records n a -> wire_records n b -> wire_records n (a ++ b).
Proof.
  intros (ra & -> & Ha) (rb & -> & Hb). exists (ra ++ rb).
  split; [now rewrite concat_app|now apply Forall_app].
Qed.

(** A loop whose body keeps the depth and writes [P]-chunks does so as a
    whole, when [P] is closed under juxtaposition. *)
Lemma emits_each {A : Type} (P : list byte -> Prop)
  (body : upb_encstate -> A -> outcome upb_encstate) (l : list A) :
  P [] -> (forall a b, P a -> P b -> P (b ++ a)) ->
  (forall e x, In x l -> wf e -> emits e (body e x) (writes P e)) ->
  forall e, wf e -> emits e (encode_each body e l) (writes P e).
Proof.
  intros P0 Papp. induction l as [|x tl IH]; intros Hb e W.
  - cbn [encode_each]. apply emits_gen_Ok; [now apply extends_refl|].
    split; auto.
  - cbn [encode_each]. eapply emits_gen_bind.
    + apply Hb; [now left|assumption].
    + intros e1 c1 E1 [D1 P1]. eapply emits_gen_weaken.
      * apply IH; [|exact (ext_wf _ _ _ E1)].
        intros e2 y Hy W2. apply Hb; [now right|assumption].
      * intros e2 c2 E2 [D2 P2]. split; [congruence|auto].
Qed.

(** ** Contracts of the field emitters *)

Lemma emits_gen_set_depth {A : Type} (st : A -> upb_encstate) (e : upb_encstate)
  (d : Z) (r : outcome A) (Q : A -> list byte -> Prop) :
  emits_gen st (set_depth e d) r Q -> emits_gen st e r Q.
Proof.
  destruct r as [a|[]| |]; cbn [emits_gen]; auto.
  intros (c & E & H). exists c. split; auto.
  now apply extends_from_set_depth in E.
Qed.

Lemma make_tag_nonzero (n wt : Z) : 0 < wt -> make_tag n wt <> 0.
Proof.
  intros H E. unfold make_tag in E. apply Z.lor_eq_0_iff in E. lia.
Qed.

Lemma make_tag_varint_nonzero (n : Z) :
  0 < n < 2 ^ 29 -> make_tag n UPB_WIRE_TYPE_VARINT <> 0.
Proof.
  intros H E. unfold make_tag, UPB_WIRE_TYPE_VARINT, u32 in E.
  rewrite Z.lor_0_r, Z.shiftl_mul_pow2 in E by lia.
  rewrite Z.mod_small in E; lia.
Qed.

(** One step of a proof about a sequence of emitter calls. *)
Ltac emits_read :=
  match goal with
  | |- emits_gen _ _ (bind (of_option _) _) _ =>
      apply emits_gen_read; intros ? ?
  | |- emits_gen _ _ (bind (submsg _ _ _) _) _ =>
      unfold submsg; apply emits_gen_read; intros ? ?
  end.

Ltac emits_leaf :=
  match goal with
  | |- emits_gen _ _ (encode_fixed32 _ _ _) _ => apply emits_fixed32
  | |- emits_gen _ _ (encode_fixed64 _ _ _) _ => apply emits_fixed64
  | |- emits_gen _ _ (encode_tag _ _ _) _ => apply emits_tag
  | |- emits_gen _ _ (encode_varint _ _) _ => apply emits_varint
  | |- emits_gen _ _ (encode_bytes _ (map Byte _)) _ => apply emits_bytes
  end.

Ltac emits_bind e1 c1 E1 D1 P1 :=
  unfold emits; eapply emits_gen_bind;
  [ emits_leaf; eauto using ext_wf
  | intros e1 c1 E1 [D1 P1]; try subst c1 ].

Ltac emits_last e1 c1 E1 D1 P1 :=
  unfold emits; eapply emits_gen_weaken;
  [ emits_leaf; eauto using ext_wf
  | intros e1 c1 E1 [D1 P1]; try subst c1 ].

Lemma read_raw_length (n : nat) (c : cell) (raw : list byte) :
  read_raw n c = Some raw -> length raw = n.
Proof.
  destruct c; cbn [read_raw]; try discriminate.
  - intros H; injection H as <-. apply repeat_length.
  - destruct (Nat.eqb (length bs) n) eqn:E; [|discriminate].
    intros H; injection H as <-. now apply Nat.eqb_eq.
Qed.

Lemma emits_fixedarray (e : upb_encstate) (arr : list cell) (elem_size : nat)
  (tag n wt : Z) :
  wf e ->
  tag = 0 \/ (tag = make_tag n wt /\
              ((elem_size = 8%nat /\ wt = UPB_WIRE_TYPE_64BIT) \/
               (elem_size = 4%nat /\ wt = UPB_WIRE_TYPE_32BIT))) ->
  emits e (encode_fixedarray_impl e arr elem_size tag)
    (writes (fun c => tag <> 0 -> wire_records n c) e).
Proof.
  intros W Ht. unfold encode_fixedarray_impl.
  destruct (tag =? 0) eqn:E; cbn [negb].
  - apply Z.eqb_eq in E. unfold emits. emits_read.
    emits_last e1 c1 E1 D1 P1. split; [assumption|]. intros; contradiction.
  - apply Z.eqb_neq in E. destruct Ht as [Ht|[-> Hs]]; [contradiction|].
    eapply emits_gen_weaken.
    + apply (emits_each (wire_records n)); auto using wire_records_nil.
      * intros a b Ha Hb. now apply wire_records_app.
      * intros e0 x _ W0. unfold emits. emits_read.
        emits_bind e1 c1 E1 D1 P1. emits_last e2 c2 E2 D2 P2.
        split; [congruence|]. apply wire_records_one.
        apply read_raw_length in H.
        destruct Hs as [[-> ->]|[-> ->]]; [now apply WR_64bit|now apply WR_32bit].
    + intros e1 c1 E1 [D1 P1]. split; auto.
Qed.

(** [encode_shouldencode] only reads. *)
Lemma encode_shouldencode_option (big_endian : bool) (msg : list (Z * cell))
  (subs_ : list upb_msglayout_sub) (f : upb_msglayout_field) :
  exists o, encode_shouldencode big_endian msg subs_ f = of_option o.
Proof.
  unfold encode_shouldencode.
  destruct (presence f =? 0); [destruct (rep f)|destruct (0 <? presence f)];
    eauto.
  - destruct (read_strview (UPB_PTR_AT msg (offset f))) as [s|];
      [exists (Some (negb (Z.of_nat (length s) =? 0)))|exists None]; reflexivity.
  - destruct (_upb_getoneofcase_field big_endian msg f) as [c|];
      [exists (Some (c =? number f))|exists None]; reflexivity.
Qed.

Section EmitterContracts.

Variable big_endian : bool.
Variable layouts : list upb_msglayout.
Variable cb : upb_encstate -> upb_msg -> upb_msglayout -> outcome (upb_encstate * Z).

Hypothesis Hcb : message_contract cb.

Lemma emits_scalar (e : upb_encstate) (c : cell) (subs_ : list upb_msglayout_sub)
  (f : upb_msglayout_field) :
  wf e ->
  emits e (encode_scalar_impl big_endian layouts cb e c subs_ f)
    (writes (wire_records (number f)) e).
Proof.
  intros W. unfold emits, encode_scalar_impl, encode_double, encode_float.
  destruct (descriptortype f).
  all: repeat emits_read.
  all: try (emits_bind e1 c1 E1 D1 P1; emits_last e2 c2 E2 D2 P2;
            (split; [congruence|]); apply wire_records_one;
            first [ apply WR_varint
                  | apply WR_64bit; apply le_bytes_length
                  | apply WR_32bit; apply le_bytes_length ]).
  - (* STRING *)
    emits_bind e1 c1 E1 D1 P1. emits_bind e2 c2 E2 D2 P2.
    emits_last e3 c3 E3 D3 P3. split; [congruence|].
    apply wire_records_one. rewrite <- app_assoc. apply WR_delimited.
  - (* GROUP *)
    destruct a as [m|].
    2:{ apply emits_gen_Ok; [now apply extends_refl|]. split; auto using wire_records_nil. }
    cbv zeta. set (e0 := set_depth e (depth (ctx e) - 1)).
    destruct (depth (ctx e0) =? 0); [exact I|].
    apply (emits_gen_set_depth _ e (depth (ctx e) - 1)). fold e0.
    assert (W0 : wf e0) by exact W.
    eapply emits_gen_bind; [apply emits_tag; exact W0|].
    intros e1 c1 E1 [D1 P1]. subst c1.
    eapply emits_gen_bind; [apply Hcb; exact (ext_wf _ _ _ E1)|].
    intros [e2 size] c2 E2 [D2 P2]. cbn [fst snd] in *.
    apply (emits_gen_set_depth _ e2 (depth (ctx e2) + 1)).
    eapply emits_gen_weaken; [apply emits_tag; apply wf_set_depth; exact (ext_wf _ _ _ E2)|].
    intros e3 c3 E3 [D3 P3]. subst c3. split.
    + rewrite D3. cbn [set_depth ctx depth]. rewrite D2, D1.
      unfold e0; cbn [set_depth ctx depth]. lia.
    + apply wire_records_one. rewrite <- app_assoc. apply WR_group.
  - (* MESSAGE *)
    destruct a as [m|].
    2:{ apply emits_gen_Ok; [now apply extends_refl|]. split; auto using wire_records_nil. }
    cbv zeta. set (e0 := set_depth e (depth (ctx e) - 1)).
    destruct (depth (ctx e0) =? 0); [exact I|].
    apply (emits_gen_set_depth _ e (depth (ctx e) - 1)). fold e0.
    assert (W0 : wf e0) by exact W.
    eapply emits_gen_bind; [apply Hcb; exact W0|].
    intros [e1 size] c1 E1 [D1 P1]. cbn [fst snd] in *.
    eapply emits_gen_bind; [apply emits_varint; exact (ext_wf _ _ _ E1)|].
    intros e2 c2 E2 [D2 P2]. subst c2.
    apply (emits_gen_set_depth _ e2 (depth (ctx e2) + 1)).
    eapply emits_gen_weaken; [apply emits_tag; apply wf_set_depth; exact (ext_wf _ _ _ E2)|].
    intros e3 c3 E3 [D3 P3]. subst c3. split.
    + rewrite D3. cbn [set_depth ctx depth]. rewrite D2, D1.
      unfold e0; cbn [set_depth ctx depth]. lia.
    + apply wire_records_one. rewrite <- app_assoc, P1. apply WR_delimited.
  - (* BYTES *)
    emits_bind e1 c1 E1 D1 P1. emits_bind e2 c2 E2 D2 P2.
    emits_last e3 c3 E3 D3 P3. split; [congruence|].
    apply wire_records_one. rewrite <- app_assoc. apply WR_delimited.
Qed.

Lemma emits_VARINT_CASE (e : upb_encstate) (arr : list cell) (f : upb_msglayout_field)
  (read : cell -> option Z) :
  wf e ->
  emits e (VARINT_CASE e arr f read)
    (writes (fun c => packed f = false -> valid_number f ->
                      wire_records (number f) c) e).
Proof.
  intros W. unfold VARINT_CASE.
  apply (emits_each (fun c => packed f = false -> valid_number f ->
                              wire_records (number f) c)); auto.
  - intros; apply wire_records_nil.
  - intros a b Ha Hb Hp Hv. apply wire_records_app; auto.
  - intros e0 x _ W0. unfold emits. emits_read.
    emits_bind e1 c1 E1 D1 P1.
    destruct (packed f) eqn:Ep; cbn [negb Z.eqb].
    + apply emits_gen_Ok; [apply extends_refl; eauto using ext_wf|].
      split; [assumption|]. intros; discriminate.
    + destruct (make_tag (number f) UPB_WIRE_TYPE_VARINT =? 0) eqn:Et; cbn [negb].
      * apply Z.eqb_eq in Et.
        apply emits_gen_Ok; [apply extends_refl; eauto using ext_wf|].
        split; [assumption|]. intros _ Hv.
        now apply make_tag_varint_nonzero in Hv.
      * emits_last e2 c2 E2 D2 P2. split; [congruence|].
        intros _ _. apply wire_records_one. apply WR_varint.
Qed.

(** The code after the [switch] of [encode_array_impl]: for a packed field,
    the length of what the elements occupy and one tag. *)
Lemma emits_after_switch (e e1 : upb_encstate) (c1 : list byte)
  (f : upb_msglayout_field) :
  wf e -> extends e e1 c1 -> depth (ctx e1) = depth (ctx e) ->
  (packed f = false -> valid_number f -> wire_records (number f) c1) ->
  emits e1
    (if packed f
     then e2 <- encode_varint e1
                  (limit (ctx e1) - ptr e1 - (limit (ctx e) - ptr e)) ;;
          encode_tag e2 (number f) UPB_WIRE_TYPE_DELIMITED
     else Ok e1)
    (fun e2 c2 =>
       writes (fun c => valid_number f -> wire_records (number f) c) e e2 (c2 ++ c1)).
Proof.
  intros W E1 D1 P1. destruct (packed f).
  - rewrite (extends_size e e1 c1 W E1).
    emits_bind e2 c2 E2 D2 P2. emits_last e3 c3 E3 D3 P3.
    split; [congruence|]. intros _. apply wire_records_one.
    rewrite <- app_assoc. apply WR_delimited.
  - apply emits_gen_Ok; [apply extends_refl; eauto using ext_wf|].
    split; auto.
Qed.

Lemma emits_message_elems (e : upb_encstate) (arr : list cell)
  (body : upb_encstate -> cell -> outcome upb_encstate) (n : Z) :
  wf e ->
  (forall e0 x, wf e0 -> emits e0 (body e0 x) (writes (wire_records n) e0)) ->
  emits e
    (let e := set_depth e (depth (ctx e) - 1) in
     if depth (ctx e) =? 0 then encode_err MaxDepthExceeded
     else e <- encode_each body e (rev arr) ;;
          Ok (set_depth e (depth (ctx e) + 1)))
    (writes (wire_records n) e).
Proof.
  intros W Hbody. cbv zeta. set (e0 := set_depth e (depth (ctx e) - 1)).
  destruct (depth (ctx e0) =? 0); [exact I|].
  unfold emits. apply (emits_gen_set_depth _ e (depth (ctx e) - 1)). fold e0.
  eapply emits_gen_bind.
  - apply (emits_each (wire_records n));
      [ apply wire_records_nil
      | intros a b Ha Hb; now apply wire_records_app
      | intros e1 x _ W1; now apply Hbody
      | exact W ].
  - intros e1 c1 E1 [D1 P1].
    apply emits_gen_Ok.
    + apply extends_set_depth, extends_refl. exact (ext_wf _ _ _ E1).
    + split; [|now rewrite app_nil_l].
      cbn [set_depth ctx depth]. rewrite D1. unfold e0.
      cbn [set_depth ctx depth]. lia.
Qed.

Lemma emits_array (e : upb_encstate) (msg : list (Z * cell))
  (subs_ : list upb_msglayout_sub) (f : upb_msglayout_field) :
  wf e ->
  emits e (encode_array_impl big_endian layouts cb e msg subs_ f)
    (writes (fun c => valid_number f -> wire_records (number f) c) e).
Proof.
  intros W. unfold emits, encode_array_impl, encode_fixedarray. emits_read.
  destruct a as [arr|].
  2:{ apply emits_gen_Ok; [now apply extends_refl|].
      split; auto using wire_records_nil. }
  destruct (Z.of_nat (length arr) =? 0).
  { apply emits_gen_Ok; [now apply extends_refl|].
    split; auto using wire_records_nil. }
  cbv zeta.
  assert (Hfixed : forall sz wt,
    (sz = 8%nat /\ wt = UPB_WIRE_TYPE_64BIT) \/ (sz = 4%nat /\ wt = UPB_WIRE_TYPE_32BIT) ->
    emits_gen (fun e' => e') e
      (e1 <- encode_fixedarray_impl e arr sz
               (if packed f then 0 else make_tag (number f) wt) ;;
       if packed f
       then e2 <- encode_varint e1
                    (limit (ctx e1) - ptr e1 - (limit (ctx e) - ptr e)) ;;
            encode_tag e2 (number f) UPB_WIRE_TYPE_DELIMITED
       else Ok e1)
      (writes (fun c => valid_number f -> wire_records (number f) c) e)).
  { intros sz wt Hs. eapply emits_gen_bind.
    - apply (emits_fixedarray e arr sz _ (number f) wt W).
      destruct (packed f); [now left|right; auto].
    - intros e1 c1 E1 [D1 P1]. apply emits_after_switch; auto.
      intros Hp _. apply P1. rewrite Hp. apply make_tag_nonzero.
      destruct Hs as [[_ ->]|[_ ->]]; reflexivity. }
  assert (Hvarint : forall read,
    emits_gen (fun e' => e') e
      (e1 <- VARINT_CASE e arr f read ;;
       if packed f
       then e2 <- encode_varint e1
                    (limit (ctx e1) - ptr e1 - (limit (ctx e) - ptr e)) ;;
            encode_tag e2 (number f) UPB_WIRE_TYPE_DELIMITED
       else Ok e1)
      (writes (fun c => valid_number f -> wire_records (number f) c) e)).
  { intros read. eapply emits_gen_bind.
    - apply emits_VARINT_CASE; assumption.
    - intros e1 c1 E1 [D1 P1]. apply emits_after_switch; auto. }
  assert (Hstr :
    emits_gen (fun e' => e') e
      (encode_each
         (fun e elem =>
            view <- of_option (read_strview elem) ;;
            e <- encode_bytes e (map Byte view) ;;
            e <- encode_varint e (Z.of_nat (length view)) ;;
            encode_tag e (number f) UPB_WIRE_TYPE_DELIMITED)
         e (rev arr))
      (writes (fun c => valid_number f -> wire_records (number f) c) e)).
  { eapply emits_gen_weaken.
    - apply (emits_each (wire_records (number f))); auto using wire_records_nil.
      + intros a b Ha Hb. now apply wire_records_app.
      + intros e0 x _ W0. unfold emits. emits_read.
        emits_bind e1 c1 E1 D1 P1. emits_bind e2 c2 E2 D2 P2.
        emits_last e3 c3 E3 D3 P3. split; [congruence|].
        apply wire_records_one. rewrite <- app_assoc. apply WR_delimited.
    - intros e1 c1 E1 [D1 P1]. split; auto. }
  destruct (descriptortype f);
    try (apply Hfixed; auto; fail); try apply Hvarint; try apply Hstr.
  - (* GROUP *)
    emits_read. eapply emits_gen_weaken.
    + apply (emits_message_elems e arr _ (number f) W).
      intros e0 x W0. unfold emits.
      emits_bind e1 c1 E1 D1 P1. emits_read.
      eapply emits_gen_bind; [apply Hcb; exact (ext_wf _ _ _ E1)|].
      intros [e2 size] c2 E2 [D2 P2]. cbn [fst snd] in *.
      emits_last e3 c3 E3 D3 P3. split; [congruence|].
      apply wire_records_one. rewrite <- app_assoc. apply WR_group.
    + intros e1 c1 E1 [D1 P1]. split; auto.
  - (* MESSAGE *)
    emits_read. eapply emits_gen_weaken.
    + apply (emits_message_elems e arr _ (number f) W).
      intros e0 x W0. unfold emits. emits_read.
      eapply emits_gen_bind; [apply Hcb; exact W0|].
      intros [e1 size] c1 E1 [D1 P1]. cbn [fst snd] in *.
      emits_bind e2 c2 E2 D2 P2. emits_last e3 c3 E3 D3 P3.
      split; [congruence|].
      apply wire_records_one. rewrite <- app_assoc, P1. apply WR_delimited.
    + intros e1 c1 E1 [D1 P1]. split; auto.
Qed.

Lemma emits_mapentry (e : upb_encstate) (n : Z) (layout : upb_msglayout)
  (ent : cell * cell) :
  wf e ->
  emits e (encode_mapentry_impl big_endian layouts cb e n layout ent)
    (writes (wire_records n) e).
Proof.
  intros W. unfold emits, encode_mapentry_impl, encode_scalar.
  do 2 emits_read.
  eapply emits_gen_bind; [now apply emits_scalar|].
  intros e1 c1 E1 [D1 _].
  eapply emits_gen_bind; [apply emits_scalar; exact (ext_wf _ _ _ E1)|].
  intros e2 c2 E2 [D2 _].
  rewrite (extends_size e e2 (c2 ++ c1) W (extends_trans _ _ _ _ _ E1 E2)).
  emits_bind e3 c3 E3 D3 P3. emits_last e4 c4 E4 D4 P4.
  split; [congruence|]. apply wire_records_one.
  rewrite <- !app_assoc. apply WR_delimited.
Qed.

Lemma emits_map (e : upb_encstate) (msg : list (Z * cell))
  (subs_ : list upb_msglayout_sub) (f : upb_msglayout_field) :
  wf e ->
  emits e (encode_map_impl big_endian layouts cb e msg subs_ f)
    (writes (wire_records (number f)) e).
Proof.
  intros W. unfold emits, encode_map_impl, encode_mapentry. do 2 emits_read.
  destruct (negb (field_count a0 =? 2)); [exact I|].
  destruct a as [map_|].
  2:{ apply emits_gen_Ok; [now apply extends_refl|].
      split; auto using wire_records_nil. }
  assert (Hloop : forall l,
    emits_gen (fun e' => e') e
      (encode_each
         (fun e ent => encode_mapentry_impl big_endian layouts cb e (number f) a0 ent)
         e l)
      (writes (wire_records (number f)) e)).
  { intros l. apply (emits_each (wire_records (number f)));
      [ apply wire_records_nil
      | intros a b Ha Hb; now apply wire_records_app
      | intros e1 x _ W1; now apply emits_mapentry
      | exact W ]. }
  destruct (negb (Z.land (options (ctx e)) UPB_ENCODE_DETERMINISTIC =? 0)).
  - do 2 emits_read. apply Hloop.
  - apply Hloop.
Qed.

Lemma emits_field (e : upb_encstate) (msg : list (Z * cell))
  (subs_ : list upb_msglayout_sub) (f : upb_msglayout_field) :
  wf e ->
  emits e (encode_field_impl big_endian layouts cb e msg subs_ f)
    (writes (fun c => valid_number f -> wire_records (number f) c) e).
Proof.
  intros W. unfold encode_field_impl, encode_array, encode_map, encode_scalar.
  destruct (mode f).
  - eapply emits_gen_weaken; [now apply emits_map|].
    intros e1 c1 E1 [D1 P1]. split; auto.
  - now apply emits_array.
  - eapply emits_gen_weaken; [now apply emits_scalar|].
    intros e1 c1 E1 [D1 P1]. split; auto.
Qed.

Lemma emits_msgset_item (e : upb_encstate) (x : upb_msglayout_ext * cell) :
  wf e ->
  emits e (encode_msgset_item layouts cb e x) (writes (fun _ => True) e).
Proof.
  intros W. unfold emits, encode_msgset_item.
  emits_bind e1 c1 E1 D1 P1. do 2 emits_read.
  eapply emits_gen_bind; [apply Hcb; exact (ext_wf _ _ _ E1)|].
  intros [e2 size] c2 E2 [D2 P2]. cbn [fst snd] in *.
  emits_bind e3 c3 E3 D3 P3. emits_bind e4 c4 E4 D4 P4.
  emits_bind e5 c5 E5 D5 P5. emits_bind e6 c6 E6 D6 P6.
  emits_last e7 c7 E7 D7 P7. split; [congruence|exact I].
Qed.

Lemma emits_message_unknown (e : upb_encstate) (msg : upb_msg) :
  wf e -> emits e (encode_message_unknown e msg) (writes (fun _ => True) e).
Proof.
  intros W. unfold emits, encode_message_unknown.
  destruct (Z.land (options (ctx e)) UPB_ENCODE_SKIPUNKNOWN =? 0);
    [destruct (upb_msg_getunknown msg)|].
  - emits_last e1 c1 E1 D1 P1. split; auto.
  - apply emits_gen_Ok; [now apply extends_refl|]. split; auto.
  - apply emits_gen_Ok; [now apply extends_refl|]. split; auto.
Qed.

Lemma emits_message_exts (e : upb_encstate) (msg : upb_msg) (m : upb_msglayout) :
  wf e ->
  emits e (encode_message_exts big_endian layouts cb e msg m)
    (writes (fun _ => True) e).
Proof.
  intros W. unfold encode_message_exts, encode_field.
  destruct (ext m).
  - apply emits_gen_Ok; [now apply extends_refl|]. split; auto.
  - apply (emits_each (fun _ => True)); auto.
    intros e1 x _ W1. eapply emits_gen_weaken; [now apply emits_field|].
    intros e2 c2 E2 [D2 _]. split; auto.
  - apply (emits_each (fun _ => True)); auto.
    intros e1 x _ W1. now apply emits_msgset_item.
Qed.

Lemma emits_message_fields (e : upb_encstate) (msg : upb_msg) (m : upb_msglayout) :
  wf e ->
  emits e (encode_message_fields big_endian layouts cb e msg m)
    (writes (fun _ => True) e).
Proof.
  intros W. unfold encode_message_fields, encode_field.
  apply (emits_each (fun _ => True)); auto.
  intros e1 f _ W1. unfold emits.
  destruct (encode_shouldencode_option big_endian (msg_mem msg) (subs m) f) as [o ->].
  emits_read. destruct a.
  - eapply emits_gen_weaken; [now apply emits_field|].
    intros e2 c2 E2 [D2 _]. split; auto.
  - apply emits_gen_Ok; [now apply extends_refl|]. split; auto.
Qed.

Lemma emits_message_body (e : upb_encstate) (msg : upb_msg) (m : upb_msglayout) :
  wf e ->
  emits_gen fst e (encode_message_body big_endian layouts cb e msg m)
    (fun r c => depth (ctx (fst r)) = depth (ctx e) /\ snd r = Z.of_nat (length c)).
Proof.
  intros W. unfold encode_message_body.
  eapply emits_gen_bind; [now apply emits_message_unknown|].
  intros e1 c1 E1 [D1 _].
  eapply emits_gen_bind; [apply emits_message_exts; exact (ext_wf _ _ _ E1)|].
  intros e2 c2 E2 [D2 _].
  eapply emits_gen_bind; [apply emits_message_fields; exact (ext_wf _ _ _ E2)|].
  intros e3 c3 E3 [D3 _].
  pose proof (extends_trans _ _ _ _ _ (extends_trans _ _ _ _ _ E1 E2) E3) as E.
  apply emits_gen_Ok; cbn [fst snd].
  - apply extends_refl. exact (ext_wf _ _ _ E3).
  - split; [congruence|]. rewrite app_nil_l.
    rewrite (extends_size e e3 _ W E). now rewrite app_assoc.
Qed.

End EmitterContracts.

(** [encode_message_impl] keeps the depth counter and reports the number of
    bytes it put in front of the output, whatever the fuel. *)
Lemma emits_message (big_endian : bool) (layouts : list upb_msglayout) (fuel : nat) :
  message_contract (encode_message_impl big_endian layouts fuel).
Proof.
  induction fuel as [|k IH]; intros e msg l W.
  - exact I.
  - cbn [encode_message_impl]. now apply emits_message_body.
Qed.

Lemma upb_encode_ex_eq (big_endian : bool) (layouts : list upb_msglayout)
  (msg : upb_msg) (l : upb_msglayout) (options_ : Z) (arena : upb_alloc) :
  upb_encode_ex big_endian layouts msg l options_ arena
  = match entry_run big_endian layouts msg l options_ arena with
    | Longjmp _ => Ok (NULL, 0)
    | Ok (e, _) =>
        let size := limit (ctx e) - ptr e in
        if size =? 0 then Ok (static_ch, size)
        else Ok (buffer_ptr (written e), size)
    | Undefined => Undefined
    | OutOfFuel => OutOfFuel
    end.
Proof. reflexivity. Qed.

Lemma wf_entry_state (arena : upb_alloc) (options_ : Z) :
  wf (entry_state arena options_).
Proof. unfold wf, limit. cbn. lia. Qed.

Lemma encode_each_unchanged {A : Type}
  (body : upb_encstate -> A -> outcome upb_encstate) (e : upb_encstate) (l : list A) :
  Forall (fun x => body e x = Ok e) l -> encode_each body e l = Ok e.
Proof.
  induction 1 as [|x tl Hx _ IH]; cbn [encode_each]; auto.
  rewrite Hx. exact IH.
Qed.


(** ** Varint paths *)

(** Either varint path, started in a well-formed state, returns or fails for
    lack of memory; there is no third outcome. *)
Lemma varint_paths_total (e : upb_encstate) (val : Z)
  (emit : upb_encstate -> Z -> outcome upb_encstate) :
  emit = encode_varint \/ emit = encode_longvarint ->
  (exists e', emit e val = Ok e') \/
  (emit e val = Longjmp OutOfMemory /\ alloc_fails e).
Proof.
  assert (L : (exists e', encode_longvarint e val = Ok e') \/
              (encode_longvarint e val = Longjmp OutOfMemory /\ alloc_fails e)).
  { unfold encode_longvarint.
    destruct (encode_varint64 _ _ _ _) as [b en].
    pose proof (encode_reserve_defined e 16) as [D1 D2].
    destruct (encode_reserve e 16) as [e1|err| |] eqn:R; try congruence.
    - left. cbn [bind]. eauto.
    - right. cbn [bind]. apply encode_reserve_longjmp in R.
      destruct R as [-> R]. split; [reflexivity|exact R]. }
  intros [-> | ->]; [|exact L].
  unfold encode_varint.
  destruct ((val <? 128) && negb (ptr e =? 0)); [left; eauto|exact L].
Qed.

Lemma base128_length_negative (v : Z) :
  2 ^ 63 <= v < 2 ^ 64 -> base128_length v = 10%nat.
Proof.
  intros H. unfold base128_length.
  assert (Hl : Z.log2 v = 63).
  { apply Z.log2_unique; [lia|]. change (2 ^ 63) with 9223372036854775808.
    change (2 ^ Z.succ 63) with 18446744073709551616.
    change (2 ^ 63) with 9223372036854775808 in H.
    change (2 ^ 64) with 18446744073709551616 in H. lia. }
  rewrite Hl. reflexivity.
Qed.


(** ** Depth budget *)

Lemma alloc_ok_extends (e e' : upb_encstate) (c : list byte) :
  extends e e' c -> alloc_ok e -> alloc_ok e'.
Proof.
  intros E H log. rewrite (ext_alloc _ _ _ E). apply H.
Qed.

Lemma encode_reserve_succeeds (e : upb_encstate) (bytes : Z) :
  alloc_ok e -> exists e', encode_reserve e bytes = Ok e'.
Proof.
  intros H. unfold encode_reserve, encode_growbuffer, upb_malloc.
  destruct (ptr e - 0 <? bytes); eauto.
  rewrite H. eauto.
Qed.

Lemma encode_varint_succeeds (e : upb_encstate) (val : Z) :
  alloc_ok e -> exists e', encode_varint e val = Ok e'.
Proof.
  intros H. unfold encode_varint.
  destruct ((val <? 128) && negb (ptr e =? 0)); eauto.
  unfold encode_longvarint.
  destruct (encode_varint64 _ _ _ _) as [b en].
  destruct (encode_reserve_succeeds e 16 H) as [e1 ->]. cbn [bind]. eauto.
Qed.

Lemma msg_height_chain (k : nat) : msg_height (chain k) = S k.
Proof.
  induction k as [|k IH]; [reflexivity|].
  cbn [chain msg_height map list_max fold_right snd cell_height].
  rewrite IH. cbn [list_max fold_right map]. lia.
Qed.

Lemma depth_budget_range (options_ : Z) : 1 <= depth_budget options_ < 2 ^ 16.
Proof.
  unfold depth_budget. cbv zeta.
  assert (H : 0 <= Z.shiftr (u32 options_) 16 < 2 ^ 16).
  { rewrite Z.shiftr_div_pow2 by lia. unfold u32.
    pose proof (Z.mod_pos_bound options_ (2 ^ 32) ltac:(lia)) as Hm.
    split; [apply Z.div_pos; lia|apply Z.div_lt_upper_bound; lia]. }
  destruct (Z.shiftr (u32 options_) 16 =? 0) eqn:E; [lia|].
  apply Z.eqb_neq in E. lia.
Qed.

(** Entering a sub-message or group takes one off the depth counter: with
    one level of budget left that is the error, and otherwise the message
    emitter is called with the counter decremented. *)
Lemma submessage_entry (big_endian : bool) (layouts : list upb_msglayout)
  (cb : upb_encstate -> upb_msg -> upb_msglayout -> outcome (upb_encstate * Z))
  (e : upb_encstate) (m : upb_msg) (subs_ : list upb_msglayout_sub)
  (f : upb_msglayout_field) (subm : upb_msglayout) :
  submsg layouts subs_ (submsg_index f) = Ok subm ->
  (descriptortype f = UPB_DESCRIPTOR_TYPE_MESSAGE ->
   encode_scalar_impl big_endian layouts cb e (CMsg m) subs_ f
   = if depth (ctx e) =? 1 then Longjmp MaxDepthExceeded
     else
       '(e2, size) <- cb (set_depth e (depth (ctx e) - 1)) m subm ;;
       e3 <- encode_varint e2 size ;;
       encode_tag (set_depth e3 (depth (ctx e3) + 1)) (number f)
         UPB_WIRE_TYPE_DELIMITED) /\
  (descriptortype f = UPB_DESCRIPTOR_TYPE_GROUP ->
   encode_scalar_impl big_endian layouts cb e (CMsg m) subs_ f
   = if depth (ctx e) =? 1 then Longjmp MaxDepthExceeded
     else
       e1 <- encode_tag (set_depth e (depth (ctx e) - 1)) (number f)
               UPB_WIRE_TYPE_END_GROUP ;;
       '(e2, size) <- cb e1 m subm ;;
       encode_tag (set_depth e2 (depth (ctx e2) + 1)) (number f)
         UPB_WIRE_TYPE_START_GROUP).
Proof.
  intros Hs.
  assert (Hz : (depth (ctx e) - 1 =? 0) = (depth (ctx e) =? 1)).
  { destruct (depth (ctx e) =? 1) eqn:E.
    - apply Z.eqb_eq in E. apply Z.eqb_eq. lia.
    - apply Z.eqb_neq in E. apply Z.eqb_neq. lia. }
  split; intros Ht; unfold encode_scalar_impl; rewrite Ht, Hs;
    cbn [read_msg of_option bind]; cbv zeta;
    change (depth (ctx (set_depth e (depth (ctx e) - 1)))) with (depth (ctx e) - 1);
    rewrite Hz; reflexivity.
Qed.

(** The message emitter on a chain: with a budget above the number of nested
    messages it returns, otherwise it signals max-depth exceeded. *)
Lemma encode_chain (big_endian : bool) (k : nat) :
  forall fuel e,
    wf e -> alloc_ok e -> (k < fuel)%nat ->
    (Z.of_nat k < depth (ctx e) ->
     exists e' size c,
       encode_message_impl big_endian [chain_layout] fuel e (chain k) chain_layout
       = Ok (e', size) /\ extends e e' c /\
       (k <> O -> c <> [])) /\
    (1 <= depth (ctx e) <= Z.of_nat k ->
     encode_message_impl big_endian [chain_layout] fuel e (chain k) chain_layout
     = Longjmp MaxDepthExceeded).
Proof.
  induction k as [|k IH]; intros fuel e W A Hf;
    (destruct fuel as [|fuel]; [lia|]).
  - split; [|lia]. intros _. exists e, 0, []. split; [|split].
    + cbn [encode_message_impl chain]. unfold encode_message_body.
      assert (H1 : encode_message_unknown e (Msg [] None []) = Ok e).
      { unfold encode_message_unknown. cbn [upb_msg_getunknown].
        now destruct (Z.land (options (ctx e)) UPB_ENCODE_SKIPUNKNOWN =? 0). }
      rewrite H1. cbn [bind]. cbn. f_equal. f_equal. lia.
    + now apply extends_refl.
    + congruence.
  - assert (Hbody : forall r,
      encode_scalar_impl big_endian [chain_layout]
        (encode_message_impl big_endian [chain_layout] fuel) e
        (CMsg (chain k)) [O] chain_field = r ->
      encode_message_impl big_endian [chain_layout] (S fuel) e (chain (S k)) chain_layout
      = match r with
        | Ok e' => Ok (e', (limit (ctx e') - ptr e') - (limit (ctx e) - ptr e))
        | Longjmp err => Longjmp err
        | Undefined => Undefined
        | OutOfFuel => OutOfFuel
        end).
    { intros r Hr. cbn [encode_message_impl chain]. unfold encode_message_body.
      assert (H1 : encode_message_unknown e (Msg [(8, CMsg (chain k))] None []) = Ok e).
      { unfold encode_message_unknown. cbn [upb_msg_getunknown].
        now destruct (Z.land (options (ctx e)) UPB_ENCODE_SKIPUNKNOWN =? 0). }
      rewrite H1. cbn [bind].
      unfold encode_message_exts. cbn [ext chain_layout bind].
      unfold encode_message_fields, encode_field, encode_field_impl, encode_scalar.
      cbn [fields chain_layout rev app encode_each].
      unfold encode_shouldencode.
      cbn [presence chain_field Z.eqb Pos.eqb rep offset msg_mem UPB_PTR_AT
           read_nonzero Nat.eqb orb of_option bind mode subs chain_layout].
      fold chain_field. rewrite Hr. destruct r; reflexivity. }
    unfold encode_scalar_impl in Hbody.
    cbn [descriptortype chain_field read_msg of_option bind submsg nth_error
         submsg_index chain_layout] in Hbody.
    cbv zeta in Hbody. fold chain_field chain_layout in Hbody.
    set (e0 := set_depth e (depth (ctx e) - 1)) in *.
    assert (W0 : wf e0) by exact W.
    assert (A0 : alloc_ok e0) by exact A.
    assert (D0 : depth (ctx e0) = depth (ctx e) - 1) by reflexivity.
    destruct (IH fuel e0 W0 A0 ltac:(lia)) as [IHok IHerr].
    split.
    + intros Hd. destruct IHok as (e1 & size1 & c1 & R1 & E1 & _); [lia|].
      destruct (depth (ctx e0) =? 0) eqn:Z0; [apply Z.eqb_eq in Z0; lia|].
      rewrite R1 in Hbody. cbn [bind] in Hbody.
      pose proof (alloc_ok_extends _ _ _ E1 A0) as A1.
      destruct (encode_varint_succeeds e1 size1 A1) as [e2 R2].
      destruct (encode_varint_spec _ _ _ (ext_wf _ _ _ E1) R2) as [E2 _].
      rewrite R2 in Hbody. cbn [bind] in Hbody.
      pose proof (alloc_ok_extends _ _ _ E2 A1) as A2.
      set (e2' := set_depth e2 (depth (ctx e2) + 1)) in *.
      destruct (encode_varint_succeeds e2'
                  (make_tag (number chain_field) UPB_WIRE_TYPE_DELIMITED) A2)
        as [e3 R3].
      destruct (encode_tag_spec e2' e3 _ _ (ext_wf _ _ _ E2) R3) as [E3 _].
      unfold encode_tag in Hbody.
      rewrite (Hbody _ R3).
      exists e3, ((limit (ctx e3) - ptr e3) - (limit (ctx e) - ptr e)),
        ((varint_bytes (make_tag (number chain_field) UPB_WIRE_TYPE_DELIMITED)
          ++ varint_bytes size1) ++ c1).
      split; [reflexivity|]. split.
      * apply (extends_from_set_depth e e3 _ (depth (ctx e) - 1)). fold e0.
        eapply extends_trans; [exact E1|].
        eapply extends_trans; [exact E2|].
        apply (extends_from_set_depth e2 e3 _ (depth (ctx e2) + 1)). exact E3.
      * intros _ Hn. apply app_eq_nil in Hn. destruct Hn as [Hn _].
        apply app_eq_nil in Hn. destruct Hn as [Hn _].
        pose proof (varint_bytes_nonempty
                      (make_tag (number chain_field) UPB_WIRE_TYPE_DELIMITED)) as Hne.
        rewrite Hn in Hne. cbn [length] in Hne. lia.
    + intros Hd. destruct (depth (ctx e0) =? 0) eqn:Z0.
      * now rewrite (Hbody _ eq_refl).
      * apply Z.eqb_neq in Z0. rewrite IHerr in Hbody by lia.
        cbn [bind] in Hbody. now rewrite (Hbody _ eq_refl).
Qed.


(** ** Field order *)

Section FieldOrder.

Variable big_endian : bool.
Variable layouts : list upb_msglayout.
Variable cb : upb_encstate -> upb_msg -> upb_msglayout -> outcome (upb_encstate * Z).
Hypothesis Hcb : message_contract cb.

(** The loop over the fields writes, for the fields in the order it takes
    them, chunks that end up in the output in the opposite order. *)
Lemma fields_loop_chunks (msg : upb_msg) (m : upb_msglayout)
  (l : list upb_msglayout_field) :
  Forall valid_number l ->
  forall e e',
    wf e ->
    encode_each
      (fun e f =>
         b <- encode_shouldencode big_endian (msg_mem msg) (subs m) f ;;
         if b then encode_field big_endian layouts cb e (msg_mem msg) (subs m) f
         else Ok e)
      e l = Ok e' ->
    exists chunks,
      Forall2 (field_output big_endian layouts cb msg m) l chunks /\
      extends e e' (concat (rev chunks)).
Proof.
  induction 1 as [|f tl Hv _ IH]; intros e e' W H.
  - cbn [encode_each] in H. inv_Ok H. exists []. split; [constructor|].
    now apply extends_refl.
  - cbn [encode_each] in H.
    destruct (encode_shouldencode_option big_endian (msg_mem msg) (subs m) f)
      as [o Ho].
    rewrite Ho in H. destruct o as [b|]; [|discriminate].
    cbn [of_option bind] in H.
    assert (Hstep : exists e1 c,
      (if b then encode_field big_endian layouts cb e (msg_mem msg) (subs m) f
       else Ok e) = Ok e1 /\
      extends e e1 c /\ field_output big_endian layouts cb msg m f c).
    { destruct b.
      - destruct (encode_field big_endian layouts cb e (msg_mem msg) (subs m) f)
          as [e1| | |] eqn:F; try discriminate.
        pose proof (emits_field big_endian layouts cb Hcb e (msg_mem msg) (subs m) f W)
          as X.
        unfold encode_field in F. unfold emits in X. rewrite F in X.
        destruct X as (c & E & _ & P).
        exists e1, c. split; [reflexivity|]. split; [exact E|].
        split; [now apply P|]. right. split; [exact Ho|].
        exists e, e1. split; [exact W|]. split; [exact F|].
        exact (ext_written _ _ _ E).
      - exists e, []. split; [reflexivity|]. split; [now apply extends_refl|].
        split; [apply wire_records_nil|]. left. split; [exact Ho|reflexivity]. }
    destruct Hstep as (e1 & c & Hs & E1 & Fo). rewrite Hs in H. cbn [bind] in H.
    destruct (IH e1 e' (ext_wf _ _ _ E1) H) as (chunks & F2 & E2).
    exists (c :: chunks). split; [now constructor|].
    cbn [rev]. rewrite concat_app. cbn [concat]. rewrite app_nil_r.
    eapply extends_trans; eauto.
Qed.

End FieldOrder.

Lemma Forall2_rev {A B : Type} (R : A -> B -> Prop) (l1 : list A) (l2 : list B) :
  Forall2 R l1 l2 -> Forall2 R (rev l1) (rev l2).
Proof.
  induction 1 as [|x y l1 l2 Hxy _ IH]; cbn [rev]; [constructor|].
  apply Forall2_app; [exact IH|]. constructor; [exact Hxy|constructor].
Qed.

Lemma StronglySorted_app_le (l1 l2 : list Z) :
  StronglySorted Z.le l1 -> StronglySorted Z.le l2 ->
  (forall x y, In x l1 -> In y l2 -> x <= y) ->
  StronglySorted Z.le (l1 ++ l2).
Proof.
  induction 1 as [|x l1 S1 IH F1]; intros S2 Hc; cbn [app]; [exact S2|].
  constructor.
  - apply IH; [exact S2|]. intros a b Ha Hb. apply Hc; [now right|exact Hb].
  - apply Forall_app. split; [exact F1|].
    apply Forall_forall. intros y Hy. apply Hc; [now left|exact Hy].
Qed.

Lemma StronglySorted_repeat (n : Z) (k : nat) : StronglySorted Z.le (repeat n k).
Proof.
  induction k as [|k IH]; cbn [repeat]; constructor; [exact IH|].
  apply Forall_forall. intros y Hy. apply repeat_spec in Hy. lia.
Qed.

(** Chunks of records, one per field of a list sorted by number, are a
    sequence of records in ascending order of field number. *)
Lemma sorted_chunks_records (fs : list upb_msglayout_field)
  (chunks : list (list byte)) :
  StronglySorted (fun f g => number f < number g) fs ->
  Forall2 (fun f c => wire_records (number f) c) fs chunks ->
  exists recs : list (Z * list byte),
    concat chunks = concat (map snd recs) /\
    Forall (fun nr => wire_record (fst nr) (snd nr) /\ In (fst nr) (map number fs)) recs /\
    StronglySorted Z.le (map fst recs).
Proof.
  intros Hs H. induction H as [|f c fs chunks (rs & -> & Hrs) _ IH].
  - exists []. repeat split; constructor.
  - inversion Hs as [|? ? Hs' Hlt]; subst.
    destruct (IH Hs') as (recs & Hc & Hr & Hsorted).
    exists (map (pair (number f)) rs ++ recs). split; [|split].
    + cbn [concat]. rewrite map_app, concat_app, map_map. cbn [snd].
      rewrite map_id. now rewrite Hc.
    + apply Forall_app. split.
      * apply Forall_forall. intros nr Hin. apply in_map_iff in Hin.
        destruct Hin as (r & <- & Hr'). cbn [fst snd]. split; [|now left].
        rewrite Forall_forall in Hrs. now apply Hrs.
      * eapply Forall_impl; [|exact Hr]. intros nr [Hw Hi]. split; [exact Hw|].
        now right.
    + rewrite map_app, map_map. cbn [fst].
      apply StronglySorted_app_le; [|exact Hsorted|].
      * replace (map (fun _ => number f) rs) with (repeat (number f) (length rs)).
        -- apply StronglySorted_repeat.
        -- clear. induction rs; cbn; [reflexivity|now f_equal].
      * intros x y Hx Hy. apply in_map_iff in Hx. destruct Hx as (r & <- & _).
        apply in_map_iff in Hy. destruct Hy as (nr & <- & Hnr).
        rewrite Forall_forall in Hr. destruct (Hr nr Hnr) as [_ Hi].
        apply in_map_iff in Hi. destruct Hi as (g & Hg & Hgin).
        rewrite Forall_forall in Hlt. specialize (Hlt g Hgin). lia.
Qed.


(** ** Equal messages have equal nesting *)

Lemma list_max_perm (l1 l2 : list nat) :
  Permutation l1 l2 -> list_max l1 = list_max l2.
Proof.
  induction 1; cbn [list_max fold_right] in *; try lia.
  unfold list_max in *. lia.
Qed.

Lemma list_max_map_Forall2 {A B : Type} (R : A -> B -> Prop)
  (f : A -> nat) (g : B -> nat) (l1 : list A) (l2 : list B) :
  Forall2 R l1 l2 ->
  Forall (fun x => forall y, R x y -> g y = f x) l1 ->
  list_max (map g l2) = list_max (map f l1).
Proof.
  induction 1 as [|x y l1 l2 Hxy _ IH]; intros HF; [reflexivity|].
  inversion HF as [|? ? Hx HF']; subst.
  cbn [map]. change (list_max (?a :: ?l)) with (Nat.max a (list_max l)).
  rewrite (Hx y Hxy), (IH HF'). reflexivity.
Qed.

Lemma height_equiv (b : bool) :
  (forall m1 m2, msg_equiv b m1 m2 -> msg_height m2 = msg_height m1) /\
  (forall c1 c2, cell_equiv b c1 c2 -> cell_height c2 = cell_height c1).
Proof.
  assert (H : forall m1,
    (fun m1 => forall m2, msg_equiv b m1 m2 -> msg_height m2 = msg_height m1) m1).
  { apply (msg_induction
             (fun m1 => forall m2, msg_equiv b m1 m2 -> msg_height m2 = msg_height m1)
             (fun c1 => forall c2, cell_equiv b c1 c2 -> cell_height c2 = cell_height c1)).
    - intros mem unk exts Hm He m2 E. inversion E as [? mem2 ? ? exts2 exts2' F1 F2 Hp]; subst.
      cbn [msg_height]. f_equal. f_equal.
      + apply (list_max_map_Forall2 _ _ _ _ _ F1).
        eapply Forall_impl; [|exact Hm]. intros p Hp' q [_ Hq]. now apply Hp'.
      + transitivity (list_max (map (fun p => cell_height (snd p)) exts2')).
        * destruct Hp as [->|[_ Hp]]; [reflexivity|].
          apply list_max_perm, Permutation_map, Permutation_sym, Hp.
        * apply (list_max_map_Forall2 _ _ _ _ _ F2).
          eapply Forall_impl; [|exact He]. intros p Hp' q [_ Hq]. now apply Hp'.
    - intros c2 E. now inversion E.
    - intros bs c2 E. now inversion E.
    - intros s c2 E. now inversion E.
    - intros m IH c2 E. inversion E; subst. cbn [cell_height]. now apply IH.
    - intros a IH c2 E. inversion E as [| | | |? a2 F|]; subst. cbn [cell_height].
      apply (list_max_map_Forall2 _ _ _ _ _ F).
      eapply Forall_impl; [|exact IH]. intros x Hx y Hy. now apply Hx.
    - intros es IH c2 E. inversion E as [| | | | |? es2 es2' F Hp Hn Hk]; subst.
      cbn [cell_height].
      transitivity (list_max (map (fun p => Nat.max (cell_height (fst p))
                                                    (cell_height (snd p))) es2')).
      + apply list_max_perm, Permutation_map, Permutation_sym, Hp.
      + apply (list_max_map_Forall2 _ _ _ _ _ F).
        eapply Forall_impl; [|exact IH]. intros p [_ Hp2] q [Hk1 Hq].
        rewrite <- Hk1. f_equal. now apply Hp2. }
  split; [exact H|].
  apply (cell_induction
           (fun m1 => forall m2, msg_equiv b m1 m2 -> msg_height m2 = msg_height m1)
           (fun c1 => forall c2, cell_equiv b c1 c2 -> cell_height c2 = cell_height c1)).
  - intros mem unk exts _ _. apply H.
  - intros c2 E. now inversion E.
  - intros bs c2 E. now inversion E.
  - intros s c2 E. now inversion E.
  - intros m IH c2 E. inversion E; subst. cbn [cell_height]. now apply IH.
  - intros a IH c2 E. inversion E as [| | | |? a2 F|]; subst. cbn [cell_height].
    apply (list_max_map_Forall2 _ _ _ _ _ F).
    eapply Forall_impl; [|exact IH]. intros x Hx y Hy. now apply Hx.
  - intros es IH c2 E. inversion E as [| | | | |? es2 es2' F Hp Hn Hk]; subst.
    cbn [cell_height].
    transitivity (list_max (map (fun p => Nat.max (cell_height (fst p))
                                                  (cell_height (snd p))) es2')).
    + apply list_max_perm, Permutation_map, Permutation_sym, Hp.
    + apply (list_max_map_Forall2 _ _ _ _ _ F).
      eapply Forall_impl; [|exact IH]. intros p [_ Hp2] q [Hk1 Hq].
      rewrite <- Hk1. f_equal. now apply Hp2.
Qed.

(** ** The order on map keys and the sorted view *)

Lemma bytes_leb_total (a b : list byte) : bytes_leb a b = true \/ bytes_leb b a = true.
Proof.
  revert b; induction a as [|x a IH]; intros [|y b]; cbn [bytes_leb]; auto.
  destruct (Z_of_byte x <? Z_of_byte y) eqn:E1; auto.
  destruct (Z_of_byte y <? Z_of_byte x) eqn:E2; auto.
Qed.

Lemma bytes_leb_antisym (a b : list byte) :
  bytes_leb a b = true -> bytes_leb b a = true -> a = b.
Proof.
  revert b; induction a as [|x a IH]; intros [|y b]; cbn [bytes_leb];
    try discriminate; auto.
  destruct (Z_of_byte x <? Z_of_byte y) eqn:E1;
    destruct (Z_of_byte y <? Z_of_byte x) eqn:E2; try discriminate.
  - apply Z.ltb_lt in E1, E2. lia.
  - apply Z.ltb_ge in E1, E2. intros H1 H2. f_equal; [|now apply IH].
    apply Z_of_byte_inj. lia.
Qed.

Lemma bytes_leb_trans (a b c : list byte) :
  bytes_leb a b = true -> bytes_leb b c = true -> bytes_leb a c = true.
Proof.
  revert b c; induction a as [|x a IH]; intros [|y b] [|z c]; cbn [bytes_leb];
    try discriminate; auto.
  destruct (Z.ltb_spec (Z_of_byte x) (Z_of_byte y));
    destruct (Z.ltb_spec (Z_of_byte y) (Z_of_byte x));
    destruct (Z.ltb_spec (Z_of_byte y) (Z_of_byte z));
    destruct (Z.ltb_spec (Z_of_byte z) (Z_of_byte y));
    destruct (Z.ltb_spec (Z_of_byte x) (Z_of_byte z));
    destruct (Z.ltb_spec (Z_of_byte z) (Z_of_byte x));
    try lia; try discriminate; auto.
  apply IH.
Qed.

Lemma key_leb_total (a b : map_key) : key_leb a b = true \/ key_leb b a = true.
Proof.
  destruct a, b; cbn [key_leb]; auto using bytes_leb_total.
  destruct (Z.leb_spec v v0); auto. right. apply Z.leb_le. lia.
Qed.

Lemma key_leb_antisym (a b : map_key) :
  key_leb a b = true -> key_leb b a = true -> a = b.
Proof.
  destruct a, b; cbn [key_leb]; try discriminate.
  - intros H1 H2. apply Z.leb_le in H1, H2. f_equal. lia.
  - intros H1 H2. f_equal. now apply bytes_leb_antisym.
Qed.

Lemma key_leb_trans (a b c : map_key) :
  key_leb a b = true -> key_leb b c = true -> key_leb a c = true.
Proof.
  destruct a, b, c; cbn [key_leb]; try discriminate; auto.
  - intros H1 H2. apply Z.leb_le in H1, H2. apply Z.leb_le. lia.
  - apply bytes_leb_trans.
Qed.

Section Sorting.

Variable A : Type.

Lemma sort_insert_comm (x y : map_key * A) (s : list (map_key * A)) :
  fst x <> fst y ->
  sort_insert x (sort_insert y s) = sort_insert y (sort_insert x s).
Proof.
  intros Hne. induction s as [|h t IH]; cbn [sort_insert].
  - destruct (key_leb (fst x) (fst y)) eqn:Exy;
      destruct (key_leb (fst y) (fst x)) eqn:Eyx; auto.
    + exfalso. apply Hne. now apply key_leb_antisym.
    + destruct (key_leb_total (fst x) (fst y)); congruence.
  - destruct (key_leb (fst y) (fst h)) eqn:Eyh;
      destruct (key_leb (fst x) (fst h)) eqn:Exh; cbn [sort_insert];
      rewrite ?Eyh, ?Exh.
    + destruct (key_leb (fst x) (fst y)) eqn:Exy;
        destruct (key_leb (fst y) (fst x)) eqn:Eyx; cbn [sort_insert];
        rewrite ?Eyh, ?Exh; auto.
      * exfalso. apply Hne. now apply key_leb_antisym.
      * destruct (key_leb_total (fst x) (fst y)); congruence.
    + destruct (key_leb (fst x) (fst y)) eqn:Exy.
      * rewrite (key_leb_trans _ _ _ Exy Eyh) in Exh. discriminate.
      * reflexivity.
    + destruct (key_leb (fst y) (fst x)) eqn:Eyx.
      * rewrite (key_leb_trans _ _ _ Eyx Exh) in Eyh. discriminate.
      * reflexivity.
    + now rewrite IH.
Qed.

(** A table with distinct keys has one sorted view, whatever the order in
    which it holds its entries. *)
Lemma sort_entries_perm (l l' : list (map_key * A)) :
  Permutation l l' -> NoDup (map fst l) -> sort_entries l = sort_entries l'.
Proof.
  induction 1 as [|x l l' _ IH|x y l|l l' l'' H1 IH1 H2 IH2]; intros Hn.
  - reflexivity.
  - cbn [sort_entries]. cbn [map] in Hn. inversion Hn; subst. now rewrite IH.
  - cbn [sort_entries]. cbn [map] in Hn. inversion Hn as [|? ? Hin _]; subst.
    apply sort_insert_comm. intros E. apply Hin. left. now symmetry.
  - rewrite IH1 by assumption. apply IH2.
    eapply Permutation_NoDup; [|exact Hn]. now apply Permutation_map.
Qed.

End Sorting.

Section SortingRelated.

Variables A B : Type.
Variable R : A -> B -> Prop.

Lemma sort_insert_related (x : map_key * A) (y : map_key * B)
  (l1 : list (map_key * A)) (l2 : list (map_key * B)) :
  key_related R x y -> Forall2 (key_related R) l1 l2 ->
  Forall2 (key_related R) (sort_insert x l1) (sort_insert y l2).
Proof.
  intros Hxy. induction 1 as [|h1 h2 t1 t2 Hh Ht IH]; cbn [sort_insert].
  - constructor; [exact Hxy|constructor].
  - destruct (proj1 Hxy). destruct (proj1 Hh).
    destruct (key_leb (fst x) (fst h1)).
    + constructor; [exact Hxy|]. constructor; [exact Hh|exact Ht].
    + constructor; [exact Hh|exact IH].
Qed.

Lemma sort_entries_related (l1 : list (map_key * A)) (l2 : list (map_key * B)) :
  Forall2 (key_related R) l1 l2 ->
  Forall2 (key_related R) (sort_entries l1) (sort_entries l2).
Proof.
  induction 1 as [|x y l1 l2 Hxy _ IH]; cbn [sort_entries]; [constructor|].
  now apply sort_insert_related.
Qed.

End SortingRelated.

(** ** Reading keys *)

Lemma le_value_inj (a b : list byte) :
  length a = length b -> le_value a = le_value b -> a = b.
Proof.
  intros Hl Hv. rewrite <- (le_bytes_value a), <- (le_bytes_value b).
  now rewrite Hl, Hv.
Qed.

Lemma host_value_inj (big_endian : bool) (a b : list byte) :
  length a = length b -> host_value big_endian a = host_value big_endian b -> a = b.
Proof.
  unfold host_value. destruct big_endian; intros Hl Hv.
  - apply le_value_inj in Hv; [|now rewrite !length_rev].
    rewrite <- (rev_involutive a), <- (rev_involutive b). now rewrite Hv.
  - now apply le_value_inj.
Qed.

Lemma host_value_range (big_endian : bool) (bs : list byte) :
  0 <= host_value big_endian bs < 256 ^ Z.of_nat (length bs).
Proof.
  unfold host_value. destruct big_endian; [|apply le_value_range].
  rewrite <- (length_rev bs). apply le_value_range.
Qed.

Lemma s32_inj (a b : Z) :
  0 <= a < 2 ^ 32 -> 0 <= b < 2 ^ 32 -> s32 a = s32 b -> a = b.
Proof.
  unfold s32. intros Ha Hb H.
  assert (H' : (a + 2 ^ 31) mod 2 ^ 32 = (b + 2 ^ 31) mod 2 ^ 32) by lia.
  destruct (Z_lt_ge_dec a (2 ^ 31)), (Z_lt_ge_dec b (2 ^ 31)).
  - rewrite !Z.mod_small in H' by lia. lia.
  - rewrite (Z.mod_small (a + _)) in H' by lia.
    replace (b + 2 ^ 31) with ((b - 2 ^ 31) + 1 * 2 ^ 32) in H' by lia.
    rewrite Z.mod_add, Z.mod_small in H' by lia. lia.
  - rewrite (Z.mod_small (b + _)) in H' by lia.
    replace (a + 2 ^ 31) with ((a - 2 ^ 31) + 1 * 2 ^ 32) in H' by lia.
    rewrite Z.mod_add, Z.mod_small in H' by lia. lia.
  - replace (a + 2 ^ 31) with ((a - 2 ^ 31) + 1 * 2 ^ 32) in H' by lia.
    replace (b + 2 ^ 31) with ((b - 2 ^ 31) + 1 * 2 ^ 32) in H' by lia.
    rewrite !Z.mod_add, !Z.mod_small in H' by lia. lia.
Qed.

Lemma s64_inj (a b : Z) :
  0 <= a < 2 ^ 64 -> 0 <= b < 2 ^ 64 -> s64 a = s64 b -> a = b.
Proof.
  unfold s64. intros Ha Hb H.
  assert (H' : (a + 2 ^ 63) mod 2 ^ 64 = (b + 2 ^ 63) mod 2 ^ 64) by lia.
  destruct (Z_lt_ge_dec a (2 ^ 63)), (Z_lt_ge_dec b (2 ^ 63)).
  - rewrite !Z.mod_small in H' by lia. lia.
  - rewrite (Z.mod_small (a + _)) in H' by lia.
    replace (b + 2 ^ 63) with ((b - 2 ^ 63) + 1 * 2 ^ 64) in H' by lia.
    rewrite Z.mod_add, Z.mod_small in H' by lia. lia.
  - rewrite (Z.mod_small (b + _)) in H' by lia.
    replace (a + 2 ^ 63) with ((a - 2 ^ 63) + 1 * 2 ^ 64) in H' by lia.
    rewrite Z.mod_add, Z.mod_small in H' by lia. lia.
  - replace (a + 2 ^ 63) with ((a - 2 ^ 63) + 1 * 2 ^ 64) in H' by lia.
    replace (b + 2 ^ 63) with ((b - 2 ^ 63) + 1 * 2 ^ 64) in H' by lia.
    rewrite !Z.mod_add, !Z.mod_small in H' by lia. lia.
Qed.

Lemma read_int_data_inj (big_endian : bool) (n : nat) (a b : list byte) (v : Z) :
  read_int big_endian n (CData a) = Some v ->
  read_int big_endian n (CData b) = Some v -> a = b.
Proof.
  cbn [read_int].
  destruct (Nat.eqb (length a) n) eqn:Ea; [|discriminate].
  destruct (Nat.eqb (length b) n) eqn:Eb; [|discriminate].
  apply Nat.eqb_eq in Ea, Eb. intros H1 H2.
  apply (host_value_inj big_endian); congruence.
Qed.

Lemma read_int_data_range (big_endian : bool) (n : nat) (a : list byte) (v : Z) :
  read_int big_endian n (CData a) = Some v -> 0 <= v < 256 ^ Z.of_nat n.
Proof.
  cbn [read_int].
  destruct (Nat.eqb (length a) n) eqn:Ea; [|discriminate].
  apply Nat.eqb_eq in Ea. intros H. injection H as <-. rewrite <- Ea.
  apply host_value_range.
Qed.

(** Keys held as bytes or strings are told apart by the values the order
    compares. *)
Lemma read_key_inj (big_endian : bool) (key_type : upb_descriptortype)
  (c1 c2 : cell) (k : map_key) :
  is_key_cell c1 -> is_key_cell c2 ->
  read_key big_endian key_type c1 = Some k ->
  read_key big_endian key_type c2 = Some k -> c1 = c2.
Proof.
  intros K1 K2.
  destruct c1 as [|a|a| | |]; try contradiction;
    destruct c2 as [|b|b| | |]; try contradiction;
    destruct key_type; cbn [read_key read_strview read_bool option_map];
    try discriminate.
  all: try (intros H1 H2; injection H1 as <-; injection H2 as ->; reflexivity).
  all: try (destruct (read_int big_endian _ (CData a)) as [va|] eqn:Ra;
            [|discriminate];
            destruct (read_int big_endian _ (CData b)) as [vb|] eqn:Rb;
            [|discriminate];
            cbn [option_map]).
  all: try (intros H1 H2; rewrite <- H1 in H2; injection H2 as H2;
            pose proof (read_int_data_range _ _ _ _ Ra) as Hra;
            pose proof (read_int_data_range _ _ _ _ Rb) as Hrb;
            first [ apply s64_inj in H2; [|exact Hrb|exact Hra]
                  | apply s32_inj in H2; [|exact Hrb|exact Hra]
                  | idtac ];
            subst vb; f_equal; eapply read_int_data_inj; eauto; fail).
  (* BOOL *)
  unfold read_bool.
  destruct (read_int big_endian 1 (CData a)) as [va|] eqn:Ra; [|discriminate].
  destruct (read_int big_endian 1 (CData b)) as [vb|] eqn:Rb; [|discriminate].
  destruct (va <=? 1); [|discriminate]. destruct (vb <=? 1); [|discriminate].
  cbn [option_map]. intros H1 H2. rewrite <- H1 in H2. injection H2 as ->.
  f_equal. eapply read_int_data_inj; eauto.
Qed.

(** ** The sorted view of equal maps *)

Lemma Forall2_In_r {A B : Type} (R : A -> B -> Prop) (l1 : list A) (l2 : list B)
  (y : B) :
  Forall2 R l1 l2 -> In y l2 -> exists x, In x l1 /\ R x y.
Proof.
  induction 1 as [|a c l1 l2 Hac _ IH]; cbn [In]; [contradiction|].
  intros [<-|Hin].
  - exists a. auto.
  - destruct (IH Hin) as (x & Hx & Hr). exists x. auto.
Qed.

Section SortedView.

Variable big_endian : bool.
Variable key_type : upb_descriptortype.
Variable b : bool.

Lemma keyed_entries_related (m1 m2 : list (cell * cell)) :
  Forall2 (entry_equiv b) m1 m2 ->
  option_rel (Forall2 (key_related (entry_equiv b)))
    (keyed_entries big_endian key_type m1) (keyed_entries big_endian key_type m2).
Proof.
  induction 1 as [|x y m1 m2 [Hk Hv] _ IH]; cbn [keyed_entries option_rel].
  - constructor.
  - rewrite <- Hk. destruct (read_key big_endian key_type (fst x)) as [k|].
    + destruct (keyed_entries big_endian key_type m1) as [r1|],
               (keyed_entries big_endian key_type m2) as [r2|];
        cbn [option_rel] in *; try contradiction; auto.
      constructor; [|exact IH]. split; [reflexivity|]. split; assumption.
    + now destruct (keyed_entries big_endian key_type m2).
Qed.

Lemma keyed_entries_perm (m m' : list (cell * cell)) :
  Permutation m m' ->
  option_rel (@Permutation _)
    (keyed_entries big_endian key_type m) (keyed_entries big_endian key_type m').
Proof.
  induction 1 as [|x l l' _ IH|x y l|l l' l'' _ IH1 _ IH2].
  - constructor.
  - cbn [keyed_entries]. destruct (read_key big_endian key_type (fst x)) as [k|].
    + destruct (keyed_entries big_endian key_type l) as [r1|],
               (keyed_entries big_endian key_type l') as [r2|];
        cbn [option_rel] in *; try contradiction; auto.
    + now destruct (keyed_entries big_endian key_type l').
  - cbn [keyed_entries].
    destruct (read_key big_endian key_type (fst x)) as [kx|],
             (read_key big_endian key_type (fst y)) as [ky|],
             (keyed_entries big_endian key_type l) as [r|];
      cbn [option_rel]; auto. apply perm_swap.
  - destruct (keyed_entries big_endian key_type l) as [r|],
             (keyed_entries big_endian key_type l') as [r'|],
             (keyed_entries big_endian key_type l'') as [r''|];
      cbn [option_rel] in *; try contradiction; auto.
    eapply Permutation_trans; eauto.
Qed.

Lemma keyed_entries_read (m : list (cell * cell)) (k : list (map_key * (cell * cell))) :
  keyed_entries big_endian key_type m = Some k ->
  Forall2 (fun ent x => snd x = ent /\
                        read_key big_endian key_type (fst ent) = Some (fst x)) m k.
Proof.
  revert k; induction m as [|ent m IH]; intros k; cbn [keyed_entries].
  - intros H; injection H as <-. constructor.
  - destruct (read_key big_endian key_type (fst ent)) as [key|] eqn:Rk; [|discriminate].
    destruct (keyed_entries big_endian key_type m) as [r|]; [|discriminate].
    intros H; injection H as <-. constructor; [now split|now apply IH].
Qed.

Lemma keyed_entries_nodup (m : list (cell * cell)) (k : list (map_key * (cell * cell))) :
  keyed_entries big_endian key_type m = Some k ->
  NoDup (map fst m) -> Forall is_key_cell (map fst m) -> NoDup (map fst k).
Proof.
  intros H. apply keyed_entries_read in H.
  induction H as [|ent x m k [Hs Hr] F IH]; intros Hn Hc; cbn [map] in *.
  - constructor.
  - inversion Hn as [|? ? Hnin Hn']; subst. inversion Hc as [|? ? Hc1 Hc']; subst.
    constructor; [|now apply IH].
    intros Hin. apply Hnin. apply in_map_iff in Hin.
    destruct Hin as (x' & Hx' & Hin').
    destruct (Forall2_In_r _ _ _ _ F Hin') as (ent' & Hent' & _ & Hr').
    rewrite Hx' in Hr'.
    assert (Hkc : is_key_cell (fst ent')).
    { rewrite Forall_forall in Hc'. apply Hc'. now apply in_map. }
    rewrite (read_key_inj _ _ _ _ _ Hc1 Hkc Hr Hr'). now apply in_map.
Qed.

(** Equal maps have the same sorted view, up to the values being equal. *)
Lemma pushmap_related (m1 m2 : list (cell * cell)) :
  cell_equiv b (CMap m1) (CMap m2) ->
  option_rel (Forall2 (entry_equiv b))
    (_upb_mapsorter_pushmap big_endian key_type m1)
    (_upb_mapsorter_pushmap big_endian key_type m2).
Proof.
  intros E. inversion E as [| | | | |? ? m2' F Hp Hn Hk]; subst.
  unfold _upb_mapsorter_pushmap.
  pose proof (keyed_entries_related m1 m2' F) as H1.
  pose proof (keyed_entries_perm m2' m2 Hp) as H2.
  destruct (keyed_entries big_endian key_type m1) as [k1|] eqn:K1,
           (keyed_entries big_endian key_type m2') as [k2'|] eqn:K2',
           (keyed_entries big_endian key_type m2) as [k2|] eqn:K2;
    cbn [option_rel option_map] in *; try contradiction; auto.
  assert (Hkeys : map fst k2' = map fst k1).
  { clear - H1. induction H1 as [|x y l1 l2 [Hxy _] _ IH]; cbn [map]; [reflexivity|].
    now rewrite IH, Hxy. }
  rewrite <- (sort_entries_perm _ k2' k2 H2).
  2:{ rewrite Hkeys. eapply keyed_entries_nodup; eauto. }
  pose proof (sort_entries_related _ _ (entry_equiv b) k1 k2' H1) as Hs.
  clear - Hs. induction Hs as [|x y l1 l2 [_ Hxy] _ IH]; cbn [map]; constructor; auto.
Qed.

End SortedView.

(** ** Equal messages are encoded alike *)

Lemma emits_preserved (e e' : upb_encstate) (r : outcome upb_encstate)
  (Q : upb_encstate -> list byte -> Prop) :
  emits e r Q -> r = Ok e' -> wf e' /\ (deterministic e -> deterministic e').
Proof.
  intros H ->. destruct H as (c & E & _). split; [exact (ext_wf _ _ _ E)|].
  unfold deterministic. now rewrite (ext_options _ _ _ E).
Qed.

Lemma bind_congr {A B : Type} (c : outcome A) (k1 k2 : A -> outcome B) :
  (forall a, c = Ok a -> k1 a = k2 a) -> bind c k1 = bind c k2.
Proof.
  intros H. destruct c; cbn [bind]; auto.
Qed.

Lemma encode_each_related {A : Type} (RA : A -> A -> Prop)
  (body1 body2 : upb_encstate -> A -> outcome upb_encstate) (l1 l2 : list A) :
  Forall2 RA l1 l2 ->
  (forall e x y, RA x y -> wf e -> deterministic e -> body1 e x = body2 e y) ->
  (forall e x, wf e -> emits e (body1 e x) (fun _ _ => True)) ->
  forall e, wf e -> deterministic e ->
  encode_each body1 e l1 = encode_each body2 e l2.
Proof.
  intros F Hb Hp. induction F as [|x y l1 l2 Hxy _ IH]; intros e W D.
  - reflexivity.
  - cbn [encode_each]. rewrite <- (Hb e x y Hxy W D).
    apply bind_congr. intros e1 H1.
    destruct (emits_preserved _ _ _ _ (Hp e x W) H1) as [W1 D1]. auto.
Qed.

Lemma emits_trivial {A : Type} (st : A -> upb_encstate) (e : upb_encstate)
  (r : outcome A) (Q : A -> list byte -> Prop) :
  emits_gen st e r Q -> emits_gen st e r (fun _ _ => True).
Proof.
  intros H. eapply emits_gen_weaken; [exact H|]. auto.
Qed.

Section ReadsRelated.

Variable big_endian : bool.
Variable b : bool.

Lemma read_int_related (n : nat) (c1 c2 : cell) :
  cell_equiv b c1 c2 -> read_int big_endian n c1 = read_int big_endian n c2.
Proof. destruct 1; reflexivity. Qed.

Lemma read_bool_related (c1 c2 : cell) :
  cell_equiv b c1 c2 -> read_bool big_endian c1 = read_bool big_endian c2.
Proof. intros H. unfold read_bool. now rewrite (read_int_related 1 c1 c2 H). Qed.

Lemma read_strview_related (c1 c2 : cell) :
  cell_equiv b c1 c2 -> read_strview c1 = read_strview c2.
Proof. destruct 1; reflexivity. Qed.

Lemma read_raw_related (n : nat) (c1 c2 : cell) :
  cell_equiv b c1 c2 -> read_raw n c1 = read_raw n c2.
Proof. destruct 1; reflexivity. Qed.

Lemma read_nonzero_related (n : nat) (c1 c2 : cell) :
  cell_equiv b c1 c2 -> read_nonzero big_endian n c1 = read_nonzero big_endian n c2.
Proof. destruct 1; reflexivity. Qed.

Lemma read_all_raw_related (n : nat) (a1 a2 : list cell) :
  Forall2 (cell_equiv b) a1 a2 -> read_all (read_raw n) a1 = read_all (read_raw n) a2.
Proof.
  induction 1 as [|x y a1 a2 Hxy _ IH]; cbn [read_all]; [reflexivity|].
  now rewrite (read_raw_related n x y Hxy), IH.
Qed.

Lemma UPB_PTR_AT_related (mem1 mem2 : list (Z * cell)) (ofs : Z) :
  Forall2 (fun p q => fst p = fst q /\ cell_equiv b (snd p) (snd q)) mem1 mem2 ->
  cell_equiv b (UPB_PTR_AT mem1 ofs) (UPB_PTR_AT mem2 ofs).
Proof.
  induction 1 as [|[o1 c1] [o2 c2] mem1 mem2 [Ho Hc] _ IH]; cbn [UPB_PTR_AT].
  - constructor.
  - cbn [fst snd] in *. subst o2. now destruct (o1 =? ofs).
Qed.

Lemma encode_shouldencode_related (mem1 mem2 : list (Z * cell))
  (subs_ : list upb_msglayout_sub) (f : upb_msglayout_field) :
  Forall2 (fun p q => fst p = fst q /\ cell_equiv b (snd p) (snd q)) mem1 mem2 ->
  encode_shouldencode big_endian mem1 subs_ f
  = encode_shouldencode big_endian mem2 subs_ f.
Proof.
  intros F. unfold encode_shouldencode, _upb_hasbit_field, _upb_getoneofcase_field.
  rewrite !(read_nonzero_related _ _ _ (UPB_PTR_AT_related mem1 mem2 (offset f) F)).
  rewrite (read_strview_related _ _ (UPB_PTR_AT_related mem1 mem2 (offset f) F)).
  rewrite (read_int_related _ _ _ (UPB_PTR_AT_related mem1 mem2 (presence f / 8) F)).
  rewrite (read_int_related _ _ _
             (UPB_PTR_AT_related mem1 mem2 (Z.lnot (presence f)) F)).
  reflexivity.
Qed.

End ReadsRelated.

Section RelatedPass.

Variable big_endian : bool.
Variable layouts : list upb_msglayout.
Variable cb : upb_encstate -> upb_msg -> upb_msglayout -> outcome (upb_encstate * Z).
Hypothesis Hcb : message_contract cb.
Hypothesis Hrel : forall e m1 m2 l,
  wf e -> deterministic e -> msg_equiv false m1 m2 -> cb e m1 l = cb e m2 l.

Lemma scalar_related (e : upb_encstate) (c1 c2 : cell)
  (subs_ : list upb_msglayout_sub) (f : upb_msglayout_field) :
  cell_equiv false c1 c2 -> wf e -> deterministic e ->
  encode_scalar_impl big_endian layouts cb e c1 subs_ f
  = encode_scalar_impl big_endian layouts cb e c2 subs_ f.
Proof.
  intros E W D. destruct E as [| | |m1 m2 E| |]; try reflexivity.
  unfold encode_scalar_impl. destruct (descriptortype f); try reflexivity.
  - (* GROUP *)
    cbn [read_msg of_option bind]. apply bind_congr. intros subm _.
    cbv zeta. destruct (depth (ctx (set_depth e (depth (ctx e) - 1))) =? 0);
      [reflexivity|].
    apply bind_congr. intros e1 H1.
    destruct (emits_preserved _ _ _ _
                (emits_tag _ _ _ (wf_set_depth e _ W)) H1) as [W1 D1].
    rewrite (Hrel e1 m1 m2 subm W1 (D1 D) E). reflexivity.
  - (* MESSAGE *)
    cbn [read_msg of_option bind]. apply bind_congr. intros subm _.
    cbv zeta. destruct (depth (ctx (set_depth e (depth (ctx e) - 1))) =? 0);
      [reflexivity|].
    rewrite (Hrel (set_depth e (depth (ctx e) - 1)) m1 m2 subm
               (wf_set_depth e _ W) D E). reflexivity.
Qed.

Lemma fixedarray_related (e : upb_encstate) (a1 a2 : list cell) (sz : nat) (tag : Z) :
  Forall2 (cell_equiv false) a1 a2 -> wf e -> deterministic e ->
  encode_fixedarray_impl e a1 sz tag = encode_fixedarray_impl e a2 sz tag.
Proof.
  intros F W D. unfold encode_fixedarray_impl.
  rewrite (read_all_raw_related false sz a1 a2 F).
  destruct (negb (tag =? 0)); [|reflexivity].
  apply (encode_each_related (cell_equiv false)); auto using Forall2_rev.
  - intros e0 x y Hxy _ _. now rewrite (read_raw_related false sz x y Hxy).
  - intros e0 x W0. unfold emits. emits_read.
    emits_bind e1 c1 E1 D1 P1. emits_last e2 c2 E2 D2 P2. exact I.
Qed.

Lemma VARINT_CASE_related (e : upb_encstate) (a1 a2 : list cell)
  (f : upb_msglayout_field) (read : cell -> option Z) :
  (forall x y, cell_equiv false x y -> read x = read y) ->
  Forall2 (cell_equiv false) a1 a2 -> wf e -> deterministic e ->
  VARINT_CASE e a1 f read = VARINT_CASE e a2 f read.
Proof.
  intros Hr F W D. unfold VARINT_CASE.
  apply (encode_each_related (cell_equiv false)); auto using Forall2_rev.
  - intros e0 x y Hxy _ _. now rewrite (Hr x y Hxy).
  - intros e0 x W0. unfold emits. emits_read.
    emits_bind e1 c1 E1 D1 P1.
    destruct (negb _).
    + emits_last e2 c2 E2 D2 P2. exact I.
    + apply emits_gen_Ok; [apply extends_refl; eauto using ext_wf|exact I].
Qed.

Lemma read_msg_elem_related (x y : cell) :
  cell_equiv false x y ->
  match read_msg x, read_msg y with
  | Some (Some m1), Some (Some m2) => msg_equiv false m1 m2
  | Some None, Some None => True
  | None, None => True
  | _, _ => False
  end.
Proof. destruct 1; cbn [read_msg]; auto. Qed.

Lemma array_related (e : upb_encstate) (mem1 mem2 : list (Z * cell))
  (subs_ : list upb_msglayout_sub) (f : upb_msglayout_field) :
  Forall2 (fun p q => fst p = fst q /\ cell_equiv false (snd p) (snd q)) mem1 mem2 ->
  wf e -> deterministic e ->
  encode_array_impl big_endian layouts cb e mem1 subs_ f
  = encode_array_impl big_endian layouts cb e mem2 subs_ f.
Proof.
  intros F W D. unfold encode_array_impl, encode_fixedarray.
  pose proof (UPB_PTR_AT_related false mem1 mem2 (offset f) F) as HR.
  destruct HR as [| | | |a1 a2 Fa|]; try reflexivity.
  cbn [read_array of_option bind]. rewrite (Forall2_length Fa).
  destruct (Z.of_nat (length a2) =? 0); [reflexivity|]. cbv zeta.
  assert (Hvar : forall read,
            (forall x y, cell_equiv false x y -> read x = read y) ->
            VARINT_CASE e a1 f read = VARINT_CASE e a2 f read).
  { intros read Hr. now apply VARINT_CASE_related. }
  assert (Hfix : forall sz tag,
            encode_fixedarray_impl e a1 sz tag = encode_fixedarray_impl e a2 sz tag).
  { intros sz tag. now apply fixedarray_related. }
  destruct (descriptortype f); rewrite ?Hfix; try reflexivity.
  - rewrite (Hvar (read_int big_endian 8)); [reflexivity|].
    intros x y Hxy. now apply (read_int_related big_endian false).
  - rewrite (Hvar (read_int big_endian 8)); [reflexivity|].
    intros x y Hxy. now apply (read_int_related big_endian false).
  - rewrite (Hvar (fun c => option_map (fun v => u64 (s32 v)) (read_int big_endian 4 c)));
      [reflexivity|].
    intros x y Hxy. now rewrite (read_int_related big_endian false 4 x y Hxy).
  - rewrite (Hvar (read_bool big_endian)); [reflexivity|].
    intros x y Hxy. now apply (read_bool_related big_endian false).
  - (* STRING *)
    apply (encode_each_related (cell_equiv false)); auto using Forall2_rev.
    + intros e0 x y Hxy _ _. now rewrite (read_strview_related false x y Hxy).
    + intros e0 x W0. unfold emits. emits_read.
      emits_bind e1 c1 E1 D1 P1. emits_bind e2 c2 E2 D2 P2.
      emits_last e3 c3 E3 D3 P3. exact I.
  - (* GROUP *)
    apply bind_congr. intros subm _.
    destruct (depth (ctx (set_depth e (depth (ctx e) - 1))) =? 0); [reflexivity|].
    rewrite (encode_each_related (cell_equiv false) _
               (fun e elem =>
                  e <- encode_tag e (number f) UPB_WIRE_TYPE_END_GROUP ;;
                  m <- of_option match read_msg elem with
                                 | Some m => m
                                 | None => None
                                 end ;;
                  '(e, size) <- cb e m subm ;;
                  encode_tag e (number f) UPB_WIRE_TYPE_START_GROUP)
               (rev a1) (rev a2)); auto using Forall2_rev.
    + intros e0 x y Hxy W0 D0. apply bind_congr. intros e1 H1.
      destruct (emits_preserved _ _ _ _ (emits_tag _ _ _ W0) H1) as [W1 D1].
      pose proof (read_msg_elem_related x y Hxy) as Hm.
      destruct (read_msg x) as [[m1|]|], (read_msg y) as [[m2|]|];
        try contradiction; try reflexivity.
      cbn [of_option bind]. now rewrite (Hrel e1 m1 m2 subm W1 (D1 D0) Hm).
    + intros e0 x W0. unfold emits.
      emits_bind e1 c1 E1 D1 P1. emits_read.
      eapply emits_gen_bind; [apply Hcb; exact (ext_wf _ _ _ E1)|].
      intros [e2 size] c2 E2 [D2 P2]. cbn [fst snd] in *.
      emits_last e3 c3 E3 D3 P3. exact I.
  - (* MESSAGE *)
    apply bind_congr. intros subm _.
    destruct (depth (ctx (set_depth e (depth (ctx e) - 1))) =? 0); [reflexivity|].
    rewrite (encode_each_related (cell_equiv false) _
               (fun e elem =>
                  m <- of_option match read_msg elem with
                                 | Some m => m
                                 | None => None
                                 end ;;
                  '(e, size) <- cb e m subm ;;
                  e <- encode_varint e size ;;
                  encode_tag e (number f) UPB_WIRE_TYPE_DELIMITED)
               (rev a1) (rev a2)); auto using Forall2_rev.
    + intros e0 x y Hxy W0 D0.
      pose proof (read_msg_elem_related x y Hxy) as Hm.
      destruct (read_msg x) as [[m1|]|], (read_msg y) as [[m2|]|];
        try contradiction; try reflexivity.
      cbn [of_option bind]. now rewrite (Hrel e0 m1 m2 subm W0 D0 Hm).
    + intros e0 x W0. unfold emits. emits_read.
      eapply emits_gen_bind; [apply Hcb; exact W0|].
      intros [e1 size] c1 E1 [D1 P1]. cbn [fst snd] in *.
      emits_bind e2 c2 E2 D2 P2. emits_last e3 c3 E3 D3 P3. exact I.
  - (* BYTES *)
    apply (encode_each_related (cell_equiv false)); auto using Forall2_rev.
    + intros e0 x y Hxy _ _. now rewrite (read_strview_related false x y Hxy).
    + intros e0 x W0. unfold emits. emits_read.
      emits_bind e1 c1 E1 D1 P1. emits_bind e2 c2 E2 D2 P2.
      emits_last e3 c3 E3 D3 P3. exact I.
  - rewrite (Hvar (read_int big_endian 4)); [reflexivity|].
    intros x y Hxy. now apply (read_int_related big_endian false).
  - rewrite (Hvar (fun c => option_map (fun v => u64 (s32 v)) (read_int big_endian 4 c)));
      [reflexivity|].
    intros x y Hxy. now rewrite (read_int_related big_endian false 4 x y Hxy).
  - rewrite (Hvar (fun c => option_map (fun v => encode_zz32 (s32 v))
                              (read_int big_endian 4 c))); [reflexivity|].
    intros x y Hxy. now rewrite (read_int_related big_endian false 4 x y Hxy).
  - rewrite (Hvar (fun c => option_map (fun v => encode_zz64 (s64 v))
                              (read_int big_endian 8 c))); [reflexivity|].
    intros x y Hxy. now rewrite (read_int_related big_endian false 8 x y Hxy).
Qed.

Lemma mapentry_related (e : upb_encstate) (n : Z) (layout : upb_msglayout)
  (x y : cell * cell) :
  entry_equiv false x y -> wf e -> deterministic e ->
  encode_mapentry_impl big_endian layouts cb e n layout x
  = encode_mapentry_impl big_endian layouts cb e n layout y.
Proof.
  intros [Hk Hv] W D. unfold encode_mapentry_impl, encode_scalar.
  apply bind_congr. intros key_field _. apply bind_congr. intros val_field _.
  rewrite (scalar_related e (snd x) (snd y) (subs layout) val_field Hv W D).
  now rewrite Hk.
Qed.

Lemma map_related (e : upb_encstate) (mem1 mem2 : list (Z * cell))
  (subs_ : list upb_msglayout_sub) (f : upb_msglayout_field) :
  Forall2 (fun p q => fst p = fst q /\ cell_equiv false (snd p) (snd q)) mem1 mem2 ->
  wf e -> deterministic e ->
  encode_map_impl big_endian layouts cb e mem1 subs_ f
  = encode_map_impl big_endian layouts cb e mem2 subs_ f.
Proof.
  intros F W D. unfold encode_map_impl, encode_mapentry.
  pose proof (UPB_PTR_AT_related false mem1 mem2 (offset f) F) as HR.
  remember (UPB_PTR_AT mem1 (offset f)) as c1 eqn:Hc1.
  remember (UPB_PTR_AT mem2 (offset f)) as c2 eqn:Hc2.
  clear Hc1 Hc2.
  destruct c1 as [| | | | |m1]; inversion HR; subst; try reflexivity.
  match goal with H : cell_equiv false (CMap m1) (CMap ?m) |- _ => rename m into m2 end.
  cbn [read_map of_option bind]. apply bind_congr. intros layout _.
  destruct (negb (field_count layout =? 2)); [reflexivity|].
  unfold deterministic in D. apply Z.eqb_neq in D. rewrite D. cbn [negb].
  apply bind_congr. intros key_field _.
  pose proof (pushmap_related big_endian (descriptortype key_field) false m1 m2 HR)
    as Hs.
  destruct (_upb_mapsorter_pushmap big_endian (descriptortype key_field) m1) as [s1|],
           (_upb_mapsorter_pushmap big_endian (descriptortype key_field) m2) as [s2|];
    cbn [option_rel] in Hs; try contradiction; [|reflexivity].
  cbn [of_option bind]. unfold _upb_sortedmap_next.
  apply (encode_each_related (entry_equiv false)); auto using Forall2_rev.
  - intros e0 x y Hxy W0 D0. now apply mapentry_related.
  - intros e0 x W0. eapply emits_trivial. now apply emits_mapentry.
  - unfold deterministic. now apply Z.eqb_neq.
Qed.

Lemma field_related (e : upb_encstate) (mem1 mem2 : list (Z * cell))
  (subs_ : list upb_msglayout_sub) (f : upb_msglayout_field) :
  Forall2 (fun p q => fst p = fst q /\ cell_equiv false (snd p) (snd q)) mem1 mem2 ->
  wf e -> deterministic e ->
  encode_field_impl big_endian layouts cb e mem1 subs_ f
  = encode_field_impl big_endian layouts cb e mem2 subs_ f.
Proof.
  intros F W D. unfold encode_field_impl, encode_array, encode_map, encode_scalar.
  destruct (mode f).
  - now apply map_related.
  - now apply array_related.
  - apply scalar_related; auto. now apply UPB_PTR_AT_related.
Qed.

Lemma msgset_item_related (e : upb_encstate) (x y : upb_msglayout_ext * cell) :
  fst x = fst y /\ cell_equiv false (snd x) (snd y) -> wf e -> deterministic e ->
  encode_msgset_item layouts cb e x = encode_msgset_item layouts cb e y.
Proof.
  intros [Hk Hv] W D. unfold encode_msgset_item. rewrite <- Hk.
  apply bind_congr. intros e1 H1.
  destruct (emits_preserved _ _ _ _ (emits_tag _ _ _ W) H1) as [W1 D1].
  pose proof (read_msg_elem_related _ _ Hv) as Hm.
  destruct (read_msg (snd x)) as [[m1|]|], (read_msg (snd y)) as [[m2|]|];
    try contradiction; try reflexivity.
  cbn [of_option bind]. apply bind_congr. intros subm _.
  now rewrite (Hrel e1 m1 m2 subm W1 (D1 D) Hm).
Qed.

Lemma body_related (e : upb_encstate) (m1 m2 : upb_msg) (l : upb_msglayout) :
  msg_equiv false m1 m2 -> wf e -> deterministic e ->
  encode_message_body big_endian layouts cb e m1 l
  = encode_message_body big_endian layouts cb e m2 l.
Proof.
  intros E W D.
  destruct E as [mem1 mem2 unk exts1 exts2 exts2' Fm Fe Hp].
  destruct Hp as [->|[Hp _]]; [|discriminate].
  unfold encode_message_body.
  change (encode_message_unknown e (Msg mem2 unk exts2))
    with (encode_message_unknown e (Msg mem1 unk exts1)).
  apply bind_congr. intros e1 H1.
  destruct (emits_preserved _ _ _ _ (emits_message_unknown e _ W) H1) as [W1 D1].
  assert (Hx : encode_message_exts big_endian layouts cb e1 (Msg mem1 unk exts1) l
               = encode_message_exts big_endian layouts cb e1 (Msg mem2 unk exts2) l).
  { unfold encode_message_exts, encode_field. cbn [_upb_msg_getexts].
    destruct (ext l); [reflexivity| |].
    - apply (encode_each_related
               (fun x y => fst x = fst y /\ cell_equiv false (snd x) (snd y)));
        auto.
      + intros e0 x y [Hk Hv] W0 D0. rewrite <- Hk.
        apply field_related; [constructor; [now split|constructor]|assumption|assumption].
      + intros e0 x W0. eapply emits_trivial. now apply emits_field.
    - apply (encode_each_related
               (fun x y => fst x = fst y /\ cell_equiv false (snd x) (snd y)));
        auto.
      + intros e0 x y Hxy W0 D0. now apply msgset_item_related.
      + intros e0 x W0. eapply emits_trivial. now apply emits_msgset_item. }
  rewrite <- Hx. apply bind_congr. intros e2 H2.
  destruct (emits_preserved _ _ _ _
              (emits_message_exts big_endian layouts cb Hcb e1 _ l W1) H2) as [W2 D2].
  assert (Hf : encode_message_fields big_endian layouts cb e2 (Msg mem1 unk exts1) l
               = encode_message_fields big_endian layouts cb e2 (Msg mem2 unk exts2) l).
  { unfold encode_message_fields, encode_field. cbn [msg_mem].
    apply (encode_each_related eq); auto.
    - clear. induction (rev (fields l)); constructor; auto.
    - intros e0 f ? <- W0 D0.
      rewrite (encode_shouldencode_related big_endian false mem1 mem2 (subs l) f Fm).
      apply bind_congr. intros [|] _; [|reflexivity]. now apply field_related.
    - intros e0 f W0.
      destruct (encode_shouldencode_option big_endian mem1 (subs l) f) as [o ->].
      unfold emits. emits_read. destruct a.
      + eapply emits_trivial. now apply emits_field.
      + apply emits_gen_Ok; [now apply extends_refl|exact I]. }
  now rewrite Hf.
Qed.

End RelatedPass.

(** In deterministic mode the message emitter returns the same for equal
    messages, from any state and with any fuel. *)
Lemma encode_message_related (big_endian : bool) (layouts : list upb_msglayout)
  (fuel : nat) :
  forall e m1 m2 l,
    wf e -> deterministic e -> msg_equiv false m1 m2 ->
    encode_message_impl big_endian layouts fuel e m1 l
    = encode_message_impl big_endian layouts fuel e m2 l.
Proof.
  induction fuel as [|k IH]; intros e m1 m2 l W D E; [reflexivity|].
  cbn [encode_message_impl].
  apply body_related; auto. apply emits_message.
Qed.

(** ** The fuel of the embedding suffices *)

Lemma bind_fuel {A B : Type} (c : outcome A) (k : A -> outcome B) :
  c <> OutOfFuel -> (forall a, c = Ok a -> k a <> OutOfFuel) ->
  bind c k <> OutOfFuel.
Proof.
  intros Hc Hk. destruct c; cbn [bind]; try discriminate; auto.
Qed.

Lemma of_option_fuel {A : Type} (o : option A) : of_option o <> OutOfFuel.
Proof. destruct o; discriminate. Qed.

Lemma of_option_Ok {A : Type} (o : option A) (a : A) :
  of_option o = Ok a -> o = Some a.
Proof. destruct o; [intros H; now inv_Ok H|discriminate]. Qed.

Lemma encode_bytes_fuel (e : upb_encstate) (data : list memval) :
  encode_bytes e data <> OutOfFuel.
Proof.
  unfold encode_bytes. destruct (_ =? 0); [discriminate|].
  apply bind_fuel; [apply encode_reserve_defined|discriminate].
Qed.

Lemma encode_varint_fuel (e : upb_encstate) (val : Z) :
  encode_varint e val <> OutOfFuel.
Proof.
  unfold encode_varint. destruct (_ && _); [discriminate|].
  unfold encode_longvarint. destruct (encode_varint64 _ _ _ _).
  apply bind_fuel; [apply encode_reserve_defined|discriminate].
Qed.

Lemma encode_each_fuel {A : Type} (body : upb_encstate -> A -> outcome upb_encstate)
  (l : list A) :
  (forall e x, In x l -> body e x <> OutOfFuel) ->
  forall e, encode_each body e l <> OutOfFuel.
Proof.
  induction l as [|x tl IH]; intros Hb e; cbn [encode_each]; [discriminate|].
  apply bind_fuel; [apply Hb; now left|].
  intros e1 _. apply IH. intros e2 y Hy. apply Hb. now right.
Qed.

Ltac fuel_step :=
  first
    [ apply encode_varint_fuel | apply encode_bytes_fuel | apply of_option_fuel
    | discriminate
    | match goal with
      | |- (let (_, _) := ?x in _) <> _ => destruct x
      end
    | apply bind_fuel; [|intros ? ?] ].

Lemma list_max_In (l : list nat) (x : nat) : In x l -> (x <= list_max l)%nat.
Proof.
  induction l as [|y tl IH]; cbn [In]; [contradiction|].
  change (list_max (y :: tl)) with (Nat.max y (list_max tl)).
  intros [->|H]; [lia|]. specialize (IH H). lia.
Qed.

Lemma UPB_PTR_AT_height (mem : list (Z * cell)) (ofs : Z) :
  (cell_height (UPB_PTR_AT mem ofs)
   <= list_max (map (fun p => cell_height (snd p)) mem))%nat.
Proof.
  induction mem as [|[o c] tl IH]; cbn [UPB_PTR_AT map]; [cbn; lia|].
  change (list_max (?a :: ?l)) with (Nat.max a (list_max l)). cbn [snd].
  destruct (o =? ofs); lia.
Qed.

Lemma sort_insert_In {A : Type} (x y : map_key * A) (l : list (map_key * A)) :
  In y (sort_insert x l) -> y = x \/ In y l.
Proof.
  induction l as [|h t IH]; cbn [sort_insert In].
  - intros [<-|[]]. now left.
  - destruct (key_leb (fst x) (fst h)); cbn [In].
    + intros [<-|[<-|H]]; auto.
    + intros [<-|H]; auto. destruct (IH H); auto.
Qed.

Lemma sort_entries_In {A : Type} (y : map_key * A) (l : list (map_key * A)) :
  In y (sort_entries l) -> In y l.
Proof.
  induction l as [|x t IH]; cbn [sort_entries In]; auto.
  intros H. apply sort_insert_In in H. destruct H as [->|H]; auto.
Qed.

Lemma pushmap_In (big_endian : bool) (key_type : upb_descriptortype)
  (m s : list (cell * cell)) (x : cell * cell) :
  _upb_mapsorter_pushmap big_endian key_type m = Some s -> In x s -> In x m.
Proof.
  unfold _upb_mapsorter_pushmap.
  destruct (keyed_entries big_endian key_type m) as [k|] eqn:K; [|discriminate].
  cbn [option_map]. intros H; injection H as <-. intros Hin.
  apply in_map_iff in Hin. destruct Hin as (kx & <- & Hin).
  apply sort_entries_In in Hin.
  apply keyed_entries_read in K.
  destruct (Forall2_In_r _ _ _ _ K Hin) as (ent & Hent & <- & _). exact Hent.
Qed.

Section FuelPass.

Variable big_endian : bool.
Variable layouts : list upb_msglayout.
Variable cb : upb_encstate -> upb_msg -> upb_msglayout -> outcome (upb_encstate * Z).
Variable k : nat.
Hypothesis Hcb : forall e m l, (msg_height m <= k)%nat -> cb e m l <> OutOfFuel.

Lemma scalar_fuel (e : upb_encstate) (c : cell) (subs_ : list upb_msglayout_sub)
  (f : upb_msglayout_field) :
  (cell_height c <= k)%nat ->
  encode_scalar_impl big_endian layouts cb e c subs_ f <> OutOfFuel.
Proof.
  intros Hh. unfold encode_scalar_impl, encode_double, encode_float,
    encode_fixed64, encode_fixed32, encode_tag, submsg.
  destruct (descriptortype f); repeat fuel_step.
  - destruct a as [m|]; [|discriminate]. cbv zeta.
    destruct (_ =? 0); [discriminate|].
    destruct c; try discriminate. cbn [read_msg] in H. injection H as <-.
    repeat fuel_step. apply Hcb. exact Hh.
  - destruct a as [m|]; [|discriminate]. cbv zeta.
    destruct (_ =? 0); [discriminate|].
    destruct c; try discriminate. cbn [read_msg] in H. injection H as <-.
    repeat fuel_step. apply Hcb. exact Hh.
Qed.

Lemma message_elem_fuel (x : cell) (m : upb_msg) :
  of_option match read_msg x with Some m => m | None => None end = Ok m ->
  (cell_height x <= k)%nat -> (msg_height m <= k)%nat.
Proof.
  destruct x; cbn [read_msg of_option]; try discriminate.
  intros H; injection H as <-. auto.
Qed.

Lemma array_fuel (e : upb_encstate) (msg : list (Z * cell))
  (subs_ : list upb_msglayout_sub) (f : upb_msglayout_field) :
  (cell_height (UPB_PTR_AT msg (offset f)) <= k)%nat ->
  encode_array_impl big_endian layouts cb e msg subs_ f <> OutOfFuel.
Proof.
  intros Hh. unfold encode_array_impl, encode_fixedarray, encode_fixedarray_impl,
    VARINT_CASE, encode_tag, submsg.
  fuel_step; [fuel_step|].
  destruct a as [arr|]; [|discriminate].
  assert (Hel : forall x, In x (rev arr) -> (cell_height x <= k)%nat).
  { intros x Hx. apply in_rev in Hx.
    destruct (UPB_PTR_AT msg (offset f)); try discriminate.
    cbn [read_array] in H. injection H as ->. cbn [cell_height] in Hh.
    pose proof (list_max_In _ _ (in_map cell_height _ _ Hx)). lia. }
  destruct (_ =? 0); [discriminate|]. cbv zeta.
  assert (Hafter : forall e1 : upb_encstate,
    (if packed f
     then e2 <- encode_varint e1 (limit (ctx e1) - ptr e1 - (limit (ctx e) - ptr e)) ;;
          encode_varint e2 (make_tag (number f) UPB_WIRE_TYPE_DELIMITED)
     else Ok e1) <> OutOfFuel).
  { intros e1. destruct (packed f); repeat fuel_step. }
  destruct (descriptortype f).
  all: try (apply bind_fuel; [|intros; apply Hafter];
            destruct (negb _);
            [apply encode_each_fuel; intros; repeat fuel_step
            |repeat fuel_step]; fail).
  all: try (apply bind_fuel; [|intros; apply Hafter];
            apply encode_each_fuel; intros; repeat fuel_step;
            destruct (negb _); repeat fuel_step; fail).
  all: try (apply encode_each_fuel; intros; repeat fuel_step; fail).
  - fuel_step; [fuel_step|]. destruct (_ =? 0); [discriminate|].
    fuel_step; [|discriminate].
    apply encode_each_fuel. intros e1 x Hx. repeat fuel_step.
    apply Hcb. apply (message_elem_fuel x); [assumption|now apply Hel].
  - fuel_step; [fuel_step|]. destruct (_ =? 0); [discriminate|].
    fuel_step; [|discriminate].
    apply encode_each_fuel. intros e1 x Hx. repeat fuel_step.
    apply Hcb. apply (message_elem_fuel x); [assumption|now apply Hel].
Qed.

Lemma mapentry_fuel (e : upb_encstate) (n : Z) (layout : upb_msglayout)
  (ent : cell * cell) :
  (cell_height (fst ent) <= k)%nat -> (cell_height (snd ent) <= k)%nat ->
  encode_mapentry_impl big_endian layouts cb e n layout ent <> OutOfFuel.
Proof.
  intros H1 H2. unfold encode_mapentry_impl, encode_scalar, encode_tag.
  do 2 (fuel_step; [fuel_step|]).
  apply bind_fuel; [now apply scalar_fuel|]. intros e1 _.
  apply bind_fuel; [now apply scalar_fuel|]. intros e2 _.
  repeat fuel_step.
Qed.

Lemma map_fuel (e : upb_encstate) (msg : list (Z * cell))
  (subs_ : list upb_msglayout_sub) (f : upb_msglayout_field) :
  (cell_height (UPB_PTR_AT msg (offset f)) <= k)%nat ->
  encode_map_impl big_endian layouts cb e msg subs_ f <> OutOfFuel.
Proof.
  intros Hh. unfold encode_map_impl, encode_mapentry, submsg.
  fuel_step; [fuel_step|]. fuel_step; [fuel_step|].
  destruct (negb (field_count a0 =? 2)); [discriminate|].
  destruct a as [m|]; [|discriminate].
  assert (Hel : forall x, In x m ->
            (cell_height (fst x) <= k)%nat /\ (cell_height (snd x) <= k)%nat).
  { intros x Hx.
    destruct (UPB_PTR_AT msg (offset f)); try discriminate.
    cbn [read_map] in H. injection H as ->. cbn [cell_height] in Hh.
    pose proof (list_max_In _ _
      (in_map (fun p => Nat.max (cell_height (fst p)) (cell_height (snd p))) _ _ Hx)).
    lia. }
  destruct (negb _).
  - fuel_step; [fuel_step|]. fuel_step; [fuel_step|].
    apply encode_each_fuel. intros e1 x Hx. unfold _upb_sortedmap_next in Hx.
    apply in_rev in Hx.
    match goal with
    | Hs : of_option (_upb_mapsorter_pushmap _ _ _) = Ok _ |- _ =>
        apply of_option_Ok in Hs; apply (pushmap_In _ _ _ _ _ Hs) in Hx
    end.
    destruct (Hel x Hx). now apply mapentry_fuel.
  - apply encode_each_fuel. intros e1 x Hx.
    destruct (Hel x Hx). now apply mapentry_fuel.
Qed.

Lemma field_fuel (e : upb_encstate) (msg : list (Z * cell))
  (subs_ : list upb_msglayout_sub) (f : upb_msglayout_field) :
  (list_max (map (fun p => cell_height (snd p)) msg) <= k)%nat ->
  encode_field_impl big_endian layouts cb e msg subs_ f <> OutOfFuel.
Proof.
  intros Hh. pose proof (UPB_PTR_AT_height msg (offset f)) as Hc.
  unfold encode_field_impl, encode_array, encode_map, encode_scalar.
  destruct (mode f).
  - apply map_fuel. lia.
  - apply array_fuel. lia.
  - apply scalar_fuel. lia.
Qed.

Lemma body_fuel (e : upb_encstate) (msg : upb_msg) (m : upb_msglayout) :
  (msg_height msg <= S k)%nat ->
  encode_message_body big_endian layouts cb e msg m <> OutOfFuel.
Proof.
  destruct msg as [mem unk exts]. cbn [msg_height]. intros Hh.
  unfold encode_message_body.
  apply bind_fuel.
  { unfold encode_message_unknown. destruct (_ =? 0); [|discriminate].
    destruct (upb_msg_getunknown _); [apply encode_bytes_fuel|discriminate]. }
  intros e1 _. apply bind_fuel.
  { unfold encode_message_exts, encode_field, encode_msgset_item, encode_tag.
    cbn [_upb_msg_getexts].
    assert (Hx : forall x, In x exts -> (cell_height (snd x) <= k)%nat).
    { intros x Hx.
      pose proof (list_max_In _ _ (in_map (fun p => cell_height (snd p)) _ _ Hx)).
      lia. }
    destruct (ext m); [discriminate| |].
    - apply encode_each_fuel. intros e2 x Hin. apply field_fuel.
      cbn. specialize (Hx x Hin). lia.
    - apply encode_each_fuel. intros e2 x Hin. repeat fuel_step.
      apply Hcb. apply (message_elem_fuel (snd x)); [assumption|now apply Hx]. }
  intros e2 _. apply bind_fuel; [|discriminate].
  unfold encode_message_fields, encode_field. cbn [msg_mem].
  apply encode_each_fuel. intros e3 f _.
  destruct (encode_shouldencode_option big_endian mem (subs m) f) as [o ->].
  fuel_step; [fuel_step|]. destruct a; [|discriminate].
  apply field_fuel. lia.
Qed.

End FuelPass.

(** With fuel for the nesting of the message, the message emitter does not
    run out of fuel. *)
Lemma encode_message_fuel (big_endian : bool) (layouts : list upb_msglayout)
  (fuel : nat) :
  forall e msg m,
    (msg_height msg <= fuel)%nat ->
    encode_message_impl big_endian layouts fuel e msg m <> OutOfFuel.
Proof.
  induction fuel as [|k IH]; intros e msg m Hh.
  - destruct msg. cbn [msg_height] in Hh. lia.
  - cbn [encode_message_impl].
    apply (body_fuel big_endian layouts _ k); [|exact Hh].
    intros e0 m0 l0 H0. now apply IH.
Qed.

(** [upb_encode_ex] always comes to a result of the C function, or to a read
    the C program leaves undefined. *)
Lemma upb_encode_ex_fuel (big_endian : bool) (layouts : list upb_msglayout)
  (msg : upb_msg) (l : upb_msglayout) (options_ : Z) (arena : upb_alloc) :
  upb_encode_ex big_endian layouts msg l options_ arena <> OutOfFuel.
Proof.
  rewrite upb_encode_ex_eq. unfold entry_run, encode_message.
  pose proof (encode_message_fuel big_endian layouts (msg_height msg)
                (entry_state arena options_) msg l (le_n _)) as H.
  destruct (encode_message_impl _ _ _ _ _ _) as [[e s]| | |];
    try discriminate; [|contradiction].
  cbv zeta. destruct (_ =? 0); discriminate.
Qed.

(* ================================================================== *)
(** * When max-depth exceeded is raised *)

(** The error is raised only by a message nested as deep as the budget: with
    a depth counter above the height of the message, no emitter raises it.
    The pass also re-derives that the counter is restored, which it needs to
    know the counter at every call of the message emitter. *)

Lemma calm_bind {A B : Type} (stA : A -> upb_encstate) (stB : B -> upb_encstate)
  (d1 d2 : Z) (c : outcome A) (k : A -> outcome B) :
  calm_gen stA d1 c ->
  (forall a, c = Ok a -> wf (stA a) -> depth (ctx (stA a)) = d1 ->
             calm_gen stB d2 (k a)) ->
  calm_gen stB d2 (bind c k).
Proof.
  intros [N H] Hk. destruct c as [a|[]| |]; cbn [bind].
  - destruct (H a eq_refl). now apply Hk.
  - split; discriminate.
  - now contradiction N.
  - split; discriminate.
  - split; discriminate.
Qed.

Lemma calm_read {A B : Type} (st : B -> upb_encstate) (d : Z) (o : option A)
  (k : A -> outcome B) :
  (forall a, o = Some a -> calm_gen st d (k a)) ->
  calm_gen st d (bind (of_option o) k).
Proof.
  intros H. destruct o as [a|]; cbn [of_option bind]; [now apply H|].
  split; discriminate.
Qed.

Lemma calm_Ok {A : Type} (st : A -> upb_encstate) (d : Z) (a : A) :
  wf (st a) -> depth (ctx (st a)) = d -> calm_gen st d (Ok a).
Proof.
  intros W D. split; [discriminate|]. intros a' H. inv_Ok H. auto.
Qed.

Lemma calm_Undefined {A : Type} (st : A -> upb_encstate) (d : Z) :
  calm_gen st d Undefined.
Proof. split; discriminate. Qed.

Lemma calm_varint (e : upb_encstate) (d val : Z) :
  wf e -> depth (ctx e) = d -> calm d (encode_varint e val).
Proof.
  intros W D. split; [apply encode_varint_no_maxdepth|].
  intros e' H. destruct (encode_varint_spec e e' val W H) as [E D'].
  split; [exact (ext_wf _ _ _ E)|congruence].
Qed.

Lemma calm_bytes (e : upb_encstate) (d : Z) (data : list byte) :
  wf e -> depth (ctx e) = d -> calm d (encode_bytes e (map Byte data)).
Proof.
  intros W D. split; [apply encode_bytes_no_maxdepth|].
  intros e' H. destruct (encode_bytes_spec e e' data W H) as [E D'].
  split; [exact (ext_wf _ _ _ E)|congruence].
Qed.

Lemma calm_each {A : Type} (d : Z)
  (body : upb_encstate -> A -> outcome upb_encstate) (l : list A) :
  (forall e x, In x l -> wf e -> depth (ctx e) = d -> calm d (body e x)) ->
  forall e, wf e -> depth (ctx e) = d -> calm d (encode_each body e l).
Proof.
  induction l as [|x tl IH]; intros Hb e W D; cbn [encode_each].
  - now apply calm_Ok.
  - apply (calm_bind (fun e => e) (fun e => e) d).
    + apply Hb; [now left|assumption|assumption].
    + intros e1 _ W1 D1. apply IH; [|assumption|assumption].
      intros e2 y Hy. apply Hb. now right.
Qed.

(** One step through an emitter: a primitive, a read, or a bind. *)
Ltac calm_step :=
  first
    [ apply calm_varint; [assumption|simpl_state; congruence]
    | apply calm_bytes; [assumption|simpl_state; congruence]
    | apply calm_Ok; [assumption|simpl_state; congruence]
    | apply calm_Undefined
    | apply calm_read; intros ? ?
    | match goal with
      | |- calm_gen _ _ (let (_, _) := ?x in _) => destruct x
      end
    | eapply (calm_bind (fun e => e));
        [ first [ apply calm_varint; [assumption|reflexivity]
                | apply calm_bytes; [assumption|reflexivity] ]
        | intros ? _ ? ? ] ].

Section DepthPass.

Variable big_endian : bool.
Variable layouts : list upb_msglayout.
Variable cb : upb_encstate -> upb_msg -> upb_msglayout -> outcome (upb_encstate * Z).
Variable k : nat.
Hypothesis Hcb : forall e m l,
  wf e -> (msg_height m <= k)%nat -> Z.of_nat k < depth (ctx e) ->
  calm_gen fst (depth (ctx e)) (cb e m l).

Lemma scalar_calm (e : upb_encstate) (c : cell) (subs_ : list upb_msglayout_sub)
  (f : upb_msglayout_field) :
  wf e -> (cell_height c <= k)%nat -> Z.of_nat (S k) < depth (ctx e) ->
  calm (depth (ctx e)) (encode_scalar_impl big_endian layouts cb e c subs_ f).
Proof.
  intros W Hh Hd. unfold calm, encode_scalar_impl, encode_double, encode_float,
    encode_fixed64, encode_fixed32, encode_tag, submsg.
  destruct (descriptortype f); repeat calm_step.
  - destruct a as [m|]; [|calm_step]. cbv zeta.
    assert (W0 : wf (set_depth e (depth (ctx e) - 1))) by now apply wf_set_depth.
    set (e0 := set_depth e (depth (ctx e) - 1)) in *.
    assert (D0 : depth (ctx e0) = depth (ctx e) - 1) by reflexivity.
    destruct (depth (ctx e0) =? 0) eqn:Z0; [apply Z.eqb_eq in Z0; lia|].
    destruct c; try discriminate. cbn [read_msg] in H. injection H as <-.
    cbn [cell_height] in Hh.
    eapply (calm_bind (fun e => e));
      [apply calm_varint; [exact W0|reflexivity]|intros e1 _ W1 D1].
    eapply (calm_bind fst);
      [apply Hcb; [exact W1|exact Hh|lia]|intros [e2 sz] _ W2 D2].
    cbn [fst] in W2, D2.
    apply calm_varint; [now apply wf_set_depth|simpl_state; lia].
  - destruct a as [m|]; [|calm_step]. cbv zeta.
    assert (W0 : wf (set_depth e (depth (ctx e) - 1))) by now apply wf_set_depth.
    set (e0 := set_depth e (depth (ctx e) - 1)) in *.
    assert (D0 : depth (ctx e0) = depth (ctx e) - 1) by reflexivity.
    destruct (depth (ctx e0) =? 0) eqn:Z0; [apply Z.eqb_eq in Z0; lia|].
    destruct c; try discriminate. cbn [read_msg] in H. injection H as <-.
    cbn [cell_height] in Hh.
    eapply (calm_bind fst);
      [apply Hcb; [exact W0|exact Hh|lia]|intros [e2 sz] _ W2 D2].
    cbn [fst] in W2, D2.
    eapply (calm_bind (fun e => e));
      [apply calm_varint; [exact W2|reflexivity]|intros e3 _ W3 D3].
    apply calm_varint; [now apply wf_set_depth|simpl_state; lia].
Qed.

Lemma array_calm (e : upb_encstate) (msg : list (Z * cell))
  (subs_ : list upb_msglayout_sub) (f : upb_msglayout_field) :
  wf e -> (cell_height (UPB_PTR_AT msg (offset f)) <= k)%nat ->
  Z.of_nat (S k) < depth (ctx e) ->
  calm (depth (ctx e)) (encode_array_impl big_endian layouts cb e msg subs_ f).
Proof.
  intros W Hh Hd. unfold calm, encode_array_impl, encode_fixedarray,
    encode_fixedarray_impl, VARINT_CASE, encode_tag, submsg.
  calm_step.
  destruct a as [arr|]; [|calm_step].
  assert (Hel : forall x, In x (rev arr) -> (cell_height x <= k)%nat).
  { intros x Hx. apply in_rev in Hx.
    destruct (UPB_PTR_AT msg (offset f)); try discriminate.
    cbn [read_array] in H. injection H as ->. cbn [cell_height] in Hh.
    pose proof (list_max_In _ _ (in_map cell_height _ _ Hx)). lia. }
  destruct (_ =? 0); [calm_step|]. cbv zeta.
  assert (Hafter : forall e1 : upb_encstate,
    wf e1 -> depth (ctx e1) = depth (ctx e) ->
    calm_gen (fun e => e) (depth (ctx e))
      (if packed f
       then e2 <- encode_varint e1 (limit (ctx e1) - ptr e1 - (limit (ctx e) - ptr e)) ;;
            encode_varint e2 (make_tag (number f) UPB_WIRE_TYPE_DELIMITED)
       else Ok e1)).
  { intros e1 W1 D1. destruct (packed f); repeat calm_step. }
  assert (Hloop : forall body : upb_encstate -> cell -> outcome upb_encstate,
    (forall e1 x, In x (rev arr) -> wf e1 -> depth (ctx e1) = depth (ctx e) ->
                  calm_gen (fun e => e) (depth (ctx e)) (body e1 x)) ->
    calm_gen (fun e => e) (depth (ctx e)) (encode_each body e (rev arr))).
  { intros body Hb. now apply calm_each. }
  assert (Hmsgs : forall body : upb_encstate -> cell -> outcome upb_encstate,
    (forall e1 x, In x (rev arr) -> wf e1 -> depth (ctx e1) = depth (ctx e) - 1 ->
                  calm_gen (fun e => e) (depth (ctx e) - 1) (body e1 x)) ->
    calm_gen (fun e => e) (depth (ctx e))
      (let e0 := set_depth e (depth (ctx e) - 1) in
       if depth (ctx e0) =? 0 then encode_err MaxDepthExceeded
       else e1 <- encode_each body e0 (rev arr) ;;
            Ok (set_depth e1 (depth (ctx e1) + 1)))).
  { intros body Hb. cbv zeta.
    assert (W0 : wf (set_depth e (depth (ctx e) - 1))) by now apply wf_set_depth.
    set (e0 := set_depth e (depth (ctx e) - 1)) in *.
    assert (D0 : depth (ctx e0) = depth (ctx e) - 1) by reflexivity.
    destruct (depth (ctx e0) =? 0) eqn:Z0; [apply Z.eqb_eq in Z0; lia|].
    eapply (calm_bind (fun e => e));
      [apply calm_each; [exact Hb|exact W0|exact D0]|intros e1 _ W1 D1].
    apply calm_Ok; [now apply wf_set_depth|simpl_state; lia]. }
  destruct (descriptortype f).
  all: try (apply (calm_bind (fun e => e) (fun e => e) (depth (ctx e)));
              [|intros e1 _ W1 D1; now apply Hafter];
            destruct (negb _);
            [apply Hloop; intros; repeat calm_step
            |repeat calm_step]; fail).
  all: try (apply (calm_bind (fun e => e) (fun e => e) (depth (ctx e)));
              [|intros e1 _ W1 D1; now apply Hafter];
            apply Hloop; intros; repeat calm_step;
            destruct (negb _); repeat calm_step; fail).
  all: try (apply Hloop; intros; repeat calm_step; fail).
  - calm_step. apply Hmsgs. intros e1 x Hx W1 D1.
    eapply (calm_bind (fun e => e));
      [apply calm_varint; [exact W1|reflexivity]|intros e2 _ W2 D2].
    apply calm_read. intros m Hm.
    eapply (calm_bind fst);
      [apply Hcb; [exact W2| |lia]|intros [e3 sz] _ W3 D3].
    { apply (message_elem_fuel _ x); [now rewrite Hm|now apply Hel]. }
    cbn [fst] in W3, D3. apply calm_varint; [exact W3|congruence].
  - calm_step. apply Hmsgs. intros e1 x Hx W1 D1.
    apply calm_read. intros m Hm.
    eapply (calm_bind fst);
      [apply Hcb; [exact W1| |lia]|intros [e3 sz] _ W3 D3].
    { apply (message_elem_fuel _ x); [now rewrite Hm|now apply Hel]. }
    cbn [fst] in W3, D3. repeat calm_step.
Qed.

Lemma mapentry_calm (e : upb_encstate) (n : Z) (layout : upb_msglayout)
  (ent : cell * cell) :
  wf e -> (cell_height (fst ent) <= k)%nat -> (cell_height (snd ent) <= k)%nat ->
  Z.of_nat (S k) < depth (ctx e) ->
  calm (depth (ctx e)) (encode_mapentry_impl big_endian layouts cb e n layout ent).
Proof.
  intros W H1 H2 Hd. unfold calm, encode_mapentry_impl, encode_scalar, encode_tag.
  do 2 calm_step. cbv zeta.
  apply (calm_bind (fun e => e) (fun e => e) (depth (ctx e)));
    [now apply scalar_calm|intros e1 _ W1 D1].
  apply (calm_bind (fun e => e) (fun e => e) (depth (ctx e)));
    [rewrite <- D1; apply scalar_calm; [assumption|assumption|lia]
    |intros e2 _ W2 D2].
  repeat calm_step.
Qed.

Lemma map_calm (e : upb_encstate) (msg : list (Z * cell))
  (subs_ : list upb_msglayout_sub) (f : upb_msglayout_field) :
  wf e -> (cell_height (UPB_PTR_AT msg (offset f)) <= k)%nat ->
  Z.of_nat (S k) < depth (ctx e) ->
  calm (depth (ctx e)) (encode_map_impl big_endian layouts cb e msg subs_ f).
Proof.
  intros W Hh Hd. unfold calm, encode_map_impl, encode_mapentry, submsg.
  do 2 calm_step.
  destruct (negb (field_count a0 =? 2)); [calm_step|].
  destruct a as [m|]; [|calm_step].
  assert (Hel : forall x, In x m ->
            (cell_height (fst x) <= k)%nat /\ (cell_height (snd x) <= k)%nat).
  { intros x Hx.
    destruct (UPB_PTR_AT msg (offset f)); try discriminate.
    cbn [read_map] in H. injection H as ->. cbn [cell_height] in Hh.
    pose proof (list_max_In _ _
      (in_map (fun p => Nat.max (cell_height (fst p)) (cell_height (snd p))) _ _ Hx)).
    lia. }
  assert (Hent : forall e1 x, In x m -> wf e1 -> depth (ctx e1) = depth (ctx e) ->
            calm (depth (ctx e))
              (encode_mapentry_impl big_endian layouts cb e1 (number f) a0 x)).
  { intros e1 x Hx W1 D1. destruct (Hel x Hx). rewrite <- D1.
    apply mapentry_calm; [assumption|assumption|assumption|lia]. }
  destruct (negb _).
  - do 2 calm_step.
    apply calm_each; [|assumption|reflexivity].
    intros e1 x Hx W1 D1. unfold _upb_sortedmap_next in Hx. apply in_rev in Hx.
    match goal with
    | Hs : _upb_mapsorter_pushmap _ _ _ = Some _ |- _ =>
        apply (pushmap_In _ _ _ _ _ Hs) in Hx
    end.
    now apply Hent.
  - apply calm_each; [|assumption|reflexivity].
    intros e1 x Hx W1 D1. now apply Hent.
Qed.

Lemma field_calm (e : upb_encstate) (msg : list (Z * cell))
  (subs_ : list upb_msglayout_sub) (f : upb_msglayout_field) :
  wf e -> (list_max (map (fun p => cell_height (snd p)) msg) <= k)%nat ->
  Z.of_nat (S k) < depth (ctx e) ->
  calm (depth (ctx e)) (encode_field_impl big_endian layouts cb e msg subs_ f).
Proof.
  intros W Hh Hd. pose proof (UPB_PTR_AT_height msg (offset f)) as Hc.
  unfold encode_field_impl, encode_array, encode_map, encode_scalar.
  destruct (mode f).
  - apply map_calm; [assumption|lia|assumption].
  - apply array_calm; [assumption|lia|assumption].
  - apply scalar_calm; [assumption|lia|assumption].
Qed.

Lemma body_calm (e : upb_encstate) (msg : upb_msg) (m : upb_msglayout) :
  wf e -> (msg_height msg <= S k)%nat -> Z.of_nat (S k) < depth (ctx e) ->
  calm_gen fst (depth (ctx e)) (encode_message_body big_endian layouts cb e msg m).
Proof.
  destruct msg as [mem unk exts]. cbn [msg_height]. intros W Hh Hd.
  unfold encode_message_body. cbv zeta.
  apply (calm_bind (fun e => e) fst (depth (ctx e))).
  { unfold encode_message_unknown. destruct (_ =? 0); [|repeat calm_step].
    destruct (upb_msg_getunknown _); repeat calm_step. }
  intros e1 _ W1 D1.
  apply (calm_bind (fun e => e) fst (depth (ctx e))).
  { unfold encode_message_exts, encode_field, encode_msgset_item, encode_tag.
    cbn [_upb_msg_getexts].
    assert (Hx : forall x, In x exts -> (cell_height (snd x) <= k)%nat).
    { intros x Hx.
      pose proof (list_max_In _ _ (in_map (fun p => cell_height (snd p)) _ _ Hx)).
      lia. }
    destruct (ext m); [repeat calm_step| |].
    - apply calm_each; [|assumption|assumption].
      intros e2 x Hin W2 D2. rewrite <- D2. apply field_calm; [assumption| |lia].
      cbn. specialize (Hx x Hin). lia.
    - apply calm_each; [|assumption|assumption].
      intros e2 x Hin W2 D2.
      eapply (calm_bind (fun e => e));
        [apply calm_varint; [exact W2|reflexivity]|intros e3 _ W3 D3].
      do 2 calm_step.
      eapply (calm_bind fst);
        [apply Hcb; [exact W3| |lia]|intros [e4 sz] _ W4 D4].
      { apply (message_elem_fuel _ (snd x)); [|now apply Hx].
        match goal with Hm : _ = Some _ |- _ => now rewrite Hm end. }
      cbn [fst] in W4, D4. repeat calm_step. }
  intros e2 _ W2 D2.
  apply (calm_bind (fun e => e) fst (depth (ctx e))).
  { unfold encode_message_fields, encode_field. cbn [msg_mem].
    apply calm_each; [|assumption|assumption].
    intros e3 f _ W3 D3.
    destruct (encode_shouldencode_option big_endian mem (subs m) f) as [o ->].
    calm_step. destruct a; [|repeat calm_step].
    rewrite <- D3. apply field_calm; [assumption|lia|lia]. }
  intros e3 _ W3 D3. now apply calm_Ok.
Qed.

End DepthPass.

(** With a depth counter above the height of the message, the message emitter
    does not raise max-depth exceeded, whatever the fuel. *)
Lemma encode_message_calm (big_endian : bool) (layouts : list upb_msglayout)
  (fuel : nat) :
  forall e msg m (k : nat),
    wf e -> (msg_height msg <= k)%nat -> Z.of_nat k < depth (ctx e) ->
    calm_gen fst (depth (ctx e)) (encode_message_impl big_endian layouts fuel e msg m).
Proof.
  induction fuel as [|n IH]; intros e msg m k W Hh Hd.
  - cbn [encode_message_impl]. split; discriminate.
  - cbn [encode_message_impl]. destruct k as [|k'].
    { destruct msg. cbn [msg_height] in Hh. lia. }
    apply (body_calm big_endian layouts _ k'); [|assumption|assumption|assumption].
    intros e0 m0 l0 W0 H0 D0. now apply (IH e0 m0 l0 k').
Qed.

(** The depth budget [upb_encode_ex] starts from is positive and fits 16
    bits; when it is above the nesting of the message, the call does not fail
    for depth. *)
Lemma entry_run_calm (big_endian : bool) (layouts : list upb_msglayout)
  (msg : upb_msg) (l : upb_msglayout) (options_ : Z) (arena : upb_alloc) :
  entry_run big_endian layouts msg l options_ arena = Longjmp MaxDepthExceeded ->
  depth_budget options_ <= Z.of_nat (msg_height msg).
Proof.
  intros H.
  destruct (Z_le_gt_dec (depth_budget options_) (Z.of_nat (msg_height msg)))
    as [Hle|Hgt]; [exact Hle|exfalso].
  destruct (encode_message_calm big_endian layouts (msg_height msg)
              (entry_state arena options_) msg l (msg_height msg)
              (wf_entry_state _ _) (le_n _)) as [N _].
  - cbn [entry_state ctx depth]. lia.
  - exact (N H).
Qed.

(* ================================================================== *)
(** * Packed arrays *)

(** What [encode_array_impl] writes for a packed array, exactly: one tag of
    wire type DELIMITED, one varint holding the length of the payload, and
    the payload, which is the elements' bytes in the order of the array with
    nothing between them. *)

Lemma read_all_app {A B : Type} (f : A -> option B) (l1 l2 : list A) :
  read_all f (l1 ++ l2)
  = match read_all f l1, read_all f l2 with
    | Some a, Some b => Some (a ++ b)
    | _, _ => None
    end.
Proof.
  induction l1 as [|x tl IH]; cbn [app read_all].
  - now destruct (read_all f l2).
  - rewrite IH. destruct (f x); [|reflexivity].
    destruct (read_all f tl); [|reflexivity].
    now destruct (read_all f l2).
Qed.

Lemma read_all_rev {A B : Type} (f : A -> option B) (l : list A) (ys : list B) :
  read_all f (rev l) = Some ys -> read_all f l = Some (rev ys).
Proof.
  revert ys; induction l as [|x tl IH]; intros ys; cbn [rev read_all].
  - intros H; injection H as <-. reflexivity.
  - rewrite read_all_app. cbn [read_all].
    destruct (read_all f (rev tl)) as [a|] eqn:E; [|discriminate].
    destruct (f x) as [y|]; [|discriminate].
    intros H; injection H as <-.
    rewrite (IH a eq_refl), rev_app_distr. reflexivity.
Qed.

(** A loop whose body writes the chunk [g x] for the element [x] writes the
    chunks of the elements, the last element's first. *)
Lemma each_exact {A : Type} (g : A -> option (list byte))
  (body : upb_encstate -> A -> outcome upb_encstate) (l : list A) :
  (forall e x e', wf e -> body e x = Ok e' ->
                  exists c, g x = Some c /\ extends e e' c) ->
  forall e e', wf e -> encode_each body e l = Ok e' ->
    exists cs, read_all g l = Some cs /\ extends e e' (concat (rev cs)).
Proof.
  intros Hb. induction l as [|x tl IH]; intros e e' W H; cbn [encode_each] in H.
  - inv_Ok H. exists []. split; [reflexivity|]. now apply extends_refl.
  - destruct (body e x) as [e1| | |] eqn:B; try discriminate. cbn [bind] in H.
    destruct (Hb e x e1 W B) as (c & G & E1).
    destruct (IH e1 e' (ext_wf _ _ _ E1) H) as (cs & R & E2).
    exists (c :: cs). cbn [read_all]. rewrite G, R. split; [reflexivity|].
    cbn [rev]. rewrite concat_app. cbn [concat]. rewrite app_nil_r.
    exact (extends_trans _ _ _ _ _ E1 E2).
Qed.

Lemma packed_varints_exact (e e' : upb_encstate) (arr : list cell)
  (f : upb_msglayout_field) (read : cell -> option Z) :
  wf e -> packed f = true -> VARINT_CASE e arr f read = Ok e' ->
  exists cs,
    read_all (fun c => option_map varint_bytes (read c)) arr = Some cs /\
    extends e e' (concat cs).
Proof.
  intros W Hp H. unfold VARINT_CASE in H. rewrite Hp in H.
  change (negb (0 =? 0)) with false in H. cbv beta iota in H.
  apply (each_exact (fun c => option_map varint_bytes (read c))) in H; [|..|exact W].
  - destruct H as (cs & R & E). exists (rev cs).
    split; [now apply read_all_rev|exact E].
  - intros e1 x e2 W1 B.
    destruct (read x) as [v|]; [|discriminate]. cbn [of_option bind] in B.
    destruct (encode_varint e1 v) as [e3| | |] eqn:V; try discriminate.
    cbn [bind] in B. inv_Ok B.
    exists (varint_bytes v). split; [reflexivity|].
    now destruct (encode_varint_spec _ _ _ W1 V).
Qed.

Lemma packed_fixed_exact (e e' : upb_encstate) (arr : list cell) (elem_size : nat) :
  wf e -> encode_fixedarray_impl e arr elem_size 0 = Ok e' ->
  exists cs, read_all (read_raw elem_size) arr = Some cs /\ extends e e' (concat cs).
Proof.
  intros W H. unfold encode_fixedarray_impl in H.
  change (negb (0 =? 0)) with false in H. cbv beta iota in H.
  destruct (read_all (read_raw elem_size) arr) as [cs|]; [|discriminate].
  cbn [of_option bind] in H. exists cs. split; [reflexivity|].
  now destruct (encode_bytes_spec _ _ _ W H).
Qed.

(** The length varint and the tag that follow the elements of a packed
    array: the length is the number of bytes the elements took. *)
Lemma after_switch_exact (e e1 e' : upb_encstate) (payload : list byte) (n : Z) :
  wf e -> extends e e1 payload ->
  (e2 <- encode_varint e1 (limit (ctx e1) - ptr e1 - (limit (ctx e) - ptr e)) ;;
   encode_tag e2 n UPB_WIRE_TYPE_DELIMITED) = Ok e' ->
  written e'
  = map Byte (varint_bytes (make_tag n UPB_WIRE_TYPE_DELIMITED)
              ++ varint_bytes (Z.of_nat (length payload)) ++ payload)
    ++ written e.
Proof.
  intros W E1 H. rewrite (extends_size e e1 payload W E1) in H.
  destruct (encode_varint e1 _) as [e2| | |] eqn:V; try discriminate.
  cbn [bind] in H.
  destruct (encode_varint_spec _ _ _ (ext_wf _ _ _ E1) V) as [E2 _].
  destruct (encode_tag_spec _ _ _ _ (ext_wf _ _ _ E2) H) as [E3 _].
  rewrite (ext_written _ _ _ E3), (ext_written _ _ _ E2), (ext_written _ _ _ E1).
  rewrite !map_app, <- !app_assoc. reflexivity.
Qed.

Lemma packed_array_output (big_endian : bool) (layouts : list upb_msglayout)
  (cb : upb_encstate -> upb_msg -> upb_msglayout -> outcome (upb_encstate * Z))
  (e e' : upb_encstate) (msg : list (Z * cell)) (subs_ : list upb_msglayout_sub)
  (f : upb_msglayout_field) (arr : list cell) :
  wf e -> packed f = true -> packable (descriptortype f) = true ->
  read_array (UPB_PTR_AT msg (offset f)) = Some (Some arr) -> arr <> [] ->
  encode_array_impl big_endian layouts cb e msg subs_ f = Ok e' ->
  exists cs,
    read_all (packed_elem big_endian (descriptortype f)) arr = Some cs /\
    written e'
    = map Byte (varint_bytes (make_tag (number f) UPB_WIRE_TYPE_DELIMITED)
                ++ varint_bytes (Z.of_nat (length (concat cs))) ++ concat cs)
      ++ written e.
Proof.
  intros W Hp Hk Hr Hn H. unfold encode_array_impl, encode_fixedarray in H.
  rewrite Hr in H. cbn [of_option bind] in H.
  destruct (Z.of_nat (length arr) =? 0) eqn:Z0.
  { apply Z.eqb_eq in Z0. destruct arr; [contradiction|cbn [length] in Z0; lia]. }
  cbv zeta in H. rewrite Hp in H. cbv beta iota in H.
  destruct (descriptortype f); try discriminate Hk; cbn [packed_elem].
  all: match type of H with
       | bind ?c _ = _ => destruct c as [e1| | |] eqn:S; try discriminate
       end;
       cbn [bind] in H;
       first [ apply packed_fixed_exact in S; [|exact W]
             | apply packed_varints_exact in S; [|exact W|exact Hp] ];
       destruct S as (cs & R & E1); exists cs;
       (split; [exact R|exact (after_switch_exact _ _ _ _ _ W E1 H)]).
Qed.

(** A nil or empty array emits nothing. *)
Lemma array_nil_or_empty (big_endian : bool) (layouts : list upb_msglayout)
  (cb : upb_encstate -> upb_msg -> upb_msglayout -> outcome (upb_encstate * Z))
  (e : upb_encstate) (msg : list (Z * cell)) (subs_ : list upb_msglayout_sub)
  (f : upb_msglayout_field) :
  read_array (UPB_PTR_AT msg (offset f)) = Some None \/
  read_array (UPB_PTR_AT msg (offset f)) = Some (Some []) ->
  encode_array_impl big_endian layouts cb e msg subs_ f = Ok e.
Proof.
  intros [H|H]; unfold encode_array_impl; rewrite H; reflexivity.
Qed.

(** ** Arrays of varints, packed or not *)

Lemma read_all_option_map {A B C : Type} (r : A -> option B) (g : B -> C)
  (l : list A) :
  read_all (fun c => option_map g (r c)) l = option_map (map g) (read_all r l).
Proof.
  induction l as [|x tl IH]; cbn [read_all]; [reflexivity|].
  rewrite IH. destruct (r x); [|reflexivity].
  now destruct (read_all r tl).
Qed.

Lemma unpacked_varints_exact (e e' : upb_encstate) (arr : list cell)
  (f : upb_msglayout_field) (read : cell -> option Z) :
  wf e -> packed f = false -> valid_number f ->
  VARINT_CASE e arr f read = Ok e' ->
  exists vals,
    read_all read arr = Some vals /\
    extends e e'
      (concat (map (fun v => varint_bytes (make_tag (number f) UPB_WIRE_TYPE_VARINT)
                              ++ varint_bytes v) vals)).
Proof.
  intros W Hp Hv H. unfold VARINT_CASE in H. rewrite Hp in H.
  pose proof (make_tag_varint_nonzero (number f) Hv) as Hnz.
  apply Z.eqb_neq in Hnz. rewrite Hnz in H. cbn [negb] in H.
  apply (each_exact
           (fun c => option_map
                       (fun v => varint_bytes (make_tag (number f) UPB_WIRE_TYPE_VARINT)
                                 ++ varint_bytes v) (read c))) in H; [|..|exact W].
  - destruct H as (cs & R & E). apply read_all_rev in R.
    rewrite read_all_option_map in R.
    destruct (read_all read arr) as [vals|]; [|discriminate].
    cbn [option_map] in R. injection R as R. exists vals.
    split; [reflexivity|]. rewrite R. exact E.
  - intros e1 x e2 W1 B.
    destruct (read x) as [v|]; [|discriminate]. cbn [of_option bind] in B.
    destruct (encode_varint e1 v) as [e3| | |] eqn:V; try discriminate.
    cbn [bind] in B.
    destruct (encode_varint_spec _ _ _ W1 V) as [E1 _].
    destruct (encode_varint_spec _ _ _ (ext_wf _ _ _ E1) B) as [E2 _].
    eexists. split; [reflexivity|].
    exact (extends_trans _ _ _ _ _ E1 E2).
Qed.

(** An array of INT32 or ENUM elements: every element is written as the
    varint of its value sign-extended to 64 bits. *)
Lemma int32_array_output (big_endian : bool) (layouts : list upb_msglayout)
  (cb : upb_encstate -> upb_msg -> upb_msglayout -> outcome (upb_encstate * Z))
  (e e' : upb_encstate) (msg : list (Z * cell)) (subs_ : list upb_msglayout_sub)
  (f : upb_msglayout_field) (arr : list cell) :
  wf e -> valid_number f ->
  descriptortype f = UPB_DESCRIPTOR_TYPE_INT32 \/
  descriptortype f = UPB_DESCRIPTOR_TYPE_ENUM ->
  read_array (UPB_PTR_AT msg (offset f)) = Some (Some arr) -> arr <> [] ->
  encode_array_impl big_endian layouts cb e msg subs_ f = Ok e' ->
  exists vals,
    read_all (read_int big_endian 4) arr = Some vals /\
    written e'
    = map Byte (varint_array_bytes f
                  (map (fun v => varint_bytes (u64 (s32 v))) vals))
      ++ written e.
Proof.
  intros W Hv Ht Hr Hn H. unfold varint_array_bytes.
  destruct (packed f) eqn:Hp.
  - destruct (packed_array_output big_endian layouts cb e e' msg subs_ f arr W Hp)
      as (cs & R & Hw);
      [destruct Ht as [-> | ->]; reflexivity|exact Hr|exact Hn|exact H|].
    assert (R' : read_all (fun c => option_map varint_bytes
                             (option_map (fun v => u64 (s32 v))
                                (read_int big_endian 4 c))) arr = Some cs)
      by (destruct Ht as [Ht|Ht]; rewrite Ht in R; exact R).
    rewrite (read_all_option_map
               (fun c => option_map (fun v => u64 (s32 v)) (read_int big_endian 4 c))
               varint_bytes), read_all_option_map in R'.
    destruct (read_all (read_int big_endian 4) arr) as [vals|]; [|discriminate].
    cbn [option_map] in R'. injection R' as R'. exists vals.
    split; [reflexivity|]. rewrite Hw, <- R', map_map. reflexivity.
  - unfold encode_array_impl in H. rewrite Hr in H. cbn [of_option bind] in H.
    destruct (Z.of_nat (length arr) =? 0) eqn:Z0.
    { apply Z.eqb_eq in Z0. destruct arr; [contradiction|cbn [length] in Z0; lia]. }
    cbv zeta in H. rewrite Hp in H.
    assert (H' : VARINT_CASE e arr f
                   (fun c => option_map (fun v => u64 (s32 v))
                               (read_int big_endian 4 c)) = Ok e').
    { destruct Ht as [Ht|Ht]; rewrite Ht in H;
        (destruct (VARINT_CASE e arr f _) as [e1| | |]; try discriminate;
         cbn [bind] in H; exact H). }
    destruct (unpacked_varints_exact _ _ _ _ _ W Hp Hv H') as (vals' & R & E).
    rewrite read_all_option_map in R.
    destruct (read_all (read_int big_endian 4) arr) as [vals|]; [|discriminate].
    cbn [option_map] in R. injection R as <-. exists vals.
    split; [reflexivity|].
    rewrite (ext_written _ _ _ E), !map_map. reflexivity.
Qed.

(** ** Reading a packed payload back *)

Lemma varint_loop_parse (k : nat) :
  forall (v : Z) (acc rest : list byte),
    0 <= v < 128 ^ Z.of_nat (S k) ->
    parse_varints acc (varint_loop (S k) v ++ rest)
    = option_map (cons (varint_value (rev acc ++ varint_loop (S k) v)))
        (parse_varints [] rest).
Proof.
  induction k as [|k IH]; intros v acc rest Hv.
  - change (128 ^ Z.of_nat 1) with 128 in Hv.
    cbn [varint_loop]. replace (127 <? v) with false by (symmetry; apply Z.ltb_ge; lia).
    cbn [app parse_varints rev]. rewrite Z_of_byte_of_Z, Z.mod_small by lia.
    replace (v <? 128) with true by (symmetry; apply Z.ltb_lt; lia).
    reflexivity.
  - change (varint_loop (S (S k)) v)
      with (if 127 <? v
            then byte_of_Z (Z.lor v 128) :: varint_loop (S k) (Z.shiftr v 7)
            else [byte_of_Z v]).
    destruct (127 <? v) eqn:E.
    + apply Z.ltb_lt in E. cbn [app parse_varints].
      rewrite lor_128_byte, Z_of_byte_of_Z.
      pose proof (Z.mod_pos_bound v 128 ltac:(lia)) as Hm.
      rewrite (Z.mod_small (128 + v mod 128)) by lia.
      replace (128 + v mod 128 <? 128) with false by (symmetry; apply Z.ltb_ge; lia).
      rewrite IH.
      * cbn [rev]. rewrite <- app_assoc. reflexivity.
      * rewrite Z.shiftr_div_pow2 by lia. change (2 ^ 7) with 128.
        rewrite Nat2Z.inj_succ, Z.pow_succ_r in Hv by lia.
        split; [apply Z.div_pos; lia|apply Z.div_lt_upper_bound; lia].
    + apply Z.ltb_ge in E. cbn [app parse_varints rev].
      rewrite Z_of_byte_of_Z, Z.mod_small by lia.
      replace (v <? 128) with true by (symmetry; apply Z.ltb_lt; lia).
      reflexivity.
Qed.

Lemma varint_bytes_parse (v : Z) (rest : list byte) :
  0 <= v < 2 ^ 64 ->
  parse_varints [] (varint_bytes v ++ rest)
  = option_map (cons v) (parse_varints [] rest).
Proof.
  intros Hv. unfold varint_bytes.
  change UPB_PB_VARINT_MAX_LEN with 10%nat.
  rewrite varint_loop_parse.
  - cbn [rev app]. fold (varint_bytes v).
    change (varint_loop 10 v) with (varint_bytes v).
    rewrite varint_bytes_base128, varint_value_base128 by lia. reflexivity.
  - change (128 ^ Z.of_nat 10) with (2 ^ 70).
    assert (2 ^ 64 < 2 ^ 70) by (apply Z.pow_lt_mono_r; lia). lia.
Qed.

(** The payload of a packed array of varints reads back as the values the
    emitter took from the array, in the order of the array. *)
Lemma packed_varints_reparse (read : cell -> option Z) (arr : list cell) :
  (forall c v, read c = Some v -> 0 <= v < 2 ^ 64) ->
  forall cs,
    read_all (fun c => option_map varint_bytes (read c)) arr = Some cs ->
    exists vals, read_all read arr = Some vals /\
                 parse_varints [] (concat cs) = Some vals.
Proof.
  intros Hr. induction arr as [|c tl IH]; intros cs H; cbn [read_all] in *.
  - injection H as <-. exists []. split; reflexivity.
  - destruct (read c) as [v|] eqn:R; [|discriminate]. cbn [option_map] in H.
    destruct (read_all _ tl) as [cs'|]; [|discriminate].
    injection H as <-. destruct (IH cs' eq_refl) as (vals & R' & P).
    exists (v :: vals). rewrite R'. split; [reflexivity|].
    cbn [concat]. rewrite varint_bytes_parse by (exact (Hr c v R)).
    rewrite P. reflexivity.
Qed.

(** On a little-endian host the bytes of a fixed-width element, as they lie
    in memory, are the little-endian bytes of its value. *)
Lemma fixed_little_endian (n : nat) (c : cell) (raw : list byte) :
  read_raw n c = Some raw -> read_int false n c = Some (le_value raw).
Proof.
  destruct c; cbn [read_raw read_int]; try discriminate.
  - intros H; injection H as <-. f_equal.
    induction n as [|n IH]; cbn [repeat le_value]; [reflexivity|].
    rewrite <- IH. reflexivity.
  - destruct (Nat.eqb _ _); [|discriminate]. intros H; injection H as <-.
    reflexivity.
Qed.
(** ** Nesting and the depth counter *)

(** Every element of a loop that returned was run, from a state with the
    depth counter of the loop's start, and returned. *)
Lemma each_Ok_all {A : Type} (P : list byte -> Prop)
  (body : upb_encstate -> A -> outcome upb_encstate) (l : list A) :
  (forall e x, In x l -> wf e -> emits e (body e x) (writes P e)) ->
  forall e e', wf e -> encode_each body e l = Ok e' ->
  forall x, In x l ->
    exists e0 e1, wf e0 /\ depth (ctx e0) = depth (ctx e) /\ body e0 x = Ok e1.
Proof.
  induction l as [|y tl IH]; intros Hb e e' W R x Hx; [destruct Hx|].
  cbn [encode_each] in R.
  destruct (body e y) as [e1|err| |] eqn:B; cbn [bind] in R; try discriminate.
  destruct Hx as [<-|Hx].
  - exists e, e1. auto.
  - pose proof (Hb e y (or_introl eq_refl) W) as C. unfold emits in C.
    rewrite B in C. destruct C as (c & E & D & _).
    destruct (IH (fun e2 z Hz => Hb e2 z (or_intror Hz)) e1 e' (ext_wf _ _ _ E) R x Hx)
      as (e0 & e2 & W0 & D0 & B0).
    exists e0, e2. split; [exact W0|]. split; [congruence|exact B0].
Qed.
Lemma sort_insert_In_inv {A : Type} (x y : map_key * A) (l : list (map_key * A)) :
  y = x \/ In y l -> In y (sort_insert x l).
Proof.
  induction l as [|h t IH]; cbn [sort_insert In].
  - intros [->|[]]. now left.
  - destruct (key_leb (fst x) (fst h)); cbn [In].
    + intros [->|[->|H]]; auto.
    + intros [->|[->|H]]; auto.
Qed.

Lemma sort_entries_In_inv {A : Type} (y : map_key * A) (l : list (map_key * A)) :
  In y l -> In y (sort_entries l).
Proof.
  induction l as [|x t IH]; cbn [sort_entries In]; auto.
  intros [->|H]; apply sort_insert_In_inv; auto.
Qed.

(** The sorted view of a map holds every entry of the map. *)
Lemma pushmap_In_inv (big_endian : bool) (key_type : upb_descriptortype)
  (m s : list (cell * cell)) (x : cell * cell) :
  _upb_mapsorter_pushmap big_endian key_type m = Some s -> In x m -> In x s.
Proof.
  unfold _upb_mapsorter_pushmap.
  destruct (keyed_entries big_endian key_type m) as [k|] eqn:K; [|discriminate].
  cbn [option_map]. intros H; injection H as <-. intros Hx.
  assert (Hk : exists key, In (key, x) k).
  { revert k K. induction m as [|ent tl IH]; intros k K; [destruct Hx|].
    cbn [keyed_entries] in K.
    destruct (read_key big_endian key_type (fst ent)) as [key|]; [|discriminate].
    destruct (keyed_entries big_endian key_type tl) as [r|]; [|discriminate].
    injection K as <-. destruct Hx as [->|Hx].
    - exists key. now left.
    - destruct (IH Hx r eq_refl) as [key' Hk]. exists key'. now right. }
  destruct Hk as [key Hk].
  apply sort_entries_In_inv in Hk. apply (in_map snd) in Hk. exact Hk.
Qed.

(** The test [--e->depth == 0] on the counter before the decrement. *)
Lemma depth_check (e : upb_encstate) :
  (depth (ctx (set_depth e (depth (ctx e) - 1))) =? 0) = (depth (ctx e) =? 1).
Proof.
  change (depth (ctx (set_depth e (depth (ctx e) - 1)))) with (depth (ctx e) - 1).
  destruct (depth (ctx e) =? 1) eqn:E.
  - apply Z.eqb_eq in E. apply Z.eqb_eq. lia.
  - apply Z.eqb_neq in E. apply Z.eqb_neq. lia.
Qed.

(** A repeated message or group field takes one off the depth counter, once
    for the whole array and before its first element: with one level of
    budget left that is the error, and otherwise the message emitter is
    called on each element with the counter decremented. *)
Lemma array_entry (big_endian : bool) (layouts : list upb_msglayout)
  (cb : upb_encstate -> upb_msg -> upb_msglayout -> outcome (upb_encstate * Z))
  (e : upb_encstate) (mem : list (Z * cell)) (subs_ : list upb_msglayout_sub)
  (f : upb_msglayout_field) (arr : list cell) (subm : upb_msglayout) :
  UPB_PTR_AT mem (offset f) = CArr arr -> arr <> [] ->
  submsg layouts subs_ (submsg_index f) = Ok subm ->
  (descriptortype f = UPB_DESCRIPTOR_TYPE_MESSAGE ->
   encode_array_impl big_endian layouts cb e mem subs_ f
   = if depth (ctx e) =? 1 then Longjmp MaxDepthExceeded
     else
       e1 <- encode_each
               (fun e elem =>
                  m <- of_option match read_msg elem with
                                 | Some m => m
                                 | None => None
                                 end ;;
                  '(e, size) <- cb e m subm ;;
                  e <- encode_varint e size ;;
                  encode_tag e (number f) UPB_WIRE_TYPE_DELIMITED)
               (set_depth e (depth (ctx e) - 1)) (rev arr) ;;
       Ok (set_depth e1 (depth (ctx e1) + 1))) /\
  (descriptortype f = UPB_DESCRIPTOR_TYPE_GROUP ->
   encode_array_impl big_endian layouts cb e mem subs_ f
   = if depth (ctx e) =? 1 then Longjmp MaxDepthExceeded
     else
       e1 <- encode_each
               (fun e elem =>
                  e <- encode_tag e (number f) UPB_WIRE_TYPE_END_GROUP ;;
                  m <- of_option match read_msg elem with
                                 | Some m => m
                                 | None => None
                                 end ;;
                  '(e, size) <- cb e m subm ;;
                  encode_tag e (number f) UPB_WIRE_TYPE_START_GROUP)
               (set_depth e (depth (ctx e) - 1)) (rev arr) ;;
       Ok (set_depth e1 (depth (ctx e1) + 1))).
Proof.
  intros Hp Hn Hs.
  assert (Hl : (Z.of_nat (length arr) =? 0) = false).
  { apply Z.eqb_neq. destruct arr; [congruence|cbn [length]; lia]. }
  split; intros Ht; unfold encode_array_impl; rewrite Hp;
    cbn [read_array of_option bind]; rewrite Hl, Ht, Hs; cbn [bind]; cbv zeta;
    rewrite depth_check; reflexivity.
Qed.

(** A map entry whose value is a message enters it as a scalar message
    field does, before anything of the entry is written. *)
Lemma mapentry_entry (big_endian : bool) (layouts : list upb_msglayout)
  (cb : upb_encstate -> upb_msg -> upb_msglayout -> outcome (upb_encstate * Z))
  (e : upb_encstate) (n : Z) (layout : upb_msglayout) (key : cell) (m : upb_msg)
  (key_field val_field : upb_msglayout_field) (subm : upb_msglayout) :
  nth_error (fields layout) 0 = Some key_field ->
  nth_error (fields layout) 1 = Some val_field ->
  descriptortype val_field = UPB_DESCRIPTOR_TYPE_MESSAGE ->
  submsg layouts (subs layout) (submsg_index val_field) = Ok subm ->
  encode_mapentry_impl big_endian layouts cb e n layout (key, CMsg m)
  = if depth (ctx e) =? 1 then Longjmp MaxDepthExceeded
    else
      '(e2, size) <- cb (set_depth e (depth (ctx e) - 1)) m subm ;;
      e3 <- encode_varint e2 size ;;
      e4 <- encode_tag (set_depth e3 (depth (ctx e3) + 1)) (number val_field)
              UPB_WIRE_TYPE_DELIMITED ;;
      e5 <- encode_scalar_impl big_endian layouts cb e4 key (subs layout) key_field ;;
      e6 <- encode_varint e5 ((limit (ctx e5) - ptr e5) - (limit (ctx e) - ptr e)) ;;
      encode_tag e6 n UPB_WIRE_TYPE_DELIMITED.
Proof.
  intros Hk Hv Ht Hs. unfold encode_mapentry_impl, encode_scalar.
  rewrite Hk, Hv. cbn [of_option bind fst snd]. cbv zeta.
  rewrite (proj1 (submessage_entry big_endian layouts cb e m (subs layout)
                    val_field subm Hs) Ht).
  destruct (depth (ctx e) =? 1); [reflexivity|].
  destruct (cb (set_depth e (depth (ctx e) - 1)) m subm) as [[e2 size]|err| |];
    cbn [bind]; try reflexivity.
  destruct (encode_varint e2 size) as [e3|err| |]; reflexivity.
Qed.

Section DeepPass.

Variable big_endian : bool.
Variable layouts : list upb_msglayout.
Variable cb : upb_encstate -> upb_msg -> upb_msglayout -> outcome (upb_encstate * Z).
Hypothesis Hcb : message_contract cb.

(** The loop bodies of [encode_array_impl] for messages and groups. *)
Lemma message_elem_emits (subm : upb_msglayout) (n : Z) (e0 : upb_encstate) (x : cell) :
  wf e0 ->
  emits e0
    (m <- of_option match read_msg x with
                    | Some m => m
                    | None => None
                    end ;;
     '(e, size) <- cb e0 m subm ;;
     e <- encode_varint e size ;;
     encode_tag e n UPB_WIRE_TYPE_DELIMITED)
    (writes (fun _ => True) e0).
Proof.
  intros W0. unfold emits. emits_read.
  eapply emits_gen_bind; [apply Hcb; exact W0|].
  intros [e1 size] c1 E1 [D1 P1]. cbn [fst snd] in *.
  emits_bind e2 c2 E2 D2 P2. emits_last e3 c3 E3 D3 P3.
  split; [congruence|exact I].
Qed.

Lemma group_elem_emits (subm : upb_msglayout) (n : Z) (e0 : upb_encstate) (x : cell) :
  wf e0 ->
  emits e0
    (e <- encode_tag e0 n UPB_WIRE_TYPE_END_GROUP ;;
     m <- of_option match read_msg x with
                    | Some m => m
                    | None => None
                    end ;;
     '(e, size) <- cb e m subm ;;
     encode_tag e n UPB_WIRE_TYPE_START_GROUP)
    (writes (fun _ => True) e0).
Proof.
  intros W0. unfold emits.
  emits_bind e1 c1 E1 D1 P1. emits_read.
  eapply emits_gen_bind; [apply Hcb; exact (ext_wf _ _ _ E1)|].
  intros [e2 size] c2 E2 [D2 P2]. cbn [fst snd] in *.
  emits_last e3 c3 E3 D3 P3. split; [congruence|exact I].
Qed.

(** The message [m'] of layout [l'], which the message emitter does not
    encode when called with the counter at [d - 1]. *)
Variable m' : upb_msg.
Variable l' : upb_msglayout.
Variable d : Z.
Hypothesis Hdeep : forall e, wf e -> depth (ctx e) = d - 1 -> d <> 1 ->
  forall r, cb e m' l' <> Ok r.

Lemma scalar_deep (e : upb_encstate) (subs_ : list upb_msglayout_sub)
  (f : upb_msglayout_field) :
  wf e -> depth (ctx e) = d -> is_submsg (descriptortype f) ->
  submsg layouts subs_ (submsg_index f) = Ok l' ->
  forall r, encode_scalar_impl big_endian layouts cb e (CMsg m') subs_ f <> Ok r.
Proof.
  intros W D T Hs r.
  destruct (submessage_entry big_endian layouts cb e m' subs_ f l' Hs) as [Hm Hg].
  destruct T as [T|T]; [rewrite (Hm T)|rewrite (Hg T)];
    (destruct (depth (ctx e) =? 1) eqn:Z1; [discriminate|]); apply Z.eqb_neq in Z1.
  - destruct (cb (set_depth e (depth (ctx e) - 1)) m' l') as [[e2 size]|err| |] eqn:C;
      cbn [bind]; try discriminate.
    exfalso. apply (Hdeep (set_depth e (depth (ctx e) - 1))
                      (wf_set_depth _ _ W) ltac:(cbn; lia) ltac:(lia) _ C).
  - unfold encode_tag.
    pose proof (emits_varint (set_depth e (depth (ctx e) - 1))
                  (make_tag (number f) UPB_WIRE_TYPE_END_GROUP) (wf_set_depth _ _ W)) as C1.
    unfold emits in C1.
    destruct (encode_varint (set_depth e (depth (ctx e) - 1)) _) as [e1|err| |];
      cbn [bind]; try discriminate.
    destruct C1 as (c1 & E1 & D1 & _).
    destruct (cb e1 m' l') as [[e2 size]|err| |] eqn:C; cbn [bind]; try discriminate.
    exfalso. apply (Hdeep e1 (ext_wf _ _ _ E1) ltac:(rewrite D1; cbn; lia) ltac:(lia) _ C).
Qed.

Lemma array_deep (e : upb_encstate) (mem : list (Z * cell))
  (subs_ : list upb_msglayout_sub) (f : upb_msglayout_field) (arr : list cell) :
  wf e -> depth (ctx e) = d -> is_submsg (descriptortype f) ->
  UPB_PTR_AT mem (offset f) = CArr arr -> In (CMsg m') arr ->
  submsg layouts subs_ (submsg_index f) = Ok l' ->
  forall r, encode_array_impl big_endian layouts cb e mem subs_ f <> Ok r.
Proof.
  intros W D T Hp Hin Hs r.
  assert (Hn : arr <> []) by (intros ->; destruct Hin).
  destruct (array_entry big_endian layouts cb e mem subs_ f arr l' Hp Hn Hs) as [Hm Hg].
  set (e0 := set_depth e (depth (ctx e) - 1)) in *.
  assert (W0 : wf e0) by exact W.
  assert (D0 : depth (ctx e0) = depth (ctx e) - 1) by reflexivity.
  apply in_rev in Hin.
  destruct T as [T|T]; [rewrite (Hm T)|rewrite (Hg T)]; clear Hm Hg;
    (destruct (depth (ctx e) =? 1) eqn:Z1; [discriminate|]); apply Z.eqb_neq in Z1.
  - destruct (encode_each _ e0 (rev arr)) as [e1|err| |] eqn:L;
      cbn [bind]; try discriminate.
    exfalso.
    destruct (each_Ok_all (fun _ => True) _ (rev arr)
                (fun e2 x _ W2 => message_elem_emits l' (number f) e2 x W2)
                e0 e1 W0 L (CMsg m') Hin) as (e2 & e3 & W2 & D2 & B).
    cbn [read_msg of_option bind] in B.
    destruct (cb e2 m' l') as [[e4 size]|err| |] eqn:C; cbn [bind] in B; try discriminate.
    apply (Hdeep e2 W2 ltac:(lia) ltac:(lia) _ C).
  - destruct (encode_each _ e0 (rev arr)) as [e1|err| |] eqn:L;
      cbn [bind]; try discriminate.
    exfalso.
    destruct (each_Ok_all (fun _ => True) _ (rev arr)
                (fun e2 x _ W2 => group_elem_emits l' (number f) e2 x W2)
                e0 e1 W0 L (CMsg m') Hin) as (e2 & e3 & W2 & D2 & B).
    unfold encode_tag in B.
    pose proof (emits_varint e2 (make_tag (number f) UPB_WIRE_TYPE_END_GROUP) W2) as C1.
    unfold emits in C1.
    destruct (encode_varint e2 _) as [e4|err| |]; cbn [bind] in B; try discriminate.
    destruct C1 as (c1 & E1 & D1 & _).
    cbn [read_msg of_option bind] in B.
    destruct (cb e4 m' l') as [[e5 size]|err| |] eqn:C; cbn [bind] in B; try discriminate.
    apply (Hdeep e4 (ext_wf _ _ _ E1) ltac:(lia) ltac:(lia) _ C).
Qed.

Lemma mapentry_deep (e : upb_encstate) (n : Z) (layout : upb_msglayout)
  (val_field : upb_msglayout_field) (key : cell) :
  wf e -> depth (ctx e) = d ->
  nth_error (fields layout) 1 = Some val_field ->
  is_submsg (descriptortype val_field) ->
  submsg layouts (subs layout) (submsg_index val_field) = Ok l' ->
  forall r, encode_mapentry_impl big_endian layouts cb e n layout (key, CMsg m') <> Ok r.
Proof.
  intros W D Hv T Hs r. unfold encode_mapentry_impl, encode_scalar.
  destruct (nth_error (fields layout) 0) as [key_field|];
    cbn [of_option bind]; [|discriminate].
  rewrite Hv. cbn [of_option bind snd]. cbv zeta.
  destruct (encode_scalar_impl big_endian layouts cb e (CMsg m') (subs layout) val_field)
    as [e1|err| |] eqn:B; cbn [bind]; try discriminate.
  exfalso. exact (scalar_deep e (subs layout) val_field W D T Hs _ B).
Qed.

Lemma map_deep (e : upb_encstate) (mem : list (Z * cell))
  (subs_ : list upb_msglayout_sub) (f : upb_msglayout_field)
  (entries : list (cell * cell)) (layout : upb_msglayout)
  (val_field : upb_msglayout_field) (key : cell) :
  wf e -> depth (ctx e) = d ->
  UPB_PTR_AT mem (offset f) = CMap entries ->
  submsg layouts subs_ (submsg_index f) = Ok layout ->
  nth_error (fields layout) 1 = Some val_field ->
  is_submsg (descriptortype val_field) ->
  In (key, CMsg m') entries ->
  submsg layouts (subs layout) (submsg_index val_field) = Ok l' ->
  forall r, encode_map_impl big_endian layouts cb e mem subs_ f <> Ok r.
Proof.
  intros W D Hp Hl Hv T Hin Hs r. unfold encode_map_impl, encode_mapentry.
  rewrite Hp, Hl. cbn [read_map of_option bind].
  destruct (negb (field_count layout =? 2)); [discriminate|].
  assert (Hloop : forall l e1, In (key, CMsg m') l ->
    encode_each (fun e0 ent => encode_mapentry_impl big_endian layouts cb e0 (number f)
                                 layout ent) e l <> Ok e1).
  { intros l e1 Hl' L.
    destruct (each_Ok_all (fun _ => True) _ l
                (fun e2 x _ W2 =>
                   emits_gen_weaken _ _ _ _ _
                     (emits_mapentry big_endian layouts cb Hcb e2 (number f) layout x W2)
                     (fun e3 c3 _ H => conj (proj1 H) I))
                e e1 W L _ Hl') as (e2 & e3 & W2 & D2 & B).
    exact (mapentry_deep e2 (number f) layout val_field key W2 ltac:(lia) Hv T Hs _ B). }
  destruct (negb (Z.land (options (ctx e)) UPB_ENCODE_DETERMINISTIC =? 0)).
  - destruct (nth_error (fields layout) 0) as [key_field|];
      cbn [of_option bind]; [|discriminate].
    destruct (_upb_mapsorter_pushmap big_endian (descriptortype key_field) entries)
      as [sorted|] eqn:P; cbn [of_option bind]; [|discriminate].
    destruct r as [e1]. apply Hloop. unfold _upb_sortedmap_next. apply -> in_rev.
    exact (pushmap_In_inv _ _ _ _ _ P Hin).
  - destruct r as [e1]. now apply Hloop.
Qed.

Lemma field_link_deep (e : upb_encstate) (mem : list (Z * cell))
  (subs_ : list upb_msglayout_sub) (f : upb_msglayout_field) :
  wf e -> depth (ctx e) = d -> field_link layouts mem subs_ f m' l' ->
  forall r, encode_field_impl big_endian layouts cb e mem subs_ f <> Ok r.
Proof.
  intros W D [Hm T Hp Hs|arr Hm T Hp Hin Hs|entries layout vf key Hm Hp Hl Hv T Hin Hs] r;
    unfold encode_field_impl, encode_scalar, encode_array, encode_map; rewrite Hm.
  - rewrite Hp. now apply scalar_deep.
  - now apply (array_deep e mem subs_ f arr).
  - now apply (map_deep e mem subs_ f entries layout vf key).
Qed.

End DeepPass.

(** A message that heads a chain of [k] links is not encoded when the depth
    counter is [k] or less: the emitter of one of the links finds it used
    up. *)
Lemma encode_message_deep (big_endian : bool) (layouts : list upb_msglayout)
  (k : nat) (msg : upb_msg) (l : upb_msglayout) :
  nested big_endian layouts k msg l ->
  forall fuel e, wf e -> 1 <= depth (ctx e) <= Z.of_nat k ->
  forall r, encode_message_impl big_endian layouts fuel e msg l <> Ok r.
Proof.
  induction 1 as [msg l|k msg l f m' l' Hf Hp Hl Hn IH|k msg l x m' l' Hx Hin Hl Hn IH];
    intros fuel e W D r; [lia| |].
  all: destruct fuel as [|fuel]; [discriminate|].
  all: cbn [encode_message_impl].
  all: set (cb := encode_message_impl big_endian layouts fuel).
  all: assert (Hcb : message_contract cb) by apply emits_message.
  all: assert (Hdeep : forall e0, wf e0 -> depth (ctx e0) = depth (ctx e) - 1 ->
                 depth (ctx e) <> 1 -> forall r0, cb e0 m' l' <> Ok r0)
         by (intros e0 W0 D0 N; apply IH; [exact W0|lia]).
  all: unfold encode_message_body; intros R.
  all: pose proof (emits_message_unknown e msg W) as C1; unfold emits in C1.
  all: destruct (encode_message_unknown e msg) as [e1|err| |];
         cbn [bind] in R; try discriminate.
  all: destruct C1 as (c1 & E1 & D1 & _).
  all: pose proof (emits_message_exts big_endian layouts cb Hcb e1 msg l
                     (ext_wf _ _ _ E1)) as C2; unfold emits in C2.
  all: destruct (encode_message_exts big_endian layouts cb e1 msg l) as [e2|err| |] eqn:R2;
         cbn [bind] in R; try discriminate.
  all: destruct C2 as (c2 & E2 & D2 & _).
  - destruct (encode_message_fields big_endian layouts cb e2 msg l) as [e3|err| |] eqn:R3;
      cbn [bind] in R; try discriminate.
    unfold encode_message_fields in R3.
    assert (Hbody : forall e0 (g : upb_msglayout_field), In g (rev (fields l)) -> wf e0 ->
      emits e0
        (b <- encode_shouldencode big_endian (msg_mem msg) (subs l) g ;;
         if b then encode_field big_endian layouts cb e0 (msg_mem msg) (subs l) g
         else Ok e0)
        (writes (fun _ => True) e0)).
    { intros e0 g _ W0. unfold emits, encode_field.
      destruct (encode_shouldencode_option big_endian (msg_mem msg) (subs l) g) as [o ->].
      emits_read. destruct a.
      - eapply emits_gen_weaken; [now apply emits_field|].
        intros e4 c4 E4 [D4 _]. split; auto.
      - apply emits_gen_Ok; [now apply extends_refl|]. split; auto. }
    destruct (each_Ok_all (fun _ => True) _ (rev (fields l)) Hbody e2 e3
                (ext_wf _ _ _ E2) R3 f (proj1 (in_rev _ _) Hf))
      as (e0 & e4 & W0 & D0 & B).
    rewrite Hp in B. cbn [bind] in B. unfold encode_field in B.
    exact (field_link_deep big_endian layouts cb Hcb m' l' (depth (ctx e)) Hdeep
             e0 (msg_mem msg) (subs l) f W0 ltac:(congruence) Hl _ B).
  - unfold encode_message_exts in R2. rewrite Hx in R2.
    destruct (each_Ok_all (fun _ => True) _ (_upb_msg_getexts msg)
                (fun e0 y _ W0 =>
                   emits_gen_weaken _ _ _ _ _
                     (emits_field big_endian layouts cb Hcb e0 [(0, snd y)]
                        [ext_sub (fst y)] (ext_field (fst y)) W0)
                     (fun e3 c3 _ H => conj (proj1 H) I))
                e1 e2 (ext_wf _ _ _ E1) R2 x Hin)
      as (e0 & e4 & W0 & D0 & B).
    unfold encode_field in B.
    exact (field_link_deep big_endian layouts cb Hcb m' l' (depth (ctx e)) Hdeep
             e0 [(0, snd x)] [ext_sub (fst x)] (ext_field (fst x)) W0
             ltac:(congruence) Hl _ B).
Qed.

Lemma entry_run_deep (big_endian : bool) (layouts : list upb_msglayout)
  (msg : upb_msg) (l : upb_msglayout) (options_ : Z) (arena : upb_alloc) (k : nat) :
  nested big_endian layouts k msg l ->
  depth_budget options_ <= Z.of_nat k ->
  forall r, entry_run big_endian layouts msg l options_ arena <> Ok r.
Proof.
  intros Hn Hd r. unfold entry_run, encode_message.
  apply (encode_message_deep big_endian layouts k msg l Hn);
    [apply wf_entry_state|].
  pose proof (depth_budget_range options_).
  change (depth (ctx (entry_state arena options_))) with (depth_budget options_). lia.
Qed.

(** ** Chains at the budget *)

Lemma ends_bind {A B : Type} (ok : bool) (c : outcome A) (k : A -> outcome B) :
  ends ok c ->
  (forall a, ok = true -> c = Ok a -> exists b, k a = Ok b) ->
  ends ok (bind c k).
Proof.
  destruct ok; cbn [ends].
  - intros [a ->] H. cbn [bind]. now apply (H a).
  - intros -> _. reflexivity.
Qed.

Lemma bind_ret {A : Type} (c : outcome A) : (a <- c ;; Ok a) = c.
Proof. now destruct c. Qed.

Lemma encode_varint_runs (e : upb_encstate) (val : Z) :
  wf e -> alloc_ok e ->
  exists e', encode_varint e val = Ok e' /\ wf e' /\ alloc_ok e' /\
             depth (ctx e') = depth (ctx e).
Proof.
  intros W A. destruct (encode_varint_succeeds e val A) as [e' R].
  pose proof (emits_varint e val W) as C. unfold emits in C. rewrite R in C.
  destruct C as (c & E & D & _). exists e'.
  split; [exact R|]. split; [exact (ext_wf _ _ _ E)|].
  split; [exact (alloc_ok_extends _ _ _ E A)|exact D].
Qed.

Lemma link_body (big_endian : bool) (fuel : nat) (e : upb_encstate) (k : link)
  (inner : upb_msg) :
  encode_message_impl big_endian link_layouts (S fuel) e (link_msg k inner) link_layout
  = e1 <- match k with
          | via_message | via_group | via_repeated_message | via_repeated_group
          | via_map_value =>
              encode_field_impl big_endian link_layouts
                (encode_message_impl big_endian link_layouts fuel) e
                (msg_mem (link_msg k inner)) (subs link_layout)
                (nth (match k with
                      | via_message => 0
                      | via_group => 1
                      | via_repeated_message => 2
                      | via_repeated_group => 3
                      | _ => 4
                      end) (fields link_layout) (ext_field link_ext))
          | via_extension =>
              encode_field_impl big_endian link_layouts
                (encode_message_impl big_endian link_layouts fuel) e
                [(0, CMsg inner)] [ext_sub link_ext] (ext_field link_ext)
          end ;;
    Ok (e1, (limit (ctx e1) - ptr e1) - (limit (ctx e) - ptr e)).
Proof.
  cbn [encode_message_impl]. unfold encode_message_body.
  set (cb := encode_message_impl big_endian link_layouts fuel).
  assert (H1 : encode_message_unknown e (link_msg k inner) = Ok e).
  { unfold encode_message_unknown.
    destruct (Z.land (options (ctx e)) UPB_ENCODE_SKIPUNKNOWN =? 0); [|reflexivity].
    now destruct k. }
  rewrite H1. cbn [bind].
  unfold encode_message_exts, encode_message_fields, encode_field.
  cbn [ext link_layout fields rev app].
  destruct k; cbn [link_msg _upb_msg_getexts msg_mem encode_each bind].
  all: unfold encode_shouldencode.
  all: cbn [presence submsg_field Z.eqb Pos.eqb rep offset UPB_PTR_AT read_nonzero
            read_int option_map Nat.eqb orb negb of_option bind nth fst snd].
  all: now rewrite bind_ret.
Qed.

Section LinkEmitters.

Variable big_endian : bool.
Variable layouts : list upb_msglayout.
Variable cb : upb_encstate -> upb_msg -> upb_msglayout -> outcome (upb_encstate * Z).
Hypothesis Hcb : message_contract cb.

(** The message [inner] of layout [subm], and how the message emitter ends
    on it when called with the counter at [d - 1]. *)
Variable inner : upb_msg.
Variable subm : upb_msglayout.
Variable d : Z.
Variable ok : bool.
Hypothesis Hone : d = 1 -> ok = false.
Hypothesis Hin : d <> 1 ->
  forall e0, wf e0 -> alloc_ok e0 -> depth (ctx e0) = d - 1 ->
    ends ok (cb e0 inner subm).

Lemma cb_state (e0 : upb_encstate) (r : upb_encstate * Z) :
  wf e0 -> alloc_ok e0 -> cb e0 inner subm = Ok r -> wf (fst r) /\ alloc_ok (fst r).
Proof.
  intros W A C. pose proof (Hcb e0 inner subm W) as H. rewrite C in H.
  destruct H as (c & E & _). split; [exact (ext_wf _ _ _ E)|].
  exact (alloc_ok_extends _ _ _ E A).
Qed.

Lemma ends_maxdepth {A : Type} : d = 1 -> ends ok (@Longjmp A MaxDepthExceeded).
Proof. intros H. rewrite (Hone H). reflexivity. Qed.

Lemma scalar_ends (e : upb_encstate) (subs_ : list upb_msglayout_sub)
  (f : upb_msglayout_field) :
  wf e -> alloc_ok e -> depth (ctx e) = d -> is_submsg (descriptortype f) ->
  submsg layouts subs_ (submsg_index f) = Ok subm ->
  ends ok (encode_scalar_impl big_endian layouts cb e (CMsg inner) subs_ f).
Proof.
  intros W A D T Hs.
  destruct (submessage_entry big_endian layouts cb e inner subs_ f subm Hs) as [Hm Hg].
  set (e0 := set_depth e (depth (ctx e) - 1)) in *.
  assert (W0 : wf e0) by exact W.
  assert (A0 : alloc_ok e0) by exact A.
  assert (D0 : depth (ctx e0) = d - 1) by (rewrite <- D; reflexivity).
  destruct T as [T|T]; [rewrite (Hm T)|rewrite (Hg T)]; clear Hm Hg;
    (destruct (depth (ctx e) =? 1) eqn:Z1;
     [apply Z.eqb_eq in Z1; apply ends_maxdepth; lia|]); apply Z.eqb_neq in Z1.
  - apply ends_bind; [apply Hin; auto; lia|].
    intros [e2 size] _ C. destruct (cb_state _ _ W0 A0 C) as [W2 A2]. cbn [fst] in *.
    destruct (encode_varint_runs e2 size W2 A2) as (e3 & R3 & W3 & A3 & _).
    rewrite R3. cbn [bind]. unfold encode_tag.
    destruct (encode_varint_runs (set_depth e3 (depth (ctx e3) + 1))
                (make_tag (number f) UPB_WIRE_TYPE_DELIMITED)
                (wf_set_depth _ _ W3) A3) as (e4 & R4 & _).
    eauto.
  - unfold encode_tag.
    destruct (encode_varint_runs e0 (make_tag (number f) UPB_WIRE_TYPE_END_GROUP) W0 A0)
      as (e1 & R1 & W1 & A1 & D1).
    rewrite R1. cbn [bind].
    apply ends_bind; [apply Hin; auto; lia|].
    intros [e2 size] _ C. destruct (cb_state _ _ W1 A1 C) as [W2 A2]. cbn [fst] in *.
    destruct (encode_varint_runs (set_depth e2 (depth (ctx e2) + 1))
                (make_tag (number f) UPB_WIRE_TYPE_START_GROUP)
                (wf_set_depth _ _ W2) A2) as (e4 & R4 & _).
    eauto.
Qed.

Lemma array_ends (e : upb_encstate) (mem : list (Z * cell))
  (subs_ : list upb_msglayout_sub) (f : upb_msglayout_field) :
  wf e -> alloc_ok e -> depth (ctx e) = d -> is_submsg (descriptortype f) ->
  UPB_PTR_AT mem (offset f) = CArr [CMsg inner] ->
  submsg layouts subs_ (submsg_index f) = Ok subm ->
  ends ok (encode_array_impl big_endian layouts cb e mem subs_ f).
Proof.
  intros W A D T Hp Hs.
  destruct (array_entry big_endian layouts cb e mem subs_ f [CMsg inner] subm Hp
              ltac:(discriminate) Hs) as [Hm Hg].
  set (e0 := set_depth e (depth (ctx e) - 1)) in *.
  assert (W0 : wf e0) by exact W.
  assert (A0 : alloc_ok e0) by exact A.
  assert (D0 : depth (ctx e0) = d - 1) by (rewrite <- D; reflexivity).
  destruct T as [T|T]; [rewrite (Hm T)|rewrite (Hg T)]; clear Hm Hg;
    (destruct (depth (ctx e) =? 1) eqn:Z1;
     [apply Z.eqb_eq in Z1; apply ends_maxdepth; lia|]); apply Z.eqb_neq in Z1;
    cbn [rev app encode_each read_msg of_option bind]; rewrite bind_ret.
  - apply ends_bind; [|intros e1 _ _; eauto].
    apply ends_bind; [apply Hin; auto; lia|].
    intros [e2 size] _ C. destruct (cb_state _ _ W0 A0 C) as [W2 A2]. cbn [fst] in *.
    destruct (encode_varint_runs e2 size W2 A2) as (e3 & R3 & W3 & A3 & _).
    rewrite R3. cbn [bind]. unfold encode_tag.
    destruct (encode_varint_runs e3 (make_tag (number f) UPB_WIRE_TYPE_DELIMITED) W3 A3)
      as (e4 & R4 & _).
    eauto.
  - apply ends_bind; [|intros e1 _ _; eauto].
    unfold encode_tag.
    destruct (encode_varint_runs e0 (make_tag (number f) UPB_WIRE_TYPE_END_GROUP) W0 A0)
      as (e1 & R1 & W1 & A1 & D1).
    rewrite R1. cbn [bind].
    apply ends_bind; [apply Hin; auto; lia|].
    intros [e2 size] _ C. destruct (cb_state _ _ W1 A1 C) as [W2 A2]. cbn [fst] in *.
    destruct (encode_varint_runs e2 (make_tag (number f) UPB_WIRE_TYPE_START_GROUP) W2 A2)
      as (e4 & R4 & _).
    eauto.
Qed.

Lemma mapentry_ends (e : upb_encstate) (n : Z) :
  wf e -> alloc_ok e -> depth (ctx e) = d ->
  submsg layouts (subs link_entry_layout) O = Ok subm ->
  ends ok (encode_mapentry_impl big_endian layouts cb e n link_entry_layout
             (CData [x01; x00; x00; x00], CMsg inner)).
Proof.
  intros W A D Hs.
  rewrite (mapentry_entry big_endian layouts cb e n link_entry_layout _ inner
             (scalar_field 1 0 0 UPB_DESCRIPTOR_TYPE_INT32 _UPB_REP_4BYTE)
             (submsg_field 2 8 UPB_DESCRIPTOR_TYPE_MESSAGE _UPB_MODE_SCALAR O) subm
             eq_refl eq_refl eq_refl Hs).
  set (e0 := set_depth e (depth (ctx e) - 1)) in *.
  assert (W0 : wf e0) by exact W.
  assert (A0 : alloc_ok e0) by exact A.
  assert (D0 : depth (ctx e0) = d - 1) by (rewrite <- D; reflexivity).
  destruct (depth (ctx e) =? 1) eqn:Z1;
    [apply Z.eqb_eq in Z1; apply ends_maxdepth; lia|]; apply Z.eqb_neq in Z1.
  apply ends_bind; [apply Hin; auto; lia|].
  intros [e2 size] _ C. destruct (cb_state _ _ W0 A0 C) as [W2 A2]. cbn [fst] in *.
  destruct (encode_varint_runs e2 size W2 A2) as (e3 & R3 & W3 & A3 & _).
  rewrite R3. cbn [bind]. unfold encode_tag.
  destruct (encode_varint_runs (set_depth e3 (depth (ctx e3) + 1))
              (make_tag (number (submsg_field 2 8 UPB_DESCRIPTOR_TYPE_MESSAGE
                                   _UPB_MODE_SCALAR O)) UPB_WIRE_TYPE_DELIMITED)
              (wf_set_depth _ _ W3) A3) as (e4 & R4 & W4 & A4 & _).
  rewrite R4. cbn [bind].
  unfold encode_scalar_impl.
  cbn [descriptortype scalar_field read_int length Nat.eqb of_option bind].
  destruct (encode_varint_runs e4
              (u64 (s32 (host_value big_endian [x01; x00; x00; x00]))) W4 A4)
    as (e5 & R5 & W5 & A5 & _).
  rewrite R5. cbn [bind]. unfold encode_tag.
  destruct (encode_varint_runs e5
              (make_tag (number (scalar_field 1 0 0 UPB_DESCRIPTOR_TYPE_INT32
                                   _UPB_REP_4BYTE)) UPB_WIRE_TYPE_VARINT) W5 A5)
    as (e6 & R6 & W6 & A6 & _).
  rewrite R6. cbn [bind].
  destruct (encode_varint_runs e6
              (limit (ctx e6) - ptr e6 - (limit (ctx e) - ptr e)) W6 A6)
    as (e7 & R7 & W7 & A7 & _).
  rewrite R7. cbn [bind].
  destruct (encode_varint_runs e7 (make_tag n UPB_WIRE_TYPE_DELIMITED) W7 A7)
    as (e8 & R8 & _).
  eauto.
Qed.

Lemma map_ends (e : upb_encstate) (mem : list (Z * cell))
  (subs_ : list upb_msglayout_sub) (f : upb_msglayout_field) :
  wf e -> alloc_ok e -> depth (ctx e) = d ->
  UPB_PTR_AT mem (offset f) = CMap [(CData [x01; x00; x00; x00], CMsg inner)] ->
  submsg layouts subs_ (submsg_index f) = Ok link_entry_layout ->
  submsg layouts (subs link_entry_layout) O = Ok subm ->
  ends ok (encode_map_impl big_endian layouts cb e mem subs_ f).
Proof.
  intros W A D Hp Hl Hs. unfold encode_map_impl, encode_mapentry.
  rewrite Hp, Hl. cbn [read_map of_option bind].
  change (negb (field_count link_entry_layout =? 2)) with false. cbv iota.
  assert (P : _upb_mapsorter_pushmap big_endian UPB_DESCRIPTOR_TYPE_INT32
                [(CData [x01; x00; x00; x00], CMsg inner)]
              = Some [(CData [x01; x00; x00; x00], CMsg inner)]) by reflexivity.
  destruct (negb (Z.land (options (ctx e)) UPB_ENCODE_DETERMINISTIC =? 0)).
  - cbn [link_entry_layout fields nth_error of_option bind descriptortype scalar_field].
    rewrite P. cbn [of_option bind _upb_sortedmap_next rev app encode_each].
    rewrite bind_ret. now apply mapentry_ends.
  - cbn [encode_each]. rewrite bind_ret. now apply mapentry_ends.
Qed.

End LinkEmitters.

Lemma msg_height_link_chain (links : list link) :
  msg_height (link_chain links) = S (length links).
Proof.
  induction links as [|k tl IH]; [reflexivity|].
  cbn [link_chain length].
  destruct k;
    cbn [link_msg msg_height cell_height map list_max fold_right fst snd];
    rewrite IH; lia.
Qed.

(** The message emitter on a chain of the sample type: with a depth counter
    above the number of links it returns, otherwise it signals max-depth
    exceeded. *)
Lemma encode_link_chain (big_endian : bool) (links : list link) :
  forall fuel e,
    wf e -> alloc_ok e -> (length links < fuel)%nat -> 1 <= depth (ctx e) ->
    ends (Z.of_nat (length links) <? depth (ctx e))
      (encode_message_impl big_endian link_layouts fuel e (link_chain links)
         link_layout).
Proof.
  induction links as [|k tl IH]; intros fuel e W A Hf Hd;
    (destruct fuel as [|fuel]; [cbn [length] in Hf; lia|]).
  - replace (Z.of_nat (length (@nil link)) <? depth (ctx e)) with true
      by (symmetry; apply Z.ltb_lt; cbn [length]; lia).
    cbn [ends link_chain encode_message_impl]. unfold encode_message_body.
    assert (H1 : encode_message_unknown e (Msg [] None []) = Ok e).
    { unfold encode_message_unknown. cbn [upb_msg_getunknown].
      now destruct (Z.land (options (ctx e)) UPB_ENCODE_SKIPUNKNOWN =? 0). }
    rewrite H1. cbn [bind]. cbn. eauto.
  - cbn [link_chain length] in *. rewrite link_body.
    set (cb := encode_message_impl big_endian link_layouts fuel).
    set (ok := Z.of_nat (S (length tl)) <? depth (ctx e)).
    assert (Hcb : message_contract cb) by apply emits_message.
    assert (Hone : depth (ctx e) = 1 -> ok = false).
    { intros H. apply Z.ltb_ge. lia. }
    assert (Hin : depth (ctx e) <> 1 ->
      forall e0, wf e0 -> alloc_ok e0 -> depth (ctx e0) = depth (ctx e) - 1 ->
        ends ok (cb e0 (link_chain tl) link_layout)).
    { intros N e0 W0 A0 D0.
      replace ok with (Z.of_nat (length tl) <? depth (ctx e0)).
      - apply IH; auto; lia.
      - unfold ok. rewrite D0.
        destruct (Z.of_nat (length tl) <? depth (ctx e) - 1) eqn:E1;
          [apply Z.ltb_lt in E1; symmetry; apply Z.ltb_lt; lia
          |apply Z.ltb_ge in E1; symmetry; apply Z.ltb_ge; lia]. }
    apply ends_bind; [|intros e1 _ _; eauto].
    unfold encode_field_impl, encode_scalar, encode_array, encode_map.
    destruct k; cbn [nth fields link_layout mode submsg_field ext_field link_ext
                     link_msg msg_mem].
    + apply (scalar_ends big_endian link_layouts cb Hcb (link_chain tl) link_layout
               (depth (ctx e)) ok Hone Hin); auto; now left.
    + apply (scalar_ends big_endian link_layouts cb Hcb (link_chain tl) link_layout
               (depth (ctx e)) ok Hone Hin); auto; now right.
    + apply (array_ends big_endian link_layouts cb Hcb (link_chain tl) link_layout
               (depth (ctx e)) ok Hone Hin); auto; now left.
    + apply (array_ends big_endian link_layouts cb Hcb (link_chain tl) link_layout
               (depth (ctx e)) ok Hone Hin); auto; now right.
    + apply (map_ends big_endian link_layouts cb Hcb (link_chain tl) link_layout
               (depth (ctx e)) ok Hone Hin); auto.
    + apply (scalar_ends big_endian link_layouts cb Hcb (link_chain tl) link_layout
               (depth (ctx e)) ok Hone Hin); auto; now left.
Qed.

(** The message emitter on a chain of MessageSet items returns whatever the
    depth counter is: [encode_msgset_item] does not touch it. *)
Lemma encode_msgset_chain (big_endian : bool) (k : nat) :
  forall fuel e,
    wf e -> alloc_ok e -> (k < fuel)%nat ->
    exists r,
      encode_message_impl big_endian [msgset_layout] fuel e (msgset_chain k)
        msgset_layout = Ok r.
Proof.
  induction k as [|k IH]; intros fuel e W A Hf; (destruct fuel as [|fuel]; [lia|]);
    cbn [encode_message_impl msgset_chain]; unfold encode_message_body.
  - assert (H1 : encode_message_unknown e (Msg [] None []) = Ok e).
    { unfold encode_message_unknown. cbn [upb_msg_getunknown].
      now destruct (Z.land (options (ctx e)) UPB_ENCODE_SKIPUNKNOWN =? 0). }
    rewrite H1. cbn [bind]. cbn. eauto.
  - set (cb := encode_message_impl big_endian [msgset_layout] fuel).
    assert (Hcb : message_contract cb) by apply emits_message.
    assert (H1 : encode_message_unknown e
                   (Msg [] None [(link_ext, CMsg (msgset_chain k))]) = Ok e).
    { unfold encode_message_unknown. cbn [upb_msg_getunknown].
      now destruct (Z.land (options (ctx e)) UPB_ENCODE_SKIPUNKNOWN =? 0). }
    rewrite H1. cbn [bind].
    unfold encode_message_exts, encode_message_fields.
    cbn [ext msgset_layout fields rev app _upb_msg_getexts encode_each].
    unfold encode_msgset_item, encode_tag.
    destruct (encode_varint_runs e (make_tag 1 UPB_WIRE_TYPE_END_GROUP) W A)
      as (e1 & R1 & W1 & A1 & _).
    rewrite R1.
    cbn [bind snd fst read_msg of_option ext_sub link_ext nth_error].
    destruct (IH fuel e1 W1 A1 ltac:(lia)) as [[e2 size] R2].
    fold cb in R2. rewrite R2. cbn [bind].
    pose proof (Hcb e1 (msgset_chain k) msgset_layout W1) as C. rewrite R2 in C.
    destruct C as (c & E & _). cbn [fst] in E.
    pose proof (ext_wf _ _ _ E) as W2. pose proof (alloc_ok_extends _ _ _ E A1) as A2.
    destruct (encode_varint_runs e2 size W2 A2) as (e3 & R3 & W3 & A3 & _).
    rewrite R3. cbn [bind].
    destruct (encode_varint_runs e3 (make_tag 3 UPB_WIRE_TYPE_DELIMITED) W3 A3)
      as (e4 & R4 & W4 & A4 & _).
    rewrite R4. cbn [bind].
    destruct (encode_varint_runs e4 (number (ext_field link_ext)) W4 A4)
      as (e5 & R5 & W5 & A5 & _).
    rewrite R5. cbn [bind].
    destruct (encode_varint_runs e5 (make_tag 2 UPB_WIRE_TYPE_VARINT) W5 A5)
      as (e6 & R6 & W6 & A6 & _).
    rewrite R6. cbn [bind].
    destruct (encode_varint_runs e6 (make_tag 1 UPB_WIRE_TYPE_START_GROUP) W6 A6)
      as (e7 & R7 & W7 & A7 & _).
    rewrite R7. cbn [bind]. eauto.
Qed.

Lemma msg_height_msgset_chain (k : nat) : msg_height (msgset_chain k) = S k.
Proof.
  induction k as [|k IH]; [reflexivity|].
  cbn [msgset_chain msg_height cell_height map list_max fold_right fst snd].
  rewrite IH. lia.
Qed.

(** What [upb_encode_ex] returns after a normal return of the message
    emitter is not null. *)
Lemma upb_encode_ex_runs (big_endian : bool) (layouts : list upb_msglayout)
  (msg : upb_msg) (l : upb_msglayout) (options_ : Z) (arena : upb_alloc)
  (r : upb_encstate * Z) :
  entry_run big_endian layouts msg l options_ arena = Ok r ->
  exists ret size,
    upb_encode_ex big_endian layouts msg l options_ arena = Ok (ret, size) /\
    ret <> NULL.
Proof.
  intros R. rewrite upb_encode_ex_eq. rewrite R. destruct r as [e' sz]. cbv zeta.
  destruct (limit (ctx e') - ptr e' =? 0); eexists; eexists;
    (split; [reflexivity|discriminate]).
Qed.

(* ================================================================== *)
(** * Properties of the specification *)

(** C1: the message emitter writes the declared fields behind each other in
    the order of the layout's field array, each field as records carrying its
    number and in front of what the unknown fields and the extensions took;
    with the array sorted by field number, the records of the declared fields
    are in ascending order of field number.  The emitter walks the array from
    its last field to its first ([encode_message_fields]) and every write
    goes in front of the output. *)
Theorem declared_fields_ascending (big_endian : bool) (layouts : list upb_msglayout)
  (fuel : nat) (e e' : upb_encstate) (msg : upb_msg) (m : upb_msglayout) (size : Z) :
  wf e ->
  Forall valid_number (fields m) ->
  StronglySorted (fun f g => number f < number g) (fields m) ->
  encode_message_impl big_endian layouts (S fuel) e msg m = Ok (e', size) ->
  exists e2 chunks recs,
    (e1 <- encode_message_unknown e msg ;;
     encode_message_exts big_endian layouts
       (encode_message_impl big_endian layouts fuel) e1 msg m) = Ok e2 /\
    encode_message_fields big_endian layouts
      (encode_message_impl big_endian layouts fuel) e2 msg m = Ok e' /\
    written e' = map Byte (concat chunks) ++ written e2 /\
    Forall2 (field_output big_endian layouts
               (encode_message_impl big_endian layouts fuel) msg m)
      (fields m) chunks /\
    concat chunks = concat (map snd recs) /\
    Forall (fun nr => wire_record (fst nr) (snd nr) /\
                      In (fst nr) (map number (fields m))) recs /\
    StronglySorted Z.le (map fst recs).
Proof.
  intros W Hv Hs H.
  pose proof (emits_message big_endian layouts fuel) as Hcb.
  cbn [encode_message_impl] in H. unfold encode_message_body in H.
  destruct (encode_message_unknown e msg) as [e1| | |] eqn:U; try discriminate.
  cbn [bind] in H.
  destruct (encode_message_exts big_endian layouts _ e1 msg m) as [e2| | |] eqn:X;
    try discriminate.
  cbn [bind] in H.
  destruct (encode_message_fields big_endian layouts _ e2 msg m) as [e3| | |] eqn:F;
    try discriminate.
  cbn [bind] in H. inv_Ok H. injection H as -> _.
  pose proof (emits_message_unknown e msg W) as XU.
  unfold emits in XU. rewrite U in XU. destruct XU as (c1 & E1 & _).
  pose proof (emits_message_exts big_endian layouts _ Hcb e1 msg m (ext_wf _ _ _ E1))
    as XX.
  unfold emits in XX. rewrite X in XX. destruct XX as (c2 & E2 & _).
  pose proof F as F'. unfold encode_message_fields in F'.
  apply (fields_loop_chunks big_endian layouts _ Hcb msg m) in F';
    [|now apply Forall_rev|exact (ext_wf _ _ _ E2)].
  destruct F' as (chunks & F2 & E3).
  apply Forall2_rev in F2. rewrite rev_involutive in F2.
  destruct (sorted_chunks_records (fields m) (rev chunks) Hs) as (recs & R1 & R2 & R3).
  { eapply Forall2_impl; [|exact F2]. intros f c [Hw _]. exact Hw. }
  exists e2, (rev chunks), recs.
  split; [cbn [bind]; exact X|]. split; [exact F|].
  split; [exact (ext_written _ _ _ E3)|]. auto.
Qed.

Lemma declared_fields_ascending_witness :
  exists e',
    encode_message_impl false [] 1 roomy_state two_fields_msg two_fields_layout
    = Ok (e', 7) /\
    exists e2 chunks recs,
      written e' = map Byte (concat chunks) ++ written e2 /\
      concat chunks = concat (map snd recs) /\
      StronglySorted Z.le (map fst recs).
Proof.
  eexists. split; [vm_compute; reflexivity|].
  match goal with
  | |- exists e2 chunks recs, written ?e' = _ /\ _ =>
      destruct (declared_fields_ascending false [] 0 roomy_state e'
                  two_fields_msg two_fields_layout 7)
        as (e2 & chunks & recs & _ & _ & Hw & _ & Hc & _ & Hs)
  end.
  - unfold wf. vm_compute. split; discriminate.
  - repeat constructor.
  - repeat constructor.
  - vm_compute. reflexivity.
  - exists e2, chunks, recs.
    split; [exact Hw|]. split; [exact Hc|exact Hs].
Defined.

(** C2: for every 64-bit value, the base-128 little-endian encoding of the
    value has at most 10 bytes and reads back as the value; the varint
    emitter [encode_varint] and the slow path [encode_longvarint] (scratch
    area, then bulk copy), started in the same state, each either fail for
    lack of memory or put exactly that encoding in front of the output, so
    the two paths produce the same bytes; and with [val < 128] and a free
    byte the emitter takes the fast path, which stores the one byte and
    allocates nothing. *)
Theorem encode_varint_base128 (e : upb_encstate) (val : Z) :
  wf e -> 0 <= val < 2 ^ 64 ->
  (length (base128 val) <= 10)%nat /\
  varint_value (base128 val) = val /\
  (forall emit, emit = encode_varint \/ emit = encode_longvarint ->
     (exists e', emit e val = Ok e' /\
                 written e' = map Byte (base128 val) ++ written e) \/
     (emit e val = Longjmp OutOfMemory /\ alloc_fails e)) /\
  (val < 128 -> ptr e <> 0 ->
   encode_varint e val
   = Ok (set_buf (set_ptr e (ptr e - 1))
           (store (buf (ctx e)) (ptr e - 1) (byte_of_Z val)))).
Proof.
  intros W Hv. repeat split.
  - unfold base128. rewrite base128_groups_length. now apply base128_length_u64.
  - apply varint_value_base128. lia.
  - intros emit Hemit.
    destruct (varint_paths_total e val emit Hemit) as [[e' H]|H]; [left|now right].
    exists e'. split; [exact H|].
    assert (E : extends e e' (varint_bytes val)).
    { destruct Hemit as [-> | ->].
      - now destruct (encode_varint_spec e e' val W H).
      - now destruct (encode_longvarint_spec e e' val W H). }
    rewrite (varint_bytes_base128 val Hv) in E. exact (ext_written _ _ _ E).
  - intros Hs Hp. unfold encode_varint.
    replace (val <? 128) with true by (symmetry; apply Z.ltb_lt; lia).
    replace (ptr e =? 0) with false by (symmetry; apply Z.eqb_neq; lia).
    reflexivity.
Qed.

Lemma encode_varint_base128_witness :
  (exists e', encode_varint roomy_state 5 = Ok e' /\
              written e' = map Byte [x05] ++ written roomy_state) /\
  (exists e', encode_longvarint roomy_state 5 = Ok e' /\
              written e' = map Byte [x05] ++ written roomy_state) /\
  (exists e', encode_longvarint (start_state always_alloc 0) 300 = Ok e' /\
              written e'
              = map Byte [xac; x02] ++ written (start_state always_alloc 0)).
Proof.
  assert (W1 : wf roomy_state) by (unfold wf; vm_compute; split; discriminate).
  assert (W2 : wf (start_state always_alloc 0))
    by (unfold wf; vm_compute; split; discriminate).
  split; [|split].
  - destruct (encode_varint_base128 roomy_state 5 W1 ltac:(lia))
      as (_ & _ & H & _).
    destruct (H encode_varint (or_introl eq_refl)) as [X|[X _]];
      [exact X|vm_compute in X; discriminate X].
  - destruct (encode_varint_base128 roomy_state 5 W1 ltac:(lia))
      as (_ & _ & H & _).
    destruct (H encode_longvarint (or_intror eq_refl)) as [X|[X _]];
      [exact X|vm_compute in X; discriminate X].
  - destruct (encode_varint_base128 (start_state always_alloc 0) 300 W2 ltac:(lia))
      as (_ & _ & H & _).
    destruct (H encode_longvarint (or_intror eq_refl)) as [X|[X _]];
      [exact X|vm_compute in X; discriminate X].
Defined.

(** C3: a negative int32 in an INT32 or ENUM field is sign-extended to 64
    bits and written as a 10-byte varint after the field's tag, unless the
    emitter fails for lack of memory; the elements of a repeated INT32 or ENUM
    field, packed or not, are written as the varints of their sign-extended
    values, too; and int32 field 1 holding -1 encodes as
    08 ff ff ff ff ff ff ff ff ff 01, on either host. *)
Theorem int32_sign_extension (big_endian : bool) (layouts : list upb_msglayout)
  (cb : upb_encstate -> upb_msg -> upb_msglayout -> outcome (upb_encstate * Z))
  (e : upb_encstate) (c : cell) (subs_ : list upb_msglayout_sub)
  (f : upb_msglayout_field) (val : Z) :
  wf e ->
  descriptortype f = UPB_DESCRIPTOR_TYPE_INT32 \/
  descriptortype f = UPB_DESCRIPTOR_TYPE_ENUM ->
  read_int big_endian 4 c = Some val -> s32 val < 0 ->
  length (base128 (2 ^ 64 + s32 val)) = 10%nat /\
  ((exists e',
      encode_scalar_impl big_endian layouts cb e c subs_ f = Ok e' /\
      written e'
      = map Byte (varint_bytes (make_tag (number f) UPB_WIRE_TYPE_VARINT)
                  ++ base128 (2 ^ 64 + s32 val)) ++ written e) \/
   (encode_scalar_impl big_endian layouts cb e c subs_ f = Longjmp OutOfMemory /\
    alloc_fails e)) /\
  varint_bytes (u64 (s32 val)) = base128 (2 ^ 64 + s32 val) /\
  (forall msg arr e',
     valid_number f ->
     read_array (UPB_PTR_AT msg (offset f)) = Some (Some arr) -> arr <> [] ->
     encode_array_impl big_endian layouts cb e msg subs_ f = Ok e' ->
     exists vals,
       read_all (read_int big_endian 4) arr = Some vals /\
       written e'
       = map Byte (varint_array_bytes f
                     (map (fun v => varint_bytes (u64 (s32 v))) vals))
         ++ written e) /\
  upb_encode_ex big_endian [] s2_msg s2_layout 0 always_alloc
  = Ok (buffer_ptr (map Byte [x08; xff; xff; xff; xff; xff; xff; xff; xff; xff; x01]),
        11).
Proof.
  intros W Ht Hr Hneg.
  assert (Hs : - 2 ^ 31 <= s32 val < 2 ^ 31).
  { unfold s32. pose proof (Z.mod_pos_bound (val + 2 ^ 31) (2 ^ 32) ltac:(lia)). lia. }
  assert (Hu : u64 (s32 val) = 2 ^ 64 + s32 val).
  { unfold u64. replace (s32 val) with ((2 ^ 64 + s32 val) + (-1) * 2 ^ 64) at 1 by lia.
    rewrite Z.mod_add by lia. apply Z.mod_small. lia. }
  assert (Hrange : 2 ^ 63 <= 2 ^ 64 + s32 val < 2 ^ 64) by lia.
  assert (Hrun : encode_scalar_impl big_endian layouts cb e c subs_ f
                 = (e0 <- encode_varint e (u64 (s32 val)) ;;
                    encode_tag e0 (number f) UPB_WIRE_TYPE_VARINT)).
  { unfold encode_scalar_impl.
    destruct Ht as [Ht|Ht]; rewrite Ht, Hr; reflexivity. }
  split; [|split; [|split; [|split]]].
  - unfold base128. rewrite base128_groups_length.
    now apply base128_length_negative.
  - rewrite Hrun.
    destruct (varint_paths_total e (u64 (s32 val)) encode_varint (or_introl eq_refl))
      as [[e1 E1]|[E1 A1]]; rewrite E1; cbv beta iota delta [bind];
      [|right; split; [reflexivity|exact A1]].
    destruct (encode_varint_spec _ _ _ W E1) as [X1 _].
    unfold encode_tag.
    destruct (varint_paths_total e1 (make_tag (number f) UPB_WIRE_TYPE_VARINT)
                encode_varint (or_introl eq_refl)) as [[e2 E2]|[E2 A2]].
    + left. exists e2. split; [exact E2|].
      destruct (encode_varint_spec _ _ _ (ext_wf _ _ _ X1) E2) as [X2 _].
      rewrite (ext_written _ _ _ X2), (ext_written _ _ _ X1), map_app, app_assoc.
      rewrite Hu, (varint_bytes_base128 (2 ^ 64 + s32 val)) by lia. reflexivity.
    + right. split; [exact E2|].
      destruct A2 as [log A2]. exists log.
      now rewrite <- (ext_alloc _ _ _ X1).
  - rewrite Hu. apply varint_bytes_base128. lia.
  - intros msg arr e' Hv Ha Hn Hrun'.
    exact (int32_array_output big_endian layouts cb e e' msg subs_ f arr
             W Hv Ht Ha Hn Hrun').
  - destruct big_endian; vm_compute; reflexivity.
Qed.

Lemma int32_sign_extension_witness :
  exists e',
    encode_scalar_impl false [] (fun _ _ _ => OutOfFuel) roomy_state
      (CData [xff; xff; xff; xff]) []
      (scalar_field 1 8 1 UPB_DESCRIPTOR_TYPE_INT32 _UPB_REP_4BYTE) = Ok e' /\
    written e'
    = map Byte (varint_bytes (make_tag 1 UPB_WIRE_TYPE_VARINT)
                ++ base128 (2 ^ 64 + s32 4294967295)) ++ written roomy_state.
Proof.
  assert (W : wf roomy_state) by (unfold wf; vm_compute; split; discriminate).
  assert (R : read_int false 4 (CData [xff; xff; xff; xff]) = Some 4294967295)
    by reflexivity.
  assert (N : s32 4294967295 < 0) by (vm_compute; reflexivity).
  destruct (int32_sign_extension false [] (fun _ _ _ => OutOfFuel) roomy_state
              (CData [xff; xff; xff; xff]) []
              (scalar_field 1 8 1 UPB_DESCRIPTOR_TYPE_INT32 _UPB_REP_4BYTE)
              4294967295 W (or_introl eq_refl) R N)
    as (_ & [X|[X _]] & _); [exact X|vm_compute in X; discriminate X].
Defined.




(** C5 at a failing input: on a big-endian host the packed repeated fixed32
    field 1 = [1] is written as tag 0a, length 04 and the element's bytes in
    host order, 00 00 00 01, which read back as the little-endian fixed32 of
    the wire format give 16777216 and not the element 1.  On a little-endian
    host the same array is written as 0a 04 01 00 00 00.  The tag, the length
    and the order of the elements are as [packed_array_output] has them on
    either host. *)
Theorem packed_fixed32_on_big_endian :
  read_all (read_int true 4) [CData (host_bytes true 4 1)] = Some [1] /\
  upb_encode_ex true [] (fixed32_array_msg true) (fixed32_array_layout true) 0
    always_alloc
  = Ok (buffer_ptr (map Byte [x0a; x04; x00; x00; x00; x01]), 6) /\
  le_value [x00; x00; x00; x01] = 16777216 /\
  upb_encode_ex false [] (fixed32_array_msg false) (fixed32_array_layout true) 0
    always_alloc
  = Ok (buffer_ptr (map Byte [x0a; x04; x01; x00; x00; x00]), 6).
Proof.
  repeat split; vm_compute; reflexivity.
Qed.

(** C6: when the message emitter escapes through [encode_err], for lack of
    memory or because the depth budget is used up, [upb_encode_ex] returns the
    null pointer and size 0; a null return arises in no other way, a failure
    for lack of memory only after the allocator has refused a request, and a
    failure for depth only on a message nested as deep as the budget; a
    non-null return is the placeholder or the complete output of an emitter
    run that returned normally; and the model of the call never runs out of
    fuel. *)
Theorem encode_failure_returns_null (big_endian : bool)
  (layouts : list upb_msglayout) (msg : upb_msg) (l : upb_msglayout)
  (options_ : Z) (arena : upb_alloc) :
  (forall err, entry_run big_endian layouts msg l options_ arena = Longjmp err ->
     upb_encode_ex big_endian layouts msg l options_ arena = Ok (NULL, 0)) /\
  (forall ret size,
     upb_encode_ex big_endian layouts msg l options_ arena = Ok (ret, size) ->
     ret = NULL ->
     size = 0 /\
     exists err,
       entry_run big_endian layouts msg l options_ arena = Longjmp err /\
       (err = OutOfMemory \/ err = MaxDepthExceeded) /\
       (err = OutOfMemory -> exists log, alloc_func arena log = false) /\
       (err = MaxDepthExceeded ->
        depth_budget options_ <= Z.of_nat (msg_height msg))) /\
  (forall ret size,
     upb_encode_ex big_endian layouts msg l options_ arena = Ok (ret, size) ->
     ret <> NULL ->
     exists e' size',
       entry_run big_endian layouts msg l options_ arena = Ok (e', size') /\
       size = Z.of_nat (length (written e')) /\
       (ret = static_ch /\ written e' = [] \/
        ret = buffer_ptr (written e') /\ written e' <> [])) /\
  upb_encode_ex big_endian layouts msg l options_ arena <> OutOfFuel.
Proof.
  rewrite <- and_assoc, <- and_assoc. split;
    [rewrite !and_assoc|apply upb_encode_ex_fuel].
  rewrite upb_encode_ex_eq.
  pose proof (emits_message big_endian layouts (msg_height msg)
                (entry_state arena options_) msg l (wf_entry_state _ _)) as X.
  change (encode_message_impl big_endian layouts (msg_height msg)
            (entry_state arena options_) msg l)
    with (entry_run big_endian layouts msg l options_ arena) in X.
  destruct (entry_run big_endian layouts msg l options_ arena)
    as [[e' size']|err| |] eqn:R; cbn [emits_gen fst snd] in X.
  - destruct X as (ch & E & _ & _). pose proof (ext_wf _ _ _ E) as W'.
    pose proof (written_length e' W') as Hl. cbv zeta.
    split; [discriminate|]. split.
    + intros ret size H ->.
      destruct (limit (ctx e') - ptr e' =? 0); inv_Ok H; discriminate.
    + intros ret size H _. exists e', size'. split; [reflexivity|].
      destruct (limit (ctx e') - ptr e' =? 0) eqn:Z0; inv_Ok H;
        injection H as <- <-; (split; [lia|]).
      * left. split; auto. apply Z.eqb_eq in Z0. apply length_zero_iff_nil. lia.
      * right. split; auto. apply Z.eqb_neq in Z0. intros Hn.
        apply (f_equal (@length _)) in Hn. cbn [length] in Hn. lia.
  - split; [reflexivity|]. split.
    + intros ret size H _. inv_Ok H. injection H as <- <-. split; [reflexivity|].
      exists err. split; [reflexivity|]. split; [destruct err; auto|]. split.
      * intros ->. exact X.
      * intros ->. now apply (entry_run_calm big_endian layouts msg l options_ arena).
    + intros ret size H Hn. inv_Ok H. injection H as <- <-. contradiction.
  - split; [discriminate|]. split; discriminate.
  - split; [discriminate|]. split; discriminate.
Qed.

Lemma encode_failure_returns_null_witness :
  upb_encode_ex false [] s2_msg s2_layout 0 never_alloc = Ok (NULL, 0).
Proof.
  apply (proj1 (encode_failure_returns_null false [] s2_msg s2_layout 0 never_alloc)
           OutOfMemory).
  vm_compute. reflexivity.
Defined.

(** C7: a message without present fields, extensions to encode and unknown
    fields to copy makes [upb_encode_ex] return the placeholder pointer, which
    is not null, with size 0; so does any emitter run that returns having
    written nothing. *)
Theorem empty_message_placeholder (big_endian : bool)
  (layouts : list upb_msglayout) (msg : upb_msg) (l : upb_msglayout)
  (options_ : Z) (arena : upb_alloc) :
  ((upb_msg_getunknown msg = None \/ upb_msg_getunknown msg = Some [] \/
    Z.land options_ UPB_ENCODE_SKIPUNKNOWN <> 0) ->
   (ext l = _UPB_MSGEXT_NONE \/ _upb_msg_getexts msg = []) ->
   Forall (fun f => encode_shouldencode big_endian (msg_mem msg) (subs l) f = Ok false)
     (fields l) ->
   upb_encode_ex big_endian layouts msg l options_ arena = Ok (static_ch, 0)) /\
  (forall e' size,
     entry_run big_endian layouts msg l options_ arena = Ok (e', size) ->
     written e' = [] ->
     upb_encode_ex big_endian layouts msg l options_ arena = Ok (static_ch, 0)) /\
  static_ch <> NULL.
Proof.
  assert (Hgen : forall e' size,
     entry_run big_endian layouts msg l options_ arena = Ok (e', size) ->
     written e' = [] ->
     upb_encode_ex big_endian layouts msg l options_ arena = Ok (static_ch, 0)).
  { intros e' size R Hw. rewrite upb_encode_ex_eq, R. cbv zeta.
    pose proof (emits_message big_endian layouts (msg_height msg)
                  (entry_state arena options_) msg l (wf_entry_state _ _)) as X.
    change (encode_message_impl big_endian layouts (msg_height msg)
              (entry_state arena options_) msg l)
      with (entry_run big_endian layouts msg l options_ arena) in X.
    rewrite R in X. destruct X as (ch & E & _).
    pose proof (written_length e' (ext_wf _ _ _ E)) as Hl.
    rewrite Hw in Hl. cbn [length] in Hl.
    replace (limit (ctx e') - ptr e') with 0 by lia. reflexivity. }
  split; [|split; [exact Hgen|discriminate]].
  intros Hunk Hext Hfields.
  set (e := entry_state arena options_).
  apply (Hgen e 0); [|reflexivity].
  unfold entry_run, encode_message. fold e.
  destruct msg as [mem unk exts]. cbn [msg_height encode_message_impl].
  unfold encode_message_body.
  assert (H1 : encode_message_unknown e (Msg mem unk exts) = Ok e).
  { unfold encode_message_unknown. cbn [upb_msg_getunknown] in *.
    change (options (ctx e)) with options_.
    destruct Hunk as [->|[->|Hs]].
    - now destruct (Z.land options_ UPB_ENCODE_SKIPUNKNOWN =? 0).
    - now destruct (Z.land options_ UPB_ENCODE_SKIPUNKNOWN =? 0).
    - apply Z.eqb_neq in Hs. now rewrite Hs. }
  rewrite H1. cbn [bind].
  assert (H2 : encode_message_exts big_endian layouts
                 (encode_message_impl big_endian layouts
                    (Nat.max (list_max (map (fun p => cell_height (snd p)) mem))
                             (list_max (map (fun p => cell_height (snd p)) exts))))
                 e (Msg mem unk exts) l = Ok e).
  { unfold encode_message_exts. cbn [_upb_msg_getexts] in *.
    destruct Hext as [->| ->]; [reflexivity|]. now destruct (ext l). }
  rewrite H2. cbn [bind].
  assert (H3 : encode_message_fields big_endian layouts
                 (encode_message_impl big_endian layouts
                    (Nat.max (list_max (map (fun p => cell_height (snd p)) mem))
                             (list_max (map (fun p => cell_height (snd p)) exts))))
                 e (Msg mem unk exts) l = Ok e).
  { unfold encode_message_fields. apply encode_each_unchanged.
    apply Forall_rev. eapply Forall_impl; [|exact Hfields].
    intros f Hf. cbn beta. rewrite Hf. reflexivity. }
  rewrite H3. cbn [bind]. reflexivity.
Qed.

Lemma empty_message_placeholder_witness :
  upb_encode_ex false [] (Msg [] None []) s2_layout 0 always_alloc
  = Ok (static_ch, 0).
Proof.
  apply (proj1 (empty_message_placeholder false [] (Msg [] None []) s2_layout 0
                  always_alloc)).
  - left. reflexivity.
  - left. reflexivity.
  - repeat constructor.
Defined.

(** C8 at a failing input: on a big-endian host the element 1 of a repeated
    fixed32 field, packed or not, is written in host order, 00 00 00 01; the
    scalar emitter on the same host, and the array emitter on a little-endian
    host, write the little-endian 01 00 00 00. *)
Theorem fixed32_array_on_big_endian :
  upb_encode_ex true [] (fixed32_array_msg true) (fixed32_array_layout false) 0
    always_alloc
  = Ok (buffer_ptr (map Byte [x0d; x00; x00; x00; x01]), 5) /\
  upb_encode_ex true [] (fixed32_array_msg true) (fixed32_array_layout true) 0
    always_alloc
  = Ok (buffer_ptr (map Byte [x0a; x04; x00; x00; x00; x01]), 6) /\
  upb_encode_ex true [] (fixed32_scalar_msg true) fixed32_scalar_layout 0
    always_alloc
  = Ok (buffer_ptr (map Byte [x0d; x01; x00; x00; x00]), 5) /\
  upb_encode_ex false [] (fixed32_array_msg false) (fixed32_array_layout false) 0
    always_alloc
  = Ok (buffer_ptr (map Byte [x0d; x01; x00; x00; x00]), 5).
Proof.
  repeat split; vm_compute; reflexivity.
Qed.

(** C9, as the code has it: with the DETERMINISTIC option set, two messages
    of the same layout that hold the same value, their maps in whatever order
    and their extensions stored in the same order, are encoded to the same
    result, byte for byte; map entries are written in the order of the sorted
    view. *)
Theorem deterministic_encoding (big_endian : bool) (layouts : list upb_msglayout)
  (m1 m2 : upb_msg) (l : upb_msglayout) (options_ : Z) (arena : upb_alloc) :
  msg_equiv false m1 m2 ->
  Z.land options_ UPB_ENCODE_DETERMINISTIC <> 0 ->
  upb_encode_ex big_endian layouts m1 l options_ arena
  = upb_encode_ex big_endian layouts m2 l options_ arena.
Proof.
  intros E D. rewrite !upb_encode_ex_eq. unfold entry_run, encode_message.
  rewrite (proj1 (height_equiv false) m1 m2 E).
  rewrite (encode_message_related big_endian layouts (msg_height m1)
             (entry_state arena options_) m1 m2 l (wf_entry_state _ _) D E).
  reflexivity.
Qed.

Lemma deterministic_encoding_witness :
  upb_encode_ex false [s7_entry_layout] s7_msg_a s7_layout 1 always_alloc
  = upb_encode_ex false [s7_entry_layout] s7_msg_b s7_layout 1 always_alloc.
Proof.
  apply (deterministic_encoding false [s7_entry_layout] s7_msg_a s7_msg_b s7_layout 1
           always_alloc).
  - apply (ME_msg false _ _ _ [] [] []); [|constructor|now left].
    constructor; [|constructor]. split; [reflexivity|]. cbn [snd].
    apply (CE_map false _ _ [s7_entry_1; s7_entry_2]).
    + repeat constructor.
    + apply perm_swap.
    + cbn [map fst s7_entry_1 s7_entry_2].
      constructor; [|constructor; [|constructor]]; cbn [In]; intuition discriminate.
    + repeat constructor.
  - vm_compute. discriminate.
Defined.

(** C9, as stated, fails: two messages holding the same extensions, stored
    in different orders, hold the same value and are encoded differently in
    deterministic mode. *)
Lemma deterministic_encoding_counterexample :
  msg_equiv true ext_msg_a ext_msg_b /\
  Z.land 1 UPB_ENCODE_DETERMINISTIC <> 0 /\
  upb_encode_ex false [] ext_msg_a ext_layout 1 always_alloc
  <> upb_encode_ex false [] ext_msg_b ext_layout 1 always_alloc.
Proof.
  split; [|split].
  - apply (ME_msg true _ _ _ _ _ [ext_100; ext_101]); [constructor| |].
    + repeat constructor.
    + right. split; [reflexivity|apply perm_swap].
  - vm_compute. discriminate.
  - vm_compute. discriminate.
Qed.

(** C10: on normal return from a field emitter or from the message emitter
    the remaining-depth counter has the value it had on entry, so that
    sub-messages next to each other do not use up the budget. *)
Theorem depth_restored (big_endian : bool) (layouts : list upb_msglayout)
  (fuel : nat) (e e' : upb_encstate) (msg : list (Z * cell)) (c : cell)
  (subs_ : list upb_msglayout_sub) (f : upb_msglayout_field)
  (m : upb_msg) (l : upb_msglayout) (size : Z) :
  wf e ->
  (encode_scalar_impl big_endian layouts (encode_message_impl big_endian layouts fuel)
     e c subs_ f = Ok e' -> depth (ctx e') = depth (ctx e)) /\
  (encode_array_impl big_endian layouts (encode_message_impl big_endian layouts fuel)
     e msg subs_ f = Ok e' -> depth (ctx e') = depth (ctx e)) /\
  (encode_field_impl big_endian layouts (encode_message_impl big_endian layouts fuel)
     e msg subs_ f = Ok e' -> depth (ctx e') = depth (ctx e)) /\
  (encode_message_impl big_endian layouts fuel e m l = Ok (e', size) ->
     depth (ctx e') = depth (ctx e)).
Proof.
  intros W.
  pose proof (emits_message big_endian layouts fuel) as Hcb.
  repeat split; intros H.
  - pose proof (emits_scalar big_endian layouts _ Hcb e c subs_ f W) as X.
    unfold emits in X. rewrite H in X. destruct X as (ch & _ & D & _). exact D.
  - pose proof (emits_array big_endian layouts _ Hcb e msg subs_ f W) as X.
    unfold emits in X. rewrite H in X. destruct X as (ch & _ & D & _). exact D.
  - pose proof (emits_field big_endian layouts _ Hcb e msg subs_ f W) as X.
    unfold emits in X. rewrite H in X. destruct X as (ch & _ & D & _). exact D.
  - pose proof (Hcb e m l W) as X. rewrite H in X.
    destruct X as (ch & _ & D & _). exact D.
Qed.

Lemma depth_restored_witness :
  exists e',
    encode_scalar_impl false [plain_layout []]
      (encode_message_impl false [plain_layout []] 1) roomy_state
      (CMsg (Msg [] None [])) [O] chain_field = Ok e' /\
    depth (ctx e') = depth (ctx roomy_state).
Proof.
  eexists. split; [vm_compute; reflexivity|].
  refine (proj1 (depth_restored false [plain_layout []] 1 roomy_state _ []
                   (CMsg (Msg [] None [])) [O] chain_field (Msg [] None [])
                   (plain_layout []) 0 _) _).
  - unfold wf. vm_compute. split; discriminate.
  - vm_compute. reflexivity.
Defined.

(* ================================================================== *)
(** * The buffer manager, further *)

Lemma roundup_loop_pow2 (fuel : nat) :
  forall ret bytes,
    pow2_from_128 ret ->
    pow2_from_128 (roundup_loop fuel ret bytes) /\
    ret <= roundup_loop fuel ret bytes /\
    (roundup_loop fuel ret bytes = ret \/ roundup_loop fuel ret bytes < 2 * bytes).
Proof.
  induction fuel as [|k IH]; intros ret bytes Hp; cbn [roundup_loop].
  - split; [exact Hp|]. split; [lia|now left].
  - destruct (ret <? bytes) eqn:E.
    + apply Z.ltb_lt in E.
      assert (Hp2 : pow2_from_128 (ret * 2)).
      { destruct Hp as [j ->]. exists (S j).
        rewrite Nat2Z.inj_succ, Z.pow_succ_r by lia. lia. }
      assert (Hpos : 0 < ret).
      { destruct Hp as [j ->]. pose proof (Z.pow_pos_nonneg 2 (Z.of_nat j)). lia. }
      destruct (IH (ret * 2) bytes Hp2) as (P & G & M).
      split; [exact P|]. split; [lia|]. right. lia.
    + split; [exact Hp|]. split; [lia|now left].
Qed.

Lemma upb_roundup_pow2_shape (bytes : Z) :
  pow2_from_128 (upb_roundup_pow2 bytes) /\
  (upb_roundup_pow2 bytes = 128 \/ upb_roundup_pow2 bytes < 2 * bytes).
Proof.
  unfold upb_roundup_pow2.
  destruct (roundup_loop_pow2 (Z.to_nat (Z.log2_up bytes)) 128 bytes) as (P & G & M).
  { exists O. reflexivity. }
  split; assumption.
Qed.

(** X1: for a request of at most 2^63 bytes, [upb_roundup_pow2] returns 128
    doubled some number of times, at least the request, and the least such
    size: it is 128 or less than twice the request.  The result does not
    leave [size_t], so the doubling never wraps. *)
Theorem upb_roundup_pow2_least (bytes : Z) :
  0 <= bytes <= roundup_max ->
  pow2_from_128 (upb_roundup_pow2 bytes) /\
  bytes <= upb_roundup_pow2 bytes /\
  upb_roundup_pow2 bytes <= roundup_max /\
  (upb_roundup_pow2 bytes = 128 \/ upb_roundup_pow2 bytes < 2 * bytes).
Proof.
  intros Hb. pose proof (upb_roundup_pow2_ge bytes) as Hge.
  unfold upb_roundup_pow2 in *.
  destruct (roundup_loop_pow2 (Z.to_nat (Z.log2_up bytes)) 128 bytes) as (P & G & M).
  { exists O. reflexivity. }
  split; [exact P|]. split; [exact Hge|]. split; [|exact M].
  unfold roundup_max in *. destruct M as [->|M]; [lia|].
  destruct P as [k Hk]. rewrite Hk in *.
  assert (Hlt : 2 ^ (Z.of_nat k + 7) < 2 ^ 64).
  { rewrite Z.pow_add_r by lia. change (2 ^ 7) with 128.
    change (2 ^ 64) with (2 * 2 ^ 63). lia. }
  apply Z.pow_lt_mono_r_iff in Hlt; [|lia|lia].
  assert (Hle : 2 ^ (Z.of_nat k + 7) <= 2 ^ 63) by (apply Z.pow_le_mono_r; lia).
  rewrite Z.pow_add_r in Hle by lia. change (2 ^ 7) with 128 in Hle. lia.
Qed.

Lemma upb_roundup_pow2_least_witness :
  upb_roundup_pow2 300 = 512 /\ pow2_from_128 (upb_roundup_pow2 300).
Proof.
  split; [reflexivity|].
  apply (upb_roundup_pow2_least 300). unfold roundup_max. lia.
Defined.

Lemma pow2_from_128_lt (a b : Z) :
  pow2_from_128 a -> pow2_from_128 b -> a < b -> 2 * a <= b.
Proof.
  intros [j ->] [k ->] H.
  assert (Hjk : Z.of_nat j < Z.of_nat k).
  { apply (Z.pow_lt_mono_r_iff 2); lia. }
  assert (Hle : 2 ^ (Z.of_nat j + 1) <= 2 ^ Z.of_nat k)
    by (apply Z.pow_le_mono_r; lia).
  rewrite Z.pow_add_r in Hle by lia. change (2 ^ 1) with 2 in Hle. lia.
Qed.

(** X2: [encode_reserve] leaves the buffer alone when [bytes] bytes are free
    in front of the output.  Otherwise [encode_growbuffer] asks the allocator
    once, for a size that is 128 doubled some number of times and at least
    twice the old size, and moves the output to the end of the new block.
    Either way [bytes] fresh bytes lie in front of the unchanged output.  It
    fails exactly when it has to grow and the allocator refuses. *)
Theorem encode_reserve_doubles (e : upb_encstate) (bytes : Z) :
  wf e -> buf_sized e -> 0 < bytes ->
  bytes + (limit (ctx e) - ptr e) <= roundup_max ->
  (forall e', encode_reserve e bytes = Ok e' ->
     wf e' /\ buf_sized e' /\
     ptr e' + bytes + Z.of_nat (length (written e)) = limit (ctx e') /\
     skipn (Z.to_nat (ptr e' + bytes)) (buf (ctx e')) = written e /\
     (bytes <= ptr e /\ e' = set_ptr e (ptr e - bytes) \/
      ptr e < bytes /\ 2 * limit (ctx e) <= limit (ctx e') /\
      alloc_log (alloc (ctx e')) = limit (ctx e') :: alloc_log (alloc (ctx e)))) /\
  (encode_reserve e bytes = Longjmp OutOfMemory <->
   ptr e < bytes /\
   alloc_func (alloc (ctx e))
     (upb_roundup_pow2 (bytes + (limit (ctx e) - ptr e))
      :: alloc_log (alloc (ctx e))) = false) /\
  ((exists e', encode_reserve e bytes = Ok e') \/
   encode_reserve e bytes = Longjmp OutOfMemory).
Proof.
  intros W S Hb Hmax.
  pose proof (written_length e W) as Hlen.
  set (cur := limit (ctx e) - ptr e) in *.
  assert (Hcur : 0 <= cur) by (unfold cur, wf in *; lia).
  assert (Hr : 0 <= bytes + cur <= roundup_max) by (split; [lia|exact Hmax]).
  destruct (upb_roundup_pow2_shape (bytes + cur)) as [P _].
  pose proof (upb_roundup_pow2_ge (bytes + cur)) as G.
  split; [|split].
  - intros e' H.
    destruct (encode_reserve_spec e e' bytes W ltac:(lia) H) as (H0 & H1 & H2 & _).
    assert (Hskip : Z.of_nat (length (written e))
                    = limit (ctx e') - (ptr e' + bytes)).
    { rewrite <- H2, length_skipn. unfold limit in *. lia. }
    unfold encode_reserve in H. fold cur in H.
    destruct (ptr e - 0 <? bytes) eqn:E.
    + apply Z.ltb_lt in E. unfold encode_growbuffer, upb_malloc in H.
      fold cur in H.
      destruct (alloc_func _ _); [|discriminate].
      apply Ok_inj in H. subst e'. unfold limit in *.
      cbn [ptr ctx buf alloc alloc_log] in *.
      assert (Hl : Z.of_nat (length
                     (if 0 <? cur
                      then memcpy (repeat Undef (Z.to_nat (upb_roundup_pow2 (bytes + cur))))
                             (upb_roundup_pow2 (bytes + cur) - cur)
                             (firstn (Z.to_nat cur)
                                (skipn (Z.to_nat (ptr e)) (buf (ctx e))))
                      else repeat Undef (Z.to_nat (upb_roundup_pow2 (bytes + cur)))))
                   = upb_roundup_pow2 (bytes + cur)).
      { destruct (0 <? cur).
        - rewrite length_memcpy; rewrite ?repeat_length; try lia.
          rewrite length_firstn. fold (written e).
          unfold written in Hlen. fold (written e) in Hlen. lia.
        - rewrite repeat_length. lia. }
      rewrite Hl in *.
      split; [unfold wf, limit; cbn [ptr ctx buf]; rewrite Hl; lia|].
      split; [right; unfold limit; cbn [ctx buf]; rewrite Hl; exact P|].
      split; [lia|]. split; [exact H2|]. right.
      split; [lia|]. split; [|reflexivity].
      destruct S as [S|S]; [unfold limit in S; lia|].
      apply pow2_from_128_lt; [exact S|exact P|unfold cur, limit in *; lia].
    + apply Z.ltb_ge in E. apply Ok_inj in H. subst e'.
      unfold set_ptr in *. cbn [ptr ctx] in *.
      split; [unfold wf; cbn [ptr ctx]; unfold wf in W; lia|].
      split; [exact S|]. split; [lia|]. split; [exact H2|].
      left. split; [lia|reflexivity].
  - unfold encode_reserve, encode_growbuffer, upb_malloc, encode_err. fold cur.
    destruct (ptr e - 0 <? bytes) eqn:E.
    + apply Z.ltb_lt in E. destruct (alloc_func _ _).
      * split; [discriminate|]. intros [_ H]. discriminate.
      * split; [intros _; split; [lia|reflexivity]|reflexivity].
    + apply Z.ltb_ge in E. split; [discriminate|]. intros [H _]. lia.
  - unfold encode_reserve, encode_growbuffer, upb_malloc, encode_err.
    destruct (ptr e - 0 <? bytes); [|left; eauto].
    destruct (alloc_func _ _); [left; eauto|now right].
Qed.

Lemma encode_reserve_doubles_witness :
  exists e',
    encode_reserve (start_state always_alloc 0) 5 = Ok e' /\
    limit (ctx e') = 128 /\ ptr e' = 123 /\ wf e' /\ buf_sized e'.
Proof.
  eexists. split; [reflexivity|]. split; [reflexivity|]. split; [reflexivity|].
  assert (W : wf (start_state always_alloc 0))
    by (unfold wf; vm_compute; split; discriminate).
  assert (S : buf_sized (start_state always_alloc 0)) by (left; reflexivity).
  assert (M : 5 + (limit (ctx (start_state always_alloc 0))
                   - ptr (start_state always_alloc 0)) <= roundup_max)
    by (vm_compute; discriminate).
  destruct (encode_reserve_doubles (start_state always_alloc 0) 5 W S
              ltac:(lia) M) as [H _].
  destruct (H _ eq_refl) as (A & B & _). split; assumption.
Defined.

Lemma encode_bytes_defined (e : upb_encstate) (data : list memval) :
  encode_bytes e data <> Undefined /\ encode_bytes e data <> OutOfFuel.
Proof.
  unfold encode_bytes. destruct (_ =? 0); [split; discriminate|].
  destruct (encode_reserve_defined e (Z.of_nat (length data))) as [D1 D2].
  destruct (encode_reserve e _); cbn [bind]; split; try discriminate; assumption.
Qed.

(** X3: [encode_bytes] of no bytes returns at once, whatever the state of the
    buffer and of the allocator; of some bytes, it either fails for lack of
    memory, the allocator having refused a request, or puts exactly these
    bytes in front of the output and keeps the options and the depth
    counter. *)
Theorem encode_bytes_exact (e : upb_encstate) (data : list byte) :
  wf e ->
  (data = [] -> encode_bytes e (map Byte data) = Ok e) /\
  ((exists e',
      encode_bytes e (map Byte data) = Ok e' /\ wf e' /\
      written e' = map Byte data ++ written e /\
      options (ctx e') = options (ctx e) /\ depth (ctx e') = depth (ctx e)) \/
   (encode_bytes e (map Byte data) = Longjmp OutOfMemory /\
    data <> [] /\ alloc_fails e)).
Proof.
  intros W. split; [intros ->; reflexivity|].
  destruct (encode_bytes e (map Byte data)) as [e'|err| |] eqn:H.
  - left. exists e'. split; [reflexivity|].
    destruct (encode_bytes_spec e e' data W H) as [E D].
    split; [exact (ext_wf _ _ _ E)|]. split; [exact (ext_written _ _ _ E)|].
    split; [exact (ext_options _ _ _ E)|exact D].
  - right. unfold encode_bytes in H. rewrite length_map in H.
    destruct (Z.of_nat (length data) =? 0) eqn:Z0; [discriminate|].
    destruct (encode_reserve e (Z.of_nat (length data))) as [e1|err1| |] eqn:R;
      try discriminate.
    cbn [bind] in H. injection H as <-.
    destruct (encode_reserve_longjmp _ _ _ R) as [-> A].
    split; [reflexivity|]. split; [|exact A].
    intros ->. discriminate.
  - exfalso. exact (proj1 (encode_bytes_defined e (map Byte data)) H).
  - exfalso. exact (proj2 (encode_bytes_defined e (map Byte data)) H).
Qed.

Lemma encode_bytes_exact_witness :
  encode_bytes (start_state never_alloc 0) (map Byte []) = Ok (start_state never_alloc 0) /\
  encode_bytes (start_state never_alloc 0) (map Byte [x01]) = Longjmp OutOfMemory.
Proof.
  assert (W : wf (start_state never_alloc 0))
    by (unfold wf; vm_compute; split; discriminate).
  split.
  - exact (proj1 (encode_bytes_exact (start_state never_alloc 0) [] W) eq_refl).
  - destruct (proj2 (encode_bytes_exact (start_state never_alloc 0) [x01] W))
      as [(e' & H & _)|[H _]]; [discriminate H|exact H].
Defined.

(* ================================================================== *)
(** * Primitive emitters, further *)

(** ** Zig-zag codes *)

Lemma lxor_ones_low (k x : Z) :
  0 <= k -> 0 <= x < 2 ^ k -> Z.lxor x (2 ^ k - 1) = 2 ^ k - 1 - x.
Proof.
  intros Hk Hx.
  replace (2 ^ k - 1) with (Z.ones k) by (rewrite Z.ones_equiv; lia).
  replace (Z.ones k - x) with ((- x - 1) mod 2 ^ k).
  2:{ rewrite Z.ones_equiv.
      replace (- x - 1) with ((2 ^ k - 1 - x) + (-1) * 2 ^ k) by lia.
      rewrite Z.mod_add by lia. rewrite Z.mod_small by lia. lia. }
  rewrite <- Z.land_ones by lia. change (- x - 1) with (Z.lnot x).
  apply Z.bits_inj'. intros i Hi.
  rewrite Z.lxor_spec, Z.land_spec, Z.lnot_spec by lia.
  destruct (Z_lt_ge_dec i k) as [L|G].
  - rewrite Z.ones_spec_low by lia. now destruct (Z.testbit x i).
  - rewrite Z.ones_spec_high by lia.
    assert (Hx0 : Z.testbit x i = false).
    { destruct (Z.eq_dec x 0) as [->|N]; [apply Z.bits_0|].
      apply Z.bits_above_log2; [lia|].
      assert (Z.log2 x < k) by (apply Z.log2_lt_pow2; lia). lia. }
    rewrite Hx0. reflexivity.
Qed.

Lemma zigzag_closed (w n : Z) :
  0 < w -> - 2 ^ (w - 1) <= n < 2 ^ (w - 1) ->
  Z.lxor (Z.shiftl (n mod 2 ^ w) 1 mod 2 ^ w) (Z.shiftr n (w - 1) mod 2 ^ w)
  = if n <? 0 then - 2 * n - 1 else 2 * n.
Proof.
  intros Hw Hn.
  assert (Hp : 2 ^ w = 2 * 2 ^ (w - 1)).
  { replace w with (Z.succ (w - 1)) at 1 by lia. apply Z.pow_succ_r. lia. }
  assert (Hpos : 0 < 2 ^ (w - 1)) by (apply Z.pow_pos_nonneg; lia).
  rewrite Z.shiftl_mul_pow2, Z.shiftr_div_pow2 by lia. change (2 ^ 1) with 2.
  destruct (n <? 0) eqn:E.
  - apply Z.ltb_lt in E.
    assert (Hd : n / 2 ^ (w - 1) = -1).
    { symmetry. apply (Z.div_unique n (2 ^ (w - 1)) (-1) (n + 2 ^ (w - 1))); lia. }
    rewrite Hd.
    assert (H1 : n mod 2 ^ w = n + 2 ^ w).
    { symmetry. apply (Z.mod_unique n (2 ^ w) (-1) (n + 2 ^ w)); lia. }
    rewrite H1.
    assert (H2 : ((n + 2 ^ w) * 2) mod 2 ^ w = 2 * n + 2 ^ w).
    { symmetry. apply (Z.mod_unique _ (2 ^ w) 1 (2 * n + 2 ^ w)); lia. }
    rewrite H2.
    assert (H3 : (-1) mod 2 ^ w = 2 ^ w - 1).
    { symmetry. apply (Z.mod_unique (-1) (2 ^ w) (-1) (2 ^ w - 1)); lia. }
    rewrite H3, lxor_ones_low by lia. lia.
  - apply Z.ltb_ge in E.
    rewrite (Z.div_small n) by lia. rewrite (Z.mod_small n) by lia.
    rewrite (Z.mod_small (n * 2)) by lia.
    rewrite Z.mod_0_l by lia. rewrite Z.lxor_0_r. lia.
Qed.

(** X4: the zig-zag code of a signed value is twice the value when it is not
    negative and twice its magnitude less one when it is, for both widths; so
    values of small magnitude get small codes, and different values different
    codes. *)
Theorem encode_zz_closed_form :
  (forall n, - 2 ^ 31 <= n < 2 ^ 31 ->
     encode_zz32 n = if n <? 0 then - 2 * n - 1 else 2 * n) /\
  (forall n, - 2 ^ 63 <= n < 2 ^ 63 ->
     encode_zz64 n = if n <? 0 then - 2 * n - 1 else 2 * n) /\
  (forall n m, - 2 ^ 31 <= n < 2 ^ 31 -> - 2 ^ 31 <= m < 2 ^ 31 ->
     encode_zz32 n = encode_zz32 m -> n = m) /\
  (forall n m, - 2 ^ 63 <= n < 2 ^ 63 -> - 2 ^ 63 <= m < 2 ^ 63 ->
     encode_zz64 n = encode_zz64 m -> n = m).
Proof.
  assert (H32 : forall n, - 2 ^ 31 <= n < 2 ^ 31 ->
            encode_zz32 n = if n <? 0 then - 2 * n - 1 else 2 * n).
  { intros n Hn. unfold encode_zz32, u32. apply (zigzag_closed 32 n); [lia|exact Hn]. }
  assert (H64 : forall n, - 2 ^ 63 <= n < 2 ^ 63 ->
            encode_zz64 n = if n <? 0 then - 2 * n - 1 else 2 * n).
  { intros n Hn. unfold encode_zz64, u64. apply (zigzag_closed 64 n); [lia|exact Hn]. }
  split; [exact H32|]. split; [exact H64|]. split.
  - intros n m Hn Hm. rewrite (H32 n Hn), (H32 m Hm).
    destruct (n <? 0) eqn:En; destruct (m <? 0) eqn:Em;
      rewrite ?Z.ltb_lt, ?Z.ltb_ge in *; lia.
  - intros n m Hn Hm. rewrite (H64 n Hn), (H64 m Hm).
    destruct (n <? 0) eqn:En; destruct (m <? 0) eqn:Em;
      rewrite ?Z.ltb_lt, ?Z.ltb_ge in *; lia.
Qed.

Lemma encode_zz_closed_form_witness :
  encode_zz32 (-3) = 5 /\ encode_zz64 150 = 300.
Proof.
  split.
  - apply (proj1 encode_zz_closed_form (-3)). lia.
  - apply (proj1 (proj2 encode_zz_closed_form) 150). lia.
Defined.

(** ** Emitters with exact output *)

Lemma exact_bind (e : upb_encstate) (c1 : outcome upb_encstate)
  (k : upb_encstate -> outcome upb_encstate) (ch1 ch2 : list byte) :
  exact e c1 ch1 ->
  (forall e1, c1 = Ok e1 -> wf e1 -> exact e1 (k e1) ch2) ->
  exact e (bind c1 k) (ch2 ++ ch1).
Proof.
  intros H1 H2. destruct c1 as [e1|[]| |]; cbn [exact bind] in *; try contradiction.
  - destruct H1 as [E1 D1]. specialize (H2 e1 eq_refl (ext_wf _ _ _ E1)).
    destruct (k e1) as [e2|[]| |]; cbn [exact] in *; try contradiction.
    + destruct H2 as [E2 D2]. split; [|congruence].
      exact (extends_trans _ _ _ _ _ E1 E2).
    + destruct H2 as [log H2]. exists log. now rewrite <- (ext_alloc _ _ _ E1).
  - exact H1.
Qed.

Lemma exact_Ok (e : upb_encstate) : wf e -> exact e (Ok e) [].
Proof. intros W. split; [now apply extends_refl|reflexivity]. Qed.

Lemma exact_bytes (e : upb_encstate) (data : list byte) :
  wf e -> exact e (encode_bytes e (map Byte data)) data.
Proof.
  intros W. pose proof (emits_bytes e data W) as X.
  destruct (encode_bytes_defined e (map Byte data)) as [D1 D2].
  pose proof (encode_bytes_no_maxdepth e (map Byte data)) as D3.
  unfold emits, emits_gen, writes in X.
  destruct (encode_bytes e (map Byte data)) as [e'|[]| |]; cbn [exact];
    try congruence.
  destruct X as (c & E & D & <-). split; assumption.
Qed.

Lemma encode_varint_defined (e : upb_encstate) (val : Z) :
  encode_varint e val <> Undefined /\ encode_varint e val <> OutOfFuel.
Proof.
  unfold encode_varint. destruct (_ && _); [split; discriminate|].
  unfold encode_longvarint. destruct (encode_varint64 _ _ _ _).
  destruct (encode_reserve_defined e 16) as [D1 D2].
  destruct (encode_reserve e 16); cbn [bind]; split; try discriminate; assumption.
Qed.

Lemma exact_varint (e : upb_encstate) (val : Z) :
  wf e -> exact e (encode_varint e val) (varint_bytes val).
Proof.
  intros W. pose proof (emits_varint e val W) as X.
  destruct (encode_varint_defined e val) as [D1 D2].
  pose proof (encode_varint_no_maxdepth e val) as D3.
  unfold emits, emits_gen, writes in X.
  destruct (encode_varint e val) as [e'|[]| |]; cbn [exact]; try congruence.
  destruct X as (c & E & D & <-). split; assumption.
Qed.

Lemma exact_tag (e : upb_encstate) (n wt : Z) :
  wf e -> exact e (encode_tag e n wt) (varint_bytes (make_tag n wt)).
Proof. apply exact_varint. Qed.

Lemma exact_fixed32 (big_endian : bool) (e : upb_encstate) (val : Z) :
  wf e -> exact e (encode_fixed32 big_endian e val) (le_bytes 4 val).
Proof.
  intros W. unfold encode_fixed32, _upb_be_swap32.
  rewrite host_bytes_swap. now apply exact_bytes.
Qed.

Lemma exact_fixed64 (big_endian : bool) (e : upb_encstate) (val : Z) :
  wf e -> exact e (encode_fixed64 big_endian e val) (le_bytes 8 val).
Proof.
  intros W. unfold encode_fixed64, _upb_be_swap64.
  rewrite host_bytes_swap. now apply exact_bytes.
Qed.

Lemma exact_read {A : Type} (e : upb_encstate) (o : option A) (a : A)
  (k : A -> outcome upb_encstate) (ch : list byte) :
  o = Some a -> exact e (k a) ch -> exact e (bind (of_option o) k) ch.
Proof. intros ->. exact (fun H => H). Qed.


Lemma read_int_range (big_endian : bool) (n : nat) (c : cell) (v : Z) :
  read_int big_endian n c = Some v -> 0 <= v < 256 ^ Z.of_nat n.
Proof.
  destruct c; cbn [read_int]; try discriminate.
  - intros H; injection H as <-.
    pose proof (Z.pow_pos_nonneg 256 (Z.of_nat n)). lia.
  - apply (read_int_data_range big_endian n).
Qed.

(** X5: a scalar field of a fixed-width type (double, float, fixed32,
    sfixed32, fixed64, sfixed64) is written as its tag followed by the bytes
    of the value least significant first, whatever the byte order of the
    host; read back least significant first they give the value. *)
Theorem scalar_fixed_little_endian (big_endian : bool)
  (layouts : list upb_msglayout)
  (cb : upb_encstate -> upb_msg -> upb_msglayout -> outcome (upb_encstate * Z))
  (e : upb_encstate) (c : cell) (subs_ : list upb_msglayout_sub)
  (f : upb_msglayout_field) (n : nat) (wt val : Z) :
  wf e -> fixed_width (descriptortype f) = Some (n, wt) ->
  read_int big_endian n c = Some val ->
  exact e (encode_scalar_impl big_endian layouts cb e c subs_ f)
    (varint_bytes (make_tag (number f) wt) ++ le_bytes n val) /\
  le_value (le_bytes n val) = val.
Proof.
  intros W Hf Hr. split.
  - unfold encode_scalar_impl, encode_double, encode_float.
    destruct (descriptortype f); try discriminate Hf;
      injection Hf as <- <-; rewrite Hr;
      cbv beta iota delta [of_option bind];
      (apply exact_bind;
       [first [exact (exact_fixed32 big_endian e val W)
              |exact (exact_fixed64 big_endian e val W)]|]);
      intros e1 _ W1; exact (exact_tag e1 _ _ W1).
  - rewrite le_value_bytes. apply Z.mod_small.
    exact (read_int_range big_endian n c val Hr).
Qed.

Lemma scalar_fixed_little_endian_witness :
  exact roomy_state
    (encode_scalar_impl true [] (fun _ _ _ => OutOfFuel) roomy_state
       (CData [x00; x00; x00; x01]) []
       (scalar_field 1 8 0 UPB_DESCRIPTOR_TYPE_FIXED32 _UPB_REP_4BYTE))
    (varint_bytes (make_tag 1 UPB_WIRE_TYPE_32BIT) ++ le_bytes 4 1).
Proof.
  assert (W : wf roomy_state) by (unfold wf; vm_compute; split; discriminate).
  assert (R : read_int true 4 (CData [x00; x00; x00; x01]) = Some 1)
    by (vm_compute; reflexivity).
  exact (proj1 (scalar_fixed_little_endian true [] (fun _ _ _ => OutOfFuel)
                  roomy_state (CData [x00; x00; x00; x01]) []
                  (scalar_field 1 8 0 UPB_DESCRIPTOR_TYPE_FIXED32 _UPB_REP_4BYTE)
                  4 UPB_WIRE_TYPE_32BIT 1 W eq_refl R)).
Defined.

(** X6: a scalar string or bytes field is written as one length-delimited
    record: the tag, the length of the value as a varint, and the bytes of
    the value unchanged; the empty value gives the tag and a zero length. *)
Theorem scalar_string_record (big_endian : bool) (layouts : list upb_msglayout)
  (cb : upb_encstate -> upb_msg -> upb_msglayout -> outcome (upb_encstate * Z))
  (e : upb_encstate) (c : cell) (subs_ : list upb_msglayout_sub)
  (f : upb_msglayout_field) (s : list byte) :
  wf e ->
  descriptortype f = UPB_DESCRIPTOR_TYPE_STRING \/
  descriptortype f = UPB_DESCRIPTOR_TYPE_BYTES ->
  read_strview c = Some s ->
  exact e (encode_scalar_impl big_endian layouts cb e c subs_ f)
    (varint_bytes (make_tag (number f) UPB_WIRE_TYPE_DELIMITED)
     ++ varint_bytes (Z.of_nat (length s)) ++ s).
Proof.
  intros W Ht Hr.
  assert (H : encode_scalar_impl big_endian layouts cb e c subs_ f
              = (e1 <- encode_bytes e (map Byte s) ;;
                 e2 <- encode_varint e1 (Z.of_nat (length s)) ;;
                 encode_tag e2 (number f) UPB_WIRE_TYPE_DELIMITED)).
  { unfold encode_scalar_impl. destruct Ht as [Ht|Ht]; rewrite Ht, Hr; reflexivity. }
  rewrite H.
  replace (varint_bytes (make_tag (number f) UPB_WIRE_TYPE_DELIMITED)
           ++ varint_bytes (Z.of_nat (length s)) ++ s)
    with ((varint_bytes (make_tag (number f) UPB_WIRE_TYPE_DELIMITED)
           ++ varint_bytes (Z.of_nat (length s))) ++ s)
    by (now rewrite <- app_assoc).
  apply exact_bind; [exact (exact_bytes e s W)|]. intros e1 _ W1.
  apply exact_bind; [exact (exact_varint e1 _ W1)|]. intros e2 _ W2.
  exact (exact_tag e2 _ _ W2).
Qed.

Lemma scalar_string_record_witness :
  exact roomy_state
    (encode_scalar_impl false [] (fun _ _ _ => OutOfFuel) roomy_state
       (CStr [x68; x69]) []
       (scalar_field 2 16 0 UPB_DESCRIPTOR_TYPE_STRING _UPB_REP_STRVIEW))
    (varint_bytes (make_tag 2 UPB_WIRE_TYPE_DELIMITED)
     ++ varint_bytes (Z.of_nat (length [x68; x69])) ++ [x68; x69]).
Proof.
  assert (W : wf roomy_state) by (unfold wf; vm_compute; split; discriminate).
  exact (scalar_string_record false [] (fun _ _ _ => OutOfFuel) roomy_state
           (CStr [x68; x69]) []
           (scalar_field 2 16 0 UPB_DESCRIPTOR_TYPE_STRING _UPB_REP_STRVIEW)
           [x68; x69] W (or_introl eq_refl) eq_refl).
Defined.

(* ================================================================== *)
(** * Field emitters, further *)

(** X7: a scalar sub-message field is written as the tag, then as a varint
    the number of bytes the message emitter wrote for the sub-message, then
    these bytes; a group as its start tag, the bytes of the sub-message and
    its end tag.  The length is known when it is written because the
    sub-message has been written before it, behind it. *)
Theorem submessage_length_prefix (big_endian : bool) (layouts : list upb_msglayout)
  (fuel : nat) (e e' : upb_encstate) (m : upb_msg)
  (subs_ : list upb_msglayout_sub) (f : upb_msglayout_field)
  (subm : upb_msglayout) :
  wf e -> submsg layouts subs_ (submsg_index f) = Ok subm ->
  encode_scalar_impl big_endian layouts (encode_message_impl big_endian layouts fuel)
    e (CMsg m) subs_ f = Ok e' ->
  (descriptortype f = UPB_DESCRIPTOR_TYPE_MESSAGE ->
   exists e2 body,
     encode_message_impl big_endian layouts fuel
       (set_depth e (depth (ctx e) - 1)) m subm
     = Ok (e2, Z.of_nat (length body)) /\
     written e2 = map Byte body ++ written e /\
     written e'
     = map Byte (varint_bytes (make_tag (number f) UPB_WIRE_TYPE_DELIMITED)
                 ++ varint_bytes (Z.of_nat (length body)) ++ body)
       ++ written e) /\
  (descriptortype f = UPB_DESCRIPTOR_TYPE_GROUP ->
   exists e1 e2 body size,
     encode_tag (set_depth e (depth (ctx e) - 1)) (number f)
       UPB_WIRE_TYPE_END_GROUP = Ok e1 /\
     encode_message_impl big_endian layouts fuel e1 m subm = Ok (e2, size) /\
     written e2 = map Byte body ++ written e1 /\
     written e'
     = map Byte (varint_bytes (make_tag (number f) UPB_WIRE_TYPE_START_GROUP)
                 ++ body
                 ++ varint_bytes (make_tag (number f) UPB_WIRE_TYPE_END_GROUP))
       ++ written e).
Proof.
  intros W Hs H.
  pose proof (emits_message big_endian layouts fuel) as Hcb.
  assert (W0 : wf (set_depth e (depth (ctx e) - 1))) by now apply wf_set_depth.
  destruct (submessage_entry big_endian layouts
              (encode_message_impl big_endian layouts fuel) e m subs_ f subm Hs)
    as [HM HG].
  split; intros Ht.
  - rewrite (HM Ht) in H. destruct (depth (ctx e) =? 1); [discriminate|].
    specialize (Hcb (set_depth e (depth (ctx e) - 1)) m subm W0).
    destruct (encode_message_impl big_endian layouts fuel
                (set_depth e (depth (ctx e) - 1)) m subm)
      as [[e2 size]| | |] eqn:R; try discriminate.
    cbn [emits_gen fst snd] in Hcb. destruct Hcb as (body & E2 & _ & Hsize).
    cbn [bind] in H.
    destruct (encode_varint e2 size) as [e3| | |] eqn:V; try discriminate.
    cbn [bind] in H.
    destruct (encode_varint_spec _ _ _ (ext_wf _ _ _ E2) V) as [E3 _].
    destruct (encode_tag_spec _ _ _ _
                (wf_set_depth _ (depth (ctx e3) + 1) (ext_wf _ _ _ E3)) H)
      as [E4 _].
    exists e2, body. subst size. split; [reflexivity|].
    split; [exact (ext_written _ _ _ E2)|].
    rewrite (ext_written _ _ _ E4).
    change (written (set_depth e3 (depth (ctx e3) + 1))) with (written e3).
    rewrite (ext_written _ _ _ E3), (ext_written _ _ _ E2).
    change (written (set_depth e (depth (ctx e) - 1))) with (written e).
    rewrite !map_app, <- !app_assoc. reflexivity.
  - rewrite (HG Ht) in H. destruct (depth (ctx e) =? 1); [discriminate|].
    destruct (encode_tag (set_depth e (depth (ctx e) - 1)) (number f)
                UPB_WIRE_TYPE_END_GROUP) as [e1| | |] eqn:T; try discriminate.
    cbn [bind] in H.
    destruct (encode_tag_spec _ _ _ _ W0 T) as [E1 _].
    specialize (Hcb e1 m subm (ext_wf _ _ _ E1)).
    destruct (encode_message_impl big_endian layouts fuel e1 m subm)
      as [[e2 size]| | |] eqn:R; try discriminate.
    cbn [emits_gen fst snd] in Hcb. destruct Hcb as (body & E2 & _ & Hsize).
    cbn [bind] in H.
    destruct (encode_tag_spec _ _ _ _
                (wf_set_depth _ (depth (ctx e2) + 1) (ext_wf _ _ _ E2)) H)
      as [E4 _].
    exists e1, e2, body, size. split; [reflexivity|]. split; [exact R|].
    split; [exact (ext_written _ _ _ E2)|].
    rewrite (ext_written _ _ _ E4).
    change (written (set_depth e2 (depth (ctx e2) + 1))) with (written e2).
    rewrite (ext_written _ _ _ E2), (ext_written _ _ _ E1).
    change (written (set_depth e (depth (ctx e) - 1))) with (written e).
    rewrite !map_app, <- !app_assoc. reflexivity.
Qed.

Lemma submessage_length_prefix_witness :
  exists e',
    encode_scalar_impl false [s6_inner_layout]
      (encode_message_impl false [s6_inner_layout] 1) roomy_state
      (CMsg s6_inner) [O] s6_field = Ok e' /\
    exists e2 body,
      encode_message_impl false [s6_inner_layout] 1
        (set_depth roomy_state (depth (ctx roomy_state) - 1)) s6_inner s6_inner_layout
      = Ok (e2, Z.of_nat (length body)) /\
      written e2 = map Byte body ++ written roomy_state /\
      written e'
      = map Byte (varint_bytes (make_tag (number s6_field) UPB_WIRE_TYPE_DELIMITED)
                  ++ varint_bytes (Z.of_nat (length body)) ++ body)
        ++ written roomy_state.
Proof.
  eexists. split; [vm_compute; reflexivity|].
  match goal with
  | |- exists e2 body, _ /\ _ /\ written ?e' = _ =>
      refine (proj1 (submessage_length_prefix false [s6_inner_layout] 1 roomy_state
                       e' s6_inner [O] s6_field s6_inner_layout _ _ _) eq_refl)
  end.
  - unfold wf. vm_compute. split; discriminate.
  - reflexivity.
  - vm_compute. reflexivity.
Defined.

(** X8: a repeated string or bytes field is written as one length-delimited
    record per element, the records in the order of the array although the
    elements are emitted from the last to the first; the packed flag has no
    effect on it, and an empty array writes nothing. *)
Theorem repeated_string_order (big_endian : bool) (layouts : list upb_msglayout)
  (cb : upb_encstate -> upb_msg -> upb_msglayout -> outcome (upb_encstate * Z))
  (e e' : upb_encstate) (msg : list (Z * cell)) (subs_ : list upb_msglayout_sub)
  (f : upb_msglayout_field) (arr : list cell) :
  wf e ->
  descriptortype f = UPB_DESCRIPTOR_TYPE_STRING \/
  descriptortype f = UPB_DESCRIPTOR_TYPE_BYTES ->
  read_array (UPB_PTR_AT msg (offset f)) = Some (Some arr) ->
  encode_array_impl big_endian layouts cb e msg subs_ f = Ok e' ->
  exists strs,
    read_all read_strview arr = Some strs /\
    written e'
    = map Byte
        (concat (map (fun s =>
                        varint_bytes (make_tag (number f) UPB_WIRE_TYPE_DELIMITED)
                        ++ varint_bytes (Z.of_nat (length s)) ++ s) strs))
      ++ written e.
Proof.
  intros W Ht Hr H. unfold encode_array_impl in H. rewrite Hr in H.
  cbn [of_option bind] in H.
  destruct (Z.of_nat (length arr) =? 0) eqn:Z0.
  { apply Z.eqb_eq in Z0. destruct arr; [|cbn [length] in Z0; lia].
    inv_Ok H. exists []. split; reflexivity. }
  cbv zeta in H.
  set (rec := fun s : list byte =>
                varint_bytes (make_tag (number f) UPB_WIRE_TYPE_DELIMITED)
                ++ varint_bytes (Z.of_nat (length s)) ++ s).
  assert (H' : encode_each
                 (fun e elem =>
                    view <- of_option (read_strview elem) ;;
                    e <- encode_bytes e (map Byte view) ;;
                    e <- encode_varint e (Z.of_nat (length view)) ;;
                    encode_tag e (number f) UPB_WIRE_TYPE_DELIMITED)
                 e (rev arr) = Ok e')
    by (destruct Ht as [Ht|Ht]; rewrite Ht in H; exact H).
  apply (each_exact (fun c => option_map rec (read_strview c))) in H'; [|..|exact W].
  - destruct H' as (cs & R & E). apply read_all_rev in R.
    rewrite read_all_option_map in R.
    destruct (read_all read_strview arr) as [strs|]; [|discriminate].
    cbn [option_map] in R. injection R as R. exists strs.
    split; [reflexivity|]. rewrite (ext_written _ _ _ E), R. reflexivity.
  - intros e1 x e2 W1 B.
    destruct (read_strview x) as [s|]; [|discriminate]. cbn [of_option bind] in B.
    destruct (encode_bytes e1 (map Byte s)) as [e3| | |] eqn:B1; try discriminate.
    cbn [bind] in B.
    destruct (encode_varint e3 (Z.of_nat (length s))) as [e4| | |] eqn:B2;
      try discriminate.
    cbn [bind] in B.
    destruct (encode_bytes_spec _ _ _ W1 B1) as [E1 _].
    destruct (encode_varint_spec _ _ _ (ext_wf _ _ _ E1) B2) as [E2 _].
    destruct (encode_tag_spec _ _ _ _ (ext_wf _ _ _ E2) B) as [E3 _].
    exists (rec s). split; [reflexivity|]. unfold rec.
    exact (extends_trans _ _ _ _ _ (extends_trans _ _ _ _ _ E1 E2) E3).
Qed.

Lemma repeated_string_order_witness :
  exists e',
    encode_array_impl false [] (fun _ _ _ => OutOfFuel) roomy_state
      [(8, CArr [CStr [x61]; CStr [x62]])] []
      (array_field 3 8 UPB_DESCRIPTOR_TYPE_STRING false) = Ok e' /\
    written e' = map Byte [x1a; x01; x61; x1a; x01; x62] ++ written roomy_state.
Proof.
  eexists. split; [vm_compute; reflexivity|].
  match goal with
  | |- written ?e' = _ =>
      destruct (repeated_string_order false [] (fun _ _ _ => OutOfFuel) roomy_state
                  e' [(8, CArr [CStr [x61]; CStr [x62]])] []
                  (array_field 3 8 UPB_DESCRIPTOR_TYPE_STRING false)
                  [CStr [x61]; CStr [x62]])
        as (strs & R & Hw)
  end.
  - unfold wf. vm_compute. split; discriminate.
  - left. reflexivity.
  - reflexivity.
  - vm_compute. reflexivity.
  - cbn [read_all read_strview] in R. injection R as <-. exact Hw.
Defined.

(** ** Packed arrays of varints *)

Lemma read_all_ext {A B : Type} (f g : A -> option B) (l : list A) :
  (forall x, f x = g x) -> read_all f l = read_all g l.
Proof.
  intros H. induction l as [|x tl IH]; cbn [read_all]; [reflexivity|].
  now rewrite H, IH.
Qed.

Lemma s32_range (v : Z) : - 2 ^ 31 <= s32 v < 2 ^ 31.
Proof.
  unfold s32. pose proof (Z.mod_pos_bound (v + 2 ^ 31) (2 ^ 32) ltac:(lia)). lia.
Qed.

Lemma s64_range (v : Z) : - 2 ^ 63 <= s64 v < 2 ^ 63.
Proof.
  unfold s64. pose proof (Z.mod_pos_bound (v + 2 ^ 63) (2 ^ 64) ltac:(lia)). lia.
Qed.

Lemma encode_zz32_range (n : Z) :
  - 2 ^ 31 <= n < 2 ^ 31 -> 0 <= encode_zz32 n < 2 ^ 32.
Proof.
  intros Hn. pose proof (zigzag_closed 32 n ltac:(lia) Hn) as Hz.
  change (32 - 1) with 31 in Hz. unfold encode_zz32, u32. rewrite Hz.
  destruct (n <? 0) eqn:E; rewrite ?Z.ltb_lt, ?Z.ltb_ge in E; lia.
Qed.

Lemma encode_zz64_range (n : Z) :
  - 2 ^ 63 <= n < 2 ^ 63 -> 0 <= encode_zz64 n < 2 ^ 64.
Proof.
  intros Hn. pose proof (zigzag_closed 64 n ltac:(lia) Hn) as Hz.
  change (64 - 1) with 63 in Hz. unfold encode_zz64, u64. rewrite Hz.
  destruct (n <? 0) eqn:E; rewrite ?Z.ltb_lt, ?Z.ltb_ge in E; lia.
Qed.

Lemma varint_read_range (big_endian : bool) (ty : upb_descriptortype)
  (read : cell -> option Z) (c : cell) (v : Z) :
  varint_read big_endian ty = Some read -> read c = Some v -> 0 <= v < 2 ^ 64.
Proof.
  assert (H8 : forall c v, read_int big_endian 8 c = Some v -> 0 <= v < 2 ^ 64).
  { intros c0 v0 H. apply read_int_range in H.
    change (256 ^ Z.of_nat 8) with (2 ^ 64) in H. exact H. }
  assert (H4 : forall c v, read_int big_endian 4 c = Some v -> 0 <= v < 2 ^ 32).
  { intros c0 v0 H. apply read_int_range in H.
    change (256 ^ Z.of_nat 4) with (2 ^ 32) in H. exact H. }
  assert (L : 2 ^ 32 < 2 ^ 64) by (apply Z.pow_lt_mono_r; lia).
  intros Hty Hr.
  destruct ty; try discriminate Hty; injection Hty as <-.
  - now apply (H8 c).
  - now apply (H8 c).
  - destruct (read_int big_endian 4 c) as [x|]; [|discriminate].
    injection Hr as <-. unfold u64. apply Z.mod_pos_bound. lia.
  - unfold read_bool in Hr.
    destruct (read_int big_endian 1 c) as [x|] eqn:R; [|discriminate].
    destruct (x <=? 1) eqn:E; [|discriminate]. injection Hr as <-.
    apply Z.leb_le in E. apply read_int_range in R. lia.
  - specialize (H4 c v Hr). lia.
  - destruct (read_int big_endian 4 c) as [x|]; [|discriminate].
    injection Hr as <-. unfold u64. apply Z.mod_pos_bound. lia.
  - destruct (read_int big_endian 4 c) as [x|]; [|discriminate].
    injection Hr as <-. pose proof (encode_zz32_range _ (s32_range x)). lia.
  - destruct (read_int big_endian 8 c) as [x|]; [|discriminate].
    injection Hr as <-. exact (encode_zz64_range _ (s64_range x)).
Qed.

Lemma varint_read_packed_elem (big_endian : bool) (ty : upb_descriptortype)
  (read : cell -> option Z) (c : cell) :
  varint_read big_endian ty = Some read ->
  packable ty = true /\
  packed_elem big_endian ty c = option_map varint_bytes (read c).
Proof.
  intros H. destruct ty; try discriminate H; injection H as <-;
    split; reflexivity.
Qed.

(** X9: a scalar field of a varint type (int32, int64, uint32, uint64,
    sint32, sint64, bool, enum) is written as its tag of wire type VARINT
    followed by the varint of its value, converted as the type asks (sign
    extension for int32 and enum, zig-zag for sint32 and sint64), or the
    emitter fails for lack of memory; the varint reads back as the value. *)
Theorem scalar_varint_record (big_endian : bool) (layouts : list upb_msglayout)
  (cb : upb_encstate -> upb_msg -> upb_msglayout -> outcome (upb_encstate * Z))
  (e : upb_encstate) (c : cell) (subs_ : list upb_msglayout_sub)
  (f : upb_msglayout_field) (read : cell -> option Z) (v : Z) :
  wf e -> varint_read big_endian (descriptortype f) = Some read ->
  read c = Some v ->
  exact e (encode_scalar_impl big_endian layouts cb e c subs_ f)
    (varint_bytes (make_tag (number f) UPB_WIRE_TYPE_VARINT) ++ varint_bytes v) /\
  varint_value (varint_bytes v) = v.
Proof.
  intros W Hty Hr. split.
  - assert (H : encode_scalar_impl big_endian layouts cb e c subs_ f
                = (e1 <- encode_varint e v ;;
                   encode_tag e1 (number f) UPB_WIRE_TYPE_VARINT)).
    { unfold encode_scalar_impl.
      destruct (descriptortype f); try discriminate Hty; injection Hty as <-;
        try (rewrite Hr; reflexivity);
        try (destruct (read_int big_endian _ c) as [x|]; [|discriminate];
             injection Hr as <-; reflexivity). }
    rewrite H.
    apply exact_bind; [exact (exact_varint e v W)|]. intros e1 _ W1.
    exact (exact_tag e1 _ _ W1).
  - pose proof (varint_read_range _ _ _ c v Hty Hr) as Hrange.
    rewrite varint_bytes_base128 by exact Hrange.
    apply varint_value_base128. lia.
Qed.

Lemma scalar_varint_record_witness :
  exact roomy_state
    (encode_scalar_impl false [] (fun _ _ _ => OutOfFuel) roomy_state
       (CData [xfd; xff; xff; xff]) []
       (scalar_field 1 8 0 UPB_DESCRIPTOR_TYPE_SINT32 _UPB_REP_4BYTE))
    (varint_bytes (make_tag 1 UPB_WIRE_TYPE_VARINT) ++ varint_bytes 5) /\
  varint_value (varint_bytes 5) = 5.
Proof.
  assert (W : wf roomy_state) by (unfold wf; vm_compute; split; discriminate).
  assert (R : option_map (fun v => encode_zz32 (s32 v))
                (read_int false 4 (CData [xfd; xff; xff; xff])) = Some 5)
    by (vm_compute; reflexivity).
  exact (scalar_varint_record false [] (fun _ _ _ => OutOfFuel) roomy_state
           (CData [xfd; xff; xff; xff]) []
           (scalar_field 1 8 0 UPB_DESCRIPTOR_TYPE_SINT32 _UPB_REP_4BYTE)
           (fun c => option_map (fun v => encode_zz32 (s32 v)) (read_int false 4 c))
           5 W eq_refl R).
Defined.

(** X10: a packed repeated field of a varint type (int32, int64, uint32,
    uint64, sint32, sint64, bool, enum) is written as one length-delimited
    record: one tag, the exact length of the payload, and the payload, which
    holds the varints of the elements with nothing between them; a receiver
    that splits the payload at the bytes without continuation bit gets back
    the values of the elements, in the order of the array. *)
Theorem packed_varints_round_trip (big_endian : bool)
  (layouts : list upb_msglayout)
  (cb : upb_encstate -> upb_msg -> upb_msglayout -> outcome (upb_encstate * Z))
  (e e' : upb_encstate) (msg : list (Z * cell)) (subs_ : list upb_msglayout_sub)
  (f : upb_msglayout_field) (arr : list cell) (read : cell -> option Z) :
  wf e -> packed f = true ->
  varint_read big_endian (descriptortype f) = Some read ->
  read_array (UPB_PTR_AT msg (offset f)) = Some (Some arr) -> arr <> [] ->
  encode_array_impl big_endian layouts cb e msg subs_ f = Ok e' ->
  exists vals payload,
    read_all read arr = Some vals /\
    written e'
    = map Byte (varint_bytes (make_tag (number f) UPB_WIRE_TYPE_DELIMITED)
                ++ varint_bytes (Z.of_nat (length payload)) ++ payload)
      ++ written e /\
    parse_varints [] payload = Some vals.
Proof.
  intros W Hp Hty Hr Hn H.
  destruct (packed_array_output big_endian layouts cb e e' msg subs_ f arr W Hp)
    as (cs & R & Hw);
    [exact (proj1 (varint_read_packed_elem _ _ _ CZero Hty))
    |exact Hr|exact Hn|exact H|].
  rewrite (read_all_ext _ (fun c => option_map varint_bytes (read c))) in R
    by (intros c; exact (proj2 (varint_read_packed_elem _ _ _ c Hty))).
  destruct (packed_varints_reparse read arr
              (fun c v => varint_read_range _ _ _ c v Hty) cs R)
    as (vals & Rv & P).
  exists vals, (concat cs). split; [exact Rv|]. split; [exact Hw|exact P].
Qed.

Lemma packed_varints_round_trip_witness :
  exists e',
    encode_array_impl false [] (fun _ _ _ => OutOfFuel) roomy_state
      [(8, CArr [CData [x01; x00; x00; x00]; CData [x96; x00; x00; x00]])] []
      (array_field 1 8 UPB_DESCRIPTOR_TYPE_INT32 true) = Ok e' /\
    exists vals payload,
      read_all (fun c => option_map (fun v => u64 (s32 v)) (read_int false 4 c))
        [CData [x01; x00; x00; x00]; CData [x96; x00; x00; x00]] = Some vals /\
      written e'
      = map Byte (varint_bytes (make_tag 1 UPB_WIRE_TYPE_DELIMITED)
                  ++ varint_bytes (Z.of_nat (length payload)) ++ payload)
        ++ written roomy_state /\
      parse_varints [] payload = Some vals.
Proof.
  eexists. split; [vm_compute; reflexivity|].
  match goal with
  | |- exists vals payload, _ /\ written ?e' = _ /\ _ =>
      refine (packed_varints_round_trip false [] (fun _ _ _ => OutOfFuel)
                roomy_state e'
                [(8, CArr [CData [x01; x00; x00; x00]; CData [x96; x00; x00; x00]])]
                [] (array_field 1 8 UPB_DESCRIPTOR_TYPE_INT32 true)
                [CData [x01; x00; x00; x00]; CData [x96; x00; x00; x00]]
                _ _ eq_refl eq_refl eq_refl _ _)
  end.
  - unfold wf. vm_compute. split; discriminate.
  - discriminate.
  - vm_compute. reflexivity.
Defined.

(* ================================================================== *)
(** * Maps *)

(** A loop whose body writes a chunk related to the element by [G] writes
    such chunks for all elements, the last element's first. *)
Lemma each_rel {A : Type} (G : A -> list byte -> Prop)
  (body : upb_encstate -> A -> outcome upb_encstate) (l : list A) :
  (forall e x e', wf e -> body e x = Ok e' ->
                  exists c, G x c /\ extends e e' c) ->
  forall e e', wf e -> encode_each body e l = Ok e' ->
    exists cs, Forall2 G l cs /\ extends e e' (concat (rev cs)).
Proof.
  intros Hb. induction l as [|x tl IH]; intros e e' W H; cbn [encode_each] in H.
  - inv_Ok H. exists []. split; [constructor|]. now apply extends_refl.
  - destruct (body e x) as [e1| | |] eqn:B; try discriminate. cbn [bind] in H.
    destruct (Hb e x e1 W B) as (c & G1 & E1).
    destruct (IH e1 e' (ext_wf _ _ _ E1) H) as (cs & R & E2).
    exists (c :: cs). split; [now constructor|].
    cbn [rev]. rewrite concat_app. cbn [concat]. rewrite app_nil_r.
    exact (extends_trans _ _ _ _ _ E1 E2).
Qed.

Section MapEntries.

Variable big_endian : bool.
Variable layouts : list upb_msglayout.
Variable cb : upb_encstate -> upb_msg -> upb_msglayout -> outcome (upb_encstate * Z).
Hypothesis Hcb : message_contract cb.

Lemma mapentry_chunk (e e' : upb_encstate) (n : Z) (layout : upb_msglayout)
  (ent : cell * cell) :
  wf e ->
  encode_mapentry_impl big_endian layouts cb e n layout ent = Ok e' ->
  exists chunk,
    map_entry_record big_endian layouts cb n layout ent chunk /\
    extends e e' chunk.
Proof.
  intros W H. unfold encode_mapentry_impl, encode_scalar in H.
  destruct (nth_error (fields layout) 0) as [kf|] eqn:K; [|discriminate].
  destruct (nth_error (fields layout) 1) as [vf|] eqn:V; [|discriminate].
  cbn [of_option bind] in H. cbv zeta in H.
  destruct (encode_scalar_impl big_endian layouts cb e (snd ent) (subs layout) vf)
    as [e1| | |] eqn:S1; try discriminate.
  cbn [bind] in H.
  pose proof (emits_scalar big_endian layouts cb Hcb e (snd ent) (subs layout) vf W)
    as X1.
  unfold emits in X1. rewrite S1 in X1. destruct X1 as (vb & E1 & _).
  destruct (encode_scalar_impl big_endian layouts cb e1 (fst ent) (subs layout) kf)
    as [e2| | |] eqn:S2; try discriminate.
  cbn [bind] in H.
  pose proof (emits_scalar big_endian layouts cb Hcb e1 (fst ent) (subs layout) kf
                (ext_wf _ _ _ E1)) as X2.
  unfold emits in X2. rewrite S2 in X2. destruct X2 as (kb & E2 & _).
  pose proof (extends_trans _ _ _ _ _ E1 E2) as E12.
  rewrite (extends_size e e2 (kb ++ vb) W E12) in H.
  destruct (encode_varint e2 (Z.of_nat (length (kb ++ vb)))) as [e3| | |] eqn:S3;
    try discriminate.
  cbn [bind] in H.
  destruct (encode_varint_spec _ _ _ (ext_wf _ _ _ E2) S3) as [E3 _].
  destruct (encode_tag_spec _ _ _ _ (ext_wf _ _ _ E3) H) as [E4 _].
  exists (varint_bytes (make_tag n UPB_WIRE_TYPE_DELIMITED)
          ++ varint_bytes (Z.of_nat (length (kb ++ vb))) ++ kb ++ vb).
  split.
  - exists kf, vf, kb, vb. split; [exact K|]. split; [exact V|].
    split; [|split; [|reflexivity]].
    + exists e1, e2. split; [exact (ext_wf _ _ _ E1)|].
      split; [exact S2|exact (ext_written _ _ _ E2)].
    + exists e, e1. split; [exact W|].
      split; [exact S1|exact (ext_written _ _ _ E1)].
  - exact (extends_trans _ _ _ _ _ (extends_trans _ _ _ _ _ E12 E3) E4).
Qed.

End MapEntries.

(** X11: a map entry is written as one length-delimited record of the map's
    field number whose payload is the key, written as field 1 of the entry
    layout, followed by the value, written as field 2; the length is the
    exact size of the payload.  The value is emitted first and ends up behind
    the key. *)
Theorem mapentry_record (big_endian : bool) (layouts : list upb_msglayout)
  (fuel : nat) (e e' : upb_encstate) (n : Z) (layout : upb_msglayout)
  (ent : cell * cell) :
  wf e ->
  encode_mapentry_impl big_endian layouts
    (encode_message_impl big_endian layouts fuel) e n layout ent = Ok e' ->
  exists chunk,
    map_entry_record big_endian layouts
      (encode_message_impl big_endian layouts fuel) n layout ent chunk /\
    written e' = map Byte chunk ++ written e.
Proof.
  intros W H.
  destruct (mapentry_chunk big_endian layouts _
              (emits_message big_endian layouts fuel) e e' n layout ent W H)
    as (chunk & R & E).
  exists chunk. split; [exact R|exact (ext_written _ _ _ E)].
Qed.

Lemma mapentry_record_witness :
  exists e',
    encode_mapentry_impl false [s7_entry_layout]
      (encode_message_impl false [s7_entry_layout] 0) roomy_state 7
      s7_entry_layout s7_entry_1 = Ok e' /\
    written e' = map Byte [x3a; x04; x08; x01; x10; x0a] ++ written roomy_state /\
    exists chunk,
      map_entry_record false [s7_entry_layout]
        (encode_message_impl false [s7_entry_layout] 0) 7 s7_entry_layout
        s7_entry_1 chunk /\
      written e' = map Byte chunk ++ written roomy_state.
Proof.
  eexists. split; [vm_compute; reflexivity|].
  split; [vm_compute; reflexivity|].
  match goal with
  | |- exists chunk, _ /\ written ?e' = _ =>
      refine (mapentry_record false [s7_entry_layout] 0 roomy_state e' 7
                s7_entry_layout s7_entry_1 _ _)
  end.
  - unfold wf. vm_compute. split; discriminate.
  - vm_compute. reflexivity.
Defined.

(** X12: without the DETERMINISTIC option a map field is written as one
    record per entry, and the records lie in the output in the opposite order
    to the one in which the table iterator yields the entries, since every
    entry is written in front of the ones before it; a map without entries
    writes nothing. *)
Theorem map_default_order (big_endian : bool) (layouts : list upb_msglayout)
  (fuel : nat) (e e' : upb_encstate) (msg : list (Z * cell))
  (subs_ : list upb_msglayout_sub) (f : upb_msglayout_field)
  (layout : upb_msglayout) (entries : list (cell * cell)) :
  wf e -> Z.land (options (ctx e)) UPB_ENCODE_DETERMINISTIC = 0 ->
  read_map (UPB_PTR_AT msg (offset f)) = Some (Some entries) ->
  submsg layouts subs_ (submsg_index f) = Ok layout ->
  encode_map_impl big_endian layouts (encode_message_impl big_endian layouts fuel)
    e msg subs_ f = Ok e' ->
  field_count layout = 2 /\
  exists chunks,
    Forall2 (map_entry_record big_endian layouts
               (encode_message_impl big_endian layouts fuel) (number f) layout)
      entries chunks /\
    written e' = map Byte (concat (rev chunks)) ++ written e.
Proof.
  intros W Hd Hr Hs H. unfold encode_map_impl, encode_mapentry in H.
  rewrite Hr, Hs in H. cbn [of_option bind] in H.
  destruct (field_count layout =? 2) eqn:Hc; [|discriminate].
  cbn [negb] in H. rewrite Hd in H. cbn [Z.eqb negb] in H.
  split; [now apply Z.eqb_eq|].
  apply (each_rel (map_entry_record big_endian layouts
                     (encode_message_impl big_endian layouts fuel) (number f) layout))
    in H; [|..|exact W].
  - destruct H as (cs & R & E). exists cs.
    split; [exact R|exact (ext_written _ _ _ E)].
  - intros e1 x e2 W1 B.
    exact (mapentry_chunk big_endian layouts _
             (emits_message big_endian layouts fuel) e1 e2 (number f) layout x W1 B).
Qed.

Lemma map_default_order_witness :
  exists e',
    encode_map_impl false [s7_entry_layout]
      (encode_message_impl false [s7_entry_layout] 0) roomy_state
      (msg_mem s7_msg_a) (subs s7_layout)
      {| number := 7; offset := 8; presence := 0; submsg_index := O;
         descriptortype := UPB_DESCRIPTOR_TYPE_MESSAGE;
         mode := _UPB_MODE_MAP; packed := false; rep := _UPB_REP_8BYTE |} = Ok e' /\
    written e'
    = map Byte [x3a; x04; x08; x02; x10; x14; x3a; x04; x08; x01; x10; x0a]
      ++ written roomy_state /\
    exists chunks,
      Forall2 (map_entry_record false [s7_entry_layout]
                 (encode_message_impl false [s7_entry_layout] 0) 7 s7_entry_layout)
        [s7_entry_1; s7_entry_2] chunks /\
      written e' = map Byte (concat (rev chunks)) ++ written roomy_state.
Proof.
  eexists. split; [vm_compute; reflexivity|].
  split; [vm_compute; reflexivity|].
  match goal with
  | |- exists chunks, _ /\ written ?e' = _ =>
      refine (proj2 (map_default_order false [s7_entry_layout] 0 roomy_state e'
                       (msg_mem s7_msg_a) (subs s7_layout)
                       {| number := 7; offset := 8; presence := 0; submsg_index := O;
                          descriptortype := UPB_DESCRIPTOR_TYPE_MESSAGE;
                          mode := _UPB_MODE_MAP; packed := false;
                          rep := _UPB_REP_8BYTE |}
                       s7_entry_layout [s7_entry_1; s7_entry_2] _ _ _ _ _))
  end.
  - unfold wf. vm_compute. split; discriminate.
  - reflexivity.
  - reflexivity.
  - reflexivity.
  - vm_compute. reflexivity.
Defined.

(* ================================================================== *)
(** * The message emitter, further *)

(** X13: an item of a MessageSet is written as the group of field 1 (0b ...
    0c) holding the extension's field number as the varint field 2 (tag 10)
    and then the message as the length-delimited field 3 (tag 1a), with the
    exact number of bytes the message emitter wrote for it as its length.
    The message emitter is called with the depth counter as it is. *)
Theorem msgset_item_bytes (big_endian : bool) (layouts : list upb_msglayout)
  (fuel : nat) (e e' : upb_encstate) (ext : upb_msglayout_ext * cell) :
  wf e ->
  encode_msgset_item layouts (encode_message_impl big_endian layouts fuel) e ext
  = Ok e' ->
  exists m subm e1 e2 body,
    snd ext = CMsg m /\
    nth_error layouts (ext_sub (fst ext)) = Some subm /\
    depth (ctx e1) = depth (ctx e) /\
    encode_message_impl big_endian layouts fuel e1 m subm
    = Ok (e2, Z.of_nat (length body)) /\
    written e2 = map Byte body ++ written e1 /\
    written e'
    = map Byte ([x0b; x10] ++ varint_bytes (number (ext_field (fst ext)))
                ++ [x1a] ++ varint_bytes (Z.of_nat (length body)) ++ body
                ++ [x0c])
      ++ written e.
Proof.
  intros W H. unfold encode_msgset_item in H.
  destruct (encode_tag e 1 UPB_WIRE_TYPE_END_GROUP) as [e1| | |] eqn:T1;
    try discriminate.
  cbn [bind] in H. destruct (encode_tag_spec _ _ _ _ W T1) as [E1 D1].
  destruct (snd ext) as [| | |m| |] eqn:Hx; cbn [read_msg of_option bind] in H;
    try discriminate.
  destruct (nth_error layouts (ext_sub (fst ext))) as [subm|] eqn:Hl;
    [|discriminate].
  cbn [of_option bind] in H.
  pose proof (emits_message big_endian layouts fuel e1 m subm (ext_wf _ _ _ E1))
    as X.
  destruct (encode_message_impl big_endian layouts fuel e1 m subm)
    as [[e2 size]| | |] eqn:R; try discriminate.
  cbn [emits_gen fst snd] in X. destruct X as (body & E2 & _ & Hsize).
  cbn [bind] in H.
  destruct (encode_varint e2 size) as [e3| | |] eqn:V1; try discriminate.
  cbn [bind] in H.
  destruct (encode_varint_spec _ _ _ (ext_wf _ _ _ E2) V1) as [E3 _].
  destruct (encode_tag e3 3 UPB_WIRE_TYPE_DELIMITED) as [e4| | |] eqn:T2;
    try discriminate.
  cbn [bind] in H. destruct (encode_tag_spec _ _ _ _ (ext_wf _ _ _ E3) T2) as [E4 _].
  destruct (encode_varint e4 (number (ext_field (fst ext)))) as [e5| | |] eqn:V2;
    try discriminate.
  cbn [bind] in H.
  destruct (encode_varint_spec _ _ _ (ext_wf _ _ _ E4) V2) as [E5 _].
  destruct (encode_tag e5 2 UPB_WIRE_TYPE_VARINT) as [e6| | |] eqn:T3;
    try discriminate.
  cbn [bind] in H. destruct (encode_tag_spec _ _ _ _ (ext_wf _ _ _ E5) T3) as [E6 _].
  destruct (encode_tag_spec _ _ _ _ (ext_wf _ _ _ E6) H) as [E7 _].
  exists m, subm, e1, e2, body. subst size.
  split; [reflexivity|]. split; [reflexivity|]. split; [exact D1|].
  split; [exact R|]. split; [exact (ext_written _ _ _ E2)|].
  rewrite (ext_written _ _ _ E7), (ext_written _ _ _ E6), (ext_written _ _ _ E5),
    (ext_written _ _ _ E4), (ext_written _ _ _ E3), (ext_written _ _ _ E2),
    (ext_written _ _ _ E1).
  change (varint_bytes (make_tag 1 UPB_WIRE_TYPE_START_GROUP)) with [x0b].
  change (varint_bytes (make_tag 2 UPB_WIRE_TYPE_VARINT)) with [x10].
  change (varint_bytes (make_tag 3 UPB_WIRE_TYPE_DELIMITED)) with [x1a].
  change (varint_bytes (make_tag 1 UPB_WIRE_TYPE_END_GROUP)) with [x0c].
  rewrite !map_app, <- !app_assoc. reflexivity.
Qed.

Lemma msgset_item_bytes_witness :
  exists e',
    encode_msgset_item [s6_inner_layout]
      (encode_message_impl false [s6_inner_layout] 1) roomy_state msgset_ext_100
    = Ok e' /\
    written e'
    = map Byte [x0b; x10; x64; x1a; x02; x10; x07; x0c] ++ written roomy_state /\
    exists m subm e1 e2 body,
      snd msgset_ext_100 = CMsg m /\
      nth_error [s6_inner_layout] (ext_sub (fst msgset_ext_100)) = Some subm /\
      depth (ctx e1) = depth (ctx roomy_state) /\
      encode_message_impl false [s6_inner_layout] 1 e1 m subm
      = Ok (e2, Z.of_nat (length body)) /\
      written e2 = map Byte body ++ written e1 /\
      written e'
      = map Byte ([x0b; x10] ++ varint_bytes (number (ext_field (fst msgset_ext_100)))
                  ++ [x1a] ++ varint_bytes (Z.of_nat (length body)) ++ body
                  ++ [x0c])
        ++ written roomy_state.
Proof.
  eexists. split; [vm_compute; reflexivity|].
  split; [vm_compute; reflexivity|].
  match goal with
  | |- exists m subm e1 e2 body, _ /\ _ /\ _ /\ _ /\ _ /\ written ?e' = _ =>
      refine (msgset_item_bytes false [s6_inner_layout] 1 roomy_state e'
                msgset_ext_100 _ _)
  end.
  - unfold wf. vm_compute. split; discriminate.
  - vm_compute. reflexivity.
Defined.

(** A loop whose body keeps the invariant [I] and writes a chunk related to
    the element by [G] writes such chunks for all elements, the last
    element's first, and keeps [I]. *)
Lemma each_rel_inv {A : Type} (I : upb_encstate -> Prop) (G : A -> list byte -> Prop)
  (body : upb_encstate -> A -> outcome upb_encstate) (l : list A) :
  (forall e x e', wf e -> I e -> body e x = Ok e' ->
                  exists c, G x c /\ extends e e' c /\ I e') ->
  forall e e', wf e -> I e -> encode_each body e l = Ok e' ->
    exists cs, Forall2 G l cs /\ extends e e' (concat (rev cs)) /\ I e'.
Proof.
  intros Hb. induction l as [|x tl IH]; intros e e' W Hi H; cbn [encode_each] in H.
  - inv_Ok H. exists []. split; [constructor|]. split; [now apply extends_refl|exact Hi].
  - destruct (body e x) as [e1| | |] eqn:B; try discriminate. cbn [bind] in H.
    destruct (Hb e x e1 W Hi B) as (c & G1 & E1 & I1).
    destruct (IH e1 e' (ext_wf _ _ _ E1) I1 H) as (cs & R & E2 & I2).
    exists (c :: cs). split; [now constructor|]. split; [|exact I2].
    cbn [rev]. rewrite concat_app. cbn [concat]. rewrite app_nil_r.
    exact (extends_trans _ _ _ _ _ E1 E2).
Qed.

(** X14: the bytes of a message are those of its declared fields, in the
    order of the layout, each being what the field emitter writes for it
    under the options and the depth counter of the call (or nothing when the
    presence test says the field is absent); then those of its extensions,
    each being what the extension's emitter writes for it under the same
    options and counter, in the reverse of their storage order, and none
    under a layout without extension mode; then its unknown fields, copied
    byte for byte (they are written first), left out with SKIPUNKNOWN set.
    The size the message emitter reports is the number of bytes it wrote. *)
Theorem message_segments (big_endian : bool) (layouts : list upb_msglayout)
  (fuel : nat) (e e' : upb_encstate) (msg : upb_msg) (m : upb_msglayout)
  (size : Z) :
  wf e ->
  encode_message_impl big_endian layouts (S fuel) e msg m = Ok (e', size) ->
  exists field_chunks ext_chunks,
    Forall2 (field_chunk big_endian layouts
               (encode_message_impl big_endian layouts fuel)
               (options (ctx e)) (depth (ctx e)) msg m)
      (fields m) field_chunks /\
    Forall2 (ext_chunk big_endian layouts
               (encode_message_impl big_endian layouts fuel)
               (options (ctx e)) (depth (ctx e)) m)
      (encoded_exts msg m) ext_chunks /\
    written e'
    = map Byte (concat field_chunks ++ concat (rev ext_chunks)
                ++ unknown_bytes (options (ctx e)) msg)
      ++ written e /\
    size = Z.of_nat (length (concat field_chunks ++ concat (rev ext_chunks)
                             ++ unknown_bytes (options (ctx e)) msg)).
Proof.
  intros W H.
  pose proof (emits_message big_endian layouts fuel) as Hcb.
  set (cb := encode_message_impl big_endian layouts fuel) in *.
  set (I := fun s : upb_encstate =>
              options (ctx s) = options (ctx e) /\ depth (ctx s) = depth (ctx e)).
  cbn [encode_message_impl] in H. fold cb in H. unfold encode_message_body in H.
  pose proof (emits_message_unknown e msg W) as CU. unfold emits in CU.
  destruct (encode_message_unknown e msg) as [e1| | |] eqn:U; try discriminate.
  cbn [bind] in H. destruct CU as (cu & EU & DU & _).
  assert (E1 : extends e e1 (unknown_bytes (options (ctx e)) msg)).
  { unfold encode_message_unknown in U. unfold unknown_bytes.
    destruct (Z.land (options (ctx e)) UPB_ENCODE_SKIPUNKNOWN =? 0).
    - destruct (upb_msg_getunknown msg) as [u|].
      + now destruct (encode_bytes_spec _ _ _ W U).
      + inv_Ok U. now apply extends_refl.
    - inv_Ok U. now apply extends_refl. }
  pose proof (ext_wf _ _ _ E1) as W1.
  assert (I1 : I e1) by (split; [exact (ext_options _ _ _ E1)|exact DU]).
  destruct (encode_message_exts big_endian layouts cb e1 msg m) as [e2| | |] eqn:X;
    try discriminate.
  cbn [bind] in H.
  assert (HX : exists ext_chunks,
             Forall2 (ext_chunk big_endian layouts cb (options (ctx e))
                        (depth (ctx e)) m) (encoded_exts msg m) ext_chunks /\
             extends e1 e2 (concat (rev ext_chunks)) /\ I e2).
  { unfold encode_message_exts, encode_field in X. unfold encoded_exts.
    destruct (ext m) eqn:Hm.
    - inv_Ok X. exists []. split; [constructor|].
      split; [now apply extends_refl|exact I1].
    - apply (each_rel_inv I (ext_chunk big_endian layouts cb (options (ctx e))
                               (depth (ctx e)) m)) in X;
        [exact X| |exact W1|exact I1].
      intros s x s' Ws [Os Ds] B.
      pose proof (emits_field big_endian layouts cb Hcb s [(0, snd x)]
                    [ext_sub (fst x)] (ext_field (fst x)) Ws) as P.
      unfold emits in P. rewrite B in P. destruct P as (c & Ec & Dc & _).
      exists c. split; [|split; [exact Ec|]].
      + exists s, s'. rewrite Hm. split; [exact Ws|]. split; [exact Os|].
        split; [exact Ds|]. split; [exact B|exact (ext_written _ _ _ Ec)].
      + split; [rewrite (ext_options _ _ _ Ec); exact Os|congruence].
    - apply (each_rel_inv I (ext_chunk big_endian layouts cb (options (ctx e))
                               (depth (ctx e)) m)) in X;
        [exact X| |exact W1|exact I1].
      intros s x s' Ws [Os Ds] B.
      pose proof (emits_msgset_item layouts cb Hcb s x Ws) as P.
      unfold emits in P. rewrite B in P. destruct P as (c & Ec & Dc & _).
      exists c. split; [|split; [exact Ec|]].
      + exists s, s'. rewrite Hm. split; [exact Ws|]. split; [exact Os|].
        split; [exact Ds|]. split; [exact B|exact (ext_written _ _ _ Ec)].
      + split; [rewrite (ext_options _ _ _ Ec); exact Os|congruence]. }
  destruct HX as (ext_chunks & FX & E2 & I2).
  pose proof (ext_wf _ _ _ E2) as W2.
  destruct (encode_message_fields big_endian layouts cb e2 msg m) as [e3| | |] eqn:F;
    try discriminate.
  cbn [bind] in H.
  assert (HF : exists field_chunks,
             Forall2 (field_chunk big_endian layouts cb (options (ctx e))
                        (depth (ctx e)) msg m) (fields m) field_chunks /\
             extends e2 e3 (concat field_chunks)).
  { unfold encode_message_fields, encode_field in F.
    apply (each_rel_inv I (field_chunk big_endian layouts cb (options (ctx e))
                             (depth (ctx e)) msg m)) in F; [| |exact W2|exact I2].
    - destruct F as (cs & R & E & _). exists (rev cs). split; [|exact E].
      apply Forall2_rev in R. now rewrite rev_involutive in R.
    - intros s f s' Ws [Os Ds] B.
      destruct (encode_shouldencode_option big_endian (msg_mem msg) (subs m) f)
        as [o Ho].
      rewrite Ho in B. destruct o as [[|]|]; try discriminate;
        cbn [of_option bind] in B.
      + pose proof (emits_field big_endian layouts cb Hcb s (msg_mem msg)
                      (subs m) f Ws) as P.
        unfold emits in P. rewrite B in P. destruct P as (c & Ec & Dc & _).
        exists c. split; [|split; [exact Ec|]].
        * right. split; [exact Ho|].
          exists s, s'. split; [exact Ws|]. split; [exact Os|].
          split; [exact Ds|]. split; [exact B|exact (ext_written _ _ _ Ec)].
        * split; [rewrite (ext_options _ _ _ Ec); exact Os|congruence].
      + inv_Ok B. exists []. split; [now left|].
        split; [now apply extends_refl|split; assumption]. }
  destruct HF as (field_chunks & FF & E3).
  inv_Ok H. injection H as <- <-.
  pose proof (extends_trans _ _ _ _ _ (extends_trans _ _ _ _ _ E1 E2) E3) as E.
  exists field_chunks, ext_chunks. split; [exact FF|]. split; [exact FX|].
  split; [exact (ext_written _ _ _ E)|exact (extends_size _ _ _ W E)].
Qed.

Lemma message_segments_witness :
  exists e',
    encode_message_impl false [] 1 roomy_state segments_msg segments_layout
    = Ok (e', 8) /\
    written e'
    = map Byte [x08; x96; x01; xa0; x06; x01; x18; x01] ++ written roomy_state /\
    exists field_chunks ext_chunks,
      Forall2 (field_chunk false [] (encode_message_impl false [] 0)
                 (options (ctx roomy_state)) (depth (ctx roomy_state))
                 segments_msg segments_layout)
        (fields segments_layout) field_chunks /\
      Forall2 (ext_chunk false [] (encode_message_impl false [] 0)
                 (options (ctx roomy_state)) (depth (ctx roomy_state))
                 segments_layout)
        (encoded_exts segments_msg segments_layout) ext_chunks /\
      written e'
      = map Byte (concat field_chunks ++ concat (rev ext_chunks)
                  ++ unknown_bytes (options (ctx roomy_state)) segments_msg)
        ++ written roomy_state /\
      8 = Z.of_nat (length (concat field_chunks ++ concat (rev ext_chunks)
                            ++ unknown_bytes (options (ctx roomy_state))
                                 segments_msg)).
Proof.
  eexists. split; [vm_compute; reflexivity|].
  split; [vm_compute; reflexivity|].
  match goal with
  | |- exists field_chunks ext_chunks, _ /\ _ /\ written ?e' = _ /\ _ =>
      refine (message_segments false [] 0 roomy_state e' segments_msg
                segments_layout 8 _ _)
  end.
  - unfold wf. vm_compute. split; discriminate.
  - vm_compute. reflexivity.
Defined.

(** ** The top-level entry, further *)

(** X15: the region [upb_encode_ex] returns holds written bytes only, none of
    the indeterminate bytes of a fresh block or of the scratch area of the
    varint emitter, and the size it reports is the length of the region,
    which is not empty. *)
Theorem encode_result_initialised (big_endian : bool)
  (layouts : list upb_msglayout) (msg : upb_msg) (l : upb_msglayout)
  (options_ : Z) (arena : upb_alloc) (content : list memval) (size : Z) :
  upb_encode_ex big_endian layouts msg l options_ arena
  = Ok (buffer_ptr content, size) ->
  exists bytes,
    content = map Byte bytes /\ size = Z.of_nat (length bytes) /\ bytes <> [] /\
    ~ In Undef content.
Proof.
  rewrite upb_encode_ex_eq. intros H.
  pose proof (emits_message big_endian layouts (msg_height msg)
                (entry_state arena options_) msg l (wf_entry_state _ _)) as X.
  change (encode_message_impl big_endian layouts (msg_height msg)
            (entry_state arena options_) msg l)
    with (entry_run big_endian layouts msg l options_ arena) in X.
  destruct (entry_run big_endian layouts msg l options_ arena)
    as [[e' size']| | |]; try discriminate.
  cbn [emits_gen fst snd] in X. destruct X as (ch & E & _ & _).
  cbv zeta in H.
  destruct (limit (ctx e') - ptr e' =? 0) eqn:Z0; [discriminate|].
  inv_Ok H. injection H as <- <-.
  pose proof (ext_written _ _ _ E) as Hw.
  change (written (entry_state arena options_)) with (@nil memval) in Hw.
  rewrite app_nil_r in Hw.
  pose proof (written_length e' (ext_wf _ _ _ E)) as Hl.
  apply Z.eqb_neq in Z0.
  exists ch. rewrite Hw in *. rewrite length_map in Hl.
  split; [reflexivity|]. split; [lia|]. split.
  - intros ->. cbn [length] in Hl. lia.
  - intros Hin. apply in_map_iff in Hin. destruct Hin as (b & Hb & _). discriminate.
Qed.

Lemma encode_result_initialised_witness :
  exists bytes,
    map Byte [x08; x96; x01; x18; x01] = map Byte bytes /\
    5 = Z.of_nat (length bytes) /\ bytes <> [] /\
    ~ In Undef (map Byte [x08; x96; x01; x18; x01]).
Proof.
  apply (encode_result_initialised false [] unknown_msg unknown_layout 0
           always_alloc).
  vm_compute. reflexivity.
Defined.

(* ================================================================== *)
(** * Invariants of the buffer over a whole encode *)

(** Every emitter reaches the buffer and the allocator through [encode_bytes]
    and [encode_varint] only, and changes nothing else of the state but the
    depth counter.  So a property of the state that these two keep, and that
    does not depend on the depth counter, is kept by the whole encoder. *)

Section InvariantPass.

Variable I : upb_encstate -> Prop.
Hypothesis I_bytes : forall e data e',
  wf e -> I e -> encode_bytes e (map Byte data) = Ok e' -> I e'.
Hypothesis I_varint : forall e val e',
  wf e -> I e -> encode_varint e val = Ok e' -> I e'.
Hypothesis I_depth : forall e d, I e -> I (set_depth e d).

Lemma keeps_bind {A B : Type} (stA : A -> upb_encstate) (stB : B -> upb_encstate)
  (c : outcome A) (k : A -> outcome B) :
  keeps_gen I stA c ->
  (forall a, c = Ok a -> wf (stA a) -> I (stA a) -> keeps_gen I stB (k a)) ->
  keeps_gen I stB (bind c k).
Proof.
  intros H Hk. destruct c as [a| | |]; cbn [bind]; try (intros b Hb; discriminate).
  destruct (H a eq_refl). now apply Hk.
Qed.

Lemma keeps_read {A B : Type} (st : B -> upb_encstate) (o : option A)
  (k : A -> outcome B) :
  (forall a, o = Some a -> keeps_gen I st (k a)) ->
  keeps_gen I st (bind (of_option o) k).
Proof.
  intros H. destruct o as [a|]; cbn [of_option bind]; [now apply H|].
  intros b Hb. discriminate.
Qed.

Lemma keeps_Ok {A : Type} (st : A -> upb_encstate) (a : A) :
  wf (st a) -> I (st a) -> keeps_gen I st (Ok a).
Proof. intros W H a' Ha. inv_Ok Ha. auto. Qed.

Lemma keeps_Undefined {A : Type} (st : A -> upb_encstate) :
  keeps_gen I st Undefined.
Proof. intros a H. discriminate. Qed.

Lemma keeps_err {A : Type} (st : A -> upb_encstate) (err : upb_error) :
  keeps_gen I st (encode_err err).
Proof. intros a H. discriminate. Qed.

Lemma keeps_varint (e : upb_encstate) (val : Z) :
  wf e -> I e -> keeps I (encode_varint e val).
Proof.
  intros W H e' He. destruct (encode_varint_spec e e' val W He) as [E _].
  split; [exact (ext_wf _ _ _ E)|exact (I_varint e val e' W H He)].
Qed.

Lemma keeps_bytes (e : upb_encstate) (data : list byte) :
  wf e -> I e -> keeps I (encode_bytes e (map Byte data)).
Proof.
  intros W H e' He. destruct (encode_bytes_spec e e' data W He) as [E _].
  split; [exact (ext_wf _ _ _ E)|exact (I_bytes e data e' W H He)].
Qed.

Lemma keeps_each {A : Type}
  (body : upb_encstate -> A -> outcome upb_encstate) (l : list A) :
  (forall e x, wf e -> I e -> keeps I (body e x)) ->
  forall e, wf e -> I e -> keeps I (encode_each body e l).
Proof.
  intros Hb. induction l as [|x tl IH]; intros e W H; cbn [encode_each].
  - now apply keeps_Ok.
  - apply (keeps_bind (fun e => e) (fun e => e)); [now apply Hb|].
    intros e1 _ W1 H1. now apply IH.
Qed.

(** One step through an emitter: a primitive, a read, or a bind. *)
Ltac keeps_step :=
  first
    [ apply keeps_varint; [assumption|assumption]
    | apply keeps_bytes; [assumption|assumption]
    | apply keeps_Ok; [assumption|assumption]
    | apply keeps_Undefined
    | apply keeps_err
    | apply keeps_read; intros ? ?
    | match goal with
      | |- keeps_gen _ _ (let (_, _) := ?x in _) => destruct x
      end
    | apply (keeps_bind (fun e => e));
        [ first [ apply keeps_varint; [assumption|assumption]
                | apply keeps_bytes; [assumption|assumption] ]
        | intros ? _ ? ? ] ].

Variable big_endian : bool.
Variable layouts : list upb_msglayout.
Variable cb : upb_encstate -> upb_msg -> upb_msglayout -> outcome (upb_encstate * Z).
Hypothesis Hcb : forall e m l, wf e -> I e -> keeps_gen I fst (cb e m l).

Lemma scalar_keeps (e : upb_encstate) (c : cell) (subs_ : list upb_msglayout_sub)
  (f : upb_msglayout_field) :
  wf e -> I e ->
  keeps I (encode_scalar_impl big_endian layouts cb e c subs_ f).
Proof.
  intros W H0. unfold keeps, encode_scalar_impl, encode_double, encode_float,
    encode_fixed64, encode_fixed32, encode_tag, submsg.
  destruct (descriptortype f); repeat keeps_step.
  - destruct a as [m|]; [|keeps_step]. cbv zeta.
    assert (W0 : wf (set_depth e (depth (ctx e) - 1))) by now apply wf_set_depth.
    assert (J0 : I (set_depth e (depth (ctx e) - 1))) by now apply I_depth.
    destruct (_ =? 0); [keeps_step|].
    apply (keeps_bind (fun e => e));
      [now apply keeps_varint|intros e1 _ W1 J1].
    apply (keeps_bind fst); [now apply Hcb|intros [e2 sz] _ W2 J2].
    cbn [fst] in W2, J2.
    apply keeps_varint; [now apply wf_set_depth|now apply I_depth].
  - destruct a as [m|]; [|keeps_step]. cbv zeta.
    assert (W0 : wf (set_depth e (depth (ctx e) - 1))) by now apply wf_set_depth.
    assert (J0 : I (set_depth e (depth (ctx e) - 1))) by now apply I_depth.
    destruct (_ =? 0); [keeps_step|].
    apply (keeps_bind fst); [now apply Hcb|intros [e2 sz] _ W2 J2].
    cbn [fst] in W2, J2.
    apply (keeps_bind (fun e => e));
      [now apply keeps_varint|intros e3 _ W3 J3].
    apply keeps_varint; [now apply wf_set_depth|now apply I_depth].
Qed.

Lemma array_keeps (e : upb_encstate) (msg : list (Z * cell))
  (subs_ : list upb_msglayout_sub) (f : upb_msglayout_field) :
  wf e -> I e ->
  keeps I (encode_array_impl big_endian layouts cb e msg subs_ f).
Proof.
  intros W H0. unfold keeps, encode_array_impl, encode_fixedarray,
    encode_fixedarray_impl, VARINT_CASE, encode_tag, submsg.
  keeps_step.
  destruct a as [arr|]; [|keeps_step].
  destruct (_ =? 0); [keeps_step|]. cbv zeta.
  assert (Hafter : forall e1 : upb_encstate,
    wf e1 -> I e1 ->
    keeps_gen I (fun e => e)
      (if packed f
       then e2 <- encode_varint e1 (limit (ctx e1) - ptr e1 - (limit (ctx e) - ptr e)) ;;
            encode_varint e2 (make_tag (number f) UPB_WIRE_TYPE_DELIMITED)
       else Ok e1)).
  { intros e1 W1 J1. destruct (packed f); repeat keeps_step. }
  assert (Hmsgs : forall body : upb_encstate -> cell -> outcome upb_encstate,
    (forall e1 x, wf e1 -> I e1 -> keeps_gen I (fun e => e) (body e1 x)) ->
    keeps_gen I (fun e => e)
      (let e0 := set_depth e (depth (ctx e) - 1) in
       if depth (ctx e0) =? 0 then encode_err MaxDepthExceeded
       else e1 <- encode_each body e0 (rev arr) ;;
            Ok (set_depth e1 (depth (ctx e1) + 1)))).
  { intros body Hb. cbv zeta.
    assert (W0 : wf (set_depth e (depth (ctx e) - 1))) by now apply wf_set_depth.
    assert (J0 : I (set_depth e (depth (ctx e) - 1))) by now apply I_depth.
    destruct (_ =? 0); [keeps_step|].
    apply (keeps_bind (fun e => e));
      [apply keeps_each; assumption|intros e1 _ W1 J1].
    apply keeps_Ok; [now apply wf_set_depth|now apply I_depth]. }
  destruct (descriptortype f).
  all: try (apply (keeps_bind (fun e => e) (fun e => e));
              [|intros e1 _ W1 J1; now apply Hafter];
            destruct (negb _);
            [apply keeps_each; [intros|assumption|assumption]; repeat keeps_step
            |repeat keeps_step]; fail).
  all: try (apply (keeps_bind (fun e => e) (fun e => e));
              [|intros e1 _ W1 J1; now apply Hafter];
            apply keeps_each; [intros|assumption|assumption]; repeat keeps_step;
            destruct (negb _); repeat keeps_step; fail).
  all: try (apply keeps_each; [intros|assumption|assumption]; repeat keeps_step; fail).
  - keeps_step. apply Hmsgs. intros e1 x W1 J1.
    apply (keeps_bind (fun e => e)); [now apply keeps_varint|intros e2 _ W2 J2].
    apply keeps_read. intros m Hm.
    apply (keeps_bind fst); [now apply Hcb|intros [e3 sz] _ W3 J3].
    cbn [fst] in W3, J3. now apply keeps_varint.
  - keeps_step. apply Hmsgs. intros e1 x W1 J1.
    apply keeps_read. intros m Hm.
    apply (keeps_bind fst); [now apply Hcb|intros [e3 sz] _ W3 J3].
    cbn [fst] in W3, J3. repeat keeps_step.
Qed.

Lemma mapentry_keeps (e : upb_encstate) (n : Z) (layout : upb_msglayout)
  (ent : cell * cell) :
  wf e -> I e ->
  keeps I (encode_mapentry_impl big_endian layouts cb e n layout ent).
Proof.
  intros W H0. unfold keeps, encode_mapentry_impl, encode_scalar, encode_tag.
  do 2 keeps_step. cbv zeta.
  apply (keeps_bind (fun e => e) (fun e => e));
    [now apply scalar_keeps|intros e1 _ W1 J1].
  apply (keeps_bind (fun e => e) (fun e => e));
    [now apply scalar_keeps|intros e2 _ W2 J2].
  repeat keeps_step.
Qed.

Lemma map_keeps (e : upb_encstate) (msg : list (Z * cell))
  (subs_ : list upb_msglayout_sub) (f : upb_msglayout_field) :
  wf e -> I e ->
  keeps I (encode_map_impl big_endian layouts cb e msg subs_ f).
Proof.
  intros W H0. unfold keeps, encode_map_impl, encode_mapentry, submsg.
  do 2 keeps_step.
  destruct (negb (field_count a0 =? 2)); [keeps_step|].
  destruct a as [m|]; [|keeps_step].
  destruct (negb _).
  - do 2 keeps_step.
    apply keeps_each; [|assumption|assumption].
    intros e1 x W1 J1. now apply mapentry_keeps.
  - apply keeps_each; [|assumption|assumption].
    intros e1 x W1 J1. now apply mapentry_keeps.
Qed.

Lemma field_keeps (e : upb_encstate) (msg : list (Z * cell))
  (subs_ : list upb_msglayout_sub) (f : upb_msglayout_field) :
  wf e -> I e ->
  keeps I (encode_field_impl big_endian layouts cb e msg subs_ f).
Proof.
  intros W H0. unfold encode_field_impl, encode_array, encode_map, encode_scalar.
  destruct (mode f).
  - now apply map_keeps.
  - now apply array_keeps.
  - now apply scalar_keeps.
Qed.

Lemma body_keeps (e : upb_encstate) (msg : upb_msg) (m : upb_msglayout) :
  wf e -> I e ->
  keeps_gen I fst (encode_message_body big_endian layouts cb e msg m).
Proof.
  intros W H0. unfold encode_message_body. cbv zeta.
  apply (keeps_bind (fun e => e) fst).
  { unfold encode_message_unknown. destruct (_ =? 0); [|repeat keeps_step].
    destruct (upb_msg_getunknown _); repeat keeps_step. }
  intros e1 _ W1 J1.
  apply (keeps_bind (fun e => e) fst).
  { unfold encode_message_exts, encode_field, encode_msgset_item, encode_tag.
    destruct (ext m); [repeat keeps_step| |].
    - apply keeps_each; [|assumption|assumption].
      intros e2 x W2 J2. now apply field_keeps.
    - apply keeps_each; [|assumption|assumption].
      intros e2 x W2 J2.
      apply (keeps_bind (fun e => e)); [now apply keeps_varint|intros e3 _ W3 J3].
      do 2 keeps_step.
      apply (keeps_bind fst); [now apply Hcb|intros [e4 sz] _ W4 J4].
      cbn [fst] in W4, J4. repeat keeps_step. }
  intros e2 _ W2 J2.
  apply (keeps_bind (fun e => e) fst).
  { unfold encode_message_fields, encode_field.
    apply keeps_each; [|assumption|assumption].
    intros e3 f W3 J3.
    destruct (encode_shouldencode_option big_endian (msg_mem msg) (subs m) f)
      as [o ->].
    keeps_step. destruct a; [|repeat keeps_step].
    now apply field_keeps. }
  intros e3 _ W3 J3. now apply keeps_Ok.
Qed.

End InvariantPass.

(** The message emitter keeps every invariant that [encode_bytes] and
    [encode_varint] keep and that does not depend on the depth counter. *)
Lemma encode_message_keeps (I : upb_encstate -> Prop) :
  (forall e data e',
     wf e -> I e -> encode_bytes e (map Byte data) = Ok e' -> I e') ->
  (forall e val e', wf e -> I e -> encode_varint e val = Ok e' -> I e') ->
  (forall e d, I e -> I (set_depth e d)) ->
  forall (big_endian : bool) (layouts : list upb_msglayout) (fuel : nat) e msg m,
    wf e -> I e ->
    keeps_gen I fst (encode_message_impl big_endian layouts fuel e msg m).
Proof.
  intros Hb Hv Hd big_endian layouts fuel.
  induction fuel as [|n IH]; intros e msg m W H0.
  - cbn [encode_message_impl]. intros a Ha. discriminate.
  - cbn [encode_message_impl].
    apply (body_keeps I Hb Hv Hd big_endian layouts _ IH); assumption.
Qed.
(* ================================================================== *)
(** * The buffer against the allocator *)

Lemma doubling_sum (sizes : list Z) :
  doubling sizes ->
  0 <= hd 0 sizes /\ fold_right Z.add 0 sizes <= 2 * hd 0 sizes.
Proof.
  induction sizes as [|s rest IH]; cbn [doubling fold_right hd]; [lia|].
  intros (P & H & D). destruct (IH D) as [H0 H1].
  destruct P as [k ->]. pose proof (Z.pow_pos_nonneg 2 (Z.of_nat k)). lia.
Qed.

Lemma pow2_from_128_ge (z : Z) : pow2_from_128 z -> 128 <= z.
Proof.
  intros [k ->]. pose proof (Z.pow_pos_nonneg 2 (Z.of_nat k)). lia.
Qed.

(** [encode_reserve] keeps the buffer the newest block of a doubling chain
    and makes room for [bytes] bytes. *)
Lemma reserve_alloc (log0 : list Z) (e e1 : upb_encstate) (bytes : Z) :
  wf e -> alloc_inv log0 e -> 0 < bytes ->
  encode_reserve e bytes = Ok e1 ->
  0 <= ptr e1 /\
  limit (ctx e1) - ptr e1 = limit (ctx e) - ptr e + bytes /\
  exists sizes,
    alloc_log (alloc (ctx e1)) = sizes ++ log0 /\
    doubling sizes /\
    limit (ctx e1) = hd 0 sizes /\
    (limit (ctx e1) = limit (ctx e) \/ limit (ctx e1) = 128 \/
     limit (ctx e1) < 2 * (limit (ctx e) - ptr e + bytes)).
Proof.
  intros W (sizes & L & D & Hh & Hb) Hpos H.
  pose proof (written_length e W) as Hlen.
  unfold encode_reserve in H.
  set (cur := limit (ctx e) - ptr e) in *.
  assert (Hcur : 0 <= cur) by (unfold cur, wf in *; lia).
  destruct (ptr e - 0 <? bytes) eqn:E.
  - apply Z.ltb_lt in E. unfold encode_growbuffer, upb_malloc in H.
    fold cur in H.
    destruct (alloc_func _ _); [|discriminate].
    apply Ok_inj in H. subst e1.
    pose proof (upb_roundup_pow2_ge (bytes + cur)) as G.
    destruct (upb_roundup_pow2_shape (bytes + cur)) as [P M].
    set (new_size := upb_roundup_pow2 (bytes + cur)) in *.
    assert (Hl : limit {| alloc := {| alloc_func := alloc_func (alloc (ctx e));
                                      alloc_log := new_size :: alloc_log (alloc (ctx e)) |};
                          buf := if 0 <? cur
                                 then memcpy (repeat Undef (Z.to_nat new_size))
                                        (new_size - cur)
                                        (firstn (Z.to_nat cur)
                                           (skipn (Z.to_nat (ptr e)) (buf (ctx e))))
                                 else repeat Undef (Z.to_nat new_size);
                          options := options (ctx e); depth := depth (ctx e) |}
                 = new_size).
    { unfold limit. cbn [buf]. destruct (0 <? cur).
      - rewrite length_memcpy; rewrite ?repeat_length; try lia.
        rewrite length_firstn. fold (written e). lia.
      - rewrite repeat_length. lia. }
    cbn [ptr ctx]. rewrite Hl. cbn [alloc alloc_log].
    split; [lia|]. split; [lia|].
    exists (new_size :: sizes). rewrite L. split; [reflexivity|].
    split; [|split; [reflexivity|right; lia]].
    cbn [doubling]. split; [exact P|]. split; [|exact D].
    rewrite <- Hh.
    assert (Hlt : limit (ctx e) < new_size) by (unfold cur in *; lia).
    destruct sizes as [|s rest].
    + cbn [hd] in Hh. apply pow2_from_128_ge in P. lia.
    + cbn [hd doubling] in Hh, D. destruct D as (Ps & _).
      rewrite <- Hh in Ps. now apply pow2_from_128_lt.
  - apply Z.ltb_ge in E. apply Ok_inj in H. subst e1.
    unfold set_ptr. cbn [ptr ctx]. fold cur.
    split; [lia|]. split; [unfold cur; lia|].
    exists sizes. repeat split; try assumption. now left.
Qed.

Lemma alloc_inv_bytes (log0 : list Z) (e e' : upb_encstate) (data : list byte) :
  wf e -> alloc_inv log0 e ->
  encode_bytes e (map Byte data) = Ok e' -> alloc_inv log0 e'.
Proof.
  intros W H0 H. unfold encode_bytes in H. rewrite length_map in H.
  destruct (Z.of_nat (length data) =? 0) eqn:E.
  - apply Ok_inj in H. now subst e'.
  - apply Z.eqb_neq in E.
    destruct (encode_reserve e (Z.of_nat (length data))) as [e1| | |] eqn:R;
      try discriminate.
    cbv beta iota delta [bind] in H. apply Ok_inj in H. subst e'.
    destruct (reserve_alloc log0 e e1 (Z.of_nat (length data)) W H0 ltac:(lia) R)
      as (P0 & P1 & sizes & L & D & Hh & Hb).
    assert (Hlim : limit (ctx (set_buf e1 (memcpy (buf (ctx e1)) (ptr e1) (map Byte data))))
                   = limit (ctx e1)).
    { unfold limit, set_buf. cbn [ctx buf].
      rewrite length_memcpy; [reflexivity|lia|].
      rewrite length_map. unfold wf, limit in *. lia. }
    destruct H0 as (sizes0 & _ & _ & _ & Hb0).
    exists sizes. rewrite Hlim.
    change (alloc (ctx (set_buf e1 (memcpy (buf (ctx e1)) (ptr e1) (map Byte data)))))
      with (alloc (ctx e1)).
    change (ptr (set_buf e1 (memcpy (buf (ctx e1)) (ptr e1) (map Byte data))))
      with (ptr e1).
    repeat split; try assumption. unfold wf in W. lia.
Qed.

Lemma alloc_inv_varint (log0 : list Z) (e e' : upb_encstate) (val : Z) :
  wf e -> alloc_inv log0 e ->
  encode_varint e val = Ok e' -> alloc_inv log0 e'.
Proof.
  intros W H0 H. unfold encode_varint in H.
  destruct ((val <? 128) && negb (ptr e =? 0)) eqn:E.
  - apply andb_true_iff in E. destruct E as [E1 E2].
    apply negb_true_iff, Z.eqb_neq in E2.
    apply Ok_inj in H. subst e'.
    destruct H0 as (sizes & L & D & Hh & Hb).
    assert (Hlim : limit (ctx (set_buf (set_ptr e (ptr e - 1))
                     (store (buf (ctx (set_ptr e (ptr e - 1))))
                        (ptr (set_ptr e (ptr e - 1))) (byte_of_Z val))))
                   = limit (ctx e)).
    { unfold limit, set_buf, set_ptr, store. cbn [ptr ctx buf].
      rewrite length_memcpy; [reflexivity| |]; cbn [length];
        unfold wf, limit in W; lia. }
    exists sizes. rewrite Hlim.
    unfold set_buf, set_ptr. cbn [ptr ctx alloc].
    repeat split; try assumption. lia.
  - unfold encode_longvarint in H.
    pose proof (varint_bytes_length val) as Hl.
    pose proof (varint_bytes_nonempty val) as Hn.
    fold (varint_bytes val) in *.
    rewrite encode_varint64_spec in H
      by (fold (varint_bytes val); rewrite ?repeat_length; lia).
    fold (varint_bytes val) in H.
    set (vb := varint_bytes val) in *.
    destruct (encode_reserve e 16) as [e1| | |] eqn:R; try discriminate.
    cbv beta iota delta [bind] in H. rewrite scratch_tail in H by lia.
    apply Ok_inj in H. subst e'.
    destruct (reserve_alloc log0 e e1 16 W H0 ltac:(lia) R)
      as (P0 & P1 & sizes & L & D & Hh & Hb).
    set (data := repeat Undef (16 - length vb) ++ map Byte vb).
    assert (Hd : length data = 16%nat).
    { unfold data. rewrite length_app, repeat_length, length_map. lia. }
    assert (Hlim : limit (ctx (set_buf e1 (memcpy (buf (ctx e1)) (ptr e1) data)))
                   = limit (ctx e1)).
    { unfold limit, set_buf. cbn [ctx buf].
      rewrite length_memcpy; [reflexivity|lia|].
      rewrite Hd. unfold wf, limit in *. lia. }
    destruct H0 as (sizes0 & _ & _ & _ & Hb0).
    exists sizes. unfold set_ptr. cbn [ptr ctx]. rewrite Hlim.
    change (alloc (ctx (set_buf e1 (memcpy (buf (ctx e1)) (ptr e1) data))))
      with (alloc (ctx e1)).
    change (ptr (set_buf e1 (memcpy (buf (ctx e1)) (ptr e1) data)))
      with (ptr e1).
    repeat split; try assumption. unfold wf in W. lia.
Qed.

Lemma alloc_inv_depth (log0 : list Z) (e : upb_encstate) (d : Z) :
  alloc_inv log0 e -> alloc_inv log0 (set_depth e d).
Proof. intros H. exact H. Qed.

(** X16: when a run of the encoder succeeds, the blocks it asked the
    allocator for are 128 bytes doubled some number of times, each at least
    twice the one before; the buffer it returns lies in the newest one.  A
    block larger than 128 bytes is less than twice the output plus 15 bytes,
    and all the blocks together are at most twice the newest. *)
Theorem encode_allocations_double (big_endian : bool)
  (layouts : list upb_msglayout) (msg : upb_msg) (l : upb_msglayout)
  (options_ : Z) (arena : upb_alloc) (e' : upb_encstate) (sz : Z) :
  entry_run big_endian layouts msg l options_ arena = Ok (e', sz) ->
  exists sizes,
    alloc_log (alloc (ctx e')) = sizes ++ alloc_log arena /\
    doubling sizes /\
    limit (ctx e') = hd 0 sizes /\
    (limit (ctx e') = 0 \/ limit (ctx e') = 128 \/
     limit (ctx e') < 2 * (limit (ctx e') - ptr e' + 15)) /\
    fold_right Z.add 0 sizes <= 2 * limit (ctx e').
Proof.
  intros H. unfold entry_run, encode_message in H.
  assert (W : wf (entry_state arena options_)).
  { unfold wf, entry_state, limit. cbn [ptr ctx buf length]. lia. }
  assert (H0 : alloc_inv (alloc_log arena) (entry_state arena options_)).
  { exists []. unfold entry_state, limit. cbn [ptr ctx buf alloc length hd app doubling].
    repeat split. now left. }
  destruct (encode_message_keeps (alloc_inv (alloc_log arena))
              (fun e data e' => alloc_inv_bytes (alloc_log arena) e e' data)
              (fun e val e' => alloc_inv_varint (alloc_log arena) e e' val)
              (alloc_inv_depth (alloc_log arena))
              big_endian layouts (msg_height msg) _ msg l W H0 _ H)
    as (_ & sizes & L & D & Hh & Hb).
  cbn [fst] in *. exists sizes.
  repeat split; try assumption.
  rewrite Hh. now apply doubling_sum.
Qed.

Lemma encode_allocations_double_witness :
  exists e' sz,
    entry_run false [] long_strings_msg long_strings_layout 0 always_alloc
      = Ok (e', sz) /\
    sz = 204 /\
    alloc_log (alloc (ctx e')) = [256; 128] /\
    exists sizes,
      alloc_log (alloc (ctx e')) = sizes ++ alloc_log always_alloc /\
      doubling sizes /\
      limit (ctx e') = hd 0 sizes /\
      (limit (ctx e') = 0 \/ limit (ctx e') = 128 \/
       limit (ctx e') < 2 * (limit (ctx e') - ptr e' + 15)) /\
      fold_right Z.add 0 sizes <= 2 * limit (ctx e').
Proof.
  eexists. eexists. split; [vm_compute; reflexivity|].
  split; [reflexivity|]. split; [reflexivity|].
  match goal with
  | |- exists sizes, alloc_log (alloc (ctx ?e)) = _ /\ _ =>
      apply (encode_allocations_double false [] long_strings_msg
               long_strings_layout 0 always_alloc e 204)
  end.
  vm_compute. reflexivity.
Defined.
(* ================================================================== *)
(** * Arrays, further *)

(** The bytes of fixed-width elements as they lie in the memory of a
    little-endian host are the little-endian bytes of their values. *)
Lemma read_all_raw_little_endian (n : nat) (arr : list cell) (raws : list (list byte)) :
  read_all (read_raw n) arr = Some raws ->
  read_all (read_int false n) arr = Some (map le_value raws) /\
  map (le_bytes n) (map le_value raws) = raws.
Proof.
  revert raws. induction arr as [|c arr IH]; intros raws H; cbn [read_all] in *.
  - injection H as <-. split; reflexivity.
  - destruct (read_raw n c) as [raw|] eqn:R; [|discriminate].
    destruct (read_all (read_raw n) arr) as [tl|]; [|discriminate].
    injection H as <-. destruct (IH tl eq_refl) as [H1 H2].
    rewrite (fixed_little_endian n c raw R), H1. cbn [map].
    split; [reflexivity|]. rewrite H2. f_equal.
    rewrite <- (read_raw_length n c raw R). apply le_bytes_value.
Qed.

(** An array of fixed-width elements that is not packed: one record per
    element, holding the element's bytes as they lie in memory. *)
Lemma unpacked_fixed_exact (e e' : upb_encstate) (arr : list cell)
  (elem_size : nat) (tag : Z) :
  wf e -> tag <> 0 ->
  encode_fixedarray_impl e arr elem_size tag = Ok e' ->
  exists raws,
    read_all (read_raw elem_size) arr = Some raws /\
    extends e e' (concat (map (fun raw => varint_bytes tag ++ raw) raws)).
Proof.
  intros W Hnz H. unfold encode_fixedarray_impl in H.
  apply Z.eqb_neq in Hnz. rewrite Hnz in H. cbn [negb] in H.
  apply (each_exact
           (fun c => option_map (fun raw => varint_bytes tag ++ raw)
                       (read_raw elem_size c))) in H; [|..|exact W].
  - destruct H as (cs & R & E). apply read_all_rev in R.
    rewrite read_all_option_map in R.
    destruct (read_all (read_raw elem_size) arr) as [raws|]; [|discriminate].
    cbn [option_map] in R. injection R as R. exists raws.
    split; [reflexivity|]. rewrite R. exact E.
  - intros e1 x e2 W1 B.
    destruct (read_raw elem_size x) as [raw|]; [|discriminate].
    cbn [of_option bind] in B.
    destruct (encode_bytes e1 (map Byte raw)) as [e3| | |] eqn:V; try discriminate.
    cbn [bind] in B.
    destruct (encode_bytes_spec _ _ _ W1 V) as [E1 _].
    destruct (encode_varint_spec _ _ _ (ext_wf _ _ _ E1) B) as [E2 _].
    eexists. split; [reflexivity|].
    exact (extends_trans _ _ _ _ _ E1 E2).
Qed.

(** X17: a repeated field of a varint type that is not packed is written as
    one record per element, the tag of wire type VARINT and the varint of the
    element's value, the records in the order of the array; each value is
    what its varint reads back as. *)
Theorem unpacked_varints_records (big_endian : bool)
  (layouts : list upb_msglayout)
  (cb : upb_encstate -> upb_msg -> upb_msglayout -> outcome (upb_encstate * Z))
  (e e' : upb_encstate) (msg : list (Z * cell)) (subs_ : list upb_msglayout_sub)
  (f : upb_msglayout_field) (arr : list cell) (read : cell -> option Z) :
  wf e -> packed f = false -> valid_number f ->
  varint_read big_endian (descriptortype f) = Some read ->
  read_array (UPB_PTR_AT msg (offset f)) = Some (Some arr) ->
  encode_array_impl big_endian layouts cb e msg subs_ f = Ok e' ->
  exists vals,
    read_all read arr = Some vals /\
    written e'
    = map Byte
        (concat (map (fun v =>
                        varint_bytes (make_tag (number f) UPB_WIRE_TYPE_VARINT)
                        ++ varint_bytes v) vals))
      ++ written e /\
    Forall (fun v => varint_value (varint_bytes v) = v) vals.
Proof.
  intros W Hp Hv Hty Hr H.
  assert (Hround : forall vals, read_all read arr = Some vals ->
            Forall (fun v => varint_value (varint_bytes v) = v) vals).
  { clear H Hr. induction arr as [|c arr IH]; intros vals R; cbn [read_all] in R.
    - injection R as <-. constructor.
    - destruct (read c) as [v|] eqn:Rc; [|discriminate].
      destruct (read_all read arr) as [tl|]; [|discriminate].
      injection R as <-. constructor.
      + pose proof (varint_read_range _ _ _ c v Hty Rc) as Hrange.
        rewrite varint_bytes_base128 by exact Hrange.
        apply varint_value_base128. lia.
      + now apply IH. }
  unfold encode_array_impl in H. rewrite Hr in H. cbn [of_option bind] in H.
  destruct (Z.of_nat (length arr) =? 0) eqn:Z0.
  { apply Z.eqb_eq in Z0. destruct arr; [|cbn [length] in Z0; lia].
    apply Ok_inj in H. subst e'. exists []. split; [reflexivity|].
    split; [reflexivity|constructor]. }
  cbv zeta in H. rewrite Hp in H.
  assert (H' : VARINT_CASE e arr f read = Ok e').
  { destruct (descriptortype f); try discriminate Hty; injection Hty as <-;
      (destruct (VARINT_CASE e arr f _) as [e1| | |]; try discriminate;
       cbn [bind] in H; exact H). }
  destruct (unpacked_varints_exact _ _ _ _ _ W Hp Hv H') as (vals & R & E).
  exists vals. split; [exact R|]. split; [exact (ext_written _ _ _ E)|].
  now apply Hround.
Qed.

Lemma unpacked_varints_records_witness :
  exists e',
    encode_array_impl false [] (fun _ _ _ => OutOfFuel) roomy_state
      [(8, CArr [CData [x01; x00; x00; x00]; CData [x96; x00; x00; x00]])] []
      (array_field 1 8 UPB_DESCRIPTOR_TYPE_UINT32 false) = Ok e' /\
    written e'
    = map Byte [x08; x01; x08; x96; x01] ++ written roomy_state.
Proof.
  eexists. split; [vm_compute; reflexivity|].
  match goal with
  | |- written ?e' = _ =>
      destruct (unpacked_varints_records false [] (fun _ _ _ => OutOfFuel)
                  roomy_state e'
                  [(8, CArr [CData [x01; x00; x00; x00]; CData [x96; x00; x00; x00]])]
                  [] (array_field 1 8 UPB_DESCRIPTOR_TYPE_UINT32 false)
                  [CData [x01; x00; x00; x00]; CData [x96; x00; x00; x00]]
                  (read_int false 4))
        as (vals & R & Hw & _)
  end.
  - unfold wf. vm_compute. split; discriminate.
  - reflexivity.
  - unfold valid_number. vm_compute. split; reflexivity.
  - reflexivity.
  - reflexivity.
  - vm_compute. reflexivity.
  - vm_compute in R. injection R as <-. exact Hw.
Defined.

(** X18: on a little-endian host a repeated field of a fixed-width type is
    written with the little-endian bytes of its elements, in the order of the
    array: packed, as one length-delimited record holding them all with the
    exact length; not packed, as one record per element. *)
Theorem fixed_array_little_endian_host (layouts : list upb_msglayout)
  (cb : upb_encstate -> upb_msg -> upb_msglayout -> outcome (upb_encstate * Z))
  (e e' : upb_encstate) (msg : list (Z * cell)) (subs_ : list upb_msglayout_sub)
  (f : upb_msglayout_field) (arr : list cell) (n : nat) (wt : Z) :
  wf e -> fixed_width (descriptortype f) = Some (n, wt) ->
  read_array (UPB_PTR_AT msg (offset f)) = Some (Some arr) -> arr <> [] ->
  encode_array_impl false layouts cb e msg subs_ f = Ok e' ->
  exists vals,
    read_all (read_int false n) arr = Some vals /\
    written e'
    = map Byte
        (if packed f
         then varint_bytes (make_tag (number f) UPB_WIRE_TYPE_DELIMITED)
              ++ varint_bytes (Z.of_nat (length (concat (map (le_bytes n) vals))))
              ++ concat (map (le_bytes n) vals)
         else concat (map (fun v => varint_bytes (make_tag (number f) wt)
                                    ++ le_bytes n v) vals))
      ++ written e.
Proof.
  intros W Hty Hr Hn H.
  destruct (packed f) eqn:Hp.
  - destruct (packed_array_output false layouts cb e e' msg subs_ f arr W Hp)
      as (cs & R & Hw);
      [destruct (descriptortype f); try discriminate Hty; reflexivity
      |exact Hr|exact Hn|exact H|].
    assert (R' : read_all (read_raw n) arr = Some cs).
    { destruct (descriptortype f); try discriminate Hty;
        injection Hty as <- <-; exact R. }
    destruct (read_all_raw_little_endian n arr cs R') as [Hv Hb].
    exists (map le_value cs). split; [exact Hv|]. now rewrite Hb.
  - unfold encode_array_impl, encode_fixedarray in H.
    rewrite Hr in H. cbn [of_option bind] in H.
    destruct (Z.of_nat (length arr) =? 0) eqn:Z0.
    { apply Z.eqb_eq in Z0. destruct arr; [contradiction|cbn [length] in Z0; lia]. }
    cbv zeta in H. rewrite Hp in H. cbv beta iota in H.
    assert (H' : encode_fixedarray_impl e arr n (make_tag (number f) wt) = Ok e').
    { destruct (descriptortype f); try discriminate Hty;
        injection Hty as <- <-;
        (destruct (encode_fixedarray_impl e arr _ _) as [e1| | |];
         try discriminate; cbn [bind] in H; exact H). }
    assert (Hwt : 0 < wt).
    { destruct (descriptortype f); try discriminate Hty;
        injection Hty as _ <-; reflexivity. }
    destruct (unpacked_fixed_exact e e' arr n _ W (make_tag_nonzero _ _ Hwt) H')
      as (raws & R & E).
    destruct (read_all_raw_little_endian n arr raws R) as [Hv Hb].
    exists (map le_value raws). split; [exact Hv|].
    rewrite (ext_written _ _ _ E). do 3 f_equal.
    rewrite <- Hb at 1. now rewrite !map_map.
Qed.

Lemma fixed_array_little_endian_host_witness :
  exists e',
    encode_array_impl false [] (fun _ _ _ => OutOfFuel) roomy_state
      [(8, CArr [CData [x01; x00; x00; x00]; CData [x02; x01; x00; x00]])] []
      (array_field 1 8 UPB_DESCRIPTOR_TYPE_FIXED32 true) = Ok e' /\
    written e'
    = map Byte [x0a; x08; x01; x00; x00; x00; x02; x01; x00; x00]
      ++ written roomy_state.
Proof.
  eexists. split; [vm_compute; reflexivity|].
  match goal with
  | |- written ?e' = _ =>
      destruct (fixed_array_little_endian_host [] (fun _ _ _ => OutOfFuel)
                  roomy_state e'
                  [(8, CArr [CData [x01; x00; x00; x00]; CData [x02; x01; x00; x00]])]
                  [] (array_field 1 8 UPB_DESCRIPTOR_TYPE_FIXED32 true)
                  [CData [x01; x00; x00; x00]; CData [x02; x01; x00; x00]]
                  4%nat UPB_WIRE_TYPE_32BIT)
        as (vals & R & Hw)
  end.
  - unfold wf. vm_compute. split; discriminate.
  - reflexivity.
  - reflexivity.
  - discriminate.
  - vm_compute. reflexivity.
  - vm_compute in R. injection R as <-. exact Hw.
Defined.

(** X19: a repeated sub-message field is written as one length-delimited
    record per element, each holding the bytes the message emitter wrote for
    the element and their exact number, the records in the order of the
    array; a repeated group field as the elements between their start and end
    tags.  An empty array writes nothing. *)
Theorem repeated_messages_records (big_endian : bool)
  (layouts : list upb_msglayout) (fuel : nat) (e e' : upb_encstate)
  (msg : list (Z * cell)) (subs_ : list upb_msglayout_sub)
  (f : upb_msglayout_field) (subm : upb_msglayout) (arr : list cell) :
  wf e -> submsg layouts subs_ (submsg_index f) = Ok subm ->
  read_array (UPB_PTR_AT msg (offset f)) = Some (Some arr) ->
  encode_array_impl big_endian layouts (encode_message_impl big_endian layouts fuel)
    e msg subs_ f = Ok e' ->
  (descriptortype f = UPB_DESCRIPTOR_TYPE_MESSAGE ->
   exists chunks,
     Forall2 (message_record (encode_message_impl big_endian layouts fuel)
                (number f) subm) arr chunks /\
     written e' = map Byte (concat chunks) ++ written e) /\
  (descriptortype f = UPB_DESCRIPTOR_TYPE_GROUP ->
   exists chunks,
     Forall2 (group_record (encode_message_impl big_endian layouts fuel)
                (number f) subm) arr chunks /\
     written e' = map Byte (concat chunks) ++ written e).
Proof.
  intros W Hs Hr H.
  pose proof (emits_message big_endian layouts fuel) as Hcb.
  unfold encode_array_impl in H. rewrite Hr in H. cbn [of_option bind] in H.
  destruct (Z.of_nat (length arr) =? 0) eqn:Z0.
  { apply Z.eqb_eq in Z0. destruct arr; [|cbn [length] in Z0; lia].
    apply Ok_inj in H. subst e'.
    split; intros _; exists []; (split; [constructor|reflexivity]). }
  cbv zeta in H.
  assert (W0 : wf (set_depth e (depth (ctx e) - 1))) by now apply wf_set_depth.
  assert (Hfin : forall (G : cell -> list byte -> Prop) e1 cs,
            Forall2 G (rev arr) cs ->
            extends (set_depth e (depth (ctx e) - 1)) e1 (concat (rev cs)) ->
            exists chunks,
              Forall2 G arr chunks /\
              written (set_depth e1 (depth (ctx e1) + 1))
              = map Byte (concat chunks) ++ written e).
  { intros G e1 cs R E. exists (rev cs). split.
    - apply Forall2_rev in R. now rewrite rev_involutive in R.
    - change (written (set_depth e1 (depth (ctx e1) + 1))) with (written e1).
      rewrite (ext_written _ _ _ E). reflexivity. }
  split; intros Ht; rewrite Ht, Hs in H; cbn [bind] in H;
    (destruct (depth (ctx (set_depth e (depth (ctx e) - 1))) =? 0);
     [discriminate|]);
    match type of H with
    | bind ?c _ = _ => destruct c as [e1| | |] eqn:L; try discriminate
    end;
    cbn [bind] in H; apply Ok_inj in H; subst e'.
  - apply (each_rel (message_record (encode_message_impl big_endian layouts fuel)
                       (number f) subm)) in L; [|..|exact W0].
    + destruct L as (cs & R & E). exact (Hfin _ e1 cs R E).
    + intros e2 x e3 W2 B.
      destruct (read_msg x) as [[m|]|] eqn:Rm; try discriminate.
      cbn [of_option bind] in B.
      specialize (Hcb e2 m subm W2).
      destruct (encode_message_impl big_endian layouts fuel e2 m subm)
        as [[e4 size]| | |] eqn:Rc; try discriminate.
      cbn [emits_gen fst snd] in Hcb. destruct Hcb as (body & E4 & _ & Hsize).
      cbn [bind] in B.
      destruct (encode_varint e4 size) as [e5| | |] eqn:V; try discriminate.
      cbn [bind] in B.
      destruct (encode_varint_spec _ _ _ (ext_wf _ _ _ E4) V) as [E5 _].
      destruct (encode_tag_spec _ _ _ _ (ext_wf _ _ _ E5) B) as [E6 _].
      subst size. eexists. split.
      * exists m, e2, e4, body. split; [exact Rm|]. split; [exact W2|].
        split; [exact Rc|]. split; [exact (ext_written _ _ _ E4)|reflexivity].
      * exact (extends_trans _ _ _ _ _ (extends_trans _ _ _ _ _ E4 E5) E6).
  - apply (each_rel (group_record (encode_message_impl big_endian layouts fuel)
                       (number f) subm)) in L; [|..|exact W0].
    + destruct L as (cs & R & E). exact (Hfin _ e1 cs R E).
    + intros e2 x e3 W2 B.
      destruct (encode_tag e2 (number f) UPB_WIRE_TYPE_END_GROUP)
        as [e4| | |] eqn:T; try discriminate.
      cbn [bind] in B.
      destruct (encode_tag_spec _ _ _ _ W2 T) as [E4 _].
      destruct (read_msg x) as [[m|]|] eqn:Rm; try discriminate.
      cbn [of_option bind] in B.
      specialize (Hcb e4 m subm (ext_wf _ _ _ E4)).
      destruct (encode_message_impl big_endian layouts fuel e4 m subm)
        as [[e5 size]| | |] eqn:Rc; try discriminate.
      cbn [emits_gen fst snd] in Hcb. destruct Hcb as (body & E5 & _ & Hsize).
      cbn [bind] in B.
      destruct (encode_tag_spec _ _ _ _ (ext_wf _ _ _ E5) B) as [E6 _].
      eexists. split.
      * exists m, e4, e5, body, size. split; [exact Rm|].
        split; [exact (ext_wf _ _ _ E4)|].
        split; [exact Rc|]. split; [exact (ext_written _ _ _ E5)|reflexivity].
      * exact (extends_trans _ _ _ _ _ (extends_trans _ _ _ _ _ E4 E5) E6).
Qed.

Lemma repeated_messages_records_witness :
  exists e',
    encode_array_impl false [s6_inner_layout]
      (encode_message_impl false [s6_inner_layout] 1) roomy_state
      [(8, CArr [CMsg s6_inner; CMsg s6_inner_8])] [O] s6_array_field = Ok e' /\
    written e'
    = map Byte [x0a; x02; x10; x07; x0a; x02; x10; x08] ++ written roomy_state /\
    exists chunks,
      Forall2 (message_record (encode_message_impl false [s6_inner_layout] 1)
                 1 s6_inner_layout)
        [CMsg s6_inner; CMsg s6_inner_8] chunks /\
      written e' = map Byte (concat chunks) ++ written roomy_state.
Proof.
  eexists. split; [vm_compute; reflexivity|]. split; [vm_compute; reflexivity|].
  match goal with
  | |- exists chunks, _ /\ written ?e' = _ =>
      apply (repeated_messages_records false [s6_inner_layout] 1 roomy_state e'
               [(8, CArr [CMsg s6_inner; CMsg s6_inner_8])] [O] s6_array_field
               s6_inner_layout [CMsg s6_inner; CMsg s6_inner_8])
  end.
  - unfold wf. vm_compute. split; discriminate.
  - reflexivity.
  - reflexivity.
  - vm_compute. reflexivity.
  - reflexivity.
Defined.
(* ================================================================== *)
(** * Two runs of the encoder on one message *)

(** The bytes an emitter writes do not depend on the buffer it writes to, on
    the allocator or on the depth counter: two runs that both return have
    written the same. *)

Lemma pair_ok_extends (e1 e2 a1 a2 : upb_encstate) (c1 c2 : list byte) :
  pair_ok e1 e2 -> extends e1 a1 c1 -> extends e2 a2 c2 -> pair_ok a1 a2.
Proof.
  intros (W1 & W2 & M1 & M2) E1 E2.
  split; [exact (ext_wf _ _ _ E1)|]. split; [exact (ext_wf _ _ _ E2)|].
  unfold same_mode. rewrite (ext_options _ _ _ E1), (ext_options _ _ _ E2).
  now split.
Qed.

Lemma pair_ok_set_depth (e1 e2 : upb_encstate) (d1 d2 : Z) :
  pair_ok e1 e2 -> pair_ok (set_depth e1 d1) (set_depth e2 d2).
Proof. intros H. exact H. Qed.

Lemma twin_bind {A B : Type} (stA : A -> upb_encstate) (valA : A -> A -> Prop)
  (stB : B -> upb_encstate) (valB : B -> B -> Prop) (e1 e2 : upb_encstate)
  (c1 c2 : outcome A) (k1 k2 : A -> outcome B) :
  pair_ok e1 e2 ->
  twin_gen stA valA e1 e2 c1 c2 ->
  (forall a1 a2 ch,
     valA a1 a2 -> extends e1 (stA a1) ch -> extends e2 (stA a2) ch ->
     pair_ok (stA a1) (stA a2) ->
     twin_gen stB valB (stA a1) (stA a2) (k1 a1) (k2 a2)) ->
  twin_gen stB valB e1 e2 (bind c1 k1) (bind c2 k2).
Proof.
  intros P H Hk b1 b2 H1 H2.
  destruct c1 as [a1| | |]; try discriminate.
  destruct c2 as [a2| | |]; try discriminate.
  cbn [bind] in H1, H2.
  destruct (H a1 a2 eq_refl eq_refl) as (V & ch & E1 & E2).
  destruct (Hk a1 a2 ch V E1 E2 (pair_ok_extends _ _ _ _ _ _ P E1 E2) b1 b2 H1 H2)
    as (Vb & ch' & E1' & E2').
  split; [exact Vb|]. exists (ch' ++ ch).
  split; eapply extends_trans; eassumption.
Qed.

Lemma twin_read {A B : Type} (st : B -> upb_encstate) (val : B -> B -> Prop)
  (e1 e2 : upb_encstate) (o : option A) (k1 k2 : A -> outcome B) :
  (forall a, o = Some a -> twin_gen st val e1 e2 (k1 a) (k2 a)) ->
  twin_gen st val e1 e2 (bind (of_option o) k1) (bind (of_option o) k2).
Proof.
  intros H. destruct o as [a|]; cbn [of_option bind]; [now apply H|].
  intros b1 b2 H1. discriminate.
Qed.

Lemma twin_Ok (e1 e2 : upb_encstate) :
  pair_ok e1 e2 -> twin_gen (fun e => e) (fun _ _ => True) e1 e2 (Ok e1) (Ok e2).
Proof.
  intros (W1 & W2 & _) a1 a2 H1 H2. inv_Ok H1. inv_Ok H2.
  split; [exact I|]. exists []. split; now apply extends_refl.
Qed.

Lemma twin_varint (e1 e2 : upb_encstate) (val : Z) :
  pair_ok e1 e2 ->
  twin_gen (fun e => e) (fun _ _ => True) e1 e2
    (encode_varint e1 val) (encode_varint e2 val).
Proof.
  intros (W1 & W2 & _) a1 a2 H1 H2. split; [exact I|].
  exists (varint_bytes val).
  split; [exact (proj1 (encode_varint_spec _ _ _ W1 H1))
         |exact (proj1 (encode_varint_spec _ _ _ W2 H2))].
Qed.

Lemma twin_bytes (e1 e2 : upb_encstate) (data : list byte) :
  pair_ok e1 e2 ->
  twin_gen (fun e => e) (fun _ _ => True) e1 e2
    (encode_bytes e1 (map Byte data)) (encode_bytes e2 (map Byte data)).
Proof.
  intros (W1 & W2 & _) a1 a2 H1 H2. split; [exact I|].
  exists data.
  split; [exact (proj1 (encode_bytes_spec _ _ _ W1 H1))
         |exact (proj1 (encode_bytes_spec _ _ _ W2 H2))].
Qed.

Lemma twin_from_set_depth {A : Type} (st : A -> upb_encstate)
  (val : A -> A -> Prop) (e1 e2 : upb_encstate) (d1 d2 : Z)
  (r1 r2 : outcome A) :
  twin_gen st val (set_depth e1 d1) (set_depth e2 d2) r1 r2 ->
  twin_gen st val e1 e2 r1 r2.
Proof.
  intros H a1 a2 H1 H2. destruct (H a1 a2 H1 H2) as (V & c & E1 & E2).
  split; [exact V|]. exists c.
  split; eapply extends_from_set_depth; eassumption.
Qed.

Lemma twin_Ok_set_depth (e1 e2 : upb_encstate) (d1 d2 : Z) :
  pair_ok e1 e2 ->
  twin_gen (fun e => e) (fun _ _ => True) e1 e2
    (Ok (set_depth e1 d1)) (Ok (set_depth e2 d2)).
Proof.
  intros (W1 & W2 & _) a1 a2 H1 H2. inv_Ok H1. inv_Ok H2.
  split; [exact I|]. exists [].
  split; apply extends_set_depth; now apply extends_refl.
Qed.

Lemma twin_each {A : Type}
  (body : upb_encstate -> A -> outcome upb_encstate) (l : list A) :
  (forall e1 e2 x, pair_ok e1 e2 ->
     twin_gen (fun e => e) (fun _ _ => True) e1 e2 (body e1 x) (body e2 x)) ->
  forall e1 e2, pair_ok e1 e2 ->
    twin_gen (fun e => e) (fun _ _ => True) e1 e2
      (encode_each body e1 l) (encode_each body e2 l).
Proof.
  intros Hb. induction l as [|x tl IH]; intros e1 e2 P; cbn [encode_each].
  - now apply twin_Ok.
  - apply (twin_bind (fun e => e) (fun _ _ => True)); [exact P|now apply Hb|].
    intros a1 a2 ch _ _ _ P'. now apply IH.
Qed.

(** One step through an emitter run twice. *)
Ltac twin_step :=
  first
    [ apply twin_varint; assumption
    | apply twin_bytes; assumption
    | apply twin_Ok; assumption
    | apply twin_read; intros ? ?
    | apply (twin_bind (fun e => e) (fun _ _ => True));
        [ assumption
        | first [ apply twin_varint; assumption
                | apply twin_bytes; assumption ]
        | intros ? ? ? _ ? ? ? ] ].

Section TwinPass.

Variable big_endian : bool.
Variable layouts : list upb_msglayout.
Variable cb : upb_encstate -> upb_msg -> upb_msglayout -> outcome (upb_encstate * Z).
Hypothesis Hcb : forall e1 e2 m l, pair_ok e1 e2 ->
  twin_gen fst same_size e1 e2 (cb e1 m l) (cb e2 m l).

Lemma scalar_twin (e1 e2 : upb_encstate) (c : cell)
  (subs_ : list upb_msglayout_sub) (f : upb_msglayout_field) :
  pair_ok e1 e2 ->
  twin_gen (fun e => e) (fun _ _ => True) e1 e2
    (encode_scalar_impl big_endian layouts cb e1 c subs_ f)
    (encode_scalar_impl big_endian layouts cb e2 c subs_ f).
Proof.
  intros P. unfold encode_scalar_impl, encode_double, encode_float,
    encode_fixed64, encode_fixed32, encode_tag, submsg.
  destruct (descriptortype f); repeat twin_step.
  - destruct a as [m|]; [|twin_step]. cbv zeta.
    apply (twin_from_set_depth _ _ _ _ (depth (ctx e1) - 1) (depth (ctx e2) - 1)).
    pose proof (pair_ok_set_depth e1 e2 (depth (ctx e1) - 1) (depth (ctx e2) - 1) P)
      as P0.
    destruct (depth (ctx (set_depth e1 (depth (ctx e1) - 1))) =? 0);
      [intros ? ? H1; discriminate|].
    destruct (depth (ctx (set_depth e2 (depth (ctx e2) - 1))) =? 0);
      [intros ? ? _ H2; discriminate|].
    twin_step.
    apply (twin_bind fst same_size); [assumption|now apply Hcb|].
    intros [s1 z1] [s2 z2] chm V Em1 Em2 P2. cbn [fst] in *.
    apply (twin_from_set_depth _ _ _ _ (depth (ctx s1) + 1) (depth (ctx s2) + 1)).
    apply twin_varint. now apply pair_ok_set_depth.
  - destruct a as [m|]; [|twin_step]. cbv zeta.
    apply (twin_from_set_depth _ _ _ _ (depth (ctx e1) - 1) (depth (ctx e2) - 1)).
    pose proof (pair_ok_set_depth e1 e2 (depth (ctx e1) - 1) (depth (ctx e2) - 1) P)
      as P0.
    destruct (depth (ctx (set_depth e1 (depth (ctx e1) - 1))) =? 0);
      [intros ? ? H1; discriminate|].
    destruct (depth (ctx (set_depth e2 (depth (ctx e2) - 1))) =? 0);
      [intros ? ? _ H2; discriminate|].
    apply (twin_bind fst same_size); [assumption|now apply Hcb|].
    intros [s1 z1] [s2 z2] chm V Em1 Em2 P2. cbn [fst] in *.
    unfold same_size in V. cbn [snd] in V. subst z2.
    twin_step.
    apply (twin_from_set_depth _ _ _ _ (depth (ctx a1) + 1) (depth (ctx a2) + 1)).
    apply twin_varint. now apply pair_ok_set_depth.
Qed.

Lemma array_twin (e1 e2 : upb_encstate) (msg : list (Z * cell))
  (subs_ : list upb_msglayout_sub) (f : upb_msglayout_field) :
  pair_ok e1 e2 ->
  twin_gen (fun e => e) (fun _ _ => True) e1 e2
    (encode_array_impl big_endian layouts cb e1 msg subs_ f)
    (encode_array_impl big_endian layouts cb e2 msg subs_ f).
Proof.
  intros P. unfold encode_array_impl, encode_fixedarray,
    encode_fixedarray_impl, VARINT_CASE, encode_tag, submsg.
  twin_step.
  destruct a as [arr|]; [|twin_step].
  destruct (_ =? 0); [twin_step|]. cbv zeta.
  assert (Hafter : forall s1 s2 ch,
    extends e1 s1 ch -> extends e2 s2 ch -> pair_ok s1 s2 ->
    twin_gen (fun e => e) (fun _ _ => True) s1 s2
      (if packed f
       then e <- encode_varint s1 (limit (ctx s1) - ptr s1 - (limit (ctx e1) - ptr e1)) ;;
            encode_varint e (make_tag (number f) UPB_WIRE_TYPE_DELIMITED)
       else Ok s1)
      (if packed f
       then e <- encode_varint s2 (limit (ctx s2) - ptr s2 - (limit (ctx e2) - ptr e2)) ;;
            encode_varint e (make_tag (number f) UPB_WIRE_TYPE_DELIMITED)
       else Ok s2)).
  { intros s1 s2 ch E1 E2 P'. destruct (packed f); [|twin_step].
    rewrite (extends_size e1 s1 ch (proj1 P) E1).
    rewrite (extends_size e2 s2 ch (proj1 (proj2 P)) E2).
    repeat twin_step. }
  assert (Hmsgs : forall body : upb_encstate -> cell -> outcome upb_encstate,
    (forall s1 s2 x, pair_ok s1 s2 ->
       twin_gen (fun e => e) (fun _ _ => True) s1 s2 (body s1 x) (body s2 x)) ->
    twin_gen (fun e => e) (fun _ _ => True) e1 e2
      (let e0 := set_depth e1 (depth (ctx e1) - 1) in
       if depth (ctx e0) =? 0 then encode_err MaxDepthExceeded
       else e <- encode_each body e0 (rev arr) ;;
            Ok (set_depth e (depth (ctx e) + 1)))
      (let e0 := set_depth e2 (depth (ctx e2) - 1) in
       if depth (ctx e0) =? 0 then encode_err MaxDepthExceeded
       else e <- encode_each body e0 (rev arr) ;;
            Ok (set_depth e (depth (ctx e) + 1)))).
  { intros body Hb. cbv zeta.
    apply (twin_from_set_depth _ _ _ _ (depth (ctx e1) - 1) (depth (ctx e2) - 1)).
    pose proof (pair_ok_set_depth e1 e2 (depth (ctx e1) - 1) (depth (ctx e2) - 1) P)
      as P0.
    destruct (depth (ctx (set_depth e1 (depth (ctx e1) - 1))) =? 0);
      [intros ? ? H1; discriminate|].
    destruct (depth (ctx (set_depth e2 (depth (ctx e2) - 1))) =? 0);
      [intros ? ? _ H2; discriminate|].
    apply (twin_bind (fun e => e) (fun _ _ => True));
      [assumption|apply twin_each; assumption|].
    intros s1 s2 chl _ _ _ P'. now apply twin_Ok_set_depth. }
  destruct (descriptortype f).
  all: try (apply (twin_bind (fun e => e) (fun _ _ => True));
              [assumption| |intros s1 s2 chs _ Es1 Es2 Ps; exact (Hafter s1 s2 chs Es1 Es2 Ps)];
            destruct (negb _);
            [apply twin_each; [intros|assumption]; repeat twin_step
            |repeat twin_step]; fail).
  all: try (apply (twin_bind (fun e => e) (fun _ _ => True));
              [assumption| |intros s1 s2 chs _ Es1 Es2 Ps; exact (Hafter s1 s2 chs Es1 Es2 Ps)];
            apply twin_each; [intros|assumption]; repeat twin_step;
            destruct (negb _); repeat twin_step; fail).
  all: try (apply twin_each; [intros|assumption]; repeat twin_step; fail).
  - twin_step. apply Hmsgs. intros s1 s2 x Ps.
    twin_step. twin_step.
    apply (twin_bind fst same_size); [assumption|now apply Hcb|].
    intros [t1 z1] [t2 z2] chm V Em1 Em2 Pt. cbn [fst] in *.
    repeat twin_step.
  - twin_step. apply Hmsgs. intros s1 s2 x Ps.
    twin_step.
    apply (twin_bind fst same_size); [assumption|now apply Hcb|].
    intros [t1 z1] [t2 z2] chm V Em1 Em2 Pt. cbn [fst] in *.
    unfold same_size in V. cbn [snd] in V. subst z2.
    repeat twin_step.
Qed.

Lemma mapentry_twin (e1 e2 : upb_encstate) (n : Z) (layout : upb_msglayout)
  (ent : cell * cell) :
  pair_ok e1 e2 ->
  twin_gen (fun e => e) (fun _ _ => True) e1 e2
    (encode_mapentry_impl big_endian layouts cb e1 n layout ent)
    (encode_mapentry_impl big_endian layouts cb e2 n layout ent).
Proof.
  intros P. unfold encode_mapentry_impl, encode_scalar, encode_tag.
  do 2 twin_step. cbv zeta.
  apply (twin_bind (fun e => e) (fun _ _ => True));
    [assumption|now apply scalar_twin|].
  intros s1 s2 chv _ Ev1 Ev2 Ps.
  apply (twin_bind (fun e => e) (fun _ _ => True));
    [assumption|now apply scalar_twin|].
  intros t1 t2 chk _ Ek1 Ek2 Pt.
  rewrite (extends_size e1 t1 _ (proj1 P) (extends_trans _ _ _ _ _ Ev1 Ek1)).
  rewrite (extends_size e2 t2 _ (proj1 (proj2 P)) (extends_trans _ _ _ _ _ Ev2 Ek2)).
  repeat twin_step.
Qed.

Lemma map_twin (e1 e2 : upb_encstate) (msg : list (Z * cell))
  (subs_ : list upb_msglayout_sub) (f : upb_msglayout_field) :
  pair_ok e1 e2 ->
  twin_gen (fun e => e) (fun _ _ => True) e1 e2
    (encode_map_impl big_endian layouts cb e1 msg subs_ f)
    (encode_map_impl big_endian layouts cb e2 msg subs_ f).
Proof.
  intros P. unfold encode_map_impl, encode_mapentry, submsg.
  do 2 twin_step.
  destruct (negb (field_count a0 =? 2)); [intros ? ? H1; discriminate|].
  destruct a as [m|]; [|twin_step].
  rewrite (proj1 (proj2 (proj2 P))).
  destruct (negb _).
  - do 2 twin_step.
    apply twin_each; [|assumption].
    intros s1 s2 x Ps. now apply mapentry_twin.
  - apply twin_each; [|assumption].
    intros s1 s2 x Ps. now apply mapentry_twin.
Qed.

Lemma field_twin (e1 e2 : upb_encstate) (msg : list (Z * cell))
  (subs_ : list upb_msglayout_sub) (f : upb_msglayout_field) :
  pair_ok e1 e2 ->
  twin_gen (fun e => e) (fun _ _ => True) e1 e2
    (encode_field_impl big_endian layouts cb e1 msg subs_ f)
    (encode_field_impl big_endian layouts cb e2 msg subs_ f).
Proof.
  intros P. unfold encode_field_impl, encode_array, encode_map, encode_scalar.
  destruct (mode f).
  - now apply map_twin.
  - now apply array_twin.
  - now apply scalar_twin.
Qed.

Lemma body_twin (e1 e2 : upb_encstate) (msg : upb_msg) (m : upb_msglayout) :
  pair_ok e1 e2 ->
  twin_gen fst same_size e1 e2
    (encode_message_body big_endian layouts cb e1 msg m)
    (encode_message_body big_endian layouts cb e2 msg m).
Proof.
  intros P. unfold encode_message_body. cbv zeta.
  apply (twin_bind (fun e => e) (fun _ _ => True)); [assumption| |].
  { unfold encode_message_unknown.
    rewrite (proj2 (proj2 (proj2 P))).
    destruct (_ =? 0); [|twin_step].
    destruct (upb_msg_getunknown _); twin_step. }
  intros s1 s2 chu _ Eu1 Eu2 Ps.
  apply (twin_bind (fun e => e) (fun _ _ => True)); [assumption| |].
  { unfold encode_message_exts, encode_field, encode_msgset_item, encode_tag.
    destruct (ext m); [twin_step| |].
    - apply twin_each; [|assumption].
      intros t1 t2 x Pt. now apply field_twin.
    - apply twin_each; [|assumption].
      intros t1 t2 x Pt.
      twin_step. twin_step. twin_step.
      apply (twin_bind fst same_size); [assumption|now apply Hcb|].
      intros [u1 z1] [u2 z2] chm V Em1 Em2 Pu. cbn [fst] in *.
      unfold same_size in V. cbn [snd] in V. subst z2.
      repeat twin_step. }
  intros t1 t2 che _ Ee1 Ee2 Pt.
  apply (twin_bind (fun e => e) (fun _ _ => True)); [assumption| |].
  { unfold encode_message_fields, encode_field.
    apply twin_each; [|assumption].
    intros u1 u2 f Pu.
    destruct (encode_shouldencode_option big_endian (msg_mem msg) (subs m) f)
      as [o ->].
    twin_step. destruct a; [|twin_step].
    now apply field_twin. }
  intros u1 u2 chf _ Ef1 Ef2 Pu.
  intros a1 a2 H1 H2. inv_Ok H1. inv_Ok H2.
  pose proof (extends_trans _ _ _ _ _ (extends_trans _ _ _ _ _ Eu1 Ee1) Ef1) as X1.
  pose proof (extends_trans _ _ _ _ _ (extends_trans _ _ _ _ _ Eu2 Ee2) Ef2) as X2.
  split.
  - unfold same_size. cbn [snd].
    rewrite (extends_size e1 u1 _ (proj1 P) X1).
    rewrite (extends_size e2 u2 _ (proj1 (proj2 P)) X2). reflexivity.
  - cbn [fst]. exists []. destruct Pu as (Wu1 & Wu2 & _).
    split; now apply extends_refl.
Qed.

End TwinPass.

(** Two runs of the message emitter on one message, from any two buffers. *)
Lemma encode_message_twin (big_endian : bool) (layouts : list upb_msglayout)
  (fuel : nat) :
  forall e1 e2 msg m, pair_ok e1 e2 ->
    twin_gen fst same_size e1 e2
      (encode_message_impl big_endian layouts fuel e1 msg m)
      (encode_message_impl big_endian layouts fuel e2 msg m).
Proof.
  induction fuel as [|n IH]; intros e1 e2 msg m P.
  - cbn [encode_message_impl]. intros a1 a2 H1. discriminate.
  - cbn [encode_message_impl]. now apply body_twin.
Qed.

(** X20: the bytes [upb_encode_ex] returns are fixed by the message, the
    layout, the byte order of the host and the options DETERMINISTIC and
    SKIPUNKNOWN: two calls that both succeed return the same bytes and the
    same size, whatever their arenas grant and whatever their depth budgets
    are. *)
Theorem output_independent_of_arena (big_endian : bool)
  (layouts : list upb_msglayout) (msg : upb_msg) (l : upb_msglayout)
  (options1 options2 : Z) (arena1 arena2 : upb_alloc)
  (p1 p2 : char_ptr) (size1 size2 : Z) :
  Z.land options1 UPB_ENCODE_DETERMINISTIC
  = Z.land options2 UPB_ENCODE_DETERMINISTIC ->
  Z.land options1 UPB_ENCODE_SKIPUNKNOWN
  = Z.land options2 UPB_ENCODE_SKIPUNKNOWN ->
  upb_encode_ex big_endian layouts msg l options1 arena1 = Ok (p1, size1) ->
  upb_encode_ex big_endian layouts msg l options2 arena2 = Ok (p2, size2) ->
  p1 <> NULL -> p2 <> NULL ->
  p1 = p2 /\ size1 = size2.
Proof.
  intros M1 M2 H1 H2 N1 N2.
  rewrite upb_encode_ex_eq in H1, H2. unfold entry_run, encode_message in H1, H2.
  assert (P : pair_ok (entry_state arena1 options1) (entry_state arena2 options2)).
  { split; [apply wf_entry_state|]. split; [apply wf_entry_state|].
    split; assumption. }
  pose proof (encode_message_twin big_endian layouts (msg_height msg) _ _ msg l P)
    as T.
  destruct (encode_message_impl big_endian layouts (msg_height msg)
              (entry_state arena1 options1) msg l) as [[s1 z1]| | |];
    try discriminate; [|inv_Ok H1; congruence].
  destruct (encode_message_impl big_endian layouts (msg_height msg)
              (entry_state arena2 options2) msg l) as [[s2 z2]| | |];
    try discriminate; [|inv_Ok H2; congruence].
  destruct (T _ _ eq_refl eq_refl) as (_ & c & E1 & E2). cbn [fst] in E1, E2.
  cbv zeta in H1, H2.
  pose proof (extends_size _ _ _ (proj1 P) E1) as L1.
  pose proof (extends_size _ _ _ (proj1 (proj2 P)) E2) as L2.
  assert (W1 : written s1 = map Byte c).
  { rewrite (ext_written _ _ _ E1). apply app_nil_r. }
  assert (W2 : written s2 = map Byte c).
  { rewrite (ext_written _ _ _ E2). apply app_nil_r. }
  assert (S1 : limit (ctx s1) - ptr s1 = Z.of_nat (length c)).
  { rewrite <- L1. unfold entry_state, limit. cbn [ptr ctx buf length]. lia. }
  assert (S2 : limit (ctx s2) - ptr s2 = Z.of_nat (length c)).
  { rewrite <- L2. unfold entry_state, limit. cbn [ptr ctx buf length]. lia. }
  rewrite S1, W1 in H1. rewrite S2, W2 in H2.
  destruct (Z.of_nat (length c) =? 0);
    apply Ok_inj in H1; apply Ok_inj in H2;
    injection H1 as <- <-; injection H2 as <- <-; split; reflexivity.
Qed.

Lemma output_independent_of_arena_witness :
  upb_encode_ex false [] two_fields_msg two_fields_layout 0 always_alloc
  = Ok (buffer_ptr (map Byte [x08; x96; x01; x12; x02; x68; x69]), 7) /\
  upb_encode_ex false [] two_fields_msg two_fields_layout (Z.shiftl 5 16) used_alloc
  = Ok (buffer_ptr (map Byte [x08; x96; x01; x12; x02; x68; x69]), 7).
Proof.
  assert (H1 : upb_encode_ex false [] two_fields_msg two_fields_layout 0 always_alloc
               = Ok (buffer_ptr (map Byte [x08; x96; x01; x12; x02; x68; x69]), 7))
    by (vm_compute; reflexivity).
  split; [exact H1|].
  destruct (upb_encode_ex false [] two_fields_msg two_fields_layout
              (Z.shiftl 5 16) used_alloc) as [[p2 size2]| | |] eqn:H2;
    try (vm_compute in H2; discriminate).
  destruct (output_independent_of_arena false [] two_fields_msg two_fields_layout
              0 (Z.shiftl 5 16) always_alloc used_alloc _ p2 _ size2
              eq_refl eq_refl H1 H2) as [<- <-].
  - discriminate.
  - intros ->. vm_compute in H2. discriminate.
  - reflexivity.
Defined.
(* ================================================================== *)
(** * The layout generator: field order and the dense prefix *)

Lemma number_insert_perm (x : Z) (l : list Z) :
  Permutation (number_insert x l) (x :: l).
Proof.
  induction l as [|y tl IH]; cbn [number_insert]; [reflexivity|].
  destruct (x <? y); [reflexivity|].
  rewrite IH. apply perm_swap.
Qed.

Lemma number_insert_sorted (x : Z) (l : list Z) :
  StronglySorted Z.lt l -> ~ In x l -> StronglySorted Z.lt (number_insert x l).
Proof.
  induction l as [|y tl IH]; cbn [number_insert]; intros S N.
  - constructor; constructor.
  - inversion S as [|? ? S' F]; subst.
    destruct (x <? y) eqn:E.
    + apply Z.ltb_lt in E. constructor; [exact S|].
      constructor; [exact E|].
      eapply Forall_impl; [|exact F]. cbn. intros; lia.
    + apply Z.ltb_ge in E.
      assert (x <> y) by (intros ->; apply N; now left).
      constructor.
      * apply IH; [exact S'|]. intros H'. apply N. now right.
      * apply (Permutation_Forall (Permutation_sym (number_insert_perm x tl))).
        constructor; [lia|exact F].
Qed.

Lemma number_sort_sorted (l : list Z) :
  NoDup l -> StronglySorted Z.lt (number_sort l) /\ Permutation (number_sort l) l.
Proof.
  induction l as [|x tl IH]; cbn [number_sort fold_right]; intros N.
  - split; constructor.
  - inversion N as [|? ? Hx N']; subst.
    destruct (IH N') as [S P]. fold (number_sort tl).
    split.
    + apply number_insert_sorted; [exact S|].
      intros H. apply Hx. eapply Permutation_in; eassumption.
    + rewrite number_insert_perm. now constructor.
Qed.

(** In a strictly ascending list of integers, entries are at least as far
    apart as their indexes. *)
Lemma ascending_gap (l : list Z) :
  StronglySorted Z.lt l ->
  forall i j, (i <= j < length l)%nat ->
    Z.of_nat j - Z.of_nat i <= nth j l 0 - nth i l 0.
Proof.
  induction 1 as [|x tl S IH F]; intros i j Hij; cbn [length] in Hij; [lia|].
  destruct j as [|j]; [assert (i = O) by lia; subst; cbn [nth]; lia|].
  destruct i as [|i].
  - cbn [nth].
    assert (Hin : In (nth 0 tl 0) tl) by (apply nth_In; lia).
    pose proof (proj1 (Forall_forall _ _) F _ Hin) as Hlt.
    specialize (IH O j ltac:(lia)). lia.
  - cbn [nth]. specialize (IH i j ltac:(lia)). lia.
Qed.

Lemma ascending_floor (l : list Z) :
  StronglySorted Z.lt l -> (forall n, In n l -> 1 <= n) ->
  forall i, (i < length l)%nat -> Z.of_nat i + 1 <= nth i l 0.
Proof.
  intros S P i Hi.
  pose proof (ascending_gap l S O i ltac:(lia)) as G.
  assert (H0 : 1 <= nth 0 l 0) by (apply P, nth_In; lia).
  lia.
Qed.

(** The state of the [dense_below] loop before round [k]. *)
Lemma dense_below_rounds (order : list Z) :
  StronglySorted Z.lt order -> (forall n, In n order -> 1 <= n) ->
  forall (m k : nat) (d : Z),
    (k + m = length order)%nat ->
    0 <= d <= 255 /\ d <= Z.of_nat k /\
    (forall i, (Z.of_nat i < d) -> nth i order 0 = Z.of_nat i + 1) /\
    (d = 255 \/ d = Z.of_nat k \/ nth (Z.to_nat d) order 0 <> d + 1) ->
    let d' := fold_left (dense_below_step order) (seq k m) d in
    0 <= d' <= 255 /\ d' <= Z.of_nat (k + m) /\
    (forall i, (Z.of_nat i < d') -> nth i order 0 = Z.of_nat i + 1) /\
    (d' = 255 \/ d' = Z.of_nat (k + m) \/ nth (Z.to_nat d') order 0 <> d' + 1).
Proof.
  intros Hs P. induction m as [|m IH]; intros k d Hk Inv; cbn [seq fold_left].
  - rewrite Nat.add_0_r. exact Inv.
  - replace (k + S m)%nat with (S k + m)%nat by lia.
    apply IH; [lia|].
    destruct Inv as (R & Le & Pre & Max).
    unfold dense_below_step, dense_below_max.
    destruct ((Z.of_nat k <? 255) && (nth k order 0 =? Z.of_nat k + 1)
              && ((k =? 0)%nat || (nth (k - 1) order 0 =? Z.of_nat k))) eqn:E.
    + apply andb_true_iff in E. destruct E as [E _].
      apply andb_true_iff in E. destruct E as [E1 E2].
      apply Z.ltb_lt in E1. apply Z.eqb_eq in E2.
      change (2 ^ 8) with 256. rewrite Z.mod_small by lia.
      split; [lia|]. split; [lia|]. split; [|right; left; lia].
      intros i Hi.
      pose proof (ascending_gap order Hs i k ltac:(lia)) as G.
      pose proof (ascending_floor order Hs P i ltac:(lia)) as Fl.
      lia.
    + split; [exact R|]. split; [lia|]. split; [exact Pre|].
      destruct Max as [M|[M|M]]; [now left| |now right; right].
      subst d.
      apply andb_false_iff in E. destruct E as [E|E].
      * apply andb_false_iff in E. destruct E as [E|E].
        -- apply Z.ltb_ge in E. left. lia.
        -- apply Z.eqb_neq in E. right. right.
           now rewrite Nat2Z.id.
      * apply orb_false_iff in E. destruct E as [E0 E].
        apply Nat.eqb_neq in E0. apply Z.eqb_neq in E.
        right. right. rewrite Nat2Z.id. intros Hn.
        pose proof (ascending_gap order Hs (k - 1) k ltac:(lia)) as G.
        pose proof (ascending_floor order Hs P (k - 1)%nat ltac:(lia)) as Fl.
        lia.
Qed.

(** X21: for a message whose fields have distinct positive numbers,
    [dense_below] as [WriteMessage] computes it over [FieldNumberOrder] is
    the largest [d <= 255] such that the message has the fields 1 to [d];
    the field numbered [n <= d] is entry [n - 1] of the fields array. *)
Theorem dense_below_prefix (fields : list Z) :
  NoDup fields -> (forall n, In n fields -> 1 <= n) ->
  let order := FieldNumberOrder fields in
  let d := dense_below_loop order in
  0 <= d <= 255 /\
  (forall n, 1 <= n <= d ->
     In n fields /\ nth_error order (Z.to_nat (n - 1)) = Some n) /\
  (d = 255 \/ ~ In (d + 1) fields).
Proof.
  intros N P order d.
  destruct (number_sort_sorted fields N) as [S Perm].
  fold (FieldNumberOrder fields) in S, Perm. fold order in S, Perm.
  assert (P' : forall n, In n order -> 1 <= n).
  { intros n H. apply P. eapply Permutation_in; eassumption. }
  destruct (dense_below_rounds order S P' (length order) O 0 eq_refl) as (R & Le & Pre & Max).
  { split; [lia|]. split; [lia|]. split; [intros; lia|]. right. now left. }
  fold (dense_below_loop order) in R, Le, Pre, Max. fold d in R, Le, Pre, Max.
  cbn [Nat.add] in Le, Max.
  split; [exact R|]. split.
  - intros n Hn.
    assert (Hi : (Z.to_nat (n - 1) < length order)%nat) by lia.
    assert (Hnth : nth (Z.to_nat (n - 1)) order 0 = n).
    { rewrite Pre; lia. }
    split.
    + eapply Permutation_in; [exact Perm|].
      rewrite <- Hnth. apply nth_In. exact Hi.
    + rewrite (nth_error_nth' order 0 Hi). now rewrite Hnth.
  - destruct Max as [M|M]; [now left|]. right. intros H.
    apply (Permutation_in _ (Permutation_sym Perm)) in H.
    destruct (In_nth order (d + 1) 0 H) as (j & Hj & Hnj).
    pose proof (ascending_floor order S P' j Hj) as Fl.
    assert (Hjd : Z.of_nat j <= d) by lia.
    assert (Hjeq : Z.of_nat j = d).
    { destruct (Z.eq_dec (Z.of_nat j) d) as [|Hne]; [assumption|].
      rewrite Pre in Hnj by lia. lia. }
    destruct M as [M|M]; [lia|].
    apply M. rewrite <- Hjeq, Nat2Z.id. lia.
Qed.

Lemma dense_below_prefix_witness :
  dense_below_loop (FieldNumberOrder [3; 1; 5; 2]) = 3 /\
  FieldNumberOrder [3; 1; 5; 2] = [1; 2; 3; 5] /\
  (dense_below_loop (FieldNumberOrder [3; 1; 5; 2]) = 255 \/
   ~ In (dense_below_loop (FieldNumberOrder [3; 1; 5; 2]) + 1) [3; 1; 5; 2]).
Proof.
  split; [reflexivity|]. split; [reflexivity|].
  apply (dense_below_prefix [3; 1; 5; 2]).
  - repeat constructor; cbn [In]; lia.
  - cbn [In]. intros n H. lia.
Defined.
(* ================================================================== *)
(** * The layout generator: sub-message arrays *)

Section SubmessageProofs.

Context {FieldDescriptor Descriptor : Type}.
Variable message_type : FieldDescriptor -> Descriptor.
Variable Descriptor_eqb : Descriptor -> Descriptor -> bool.
Hypothesis Descriptor_eqb_eq : forall a b, Descriptor_eqb a b = true <-> a = b.

Lemma indexes_find_In (seen : list FieldDescriptor)
  (st : SubmsgArray Descriptor * Z) (d : Descriptor) :
  submsgs_inv message_type Descriptor_eqb seen st ->
  (indexes_find Descriptor_eqb (indexes_ (fst st)) d = None <->
   ~ In d (submsgs_ (fst st))).
Proof.
  intros (_ & _ & I3 & _). split.
  - intros Hn Hin. apply In_nth_error in Hin. destruct Hin as [n Hn'].
    assert (H : indexes_find Descriptor_eqb (indexes_ (fst st)) d
                = Some (Z.of_nat n)).
    { apply I3. split; [lia|]. now rewrite Nat2Z.id. }
    congruence.
  - intros Hn.
    destruct (indexes_find Descriptor_eqb (indexes_ (fst st)) d) as [j|] eqn:E;
      [|reflexivity].
    apply I3 in E. destruct E as [_ E]. apply nth_error_In in E. contradiction.
Qed.

Lemma submsgs_inv_step (seen : list FieldDescriptor)
  (st : SubmsgArray Descriptor * Z) (f : FieldDescriptor) :
  submsgs_inv message_type Descriptor_eqb seen st ->
  submsgs_inv message_type Descriptor_eqb (seen ++ [f]) (SubmsgArray_step message_type Descriptor_eqb st f).
Proof.
  intros Inv. pose proof (indexes_find_In seen st (message_type f) Inv) as Hfind.
  destruct Inv as (I1 & I2 & I3 & I4).
  unfold SubmsgArray_step.
  destruct (indexes_find Descriptor_eqb (indexes_ (fst st)) (message_type f))
    as [j|] eqn:E.
  - split; [exact I1|]. split; [exact I2|]. split; [exact I3|].
    intros d. rewrite I4. split.
    + intros (g & Hg & Hd). exists g. split; [apply in_or_app; now left|exact Hd].
    + intros (g & Hg & Hd). apply in_app_or in Hg. destruct Hg as [Hg|[<-|[]]].
      * now exists g.
      * apply I4. apply I3 in E. destruct E as [_ E]. apply nth_error_In in E.
        subst d. exact E.
  - assert (Hnot : ~ In (message_type f) (submsgs_ (fst st))) by now apply Hfind.
    unfold submsgs_inv. cbn [fst snd submsgs_ indexes_].
    split; [rewrite length_app, I1; cbn [length]; lia|].
    split.
    { apply NoDup_app; [exact I2|repeat constructor; intros []|].
      intros x Hx [<-|[]]. contradiction. }
    split.
    + intros d j. unfold indexes_find. cbn [find fst].
      destruct (Descriptor_eqb (message_type f) d) eqn:Ed.
      * apply Descriptor_eqb_eq in Ed. subst d. cbn [option_map snd].
        split.
        -- intros H. injection H as <-. split; [lia|].
           rewrite I1, Nat2Z.id, nth_error_app2, Nat.sub_diag by lia.
           reflexivity.
        -- intros [Hj Hn]. f_equal.
           destruct (Nat.lt_ge_cases (Z.to_nat j) (length (submsgs_ (fst st))))
             as [Hlt|Hge].
           ++ rewrite nth_error_app1 in Hn by exact Hlt.
              apply nth_error_In in Hn. contradiction.
           ++ assert (Hlen : (Z.to_nat j < length (submsgs_ (fst st) ++ [message_type f]))%nat).
              { apply nth_error_Some. congruence. }
              rewrite length_app in Hlen. cbn [length] in Hlen. lia.
      * fold (indexes_find Descriptor_eqb (indexes_ (fst st)) d).
        rewrite I3. split.
        -- intros [Hj Hn]. split; [exact Hj|].
           rewrite nth_error_app1; [exact Hn|].
           apply nth_error_Some. congruence.
        -- intros [Hj Hn]. split; [exact Hj|].
           destruct (Nat.lt_ge_cases (Z.to_nat j) (length (submsgs_ (fst st))))
             as [Hlt|Hge].
           ++ now rewrite nth_error_app1 in Hn by exact Hlt.
           ++ rewrite nth_error_app2 in Hn by exact Hge.
              destruct (Z.to_nat j - length (submsgs_ (fst st)))%nat as [|n].
              ** cbn [nth_error] in Hn. injection Hn as Hn.
                 apply Descriptor_eqb_eq in Hn. congruence.
              ** cbn [nth_error] in Hn. destruct n; discriminate.
    + intros d. rewrite in_app_iff, I4. cbn [In]. split.
      * intros [(g & Hg & Hd)|[<-|[]]].
        -- exists g. split; [apply in_or_app; now left|exact Hd].
        -- exists f. split; [apply in_or_app; right; now left|reflexivity].
      * intros (g & Hg & Hd). apply in_app_or in Hg. destruct Hg as [Hg|[<-|[]]].
        -- left. now exists g.
        -- right. now left.
Qed.

Lemma submsgs_inv_fold (l seen : list FieldDescriptor)
  (st : SubmsgArray Descriptor * Z) :
  submsgs_inv message_type Descriptor_eqb seen st ->
  submsgs_inv message_type Descriptor_eqb (seen ++ l)
    (fold_left (SubmsgArray_step message_type Descriptor_eqb) l st).
Proof.
  revert seen st. induction l as [|f l IH]; intros seen st Inv; cbn [fold_left].
  - now rewrite app_nil_r.
  - replace (seen ++ f :: l) with ((seen ++ [f]) ++ l)
      by (rewrite <- app_assoc; reflexivity).
    apply IH. now apply submsgs_inv_step.
Qed.

Lemma submsgs_inv_new (sorted_submsgs : list FieldDescriptor) :
  submsgs_inv message_type Descriptor_eqb sorted_submsgs
    (fold_left (SubmsgArray_step message_type Descriptor_eqb) sorted_submsgs
       ({| submsgs_ := []; indexes_ := [] |}, 0)).
Proof.
  apply (submsgs_inv_fold sorted_submsgs []).
  unfold submsgs_inv. cbn [fst snd submsgs_ indexes_ length].
  split; [reflexivity|]. split; [constructor|]. split.
  - intros d j. unfold indexes_find. cbn [find option_map]. split; [discriminate|].
    intros [_ H]. destruct (Z.to_nat j); discriminate.
  - intros d. split; [intros []|intros (f & [] & _)].
Qed.

End SubmessageProofs.

(** X22: the array [SubmsgArray] builds holds every sub-message type of the
    fields it is given once, and no other; [GetIndex] of each of these fields
    is the place of the field's type in the array, so the [submsg_index]
    written for a field selects the layout of its type.  For a field whose
    type is not in the array the assertion of [GetIndex] fails. *)
Theorem submsg_index_resolves {FieldDescriptor Descriptor : Type}
  (message_type : FieldDescriptor -> Descriptor)
  (Descriptor_eqb : Descriptor -> Descriptor -> bool)
  (sorted_submsgs : list FieldDescriptor) :
  (forall a b, Descriptor_eqb a b = true <-> a = b) ->
  let arr := SubmsgArray_new message_type Descriptor_eqb sorted_submsgs in
  NoDup (submsgs_ arr) /\
  (forall d, In d (submsgs_ arr) <->
             exists f, In f sorted_submsgs /\ message_type f = d) /\
  (forall f, In f sorted_submsgs ->
     exists i, GetIndex message_type Descriptor_eqb arr f = Some i /\
               0 <= i < Z.of_nat (length (submsgs_ arr)) /\
               nth_error (submsgs_ arr) (Z.to_nat i) = Some (message_type f)) /\
  (forall f, ~ In (message_type f) (submsgs_ arr) ->
     GetIndex message_type Descriptor_eqb arr f = None).
Proof.
  intros Heq arr.
  pose proof (submsgs_inv_new message_type Descriptor_eqb Heq sorted_submsgs) as Inv.
  set (st := fold_left (SubmsgArray_step message_type Descriptor_eqb) sorted_submsgs
               ({| submsgs_ := []; indexes_ := [] |}, 0)) in Inv.
  assert (Hfind : forall d,
            indexes_find Descriptor_eqb (indexes_ arr) d = None <->
            ~ In d (submsgs_ arr)).
  { intros d. exact (indexes_find_In message_type Descriptor_eqb sorted_submsgs st d Inv). }
  destruct Inv as (I1 & I2 & I3 & I4).
  change (fst st) with arr in I1, I2, I3, I4.
  split; [exact I2|]. split; [exact I4|]. split.
  - intros f Hf. unfold GetIndex.
    destruct (indexes_find Descriptor_eqb (indexes_ arr) (message_type f))
      as [i|] eqn:E.
    + exists i. split; [reflexivity|]. apply I3 in E. destruct E as [Hi E].
      split; [|exact E].
      assert (Z.to_nat i < length (submsgs_ arr))%nat
        by (apply nth_error_Some; congruence).
      lia.
    + exfalso. apply Hfind in E. apply E, I4. now exists f.
  - intros f Hn. unfold GetIndex. now apply Hfind.
Qed.

Lemma submsg_index_resolves_witness :
  let arr := SubmsgArray_new (fun f : Z * Z => snd f) Z.eqb [(1, 7); (2, 9); (3, 7)] in
  submsgs_ arr = [7; 9] /\
  GetIndex (fun f : Z * Z => snd f) Z.eqb arr (3, 7) = Some 0 /\
  NoDup (submsgs_ arr).
Proof.
  split; [reflexivity|]. split; [reflexivity|].
  apply (submsg_index_resolves (fun f : Z * Z => snd f) Z.eqb
           [(1, 7); (2, 9); (3, 7)] Z.eqb_eq).
Defined.
(* ================================================================== *)
(** * The layout generator: table slots *)

Lemma MakeTag_value (n w : Z) :
  1 <= n < 2 ^ 29 -> 0 <= w < 8 -> MakeTag n w = 8 * n + w.
Proof.
  intros Hn Hw. unfold MakeTag, u32.
  assert (Hl : Z.land (Z.shiftl n 3) w = 0).
  { apply Z.bits_inj'. intros i Hi. rewrite Z.land_spec, Z.bits_0.
    destruct (Z.lt_ge_cases i 3) as [Hlt|Hge].
    - rewrite Z.shiftl_spec_low by exact Hlt. reflexivity.
    - assert (Hwi : Z.testbit w i = false).
      { destruct (Z.eq_dec w 0) as [->|Hw0]; [apply Z.bits_0|].
        apply Z.bits_above_log2; [lia|].
        assert (Z.log2 w < 3) by (apply Z.log2_lt_pow2; lia). lia. }
      rewrite Hwi. apply andb_false_r. }
  rewrite <- Z.lxor_lor by exact Hl.
  rewrite <- Z.add_nocarry_lxor by exact Hl.
  rewrite Z.shiftl_mul_pow2 by lia. change (2 ^ 3) with 8.
  rewrite Z.mod_small; lia.
Qed.

Lemma base128_one (v : Z) : 0 <= v < 128 -> base128 v = [byte_of_Z v].
Proof.
  intros H. unfold base128. rewrite base128_length_small by lia.
  cbn [base128_groups]. now rewrite Z.mod_small by lia.
Qed.

Lemma base128_two (v : Z) :
  128 <= v < 16384 ->
  base128 v = [byte_of_Z (128 + v mod 128); byte_of_Z (v / 128)].
Proof.
  intros H. unfold base128. rewrite base128_length_step by lia.
  assert (Hq : 0 <= v / 128 < 128)
    by (split; [apply Z.div_pos; lia|apply Z.div_lt_upper_bound; lia]).
  rewrite base128_length_small by lia.
  cbn [base128_groups]. now rewrite (Z.mod_small (v / 128)) by lia.
Qed.

Lemma base128_three (v : Z) :
  16384 <= v ->
  exists b0 b1 b2 rest,
    base128 v = b0 :: b1 :: b2 :: rest /\
    128 <= Z_of_byte b0 /\ 1 <= Z_of_byte b2.
Proof.
  intros H. unfold base128. rewrite base128_length_step by lia.
  assert (Hq : 128 <= v / 128) by (apply Z.div_le_lower_bound; lia).
  rewrite (base128_length_step (v / 128)) by lia.
  set (u := v / 128 / 128).
  assert (Hu : 1 <= u) by (apply Z.div_le_lower_bound; lia).
  pose proof (base128_length_bound u ltac:(lia)) as Hb.
  remember (base128_length u) as k eqn:Hk.
  destruct k as [|k]; [unfold base128_length in Hk; lia|].
  change (base128_groups (S (S (S k))) v)
    with (byte_of_Z (128 + v mod 128)
          :: byte_of_Z (128 + (v / 128) mod 128)
          :: base128_groups (S k) u).
  pose proof (Z.mod_pos_bound v 128 ltac:(lia)) as Hm.
  assert (H0 : 128 <= Z_of_byte (byte_of_Z (128 + v mod 128))).
  { rewrite Z_of_byte_of_Z, Z.mod_small; lia. }
  destruct k as [|k].
  - cbn [base128_groups]. do 4 eexists. split; [reflexivity|].
    split; [exact H0|].
    change (128 ^ Z.of_nat 1) with 128 in Hb.
    rewrite Z_of_byte_of_Z, (Z.mod_small u 128), Z.mod_small; lia.
  - change (base128_groups (S (S k)) u)
      with (byte_of_Z (128 + u mod 128) :: base128_groups (S k) (u / 128)).
    do 4 eexists. split; [reflexivity|]. split; [exact H0|].
    pose proof (Z.mod_pos_bound u 128 ltac:(lia)).
    rewrite Z_of_byte_of_Z, Z.mod_small; lia.
Qed.

Lemma le_value_app (a b : list byte) :
  le_value (a ++ b) = le_value a + 256 ^ Z.of_nat (length a) * le_value b.
Proof.
  induction a as [|x a IH]; cbn [app le_value length].
  - change (256 ^ Z.of_nat 0) with 1. lia.
  - rewrite IH, Nat2Z.inj_succ, Z.pow_succ_r by lia. lia.
Qed.

Lemma host_value_nonneg (big_endian : bool) (bs : list byte) :
  0 <= host_value big_endian bs.
Proof.
  unfold host_value. destruct big_endian; apply le_value_range.
Qed.

Lemma slot_bits (x : Z) : 0 <= x -> Z.shiftr (Z.land x 248) 3 = (x / 8) mod 32.
Proof.
  intros H. rewrite Z.shiftr_land. change (Z.shiftr 248 3) with (Z.ones 5).
  rewrite Z.land_ones by lia. rewrite Z.shiftr_div_pow2 by lia. reflexivity.
Qed.

(** Whatever the field, its slot is -1 or one of 0 to 31. *)
Lemma GetTableSlot_range {FieldDescriptor : Type}
  (number WireTypeForField : FieldDescriptor -> Z) (big_endian : bool)
  (field : FieldDescriptor) :
  -1 <= GetTableSlot number WireTypeForField big_endian field < 32.
Proof.
  unfold GetTableSlot. cbv zeta.
  set (tag := GetEncodedTag number WireTypeForField big_endian field).
  assert (0 <= tag) by apply host_value_nonneg.
  destruct (32767 <? tag); [lia|].
  rewrite slot_bits by assumption.
  pose proof (Z.mod_pos_bound (tag / 8) 32 ltac:(lia)). lia.
Qed.

(** The first byte of a tag's varint is at least 8. *)
Lemma tag_bytes_shape (v : Z) :
  8 <= v ->
  exists b0 rest,
    WriteVarint32ToArray v (repeat x00 10) = b0 :: rest /\
    8 <= Z_of_byte b0 /\ (9 <= length rest)%nat.
Proof.
  intros H. unfold WriteVarint32ToArray.
  assert (Hlen : forall bs : list byte,
            (9 <= length (bs ++ skipn (S (length bs)) (repeat x00 10)))%nat).
  { intros bs. rewrite length_app, length_skipn, repeat_length. lia. }
  destruct (Z.lt_ge_cases v 128) as [H1|H1].
  - rewrite base128_one by lia. cbn [length app].
    do 2 eexists. split; [reflexivity|]. split; [|exact (Hlen [])].
    rewrite Z_of_byte_of_Z, Z.mod_small; lia.
  - destruct (Z.lt_ge_cases v 16384) as [H2|H2].
    + rewrite base128_two by lia. cbn [length app].
      do 2 eexists. split; [reflexivity|]. split; [|exact (Hlen [_])].
      pose proof (Z.mod_pos_bound v 128 ltac:(lia)).
      rewrite Z_of_byte_of_Z, Z.mod_small; lia.
    + destruct (base128_three v H2) as (b0 & b1 & b2 & rest & -> & Hb0 & _).
      cbn [length app]. do 2 eexists. split; [reflexivity|].
      split; [lia|exact (Hlen (b1 :: b2 :: rest))].
Qed.

(** X23: on a little-endian host [GetTableSlot] gives the fields 1 to 15
    the slot of their number and the fields 16 to 2047 the slot
    [16 + number mod 16], whatever the wire type; a field numbered 2048 or
    more has no slot.  On a big-endian host, where [GetEncodedTag] does not
    swap the bytes, no field has a slot. *)
Theorem table_slot_by_number {FieldDescriptor : Type}
  (number WireTypeForField : FieldDescriptor -> Z) (field : FieldDescriptor) :
  1 <= number field < 2 ^ 29 -> 0 <= WireTypeForField field < 8 ->
  GetTableSlot number WireTypeForField false field
  = (if number field <? 16 then number field
     else if number field <? 2048 then 16 + number field mod 16
     else -1) /\
  GetTableSlot number WireTypeForField true field = -1.
Proof.
  intros Hn Hw. unfold GetTableSlot, GetEncodedTag. cbv zeta.
  rewrite MakeTag_value by assumption.
  set (n := number field) in *. set (w := WireTypeForField field) in *.
  split.
  - unfold host_value, WriteVarint32ToArray.
    destruct (n <? 16) eqn:E1.
    + apply Z.ltb_lt in E1. rewrite base128_one by lia.
      cbn [length app skipn repeat firstn le_value].
      change (Z_of_byte x00) with 0.
      rewrite Z_of_byte_of_Z, Z.mod_small by lia.
      replace (8 * n + w + 256 * (0 + 256 * (0 + 256 * (0 + 256 * (0 + 256 * (0 + 256 * (0 + 256 * (0 + 256 * 0))))))))
        with (8 * n + w) by lia.
      destruct (32767 <? 8 * n + w) eqn:E; [apply Z.ltb_lt in E; lia|].
      rewrite slot_bits by lia.
      replace ((8 * n + w) / 8) with n
        by (apply Z.div_unique with (r := w); lia).
      apply Z.mod_small. lia.
    + apply Z.ltb_ge in E1. destruct (n <? 2048) eqn:E2.
      * apply Z.ltb_lt in E2. rewrite base128_two by lia.
        cbn [length app skipn repeat firstn le_value].
        change (Z_of_byte x00) with 0.
        set (v := 8 * n + w).
        pose proof (Z.mod_pos_bound v 128 ltac:(lia)) as Hm.
        assert (Hq : 0 <= v / 128 < 128)
          by (split; [apply Z.div_pos; lia|apply Z.div_lt_upper_bound; lia]).
        rewrite !Z_of_byte_of_Z.
        rewrite (Z.mod_small (128 + v mod 128)), (Z.mod_small (v / 128)) by lia.
        replace (128 + v mod 128 + 256 * (v / 128 + 256 * (0 + 256 * (0 + 256 * (0 + 256 * (0 + 256 * (0 + 256 * (0 + 256 * 0))))))))
          with (128 + v mod 128 + 256 * (v / 128)) by lia.
        destruct (32767 <? _) eqn:E; [apply Z.ltb_lt in E; lia|].
        rewrite slot_bits by lia. unfold v.
        pose proof (Z.div_mod (8 * n + w) 128 ltac:(lia)) as D1.
        pose proof (Z.div_mod n 16 ltac:(lia)) as D2.
        pose proof (Z.mod_pos_bound n 16 ltac:(lia)) as M2.
        assert (Hv : (8 * n + w) mod 128 = 8 * (n mod 16) + w).
        { symmetry. apply Z.mod_unique with (q := n / 16); lia. }
        rewrite Hv.
        replace (128 + (8 * (n mod 16) + w) + 256 * ((8 * n + w) / 128))
          with (w + (16 + n mod 16 + 32 * ((8 * n + w) / 128)) * 8) by lia.
        rewrite Z.div_add by lia. rewrite (Z.div_small w 8) by lia.
        rewrite Z.add_0_l, (Z.mul_comm 32), Z.mod_add by lia.
        apply Z.mod_small. lia.
      * apply Z.ltb_ge in E2.
        destruct (base128_three (8 * n + w) ltac:(lia))
          as (b0 & b1 & b2 & rest & -> & Hb0 & Hb2).
        cbn [length app].
        set (tl := rest ++ skipn (S (S (S (length rest)))) (repeat x00 10)).
        change (firstn 8 (b0 :: b1 :: b2 :: tl))
          with (b0 :: b1 :: b2 :: firstn 5 tl).
        cbn [le_value].
        pose proof (Z_of_byte_range b0). pose proof (Z_of_byte_range b1).
        pose proof (le_value_range (firstn 5 tl)) as [Hr _].
        destruct (32767 <? _) eqn:E; [reflexivity|]. apply Z.ltb_ge in E. lia.
  - destruct (tag_bytes_shape (8 * n + w) ltac:(lia)) as (b0 & rest & -> & Hb & Hl).
    unfold host_value.
    change (firstn 8 (b0 :: rest)) with (b0 :: firstn 7 rest).
    cbn [rev]. rewrite le_value_app. cbn [le_value].
    rewrite length_rev, length_firstn, Nat.min_l by lia.
    pose proof (le_value_range (rev (firstn 7 rest))) as [Hr _].
    change (256 ^ Z.of_nat 7) with 72057594037927936.
    destruct (32767 <? _) eqn:E; [reflexivity|]. apply Z.ltb_ge in E. lia.
Qed.

Lemma table_slot_by_number_witness :
  GetTableSlot fst snd false (1, 0) = 1 /\
  GetTableSlot fst snd false (100, 2) = 20 /\
  GetTableSlot fst snd false (3000, 0) = -1 /\
  GetTableSlot fst snd true (1, 0) = -1.
Proof.
  pose proof (table_slot_by_number fst snd (100, 2)) as H.
  cbn [fst snd] in H.
  destruct H as [H _]; [lia|lia|].
  split; [reflexivity|]. split; [exact H|]. split; reflexivity.
Defined.
(* ================================================================== *)
(** * The layout generator: the fast-decode table *)

Lemma resize_grow (table : list TableEntry) (size : nat) (value : TableEntry) :
  (length table <= size)%nat ->
  resize table size value = table ++ repeat value (size - length table).
Proof.
  intros H. unfold resize. now rewrite firstn_all2 by exact H.
Qed.

(** The growing loop appends generic entries; with enough rounds the table
    ends longer than [slot], and it is never more than doubled past it. *)
Lemma grow_table_spec (fuel : nat) (slot : Z) :
  forall table,
    0 <= slot ->
    slot < Z.of_nat (length table) + Z.of_nat fuel ->
    (table = [] \/ exists k : nat, length table = (2 ^ k)%nat) ->
    let table' := grow_table fuel slot table in
    (exists n, table' = table ++ repeat fastdecode_generic n) /\
    slot < Z.of_nat (length table') /\
    (exists k : nat, length table' = (2 ^ k)%nat) /\
    (slot < Z.of_nat (length table) -> table' = table) /\
    (Z.of_nat (length table) <= slot ->
     Z.of_nat (length table') <= Z.max 1 (2 * slot)).
Proof.
  induction fuel as [|fuel IH]; intros table Hs Hf Hp; cbn [grow_table].
  - cbv zeta. assert (Hne : table <> []).
    { intros ->. cbn [length] in Hf. lia. }
    destruct Hp as [->|Hp]; [contradiction|].
    split; [exists O; cbn [repeat]; now rewrite app_nil_r|].
    split; [lia|]. split; [exact Hp|]. split; [reflexivity|lia].
  - destruct (Z.of_nat (length table) <=? slot) eqn:E.
    + apply Z.leb_le in E. cbv zeta.
      set (size := Nat.max 1 (length table * 2)).
      assert (Hsz : (length table < size)%nat) by (unfold size; lia).
      rewrite resize_grow by lia.
      set (t1 := table ++ repeat fastdecode_generic (size - length table)).
      assert (Hl1 : length t1 = size).
      { unfold t1. rewrite length_app, repeat_length. lia. }
      assert (Hp1 : exists k : nat, length t1 = (2 ^ k)%nat).
      { rewrite Hl1. unfold size. destruct Hp as [->|[k Hk]].
        - exists O. reflexivity.
        - exists (S k). rewrite Hk. cbn [Nat.pow].
          assert (0 < 2 ^ k)%nat by (apply Nat.neq_0_lt_0, Nat.pow_nonzero; lia).
          lia. }
      destruct (IH t1 Hs ltac:(lia) (or_intror Hp1)) as (Hx & Hlt & Hpw & Hsame & Hmin).
      split.
      { destruct Hx as [n Hn]. exists (size - length table + n)%nat.
        rewrite Hn. unfold t1. now rewrite <- app_assoc, repeat_app. }
      split; [exact Hlt|]. split; [exact Hpw|]. split; [lia|].
      intros _. destruct (Z.lt_ge_cases slot (Z.of_nat (length t1))) as [Hc|Hc].
      * rewrite Hsame by exact Hc. rewrite Hl1. unfold size. lia.
      * now apply Hmin.
    + apply Z.leb_gt in E. cbv zeta.
      assert (Hne : table <> []).
      { intros ->. cbn [length] in E. lia. }
      destruct Hp as [->|Hp]; [contradiction|].
      split; [exists O; cbn [repeat]; now rewrite app_nil_r|].
      split; [lia|]. split; [exact Hp|]. split; [reflexivity|lia].
Qed.

Lemma nth_app_generic (table : list TableEntry) (n i : nat) :
  nth i (table ++ repeat fastdecode_generic n) fastdecode_generic
  = nth i table fastdecode_generic.
Proof.
  destruct (Nat.lt_ge_cases i (length table)) as [H|H].
  - now apply app_nth1.
  - rewrite app_nth2 by exact H. rewrite (nth_overflow table) by exact H.
    apply nth_repeat.
Qed.

Lemma nth_table_set (table : list TableEntry) (slot i : nat) (ent : TableEntry) :
  (slot < length table)%nat ->
  nth i (table_set table slot ent) fastdecode_generic
  = if (i =? slot)%nat then ent else nth i table fastdecode_generic.
Proof.
  intros H. unfold table_set.
  assert (Hf : length (firstn slot table) = slot)
    by (rewrite length_firstn; lia).
  destruct (i =? slot)%nat eqn:E.
  - apply Nat.eqb_eq in E. subst i.
    rewrite app_nth2 by lia. rewrite Hf, Nat.sub_diag. reflexivity.
  - apply Nat.eqb_neq in E.
    destruct (Nat.lt_ge_cases i slot) as [Hlt|Hge].
    + rewrite app_nth1 by lia.
      rewrite <- (firstn_skipn slot table) at 2.
      now rewrite app_nth1 by lia.
    + rewrite app_nth2 by lia. rewrite Hf.
      destruct (i - slot)%nat as [|m] eqn:Em; [lia|]. cbn [nth].
      rewrite <- (firstn_skipn (S slot) table) at 2.
      rewrite app_nth2 by (rewrite length_firstn; lia).
      rewrite length_firstn, Nat.min_l by lia. f_equal. lia.
Qed.

Lemma length_table_set (table : list TableEntry) (slot : nat) (ent : TableEntry) :
  (slot < length table)%nat -> length (table_set table slot ent) = length table.
Proof.
  intros H. unfold table_set.
  rewrite length_app, length_firstn. cbn [length]. rewrite length_skipn. lia.
Qed.

Section FastTableProofs.

Context {FieldDescriptor : Type}.
Variable TryFillTableEntry : FieldDescriptor -> option TableEntry.
Variable slot_of : FieldDescriptor -> Z.

Lemma first_fit_snoc (seen : list FieldDescriptor) (f : FieldDescriptor) (slot : Z) :
  first_fit TryFillTableEntry slot_of (seen ++ [f]) slot
  = match first_fit TryFillTableEntry slot_of seen slot with
    | Some ent => Some ent
    | None => if slot_of f =? slot then TryFillTableEntry f else None
    end.
Proof.
  unfold first_fit. induction seen as [|g seen IH]; cbn [app find].
  - destruct (slot_of f =? slot); cbn [andb]; [|reflexivity].
    destruct (TryFillTableEntry f) eqn:E; [exact E|reflexivity].
  - destruct (slot_of g =? slot); cbn [andb]; [|exact IH].
    destruct (TryFillTableEntry g) eqn:E; [now rewrite E|exact IH].
Qed.

Lemma first_fit_filled (seen : list FieldDescriptor) (slot : Z) (ent : TableEntry) :
  first_fit TryFillTableEntry slot_of seen slot = Some ent ->
  exists f, In f seen /\ slot_of f = slot /\ TryFillTableEntry f = Some ent.
Proof.
  unfold first_fit.
  destruct (find _ seen) as [f|] eqn:E; [|discriminate].
  intros H. apply find_some in E. destruct E as [Hin E].
  apply andb_true_iff in E. destruct E as [E _]. apply Z.eqb_eq in E.
  now exists f.
Qed.

Lemma table_shape_step (seen : list FieldDescriptor) (table : list TableEntry)
  (f : FieldDescriptor) :
  table_shape TryFillTableEntry slot_of seen table ->
  table_shape TryFillTableEntry slot_of (seen ++ [f])
    (FastDecodeTable_step TryFillTableEntry slot_of table f).
Proof.
  intros (Hp & Hc & Hd). unfold FastDecodeTable_step. cbv zeta.
  assert (Hkeep : (slot_of f <? 0) = true \/ TryFillTableEntry f = None ->
                  table_shape TryFillTableEntry slot_of (seen ++ [f]) table).
  { intros Hk. split; [exact Hp|]. split.
    - intros s Hs. rewrite first_fit_snoc.
      destruct (first_fit TryFillTableEntry slot_of seen s) eqn:E.
      + intros _. apply Hc; [exact Hs|congruence].
      + destruct (slot_of f =? s) eqn:Es; [|congruence].
        apply Z.eqb_eq in Es. destruct Hk as [Hk|Hk]; [|congruence].
        apply Z.ltb_lt in Hk. lia.
    - intros Hne. destruct (Hd Hne) as (s & Hs & Hfit & Hle).
      exists s. split; [exact Hs|]. split; [|exact Hle].
      rewrite first_fit_snoc.
      destruct (first_fit TryFillTableEntry slot_of seen s); congruence. }
  destruct (slot_of f <? 0) eqn:E0; [apply Hkeep; now left|].
  apply Z.ltb_ge in E0.
  destruct (TryFillTableEntry f) as [ent|] eqn:Ef; [|apply Hkeep; now right].
  set (s0 := slot_of f) in *.
  destruct (grow_table_spec (S (Z.to_nat s0)) s0 table E0 ltac:(lia) Hp)
    as (Hx & Hlt & Hpw & Hsame & Hmin).
  set (t1 := grow_table (S (Z.to_nat s0)) s0 table) in *.
  assert (Hfit0 : first_fit TryFillTableEntry slot_of (seen ++ [f]) s0 <> None).
  { rewrite first_fit_snoc.
    destruct (first_fit TryFillTableEntry slot_of seen s0); [congruence|].
    unfold s0. rewrite Z.eqb_refl. congruence. }
  assert (Hlen1 : Z.of_nat (length table) <= Z.of_nat (length t1)).
  { destruct Hx as [n ->]. rewrite length_app. lia. }
  assert (Hshape1 : table_shape TryFillTableEntry slot_of (seen ++ [f]) t1).
  { split; [now right|]. split.
    - intros s Hs. rewrite first_fit_snoc.
      destruct (first_fit TryFillTableEntry slot_of seen s) eqn:E.
      + intros _. specialize (Hc s Hs ltac:(congruence)). lia.
      + destruct (slot_of f =? s) eqn:Es; [|congruence].
        apply Z.eqb_eq in Es. fold s0 in Es. subst s. intros _. exact Hlt.
    - intros _.
      destruct (Z.lt_ge_cases s0 (Z.of_nat (length table))) as [Hin|Hout].
      + rewrite (Hsame Hin).
        assert (Hne : table <> []) by (intros ->; cbn [length] in Hin; lia).
        destruct (Hd Hne) as (s & Hs & Hfit & Hle).
        exists s. split; [exact Hs|]. split; [|exact Hle].
        rewrite first_fit_snoc.
        destruct (first_fit TryFillTableEntry slot_of seen s); congruence.
      + exists s0. split; [exact E0|]. split; [exact Hfit0|now apply Hmin]. }
  destruct (negb _); [exact Hshape1|].
  destruct Hshape1 as (Hp1 & Hc1 & Hd1).
  assert (Hl : length (table_set t1 (Z.to_nat s0) ent) = length t1)
    by (apply length_table_set; lia).
  split; [right; rewrite Hl; exact Hpw|]. split.
  - intros s Hs Hfit. rewrite Hl. now apply Hc1.
  - intros _. rewrite Hl. apply Hd1. intros Hnil. rewrite Hnil in Hlt.
    cbn [length] in Hlt. lia.
Qed.

Hypothesis filled_names :
  forall f ent, TryFillTableEntry f = Some ent ->
                fst ent <> "fastdecode_generic"%string.

Lemma table_content_step (seen : list FieldDescriptor) (table : list TableEntry)
  (f : FieldDescriptor) :
  table_shape TryFillTableEntry slot_of seen table ->
  table_content TryFillTableEntry slot_of seen table ->
  table_content TryFillTableEntry slot_of (seen ++ [f])
    (FastDecodeTable_step TryFillTableEntry slot_of table f).
Proof.
  intros (Hp & Hc & Hd) Ha. unfold FastDecodeTable_step. cbv zeta.
  assert (Hkeep : (slot_of f <? 0) = true \/ TryFillTableEntry f = None ->
                  table_content TryFillTableEntry slot_of (seen ++ [f]) table).
  { intros Hk s Hs. rewrite first_fit_snoc, (Ha s Hs).
    destruct (first_fit TryFillTableEntry slot_of seen s); [reflexivity|].
    destruct (slot_of f =? s) eqn:Es; [|reflexivity].
    apply Z.eqb_eq in Es. destruct Hk as [Hk|Hk]; [|now rewrite Hk].
    apply Z.ltb_lt in Hk. lia. }
  destruct (slot_of f <? 0) eqn:E0; [apply Hkeep; now left|].
  apply Z.ltb_ge in E0.
  destruct (TryFillTableEntry f) as [ent|] eqn:Ef; [|apply Hkeep; now right].
  set (s0 := slot_of f) in *.
  destruct (grow_table_spec (S (Z.to_nat s0)) s0 table E0 ltac:(lia) Hp)
    as (Hx & Hlt & Hpw & Hsame & Hmin).
  set (t1 := grow_table (S (Z.to_nat s0)) s0 table) in *.
  assert (Ha1 : forall s, 0 <= s ->
            nth (Z.to_nat s) t1 fastdecode_generic
            = match first_fit TryFillTableEntry slot_of seen s with
              | Some e => e
              | None => fastdecode_generic
              end).
  { intros s Hs. destruct Hx as [n ->]. rewrite nth_app_generic. now apply Ha. }
  destruct (negb _) eqn:En.
  - apply negb_true_iff, String.eqb_neq in En.
    rewrite (Ha1 s0 E0) in En.
    destruct (first_fit TryFillTableEntry slot_of seen s0) as [e|] eqn:E;
      [|cbn [fst fastdecode_generic] in En; congruence].
    intros s Hs. rewrite first_fit_snoc, (Ha1 s Hs).
    destruct (first_fit TryFillTableEntry slot_of seen s) eqn:E'; [reflexivity|].
    destruct (slot_of f =? s) eqn:Es; [|reflexivity].
    apply Z.eqb_eq in Es. fold s0 in Es. subst s. congruence.
  - apply negb_false_iff, String.eqb_eq in En.
    rewrite (Ha1 s0 E0) in En.
    assert (Hnone : first_fit TryFillTableEntry slot_of seen s0 = None).
    { destruct (first_fit TryFillTableEntry slot_of seen s0) as [e|] eqn:E;
        [|reflexivity].
      destruct (first_fit_filled seen s0 e E) as (g & _ & _ & Hg).
      exfalso. exact (filled_names g e Hg En). }
    intros s Hs. rewrite first_fit_snoc, nth_table_set by lia.
    destruct (Z.to_nat s =? Z.to_nat s0)%nat eqn:Es.
    + apply Nat.eqb_eq in Es. assert (s = s0) by lia. subst s.
      rewrite Hnone. unfold s0. now rewrite Z.eqb_refl, Ef.
    + apply Nat.eqb_neq in Es. rewrite (Ha1 s Hs).
      destruct (first_fit TryFillTableEntry slot_of seen s); [reflexivity|].
      destruct (slot_of f =? s) eqn:Es'; [|reflexivity].
      apply Z.eqb_eq in Es'. fold s0 in Es'. congruence.
Qed.

Lemma table_fold (hot seen : list FieldDescriptor) (table : list TableEntry) :
  table_shape TryFillTableEntry slot_of seen table ->
  table_content TryFillTableEntry slot_of seen table ->
  table_shape TryFillTableEntry slot_of (seen ++ hot)
    (fold_left (FastDecodeTable_step TryFillTableEntry slot_of) hot table) /\
  table_content TryFillTableEntry slot_of (seen ++ hot)
    (fold_left (FastDecodeTable_step TryFillTableEntry slot_of) hot table).
Proof.
  revert seen table. induction hot as [|f hot IH]; intros seen table Hs Ha;
    cbn [fold_left].
  - rewrite app_nil_r. now split.
  - replace (seen ++ f :: hot) with ((seen ++ [f]) ++ hot)
      by (rewrite <- app_assoc; reflexivity).
    apply IH; [now apply table_shape_step|now apply table_content_step].
Qed.

End FastTableProofs.

Lemma table_shape_fold {FieldDescriptor : Type}
  (TryFillTableEntry : FieldDescriptor -> option TableEntry)
  (slot_of : FieldDescriptor -> Z) (hot seen : list FieldDescriptor)
  (table : list TableEntry) :
  table_shape TryFillTableEntry slot_of seen table ->
  table_shape TryFillTableEntry slot_of (seen ++ hot)
    (fold_left (FastDecodeTable_step TryFillTableEntry slot_of) hot table).
Proof.
  revert seen table. induction hot as [|f hot IH]; intros seen table Hs;
    cbn [fold_left].
  - now rewrite app_nil_r.
  - replace (seen ++ f :: hot) with ((seen ++ [f]) ++ hot)
      by (rewrite <- app_assoc; reflexivity).
    apply IH. now apply table_shape_step.
Qed.

Lemma table_shape_nil {FieldDescriptor : Type}
  (TryFillTableEntry : FieldDescriptor -> option TableEntry)
  (slot_of : FieldDescriptor -> Z) :
  table_shape TryFillTableEntry slot_of [] [].
Proof.
  split; [now left|]. split.
  - intros s _ H. exfalso. apply H. reflexivity.
  - intros H. now contradiction H.
Qed.

(** X24: in the table [FastDecodeTable] builds, a slot holds the entry of
    the first field in hotness order that has this slot and that
    [TryFillTableEntry] accepts, and the generic entry when there is no such
    field.  The table is empty or a power of two long, longer than every
    slot in use and no longer than the largest of them needs. *)
Theorem fast_table_hottest_first {FieldDescriptor : Type}
  (TryFillTableEntry : FieldDescriptor -> option TableEntry)
  (slot_of : FieldDescriptor -> Z) (hot : list FieldDescriptor) :
  (forall f ent, TryFillTableEntry f = Some ent ->
                 fst ent <> "fastdecode_generic"%string) ->
  let table := FastDecodeTable_of TryFillTableEntry slot_of hot in
  (forall slot, 0 <= slot ->
     nth (Z.to_nat slot) table fastdecode_generic
     = match first_fit TryFillTableEntry slot_of hot slot with
       | Some ent => ent
       | None => fastdecode_generic
       end) /\
  (table = [] \/ exists k : nat, length table = (2 ^ k)%nat) /\
  (forall slot, 0 <= slot ->
     first_fit TryFillTableEntry slot_of hot slot <> None ->
     slot < Z.of_nat (length table)) /\
  (table <> [] ->
   exists slot, 0 <= slot /\
     first_fit TryFillTableEntry slot_of hot slot <> None /\
     Z.of_nat (length table) <= Z.max 1 (2 * slot)).
Proof.
  intros Hn table.
  destruct (table_fold TryFillTableEntry slot_of Hn hot [] [])
    as [(Hp & Hc & Hd) Ha].
  - apply table_shape_nil.
  - intros s Hs. cbn [first_fit find]. now destruct (Z.to_nat s).
  - cbn [app] in *. fold (FastDecodeTable_of TryFillTableEntry slot_of hot) in *.
    fold table in Hp, Hc, Hd, Ha.
    split; [exact Ha|]. split; [exact Hp|]. split; [exact Hc|exact Hd].
Qed.

Lemma fast_table_hottest_first_witness :
  let fill := fun f : Z * Z => Some ("upb_psv4_1bt"%string, snd f) in
  let table := FastDecodeTable_of fill fst [(1, 10); (3, 30); (1, 11)] in
  table = [fastdecode_generic; ("upb_psv4_1bt"%string, 10);
           fastdecode_generic; ("upb_psv4_1bt"%string, 30)] /\
  (table = [] \/ exists k : nat, length table = (2 ^ k)%nat).
Proof.
  split; [reflexivity|].
  apply (fast_table_hottest_first
           (fun f : Z * Z => Some ("upb_psv4_1bt"%string, snd f)) fst
           [(1, 10); (3, 30); (1, 11)]).
  intros f ent H. injection H as <-. cbn [fst]. discriminate.
Defined.
(* ================================================================== *)
(** * The layout generator: the table mask *)

Lemma first_fit_In {FieldDescriptor : Type}
  (TryFillTableEntry : FieldDescriptor -> option TableEntry)
  (slot_of : FieldDescriptor -> Z) (hot : list FieldDescriptor)
  (f : FieldDescriptor) :
  In f hot -> TryFillTableEntry f <> None ->
  first_fit TryFillTableEntry slot_of hot (slot_of f) <> None.
Proof.
  intros Hin Hf. unfold first_fit.
  destruct (find _ hot) as [g|] eqn:E.
  - apply find_some in E. destruct E as [_ E].
    apply andb_true_iff in E. destruct E as [_ E].
    destruct (TryFillTableEntry g); [discriminate|discriminate E].
  - apply (find_none _ _ E) in Hin. cbv beta in Hin.
    rewrite Z.eqb_refl in Hin. cbn [andb] in Hin.
    destruct (TryFillTableEntry f); [discriminate|contradiction].
Qed.

Lemma pow2_le_62 (k : nat) : (2 ^ k <= 62)%nat -> (k <= 5)%nat.
Proof.
  intros H. destruct (Nat.le_gt_cases k 5) as [|Hk]; [assumption|].
  assert (2 ^ 6 <= 2 ^ k)%nat by (apply Nat.pow_le_mono_r; lia).
  change (2 ^ 6)%nat with 64%nat in *. lia.
Qed.

Lemma mask_bits (x : Z) (k : nat) :
  0 <= x ->
  Z.shiftr (Z.land x (8 * (2 ^ Z.of_nat k - 1))) 3 = (x / 8) mod 2 ^ Z.of_nat k.
Proof.
  intros H. rewrite Z.shiftr_land.
  replace (8 * (2 ^ Z.of_nat k - 1)) with (Z.shiftl (Z.ones (Z.of_nat k)) 3).
  - rewrite Z.shiftr_shiftl_l by lia. change (3 - 3) with 0.
    rewrite Z.shiftl_0_r, Z.land_ones by lia.
    now rewrite Z.shiftr_div_pow2 by lia.
  - rewrite Z.shiftl_mul_pow2, Z.ones_equiv by lia. change (2 ^ 3) with 8. lia.
Qed.

(** X25: the table [FastDecodeTable] builds with [GetTableSlot] has at most
    32 entries, so [table_mask], eight times the last index, is not cut by
    its [uint8_t].  A field of the table's input that has a slot and that
    [TryFillTableEntry] accepts has its slot inside the table, and masking
    its encoded tag with [table_mask] and shifting by 3 gives the slot. *)
Theorem table_mask_selects_slot {FieldDescriptor : Type}
  (number WireTypeForField : FieldDescriptor -> Z)
  (TryFillTableEntry : FieldDescriptor -> option TableEntry)
  (big_endian : bool) (hot : list FieldDescriptor) :
  let table :=
    FastDecodeTable number WireTypeForField TryFillTableEntry big_endian hot in
  Z.of_nat (length table) <= 32 /\
  (1 < Z.of_nat (length table) ->
   table_mask table = 8 * (Z.of_nat (length table) - 1)) /\
  forall field,
    In field hot -> TryFillTableEntry field <> None ->
    0 <= GetTableSlot number WireTypeForField big_endian field ->
    GetTableSlot number WireTypeForField big_endian field
      < Z.of_nat (length table) /\
    (1 < Z.of_nat (length table) ->
     Z.shiftr (Z.land (GetEncodedTag number WireTypeForField big_endian field)
                 (table_mask table)) 3
     = GetTableSlot number WireTypeForField big_endian field).
Proof.
  intros table.
  set (slot_of := GetTableSlot number WireTypeForField big_endian).
  pose proof (table_shape_fold TryFillTableEntry slot_of hot [] []
                (table_shape_nil TryFillTableEntry slot_of)) as (Hp & Hc & Hd).
  cbn [app] in Hp, Hc, Hd.
  change (fold_left (FastDecodeTable_step TryFillTableEntry slot_of) hot [])
    with table in Hp, Hc, Hd.
  assert (Hk : table = [] \/
               exists k : nat, (k <= 5)%nat /\
                 Z.of_nat (length table) = 2 ^ Z.of_nat k).
  { destruct Hp as [Hp|[k Hk]]; [now left|]. right.
    assert (Hne : table <> []).
    { intros Hnil. rewrite Hnil in Hk. cbn [length] in Hk.
      pose proof (Nat.pow_nonzero 2 k ltac:(lia)). lia. }
    destruct (Hd Hne) as (s & Hs & Hfit & Hle).
    assert (Hs31 : s < 32).
    { destruct (first_fit TryFillTableEntry slot_of hot s) as [e|] eqn:E;
        [|congruence].
      destruct (first_fit_filled TryFillTableEntry slot_of hot s e E)
        as (g & _ & <- & _).
      apply GetTableSlot_range. }
    exists k. split.
    - apply pow2_le_62. rewrite <- Hk. lia.
    - rewrite Hk, Nat2Z.inj_pow. reflexivity. }
  assert (Hlen : Z.of_nat (length table) <= 32).
  { destruct Hk as [->|(k & Hk5 & ->)]; [cbn [length]; lia|].
    change 32 with (2 ^ 5). apply Z.pow_le_mono_r; lia. }
  assert (Hmask : 1 < Z.of_nat (length table) ->
                  table_mask table = 8 * (Z.of_nat (length table) - 1)).
  { intros H1. unfold table_mask.
    destruct (1 <? Z.of_nat (length table)) eqn:E;
      [|apply Z.ltb_ge in E; lia].
    rewrite Z.shiftl_mul_pow2 by lia. change (2 ^ 3) with 8. change (2 ^ 8) with 256.
    rewrite Z.mod_small; lia. }
  split; [exact Hlen|]. split; [exact Hmask|].
  intros field Hin Hfill Hslot.
  assert (Hin_table : slot_of field < Z.of_nat (length table)).
  { apply Hc; [exact Hslot|]. now apply first_fit_In. }
  split; [exact Hin_table|].
  intros H1. rewrite (Hmask H1).
  destruct Hk as [Hnil|(k & Hk5 & Hk)];
    [rewrite Hnil in H1; cbn [length] in H1; lia|].
  rewrite Hk in *.
  unfold slot_of, GetTableSlot in Hin_table, Hslot |- *. cbv zeta in *.
  set (tag := GetEncodedTag number WireTypeForField big_endian field) in *.
  assert (Htag : 0 <= tag) by apply host_value_nonneg.
  rewrite mask_bits by exact Htag.
  destruct (32767 <? tag); [lia|].
  rewrite slot_bits in * by exact Htag.
  assert (Hdiv : (tag / 8) mod 2 ^ Z.of_nat k = ((tag / 8) mod 32) mod 2 ^ Z.of_nat k).
  { symmetry. apply Z.mod_mod_divide.
    exists (2 ^ (5 - Z.of_nat k)). change 32 with (2 ^ 5).
    rewrite <- Z.pow_add_r by lia. f_equal. lia. }
  rewrite Hdiv. apply Z.mod_small. lia.
Qed.

Lemma table_mask_selects_slot_witness :
  let fill := fun f : Z * Z => Some ("upb_psv4_1bt"%string, fst f) in
  let table := FastDecodeTable fst snd fill false [(1, 0); (3, 2)] in
  length table = 4%nat /\ table_mask table = 24 /\
  GetEncodedTag fst snd false (3, 2) = 26 /\
  Z.of_nat (length table) <= 32.
Proof.
  split; [reflexivity|]. split; [reflexivity|]. split; [reflexivity|].
  apply (table_mask_selects_slot fst snd
           (fun f : Z * Z => Some ("upb_psv4_1bt"%string, fst f)) false
           [(1, 0); (3, 2)]).
Defined.
